(** * Linked binary tree, TreeMap and AVLTreeMap of [Assignment_8_start.py]

    A shallow embedding of the three classes [LinkedBinaryTree], [TreeMap]
    and [AVLTreeMap].  The Python objects live in a store: every [_Node]
    object is a cell of a finite map from node identities to node records,
    a tree object is a record with its own identity, and a [Position] is a
    pair of a container identity and a node identity.  Methods are functions
    in a state-and-exception monad; an exception keeps the mutations that
    happened before it was raised, as in Python.  Loops and recursive
    methods take a recursion budget ([fuel]). *)

From stdpp Require Import base option list sorting gmap strings.
From Stdlib Require Import ZArith Lia.

#[local] Set Warnings "-clear-no-such-hyp".

Definition loc := nat.   (* identity of a _Node object *)
Definition tid := nat.   (* identity of a tree object  *)

(** Exceptions.  [Dangling] and [OutOfFuel] are artefacts of the model (a
    reference to a node that was never created; recursion budget
    exhausted); the others are the Python exceptions of the same name. *)
Inductive exn :=
| TypeError (msg : string)
| ValueError (msg : string)
| KeyError (k : Z)
| AttributeError
| UnboundLocalError
| Dangling
| OutOfFuel.

Inductive Res (A : Type) :=
| Ok (a : A)
| Raise (e : exn).
Arguments Ok {A} a.
Arguments Raise {A} e.

(** The two concrete classes that are modelled.  [AVLTreeMap] inherits
    everything from [TreeMap] and overrides [_Node], [_rotate], [delete]
    and the two balancing hooks. *)
Inductive Class := TreeMapC | AVLTreeMapC.

(** [Position]: [_container] is the tree that made it, [_node] the node. *)
Record Position := mkPos { _container : tid; _node : loc }.

(** [Position.__eq__]: same type and same node object; the container is
    not compared.  Both classes share [TreeMap.Position], and [None] is
    equal to [None] only. *)
Definition pos_eq (p q : option Position) : bool :=
  match p, q with
  | Some p, Some q => Nat.eqb (_node q) (_node p)
  | None, None => true
  | _, _ => false
  end.

Section WithValues.
Context {V : Type}.

(** [MapBase._Item].  Items are kept by value inside the node: two nodes
    reference one [_Item] object only inside [delete], between [_replace]
    and [_delete], and the second holder is unlinked by that [_delete]. *)
Record Item := mkItem { _key : Z; _value : V }.

(** [_Node]; [_balance_factor] is present on [AVLTreeMap._Node] only. *)
Record Node := mkNode {
  _element : Item;
  _parent : option loc;
  _left : option loc;
  _right : option loc;
  _balance_factor : option Z
}.

Record Tree := mkTree {
  ident : tid;
  class : Class;
  _root : option loc;
  _size : Z
}.

Record State := mkState { self : Tree; heap : gmap loc Node }.

(** ** The monad *)

Definition M (A : Type) : Type := State → Res A * State.

Definition ret {A} (a : A) : M A := λ s, (Ok a, s).
Definition raise {A} (e : exn) : M A := λ s, (Raise e, s).
Definition bind {A B} (m : M A) (f : A → M B) : M B :=
  λ s, match m s with
       | (Ok a, s') => f a s'
       | (Raise e, s') => (Raise e, s')
       end.

Notation "'let!' x ':=' m 'in' f" := (bind m (λ x, f))
  (at level 10, x binder, f at level 200).

Definition get_self : M Tree := λ s, (Ok (self s), s).
Definition set_root (r : option loc) : M unit :=
  λ s, (Ok tt, mkState (mkTree (ident (self s)) (class (self s)) r (_size (self s))) (heap s)).
Definition set_size (n : Z) : M unit :=
  λ s, (Ok tt, mkState (mkTree (ident (self s)) (class (self s)) (_root (self s)) n) (heap s)).

(** Attribute access through a reference that may be [None]. *)
Definition deref (o : option loc) : M loc :=
  match o with Some n => ret n | None => raise AttributeError end.

Definition load (n : loc) : M Node :=
  λ s, match heap s !! n with
       | Some nd => (Ok nd, s)
       | None => (Raise Dangling, s)
       end.
Definition store (n : loc) (nd : Node) : M unit :=
  λ s, (Ok tt, mkState (self s) (<[n := nd]> (heap s))).

Definition with_element (nd : Node) (e : Item) : Node :=
  mkNode e (_parent nd) (_left nd) (_right nd) (_balance_factor nd).
Definition with_parent (nd : Node) (p : option loc) : Node :=
  mkNode (_element nd) p (_left nd) (_right nd) (_balance_factor nd).
Definition with_left (nd : Node) (c : option loc) : Node :=
  mkNode (_element nd) (_parent nd) c (_right nd) (_balance_factor nd).
Definition with_right (nd : Node) (c : option loc) : Node :=
  mkNode (_element nd) (_parent nd) (_left nd) c (_balance_factor nd).
Definition with_balance_factor (nd : Node) (b : Z) : Node :=
  mkNode (_element nd) (_parent nd) (_left nd) (_right nd) (Some b).

Definition set_element (n : loc) (e : Item) : M unit :=
  let! nd := load n in store n (with_element nd e).
Definition set_parent (n : loc) (p : option loc) : M unit :=
  let! nd := load n in store n (with_parent nd p).
Definition set_left (n : loc) (c : option loc) : M unit :=
  let! nd := load n in store n (with_left nd c).
Definition set_right (n : loc) (c : option loc) : M unit :=
  let! nd := load n in store n (with_right nd c).
Definition set_balance_factor (n : loc) (b : Z) : M unit :=
  let! nd := load n in store n (with_balance_factor nd b).

(** Reading [_balance_factor]: a plain node has no such slot. *)
Definition get_balance_factor (n : loc) : M Z :=
  let! nd := load n in
  match _balance_factor nd with
  | Some b => ret b
  | None => raise AttributeError
  end.

(** [self._Node(e, parent)]: a new object, with the node class of [self]. *)
Definition new_node (e : Item) (parent : option loc) : M loc :=
  λ s, let l := fresh (dom (heap s)) in
       let bf := match class (self s) with
                 | TreeMapC => None
                 | AVLTreeMapC => Some 0%Z
                 end in
       (Ok l, mkState (self s) (<[l := mkNode e parent None None bf]> (heap s))).

(** ** Generators

    A generator is run to its end: the items it yields, and how it
    finished.  The consumers in this file do not mutate the tree between
    two items. *)
Definition Gen (A : Type) : Type := State → list A * Res unit * State.

Definition gdone {A} : Gen A := λ s, ([], Ok tt, s).
Definition gyield {A} (a : A) (k : Gen A) : Gen A :=
  λ s, let '(l, r, s') := k s in (a :: l, r, s').
Definition glift {A B} (m : M B) (k : B → Gen A) : Gen A :=
  λ s, match m s with
       | (Ok b, s') => k b s'
       | (Raise e, s') => ([], Raise e, s')
       end.
(** [for x in g: yield x], then [k]. *)
Definition gyield_from {A} (g : Gen A) (k : Gen A) : Gen A :=
  λ s, let '(l, r, s1) := g s in
       match r with
       | Ok _ => let '(l2, r2, s2) := k s1 in (l ++ l2, r2, s2)
       | Raise e => (l, Raise e, s1)
       end.
(** Consuming a generator completely inside a method. *)
Definition collect {A} (g : Gen A) : M (list A) :=
  λ s, let '(l, r, s') := g s in
       match r with
       | Ok _ => (Ok l, s')
       | Raise e => (Raise e, s')
       end.

(** ** LinkedBinaryTree *)

Definition _validate (p : option Position) : M loc :=
  match p with
  | None => raise (TypeError "p must be proper Position type")
  | Some p =>
      let! t := get_self in
      if negb (Nat.eqb (_container p) (ident t))
      then raise (ValueError "p does not belong to this container")
      else
        let! nd := load (_node p) in
        if bool_decide (_parent nd = Some (_node p))
        then raise (ValueError "p is no longer valid")
        else ret (_node p)
  end.

Definition _make_position (node : option loc) : M (option Position) :=
  let! t := get_self in
  ret (match node with
       | Some n => Some (mkPos (ident t) n)
       | None => None
       end).

Definition __len__ : M Z := let! t := get_self in ret (_size t).

Definition is_empty : M bool := let! n := __len__ in ret (Z.eqb n 0).

Definition root : M (option Position) :=
  let! t := get_self in _make_position (_root t).

Definition parent (p : option Position) : M (option Position) :=
  let! node := _validate p in
  let! nd := load node in
  _make_position (_parent nd).

Definition left (p : option Position) : M (option Position) :=
  let! node := _validate p in
  let! nd := load node in
  _make_position (_left nd).

Definition right (p : option Position) : M (option Position) :=
  let! node := _validate p in
  let! nd := load node in
  _make_position (_right nd).

Definition num_children (p : option Position) : M Z :=
  let! node := _validate p in
  let! nd := load node in
  let count := 0%Z in
  let count := match _left nd with
               | Some _ => (count + 1)%Z
               | None => count
               end in
  let count := match _right nd with
               | Some _ => (count + 1)%Z
               | None => count
               end in
  ret count.

Definition sibling (p : option Position) : M (option Position) :=
  let! par := parent p in
  match par with
  | None => ret None
  | Some _ =>
      let! l := left par in
      if pos_eq p l then right par else left par
  end.

Definition children (p : option Position) : Gen (option Position) :=
  glift (left p) (λ l,
    let rest := glift (right p) (λ r,
                  match r with
                  | Some _ => gyield r gdone
                  | None => gdone
                  end) in
    match l with
    | Some _ => gyield l rest
    | None => rest
    end).

Fixpoint _subtree_inorder (fuel : nat) (p : option Position)
  : Gen (option Position) :=
  match fuel with
  | O => glift (raise OutOfFuel) (λ _ : unit, gdone)
  | S fuel =>
      glift (left p) (λ l,
        let rest :=
          gyield p
            (glift (right p) (λ r,
               match r with
               | Some _ => gyield_from (_subtree_inorder fuel r) gdone
               | None => gdone
               end)) in
        match l with
        | Some _ => gyield_from (_subtree_inorder fuel l) rest
        | None => rest
        end)
  end.

Definition inorder (fuel : nat) : Gen (option Position) :=
  glift is_empty (λ e,
    if negb e
    then glift root (λ r, gyield_from (_subtree_inorder fuel r) gdone)
    else gdone).

Definition positions (fuel : nat) : Gen (option Position) := inorder fuel.

(** [self.root() == p]: no validation of [p]. *)
Definition is_root (p : option Position) : M bool :=
  let! r := root in ret (pos_eq r p).

Definition is_leaf (p : option Position) : M bool :=
  let! n := num_children p in ret (Z.eqb n 0).

Definition mapM {A B} (f : A → M B) : list A → M (list B) :=
  fix go l :=
    match l with
    | [] => ret []
    | a :: l => let! b := f a in let! bs := go l in ret (b :: bs)
    end.

Definition max_list (l : list Z) : Z :=
  match l with
  | [] => 0%Z
  | x :: l => fold_left Z.max l x
  end.

Fixpoint _height2 (fuel : nat) (p : option Position) : M Z :=
  match fuel with
  | O => raise OutOfFuel
  | S fuel =>
      let! lf := is_leaf p in
      if lf then ret 0%Z
      else
        let! cs := collect (children p) in
        let! hs := mapM (_height2 fuel) cs in
        ret (1 + max_list hs)%Z
  end.

Definition height (fuel : nat) (p : option Position) : M Z :=
  let! p := match p with
            | None => root
            | Some _ => ret p
            end in
  _height2 fuel p.

Definition _add_root (e : Item) : M (option Position) :=
  let! t := get_self in
  match _root t with
  | Some _ => raise (ValueError "Root exists")
  | None =>
      let! _ := set_size 1 in
      let! n := new_node e None in
      let! _ := set_root (Some n) in
      let! t := get_self in
      _make_position (_root t)
  end.

Definition _add_left (p : option Position) (e : Item) : M (option Position) :=
  let! node := _validate p in
  let! nd := load node in
  match _left nd with
  | Some _ => raise (ValueError "Left child exists")
  | None =>
      let! t := get_self in
      let! _ := set_size (_size t + 1) in
      let! n := new_node e (Some node) in
      let! _ := set_left node (Some n) in
      let! nd := load node in
      _make_position (_left nd)
  end.

Definition _add_right (p : option Position) (e : Item) : M (option Position) :=
  let! node := _validate p in
  let! nd := load node in
  match _right nd with
  | Some _ => raise (ValueError "Right child exists")
  | None =>
      let! t := get_self in
      let! _ := set_size (_size t + 1) in
      let! n := new_node e (Some node) in
      let! _ := set_right node (Some n) in
      let! nd := load node in
      _make_position (_right nd)
  end.

Definition _replace (p : option Position) (e : Item) : M Item :=
  let! node := _validate p in
  let! nd := load node in
  let old := _element nd in
  let! _ := set_element node e in
  ret old.

(** [_delete].  The local variable [parent] is assigned in the [else]
    branch of the root test only, and the test [node is parent._left] that
    follows is at the indentation of that [if], so it runs in both cases:
    [bound] records whether [parent] has been assigned. *)
Definition _delete (p : option Position) : M Item :=
  let! node := _validate p in
  let! nc := num_children p in
  if Z.eqb nc 2 then raise (ValueError "Position has two children")
  else
    let! nd := load node in
    let child := match _left nd with
                 | Some l => Some l
                 | None => _right nd
                 end in
    let! _ := match child with
              | Some c => set_parent c (_parent nd)
              | None => ret tt
              end in
    let! t := get_self in
    let! bound :=
      (if bool_decide (_root t = Some node)
       then let! _ := set_root child in ret None
       else let! nd := load node in ret (Some (_parent nd))) in
    match bound with
    | None => raise UnboundLocalError
    | Some parent =>
        let! par := deref parent in
        let! pnd := load par in
        let! _ := (if bool_decide (_left pnd = Some node)
                   then set_left par child
                   else set_right par child) in
        let! t := get_self in
        let! _ := set_size (_size t - 1) in
        let! _ := set_parent node (Some node) in
        let! nd := load node in
        ret (_element nd)
    end.

(** ** TreeMap *)

(** [p.element()], [p.key()], [p.value()]: no validation; [p] may be
    [None], which has no such method. *)
Definition element (p : option Position) : M Item :=
  match p with
  | None => raise AttributeError
  | Some p => let! nd := load (_node p) in ret (_element nd)
  end.
Definition key (p : option Position) : M Z :=
  let! e := element p in ret (_key e).
Definition value (p : option Position) : M V :=
  let! e := element p in ret (_value e).

Fixpoint _subtree_search (fuel : nat) (p : option Position) (k : Z)
  : M (option Position) :=
  match fuel with
  | O => raise OutOfFuel
  | S fuel =>
      let! pk := key p in
      if Z.eqb k pk then ret p
      else if Z.ltb k pk then
        let! l := left p in
        match l with
        | Some _ => _subtree_search fuel l k
        | None => ret p
        end
      else
        let! r := right p in
        match r with
        | Some _ => _subtree_search fuel r k
        | None => ret p
        end
  end.

Fixpoint _subtree_first_position (fuel : nat) (walk : option Position)
  : M (option Position) :=
  match fuel with
  | O => raise OutOfFuel
  | S fuel =>
      let! l := left walk in
      match l with
      | Some _ => _subtree_first_position fuel l
      | None => ret walk
      end
  end.

Fixpoint _subtree_last_position (fuel : nat) (walk : option Position)
  : M (option Position) :=
  match fuel with
  | O => raise OutOfFuel
  | S fuel =>
      let! r := right walk in
      match r with
      | Some _ => _subtree_last_position fuel r
      | None => ret walk
      end
  end.

Definition first (fuel : nat) : M (option Position) :=
  let! n := __len__ in
  if Z.ltb 0 n then let! r := root in _subtree_first_position fuel r
  else ret None.

Definition last (fuel : nat) : M (option Position) :=
  let! n := __len__ in
  if Z.ltb 0 n then let! r := root in _subtree_last_position fuel r
  else ret None.

(** The upward loop of [before]: [while above is not None and
    walk == self.left(above)]. *)
Fixpoint before_walk (fuel : nat) (walk above : option Position)
  : M (option Position) :=
  match fuel with
  | O => raise OutOfFuel
  | S fuel =>
      match above with
      | None => ret above
      | Some _ =>
          let! l := left above in
          if pos_eq walk l
          then let! above' := parent above in before_walk fuel above above'
          else ret above
      end
  end.

Definition before (fuel : nat) (p : option Position) : M (option Position) :=
  let! _ := _validate p in
  let! l := left p in
  match l with
  | Some _ => _subtree_last_position fuel l
  | None =>
      let! above := parent p in
      before_walk fuel p above
  end.

Fixpoint after_walk (fuel : nat) (walk above : option Position)
  : M (option Position) :=
  match fuel with
  | O => raise OutOfFuel
  | S fuel =>
      match above with
      | None => ret above
      | Some _ =>
          let! r := right above in
          if pos_eq walk r
          then let! above' := parent above in after_walk fuel above above'
          else ret above
      end
  end.

Definition after (fuel : nat) (p : option Position) : M (option Position) :=
  let! _ := _validate p in
  let! r := right p in
  match r with
  | Some _ => _subtree_first_position fuel r
  | None =>
      let! above := parent p in
      after_walk fuel p above
  end.

(** The access hook is a no-op in both classes. *)
Definition _rebalance_access (p : option Position) : M unit := ret tt.

Definition find_position (fuel : nat) (k : Z) : M (option Position) :=
  let! e := is_empty in
  if e then ret None
  else
    let! r := root in
    let! p := _subtree_search fuel r k in
    let! _ := _rebalance_access p in
    ret p.

Definition _relink (parent : loc) (child : option loc) (make_left_child : bool)
  : M unit :=
  let! _ := (if make_left_child then set_left parent child
             else set_right parent child) in
  match child with
  | Some c => set_parent c (Some parent)
  | None => ret tt
  end.

Definition TreeMap_rotate (p : option Position) : M unit :=
  let! x := match p with
            | Some p => ret (_node p)
            | None => raise AttributeError
            end in
  let! xnd := load x in
  let! y := deref (_parent xnd) in
  let! ynd := load y in
  let z := _parent ynd in
  let! _ := match z with
            | None => let! _ := set_root (Some x) in set_parent x None
            | Some z =>
                let! znd := load z in
                _relink z (Some x) (bool_decide (Some y = _left znd))
            end in
  let! ynd := load y in
  if bool_decide (Some x = _left ynd)
  then
    let! xnd := load x in
    let! _ := _relink y (_right xnd) true in
    _relink x (Some y) false
  else
    let! xnd := load x in
    let! _ := _relink y (_left xnd) false in
    _relink x (Some y) true.

(** The three maintenance routines of [AVLTreeMap] have the body [pass]. *)
Definition update_balance_factor_for_add (p : option Position) : M unit := ret tt.
Definition update_balance_factor_for_delete (p : option Position) : M unit := ret tt.
Definition update_balance_factor_for_rotate (p : option Position) : M unit := ret tt.

Definition AVLTreeMap_rotate (p : option Position) : M unit :=
  let! x := match p with
            | Some p => ret (_node p)
            | None => raise AttributeError
            end in
  let! xnd := load x in
  let! y := deref (_parent xnd) in
  let! ynd := load y in
  let z := _parent ynd in
  let! _ := match z with
            | None => let! _ := set_root (Some x) in set_parent x None
            | Some z =>
                let! znd := load z in
                _relink z (Some x) (bool_decide (Some y = _left znd))
            end in
  let! ynd := load y in
  let! _ :=
    (if bool_decide (Some x = _left ynd)
     then
       let! xnd := load x in
       let! _ := _relink y (_right xnd) true in
       let! _ := _relink x (Some y) false in
       let! yb := get_balance_factor y in
       let! xb := get_balance_factor x in
       let! _ := set_balance_factor y (yb - 1 - Z.max xb 0)%Z in
       let! xb := get_balance_factor x in
       let! yb := get_balance_factor y in
       set_balance_factor x (xb - 1 + Z.min yb 0)%Z
     else
       let! xnd := load x in
       let! _ := _relink y (_left xnd) false in
       let! _ := _relink x (Some y) true in
       let! yb := get_balance_factor y in
       let! xb := get_balance_factor x in
       let! _ := set_balance_factor y (yb + 1 - Z.min xb 0)%Z in
       let! xb := get_balance_factor x in
       let! yb := get_balance_factor y in
       set_balance_factor x (xb + 1 + Z.max yb 0)%Z) in
  update_balance_factor_for_rotate p.

(** [self._rotate(p)]: dispatch on the class of [self]. *)
Definition _rotate (p : option Position) : M unit :=
  let! t := get_self in
  match class t with
  | TreeMapC => TreeMap_rotate p
  | AVLTreeMapC => AVLTreeMap_rotate p
  end.

Definition _restructure (x : option Position) : M (option Position) :=
  let! y := parent x in
  let! z := parent y in
  let! ry := right y in
  let! rz := right z in
  if Bool.eqb (pos_eq x ry) (pos_eq y rz)
  then let! _ := _rotate y in ret y
  else let! _ := _rotate x in let! _ := _rotate x in ret x.

(** ** AVLTreeMap *)

Definition node_of (p : option Position) : M loc :=
  match p with
  | Some p => ret (_node p)
  | None => raise AttributeError
  end.

Definition _isbalanced (p : option Position) : M bool :=
  let! n := node_of p in
  let! b := get_balance_factor n in
  ret (Z.leb (Z.abs b) 1).

Definition _tall_child (p : option Position) (favorleft : bool)
  : M (option Position) :=
  let! n := node_of p in
  let! b := get_balance_factor n in
  if Z.ltb 0 (b + (if favorleft then 1 else 0))
  then left p
  else right p.

Definition _tall_grandchild (p : option Position) : M (option Position) :=
  let! child := _tall_child p false in
  let! l := left p in
  let alignment := pos_eq child l in
  _tall_child child alignment.

Fixpoint _rebalance (fuel : nat) (p : option Position) : M unit :=
  match fuel with
  | O => raise OutOfFuel
  | S fuel =>
      match p with
      | None => ret tt
      | Some _ =>
          let! b := _isbalanced p in
          let! p := (if negb b
                     then let! g := _tall_grandchild p in _restructure g
                     else ret p) in
          let! p := parent p in
          _rebalance fuel p
      end
  end.

(** The hooks: no-ops in [TreeMap], overridden in [AVLTreeMap]. *)
Definition _rebalance_insert (fuel : nat) (p : option Position) : M unit :=
  let! t := get_self in
  match class t with
  | TreeMapC => ret tt
  | AVLTreeMapC =>
      let! _ := update_balance_factor_for_add p in
      _rebalance fuel p
  end.

Definition _rebalance_delete (fuel : nat) (p : option Position) : M unit :=
  let! t := get_self in
  match class t with
  | TreeMapC => ret tt
  | AVLTreeMapC => _rebalance fuel p
  end.

(** [TreeMap.delete]. *)
Definition TreeMap_delete (fuel : nat) (p : option Position) : M unit :=
  let! _ := _validate p in
  let! l := left p in
  let! two := (match l with
               | Some _ => let! r := right p in ret (bool_decide (r ≠ None))
               | None => ret false
               end) in
  let! p := (if two : bool
             then
               let! replacement := _subtree_last_position fuel l in
               let! e := element replacement in
               let! _ := _replace p e in
               ret replacement
             else ret p) in
  let! par := parent p in
  let! _ := _delete p in
  _rebalance_delete fuel par.

(** [AVLTreeMap.delete], a copy of [TreeMap.delete] with the call of
    [update_balance_factor_for_delete] before [_delete]. *)
Definition AVLTreeMap_delete (fuel : nat) (p : option Position) : M unit :=
  let! _ := _validate p in
  let! l := left p in
  let! two := (match l with
               | Some _ => let! r := right p in ret (bool_decide (r ≠ None))
               | None => ret false
               end) in
  let! p := (if two : bool
             then
               let! replacement := _subtree_last_position fuel l in
               let! e := element replacement in
               let! _ := _replace p e in
               ret replacement
             else ret p) in
  let! par := parent p in
  let! _ := update_balance_factor_for_delete p in
  let! _ := _delete p in
  _rebalance_delete fuel par.

(** [self.delete(p)]: dispatch on the class of [self]. *)
Definition delete (fuel : nat) (p : option Position) : M unit :=
  let! t := get_self in
  match class t with
  | TreeMapC => TreeMap_delete fuel p
  | AVLTreeMapC => AVLTreeMap_delete fuel p
  end.

(** ** The map interface of TreeMap *)

Definition __getitem__ (fuel : nat) (k : Z) : M V :=
  let! e := is_empty in
  if e then raise (KeyError k)
  else
    let! r := root in
    let! p := _subtree_search fuel r k in
    let! _ := _rebalance_access p in
    let! pk := key p in
    if negb (Z.eqb k pk) then raise (KeyError k)
    else value p.

(** [__setitem__].  The nodes hold their items by value here: for a key
    that is found, the item with the new value is stored in the node of
    [p].  In the program the item is an object, which after [_replace] in
    [delete] a deprecated node references as well; [ItemObjects] below
    keeps the items as objects, for the statement about this branch. *)
Definition __setitem__ (fuel : nat) (k : Z) (v : V) : M unit :=
  let! e := is_empty in
  let! leaf :=
    (if e then let! leaf := _add_root (mkItem k v) in ret (Some leaf)
     else
       let! r := root in
       let! p := _subtree_search fuel r k in
       let! pk := key p in
       if Z.eqb pk k
       then
         let! n := node_of p in
         let! nd := load n in
         let! _ := set_element n (mkItem (_key (_element nd)) v) in
         let! _ := _rebalance_access p in
         ret None
       else
         let item := mkItem k v in
         let! pk := key p in
         if Z.ltb pk k
         then let! leaf := _add_right p item in ret (Some leaf)
         else let! leaf := _add_left p item in ret (Some leaf)) in
  match leaf with
  | None => ret tt                      (* the early [return] *)
  | Some leaf => _rebalance_insert fuel leaf
  end.

Definition __delitem__ (fuel : nat) (k : Z) : M unit :=
  let! e := is_empty in
  let! found :=
    (if negb e
     then
       let! r := root in
       let! p := _subtree_search fuel r k in
       let! pk := key p in
       if Z.eqb k pk
       then let! _ := delete fuel p in ret true
       else let! _ := _rebalance_access p in ret false
     else ret false) in
  if found : bool then ret tt else raise (KeyError k).

Definition pair_of (p : option Position) : M (Z * V) :=
  let! k := key p in let! v := value p in ret (k, v).

Definition find_min (fuel : nat) : M (option (Z * V)) :=
  let! e := is_empty in
  if e then ret None
  else let! p := first fuel in let! kv := pair_of p in ret (Some kv).

Definition find_max (fuel : nat) : M (option (Z * V)) :=
  let! e := is_empty in
  if e then ret None
  else let! p := last fuel in let! kv := pair_of p in ret (Some kv).

Definition pair_or_none (p : option Position) : M (option (Z * V)) :=
  match p with
  | Some _ => let! kv := pair_of p in ret (Some kv)
  | None => ret None
  end.

Definition find_le (fuel : nat) (k : Z) : M (option (Z * V)) :=
  let! e := is_empty in
  if e then ret None
  else
    let! p := find_position fuel k in
    let! pk := key p in
    let! p := (if Z.ltb k pk then before fuel p else ret p) in
    pair_or_none p.

Definition find_lt (fuel : nat) (k : Z) : M (option (Z * V)) :=
  let! e := is_empty in
  if e then ret None
  else
    let! p := find_position fuel k in
    let! pk := key p in
    let! p := (if negb (Z.ltb pk k) then before fuel p else ret p) in
    pair_or_none p.

Definition find_ge (fuel : nat) (k : Z) : M (option (Z * V)) :=
  let! e := is_empty in
  if e then ret None
  else
    let! p := find_position fuel k in
    let! pk := key p in
    let! p := (if Z.ltb pk k then after fuel p else ret p) in
    pair_or_none p.

Definition find_gt (fuel : nat) (k : Z) : M (option (Z * V)) :=
  let! e := is_empty in
  if e then ret None
  else
    let! p := find_position fuel k in
    let! pk := key p in
    let! p := (if negb (Z.ltb k pk) then after fuel p else ret p) in
    pair_or_none p.

(** The loop of [find_range]: [while p is not None and (stop is None or
    p.key() < stop)]. *)
Fixpoint find_range_loop (fuel inner : nat) (p : option Position)
  (stop : option Z) : Gen (Z * V) :=
  match fuel with
  | O => glift (raise OutOfFuel) (λ _ : unit, gdone)
  | S fuel =>
      match p with
      | None => gdone
      | Some _ =>
          glift (match stop with
                 | None => ret true
                 | Some stop => let! pk := key p in ret (Z.ltb pk stop)
                 end) (λ go,
            if go : bool
            then glift (pair_of p) (λ kv,
                   gyield kv
                     (glift (after inner p) (λ p',
                        find_range_loop fuel inner p' stop)))
            else gdone)
      end
  end.

Definition find_range (fuel : nat) (start stop : option Z) : Gen (Z * V) :=
  glift is_empty (λ e,
    if negb e
    then
      glift (match start with
             | None => first fuel
             | Some start =>
                 let! p := find_position fuel start in
                 let! pk := key p in
                 if Z.ltb pk start then after fuel p else ret p
             end) (λ p, find_range_loop fuel fuel p stop)
    else gdone).

Fixpoint iter_loop (fuel inner : nat) (p : option Position) : Gen Z :=
  match fuel with
  | O => glift (raise OutOfFuel) (λ _ : unit, gdone)
  | S fuel =>
      match p with
      | None => gdone
      | Some _ =>
          glift (key p) (λ k,
            gyield k (glift (after inner p) (λ p', iter_loop fuel inner p')))
      end
  end.

Definition __iter__ (fuel : nat) : Gen Z :=
  glift (first fuel) (λ p, iter_loop fuel fuel p).

(** [iterative_search] (problem 1 of the assignment). *)
Fixpoint iterative_search (fuel : nat) (p : option Position) (k : Z)
  : M (option Position) :=
  match fuel with
  | O => raise OutOfFuel
  | S fuel =>
      let! pk := key p in
      if Z.eqb pk k then ret p
      else
        let! lf := is_leaf p in
        if lf then ret p
        else if Z.ltb k pk then
          let! l := left p in
          match l with
          | Some _ => iterative_search fuel l k
          | None => ret p
          end
        else
          let! r := right p in
          match r with
          | Some _ => iterative_search fuel r k
          | None => ret p
          end
  end.

(** ** Sequences of public operations *)

Inductive op :=
| SetItem (k : Z) (v : V)               (* [t[k] = v] *)
| DelItem (k : Z)                       (* [del t[k]] *)
| DeleteAt (p : option Position).       (* [t.delete(p)] *)

(** A recursion budget that is enough for one operation on [s]. *)
Definition enough (s : State) : nat := S (S (size (heap s))).

Definition apply_op (o : op) : M unit :=
  λ s, match o with
       | SetItem k v => __setitem__ (enough s) k v s
       | DelItem k => __delitem__ (enough s) k s
       | DeleteAt p => delete (enough s) p s
       end.

(** The caller goes on after an exception, with the tree as it is. *)
Definition apply_ops (ops : list op) (s : State) : State :=
  fold_left (λ s o, (apply_op o s).2) ops s.

(** A new, empty tree object (the constructor [__init__]). *)
Definition new_tree (i : tid) (c : Class) : Tree := mkTree i c None 0.
Definition init (i : tid) (c : Class) : State := mkState (new_tree i c) ∅.

(** [[p.key() for p in t.inorder()]]: the keys in the order of the
    in-order traversal. *)
Fixpoint keys_of (ps : list (option Position)) : Gen Z :=
  match ps with
  | [] => gdone
  | p :: ps => glift (key p) (λ k, gyield k (keys_of ps))
  end.

Definition inorder_keys (fuel : nat) : Gen Z :=
  λ s, let '(ps, r, s1) := inorder fuel s in
       let '(ks, r2, s2) := keys_of ps s1 in
       match r2 with
       | Ok _ => (ks, r, s2)
       | Raise e => (ks, Raise e, s2)
       end.

(** ** The shape of a tree, read off the store

    [atree] is the tree of node identities and items that the pointers of a
    store describe; [rep h bf par t] says that the store [h] holds exactly
    this tree below a parent [par], every node carrying the balance factor
    slot [bf]. *)
Inductive atree :=
| Lf
| Br (l : atree) (n : loc) (it : Item) (r : atree).

Definition top (t : atree) : option loc :=
  match t with
  | Lf => None
  | Br _ n _ _ => Some n
  end.

Fixpoint nodes (t : atree) : list loc :=
  match t with
  | Lf => []
  | Br l n _ r => nodes l ++ n :: nodes r
  end.

Fixpoint items (t : atree) : list Item :=
  match t with
  | Lf => []
  | Br l _ it r => items l ++ it :: items r
  end.

Definition keys (t : atree) : list Z := map _key (items t).

Fixpoint depth (t : atree) : nat :=
  match t with
  | Lf => O
  | Br l _ _ r => S (Nat.max (depth l) (depth r))
  end.

Fixpoint rep (h : gmap loc Node) (bf : option Z) (par : option loc)
  (t : atree) : Prop :=
  match t with
  | Lf => True
  | Br l n it r =>
      h !! n = Some (mkNode it par (top l) (top r) bf)
      ∧ rep h bf (Some n) l ∧ rep h bf (Some n) r
  end.

Fixpoint bst (t : atree) : Prop :=
  match t with
  | Lf => True
  | Br l _ it r =>
      bst l ∧ bst r
      ∧ Forall (λ k, (k < _key it)%Z) (keys l)
      ∧ Forall (λ k, (_key it < k)%Z) (keys r)
  end.

(** The balance factor slot of the nodes of a tree of class [c]. *)
Definition bf_of (c : Class) : option Z :=
  match c with
  | TreeMapC => None
  | AVLTreeMapC => Some 0%Z
  end.

(** A node that is not part of the tree is either deprecated (its parent
    is itself) or a former root that [_delete] left behind: no parent, at
    most one child, and that child has no parent either. *)
Definition deprecated (n : loc) (nd : Node) : Prop := _parent nd = Some n.

Definition left_behind (h : gmap loc Node) (nd : Node) : Prop :=
  _parent nd = None
  ∧ (_left nd = None ∨ _right nd = None)
  ∧ ∀ c, _left nd = Some c ∨ _right nd = Some c →
         ∃ cnd, h !! c = Some cnd ∧ _parent cnd = None.

(** The representation invariant of a tree object and its store. *)
Record Inv (s : State) (t : atree) : Prop := mkInv {
  inv_root : _root (self s) = top t;
  inv_rep : rep (heap s) (bf_of (class (self s))) None t;
  inv_nodup : NoDup (nodes t);
  inv_bst : bst t;
  inv_size : (Z.of_nat (length (nodes t)) ≤ _size (self s))%Z;
  inv_rest : ∀ n nd, heap s !! n = Some nd → n ∉ nodes t →
                     deprecated n nd ∨ left_behind (heap s) nd
}.

Abbreviation mkp i n := (Some (mkPos i n)).
Definition pos (i : tid) (o : option loc) : option Position :=
  match o with
  | Some n => mkp i n
  | None => None
  end.

(** The node where [_subtree_search] stops. *)
Fixpoint anchor (t : atree) (k : Z) : option loc :=
  match t with
  | Lf => None
  | Br l n it r =>
      if Z.eqb k (_key it) then Some n
      else if Z.ltb k (_key it)
           then match l with Lf => Some n | Br _ _ _ _ => anchor l k end
           else match r with Lf => Some n | Br _ _ _ _ => anchor r k end
  end.

(** A subtree that hangs below [par] in the store, without sharing. *)
Definition wf (h : gmap loc Node) (bf : option Z) (par : option loc)
  (t : atree) : Prop :=
  rep h bf par t ∧ NoDup (nodes t) ∧ ∀ p, par = Some p → p ∉ nodes t.

(** The tree after [t[k] = v], [nw] being the identity of the node that
    is created when [k] is new. *)
Fixpoint a_insert (nw : loc) (k : Z) (v : V) (t : atree) : atree :=
  match t with
  | Lf => Br Lf nw (mkItem k v) Lf
  | Br l n it r =>
      if Z.eqb k (_key it) then Br l n (mkItem (_key it) v) r
      else if Z.ltb k (_key it) then Br (a_insert nw k v l) n it r
      else Br l n it (a_insert nw k v r)
  end.

(** The item of node [x] replaced by [e]. *)
Fixpoint a_replace (x : loc) (e : Item) (t : atree) : atree :=
  match t with
  | Lf => Lf
  | Br l n it r =>
      if Nat.eqb n x then Br l n e r
      else Br (a_replace x e l) n it (a_replace x e r)
  end.

(** Node [x] taken out, its left child (or else its right child) in its
    place. *)
Fixpoint a_splice (x : loc) (t : atree) : atree :=
  match t with
  | Lf => Lf
  | Br l n it r =>
      if Nat.eqb n x then match l with Lf => r | Br _ _ _ _ => l end
      else Br (a_splice x l) n it (a_splice x r)
  end.

(** The subtree rooted at node [x]. *)
Fixpoint subtree (x : loc) (t : atree) : atree :=
  match t with
  | Lf => Lf
  | Br l n it r =>
      if Nat.eqb n x then t
      else match subtree x l with
           | Lf => subtree x r
           | Br _ _ _ _ as u => u
           end
  end.

(** The last node of the in-order traversal and its item. *)
Fixpoint last_node (t : atree) : option (loc * Item) :=
  match t with
  | Lf => None
  | Br _ n it r =>
      match r with
      | Lf => Some (n, it)
      | Br _ _ _ _ => last_node r
      end
  end.

Fixpoint first_node (t : atree) : option loc :=
  match t with
  | Lf => None
  | Br l n _ _ =>
      match l with
      | Lf => Some n
      | Br _ _ _ _ => first_node l
      end
  end.

(** The tree after [delete] at node [x]. *)
Definition a_delete (x : loc) (t : atree) : atree :=
  match subtree x t with
  | Br (Br _ _ _ _ as l) _ _ (Br _ _ _ _) =>
      match last_node l with
      | Some (m, e) => a_splice m (a_replace x e t)
      | None => t
      end
  | _ => a_splice x t
  end.

(** [node._left if node._left else node._right]. *)
Definition first_child (nd : Node) : option loc :=
  match _left nd with
  | Some l => Some l
  | None => _right nd
  end.

(** The state and the tree after [t[k] = v], for a state that holds the
    tree [t]. *)
Definition setitem_state (s : State) (t : atree) (k : Z) (v : V) : State :=
  let nw := fresh (dom (heap s)) in
  match anchor t k with
  | None =>
      if Z.eqb (_size (self s)) 0
      then mkState (mkTree (ident (self s)) (class (self s)) (Some nw) 1)
             (<[nw := mkNode (mkItem k v) None None None
                        (bf_of (class (self s)))]> (heap s))
      else s
  | Some m =>
      match heap s !! m with
      | None => s
      | Some mnd =>
          if Z.eqb (_key (_element mnd)) k
          then mkState (self s)
                 (<[m := with_element mnd (mkItem (_key (_element mnd)) v)]>
                    (heap s))
          else mkState
                 (mkTree (ident (self s)) (class (self s)) (_root (self s))
                    (_size (self s) + 1))
                 (<[m := if Z.ltb (_key (_element mnd)) k
                         then with_right mnd (Some nw)
                         else with_left mnd (Some nw)]>
                    (<[nw := mkNode (mkItem k v) (Some m) None None
                               (bf_of (class (self s)))]> (heap s)))
      end
  end.

Definition setitem_tree (s : State) (t : atree) (k : Z) (v : V) : atree :=
  let nw := fresh (dom (heap s)) in
  match anchor t k with
  | None =>
      if Z.eqb (_size (self s)) 0 then Br Lf nw (mkItem k v) Lf else t
  | Some m =>
      match heap s !! m with
      | None => t
      | Some mnd =>
          if Z.eqb (_key (_element mnd)) k
          then a_replace m (mkItem (_key (_element mnd)) v) t
          else a_insert nw k v t
      end
  end.

(** What [t[k] = v] returns: the search of a tree object whose size is not
    zero but whose root is [None] fails on [None.key()]. *)
Definition setitem_result (s : State) (t : atree) : Res unit :=
  match t with
  | Lf => if Z.eqb (_size (self s)) 0 then Ok tt else Raise AttributeError
  | Br _ _ _ _ => Ok tt
  end.

(** The count that [num_children] returns for a node. *)
Definition num_children_of (nd : Node) : Z :=
  let count := 0%Z in
  let count := match _left nd with
               | Some _ => (count + 1)%Z
               | None => count
               end in
  match _right nd with
  | Some _ => (count + 1)%Z
  | None => count
  end.

(** The store after [child._parent = node._parent] in [_delete]. *)
Definition unlink_child (h : gmap loc Node) (nd : Node) : gmap loc Node :=
  match first_child nd with
  | Some c =>
      match h !! c with
      | Some cnd => <[c := with_parent cnd (_parent nd)]> h
      | None => h
      end
  | None => h
  end.

(** The states that a program can build: a new tree and any sequence of
    public operations on it. *)
Definition reachable (s : State) : Prop :=
  ∃ i c ops, s = apply_ops ops (init i c).

(** An [AVLTreeMap] state seen as a [TreeMap] state: the class of the tree
    object and the extra slot of its nodes are forgotten. *)
Definition plain_node (nd : Node) : Node :=
  mkNode (_element nd) (_parent nd) (_left nd) (_right nd) None.

Definition plain (s : State) : State :=
  mkState (mkTree (ident (self s)) TreeMapC (_root (self s)) (_size (self s)))
    (plain_node <$> heap s).

(** Every node of the store carries the balance slot its class gives a new
    node. *)
Definition uniform (s : State) : Prop :=
  ∀ n nd, heap s !! n = Some nd →
          _balance_factor nd = bf_of (class (self s)).

(** The insertions [t[k] = v] for the pairs of a list, in order. *)
Definition inserts (kvs : list (Z * V)) : list op :=
  map (λ kv, SetItem kv.1 kv.2) kvs.

(** [[(p.key(), p.value()) for p in t.inorder()]]: the pairs of the map in
    the order of the in-order traversal. *)
Fixpoint pairs_of (ps : list (option Position)) : Gen (Z * V) :=
  match ps with
  | [] => gdone
  | p :: ps => glift (pair_of p) (λ kv, gyield kv (pairs_of ps))
  end.

Definition inorder_pairs (fuel : nat) : Gen (Z * V) :=
  λ s, let '(ps, r, s1) := inorder fuel s in
       let '(kvs, r2, s2) := pairs_of ps s1 in
       match r2 with
       | Ok _ => (kvs, r, s2)
       | Raise e => (kvs, Raise e, s2)
       end.

(** [start <= k < stop], a bound [None] being no bound. *)
Definition above (start : option Z) (k : Z) : bool :=
  match start with
  | None => true
  | Some a => Z.leb a k
  end.

Definition below (stop : option Z) (k : Z) : bool :=
  match stop with
  | None => true
  | Some b => Z.ltb k b
  end.

Definition in_range (start stop : option Z) (k : Z) : bool :=
  above start k && below stop k.

Fixpoint take_while {A} (f : A → bool) (l : list A) : list A :=
  match l with
  | [] => []
  | x :: l => if f x then x :: take_while f l else []
  end.

Definition pairs (t : atree) : list (Z * V) :=
  map (λ it, (_key it, _value it)) (items t).

(** The height of a subtree as the AVL invariant counts it (docstring of
    [AVLTreeMap._Node]): a missing subtree has height 0, a leaf has
    height 1.  It is computed from the child links alone. *)
Fixpoint avl_height (fuel : nat) (h : gmap loc Node) (o : option loc) : Z :=
  match fuel with
  | O => 0%Z
  | S fuel =>
      match o with
      | None => 0%Z
      | Some n =>
          match h !! n with
          | None => 0%Z
          | Some nd =>
              (1 + Z.max (avl_height fuel h (_left nd))
                         (avl_height fuel h (_right nd)))%Z
          end
      end
  end.

(** A position that [_validate] must reject: it was made by another tree,
    or its node is deprecated (its parent link points to itself). *)
Definition invalid (s : State) (p : Position) : Prop :=
  _container p ≠ ident (self s)
  ∨ ∃ nd, heap s !! _node p = Some nd ∧ _parent nd = Some (_node p).

(** The operation raises [ValueError] and the state is as before. *)
Definition rejects {A} (m : M A) (s : State) : Prop :=
  ∃ msg, m s = (Raise (ValueError msg), s).

Definition rejects_gen {A} (g : Gen A) (s : State) : Prop :=
  ∃ msg, g s = ([], Raise (ValueError msg), s).

(** The loop of [__reversed__]. *)
Fixpoint reversed_loop (fuel inner : nat) (p : option Position) : Gen Z :=
  match fuel with
  | O => glift (raise OutOfFuel) (λ _ : unit, gdone)
  | S fuel =>
      match p with
      | None => gdone
      | Some _ =>
          glift (key p) (λ k,
            gyield k
              (glift (before inner p) (λ p', reversed_loop fuel inner p')))
      end
  end.

Definition __reversed__ (fuel : nat) : Gen Z :=
  glift (last fuel) (λ p, reversed_loop fuel fuel p).

(** The node before index [j] of a list. *)
Definition pred_at {A} (l : list A) (j : nat) : option A :=
  match j with
  | O => None
  | S j' => l !! j'
  end.

(** A tree in which no node has a left child. *)
Fixpoint chain (t : atree) : Prop :=
  match t with
  | Lf => True
  | Br l _ _ r => l = Lf ∧ chain r
  end.

(** The tree after [_rotate] at node [x]: [x] goes above its parent, and
    the subtree between them changes sides. *)
Definition rot_left_child (t : atree) : atree :=
  match t with
  | Br (Br a x ex b) y ey c => Br a x ex (Br b y ey c)
  | _ => t
  end.

Definition rot_right_child (t : atree) : atree :=
  match t with
  | Br a y ey (Br b x ex c) => Br (Br a y ey b) x ex c
  | _ => t
  end.

Fixpoint a_rotate (x : loc) (t : atree) : atree :=
  match t with
  | Lf => Lf
  | Br l y ey r =>
      if bool_decide (top l = Some x) then rot_left_child t
      else if bool_decide (top r = Some x) then rot_right_child t
      else Br (a_rotate x l) y ey (a_rotate x r)
  end.

(** The store [h'] after [_rotate] at node [x] of the store [h]: the
    nodes [x], its parent [y], the subtree between them and the parent of
    [y] are relinked, every other node is as before. *)
Definition rotated (h h' : gmap loc Node) (x : loc) : Prop :=
  ∃ xnd y ynd,
    h !! x = Some xnd ∧ _parent xnd = Some y ∧ h !! y = Some ynd
    ∧ let z := _parent ynd in
      let lc := bool_decide (Some x = _left ynd) in
      let mid := if lc then _right xnd else _left xnd in
      h' !! x = Some (if lc then with_parent (with_right xnd (Some y)) z
                      else with_parent (with_left xnd (Some y)) z)
      ∧ h' !! y = Some (if lc then with_parent (with_left ynd mid) (Some x)
                        else with_parent (with_right ynd mid) (Some x))
      ∧ (∀ b bnd, mid = Some b → h !! b = Some bnd →
                  h' !! b = Some (with_parent bnd (Some y)))
      ∧ (∀ z' znd, z = Some z' → h !! z' = Some znd →
                   h' !! z' = Some (if bool_decide (Some y = _left znd)
                                    then with_left znd (Some x)
                                    else with_right znd (Some x)))
      ∧ (∀ n, n ≠ x → n ≠ y → mid ≠ Some n → z ≠ Some n →
              h' !! n = h !! n).

(** The store after [_relink(parent, child, make_left_child)]. *)
Definition relink_heap (h : gmap loc Node) (p : loc) (c : option loc)
  (make_left_child : bool) : gmap loc Node :=
  match h !! p with
  | None => h
  | Some pnd =>
      let h1 := <[p := if make_left_child then with_left pnd c
                       else with_right pnd c]> h in
      match c with
      | Some c' =>
          match h1 !! c' with
          | Some cnd => <[c' := with_parent cnd (Some p)]> h1
          | None => h1
          end
      | None => h1
      end
  end.

(** The tree after [_add_left] ([lft] true) or [_add_right] at node [x]:
    a new leaf [nw] holding [e] hangs on that side of [x]. *)
Fixpoint a_add (lft : bool) (x nw : loc) (e : Item) (t : atree) : atree :=
  match t with
  | Lf => Lf
  | Br l n it r =>
      if Nat.eqb n x
      then if lft then Br (Br Lf nw e Lf) n it r else Br l n it (Br Lf nw e Lf)
      else Br (a_add lft x nw e l) n it (a_add lft x nw e r)
  end.

(** ** The printing traversals

    [preorderPrint], [postorderPrint] and [inorderPrint] print the element
    of each position they visit: the elements are yielded here, in the
    order in which they are printed.  Each test [self.left(p) is not None]
    is followed by a second call of [self.left(p)] for the argument of
    the recursive call. *)
Definition print_child (p : option Position)
  (child : option Position → M (option Position))
  (rec : option Position → Gen Item) (k : Gen Item) : Gen Item :=
  glift (child p) (λ c,
    match c with
    | Some _ => glift (child p) (λ c', gyield_from (rec c') k)
    | None => k
    end).

Definition print_element (p : option Position) (k : Gen Item) : Gen Item :=
  match p with
  | Some _ => glift (element p) (λ e, gyield e k)
  | None => k
  end.

Fixpoint preorderPrint (fuel : nat) (p : option Position) : Gen Item :=
  match fuel with
  | O => glift (raise OutOfFuel) (λ _ : unit, gdone)
  | S fuel =>
      print_element p
        (print_child p left (preorderPrint fuel)
           (print_child p right (preorderPrint fuel) gdone))
  end.

Fixpoint postorderPrint (fuel : nat) (p : option Position) : Gen Item :=
  match fuel with
  | O => glift (raise OutOfFuel) (λ _ : unit, gdone)
  | S fuel =>
      print_child p left (postorderPrint fuel)
        (print_child p right (postorderPrint fuel)
           (print_element p gdone))
  end.

Fixpoint inorderPrint (fuel : nat) (p : option Position) : Gen Item :=
  match fuel with
  | O => glift (raise OutOfFuel) (λ _ : unit, gdone)
  | S fuel =>
      print_child p left (inorderPrint fuel)
        (print_element p
           (print_child p right (inorderPrint fuel) gdone))
  end.

(** The elements of a tree, node before subtrees and node after
    subtrees. *)
Fixpoint preorder (t : atree) : list Item :=
  match t with
  | Lf => []
  | Br l _ it r => it :: preorder l ++ preorder r
  end.

Fixpoint postorder (t : atree) : list Item :=
  match t with
  | Lf => []
  | Br l _ it r => postorder l ++ postorder r ++ [it]
  end.

(** The elements of the trees of a list level by level: those at the top
    of the trees, then those one step below, and so on for [d] levels. *)
Definition present (t : atree) : list atree :=
  match t with
  | Lf => []
  | Br _ _ _ _ => [t]
  end.

Definition top_items (q : list atree) : list Item :=
  flat_map (λ t, match t with Lf => [] | Br _ _ it _ => [it] end) q.

Definition kids (q : list atree) : list atree :=
  flat_map (λ t, match t with
                 | Lf => []
                 | Br l _ _ r => present l ++ present r
                 end) q.

Fixpoint levels (d : nat) (q : list atree) : list Item :=
  match d with
  | O => []
  | S d => top_items q ++ levels d (kids q)
  end.

Definition levelorder (t : atree) : list Item := levels (depth t) (present t).

End WithValues.

Notation "'let!' x ':=' m 'in' f" := (bind m (λ x, f))
  (at level 10, x binder, f at level 200).

Abbreviation mkp i n := (Some (mkPos i n)).

(** * The scenarios of the specification

    Maps with string values, in a store of their own; tree objects are
    numbered from 0. *)

Definition hi : string := "hi".

Definition with_hi (ks : list Z) : list (Z * string) :=
  map (λ k, (k, hi)) ks.

(** Scenario A: the keys 10, 5, 15, 2, 7, 12, 18 in a [TreeMap]. *)
Definition scenario_A : State :=
  apply_ops (inserts (with_hi [10; 5; 15; 2; 7; 12; 18]%Z)) (init 0 TreeMapC).

(** Scenario B: the keys 0, 1, 2, 3, 4 in an [AVLTreeMap], and its
    prefixes. *)
Definition scenario_B (n : nat) : State :=
  apply_ops (inserts (with_hi (take n [0; 1; 2; 3; 4]%Z)))
    (init 0 AVLTreeMapC).

(** Scenario E: the keys 2, 5, 7, 10, 12, 18 in a [TreeMap]. *)
Definition scenario_E : State :=
  apply_ops (inserts (with_hi [10; 5; 2; 7; 12; 18]%Z)) (init 0 TreeMapC).

(** A map with the single key 1. *)
Definition single : State :=
  apply_ops (inserts (with_hi [1]%Z)) (init 0 TreeMapC).

(** A second tree object, number 1, in the store of [single], with the
    single key 2; and the position of the root of [single]. *)
Definition other : State :=
  apply_ops (inserts (with_hi [2]%Z))
    (mkState (new_tree 1 TreeMapC) (heap single)).

Definition root_of_single : Position := mkPos 0 0.

(** * Items as objects

    A node references its [_Item] object, and after [_replace] in
    [delete] the node that took the item over and the deprecated node it
    came from reference the same object.  The key of an item is never
    reassigned; [__setitem__] reassigns its [_value] slot.  Here the value
    slots are kept in a store of their own and an item is its key with the
    address of its slot, so two nodes hold the same object exactly when
    they hold the same slot.  Everything that does not create an item or
    touch a value runs on the tree as before. *)
Module ItemObjects.

Definition slot := nat.

Section WithPayload.
Context {W : Type}.

Record OState := mkOState {
  tree : @State slot;
  slots : gmap slot W
}.

Definition OM (A : Type) : Type := OState → Res A * OState.

Definition oret {A} (a : A) : OM A := λ s, (Ok a, s).
Definition oraise {A} (e : exn) : OM A := λ s, (Raise e, s).
Definition obind {A B} (m : OM A) (f : A → OM B) : OM B :=
  λ s, match m s with
       | (Ok a, s') => f a s'
       | (Raise e, s') => (Raise e, s')
       end.

Declare Scope obj_scope.
Notation "'let!' x ':=' m 'in' f" := (obind m (λ x, f))
  (at level 10, x binder, f at level 200) : obj_scope.
#[local] Open Scope obj_scope.

(** A method of the tree that touches no value slot. *)
Definition lift {A} (m : @M slot A) : OM A :=
  λ s, let '(r, t') := m (tree s) in (r, mkOState t' (slots s)).

(** [self._Item(k, v)]: a new object. *)
Definition new_item (k : Z) (v : W) : OM (@Item slot) :=
  λ s, let c := fresh (dom (slots s)) in
       (Ok (mkItem k c), mkOState (tree s) (<[c := v]> (slots s))).

(** [item._value = v] and [item._value]. *)
Definition set_value (it : @Item slot) (v : W) : OM unit :=
  λ s, (Ok tt, mkOState (tree s) (<[_value it := v]> (slots s))).
Definition get_value (it : @Item slot) : OM W :=
  λ s, match slots s !! _value it with
       | Some v => (Ok v, s)
       | None => (Raise Dangling, s)
       end.

Definition __getitem__ (fuel : nat) (k : Z) : OM W :=
  let! e := lift is_empty in
  if e : bool then oraise (KeyError k)
  else
    let! r := lift root in
    let! p := lift (_subtree_search fuel r k) in
    let! _ := lift (_rebalance_access p) in
    let! pk := lift (key p) in
    if negb (Z.eqb k pk) then oraise (KeyError k)
    else
      let! it := lift (element p) in
      get_value it.

Definition __setitem__ (fuel : nat) (k : Z) (v : W) : OM unit :=
  let! e := lift is_empty in
  let! leaf :=
    (if e : bool
     then
       let! item := new_item k v in
       let! leaf := lift (_add_root item) in oret (Some leaf)
     else
       let! r := lift root in
       let! p := lift (_subtree_search fuel r k) in
       let! pk := lift (key p) in
       if Z.eqb pk k
       then
         let! it := lift (element p) in
         let! _ := set_value it v in
         let! _ := lift (_rebalance_access p) in
         oret None
       else
         let! item := new_item k v in
         let! pk := lift (key p) in
         if Z.ltb pk k
         then let! leaf := lift (_add_right p item) in oret (Some leaf)
         else let! leaf := lift (_add_left p item) in oret (Some leaf)) in
  match leaf with
  | None => oret tt                     (* the early [return] *)
  | Some leaf => lift (_rebalance_insert fuel leaf)
  end.

(** Sequences of public operations, as for the tree. *)
Inductive op :=
| SetItem (k : Z) (v : W)               (* [t[k] = v] *)
| DelItem (k : Z)                       (* [del t[k]] *)
| DeleteAt (p : option Position).       (* [t.delete(p)] *)

Definition apply_op (o : op) : OM unit :=
  λ s, match o with
       | SetItem k v => __setitem__ (enough (tree s)) k v s
       | DelItem k => lift (__delitem__ (enough (tree s)) k) s
       | DeleteAt p => lift (delete (enough (tree s)) p) s
       end.

Definition apply_ops (ops : list op) (s : OState) : OState :=
  fold_left (λ s o, (apply_op o s).2) ops s.

Definition init (i : tid) (c : Class) : OState := mkOState (init i c) ∅.

Definition reachable (s : OState) : Prop :=
  ∃ i c ops, s = apply_ops ops (init i c).

(** The items of the pairs [ps] are different objects, and each has its
    slot in the store. *)
Definition distinct_slots (s : OState) (ps : list (Z * slot)) : Prop :=
  NoDup (map snd ps) ∧ ∀ kv, kv ∈ ps → is_Some (slots s !! kv.2).

End WithPayload.
Arguments OState : clear implicits.
Arguments OM : clear implicits.
Arguments op : clear implicits.

End ItemObjects.

(** Scenario A with items as objects, after [del t[10]]: the root then
    holds the item of key 7, which the deprecated node 4 still
    references. *)
Definition scenario_A_del10 : ItemObjects.OState string :=
  ItemObjects.apply_ops
    (map (λ k, ItemObjects.SetItem k hi) [10; 5; 15; 2; 7; 12; 18]%Z
     ++ [ItemObjects.DelItem 10])
    (ItemObjects.init 0 TreeMapC).

(** * LinkedQueue

    The queue that [levelorderPrint] uses: a singly linked list of
    [_Node] objects with a reference to its head and to its tail.  The
    nodes live in a store of their own. *)
Module LinkedQueue.

Inductive exn :=
| Empty (msg : string)
| AttributeError
| Dangling.

Inductive Res (A : Type) :=
| Ok (a : A)
| Raise (e : exn).
Arguments Ok {A} a.
Arguments Raise {A} e.

Section WithElements.
Context {E : Type}.

Record Node := mkNode { _element : E; _next : option loc }.

Record Queue := mkQueue {
  _head : option loc;
  _tail : option loc;
  _size : Z
}.

Record State := mkState { self : Queue; heap : gmap loc Node }.

Definition M (A : Type) : Type := State → Res A * State.

Definition ret {A} (a : A) : M A := λ s, (Ok a, s).
Definition raise {A} (e : exn) : M A := λ s, (Raise e, s).
Definition bind {A B} (m : M A) (f : A → M B) : M B :=
  λ s, match m s with
       | (Ok a, s') => f a s'
       | (Raise e, s') => (Raise e, s')
       end.

Declare Scope queue_scope.
Notation "'let!' x ':=' m 'in' f" := (bind m (λ x, f))
  (at level 10, x binder, f at level 200) : queue_scope.
#[local] Open Scope queue_scope.

Definition get_self : M Queue := λ s, (Ok (self s), s).
Definition set_head (o : option loc) : M unit :=
  λ s, (Ok tt, mkState (mkQueue o (_tail (self s)) (_size (self s))) (heap s)).
Definition set_tail (o : option loc) : M unit :=
  λ s, (Ok tt, mkState (mkQueue (_head (self s)) o (_size (self s))) (heap s)).
Definition set_size (n : Z) : M unit :=
  λ s, (Ok tt, mkState (mkQueue (_head (self s)) (_tail (self s)) n) (heap s)).

Definition deref (o : option loc) : M loc :=
  match o with Some n => ret n | None => raise AttributeError end.
Definition load (n : loc) : M Node :=
  λ s, match heap s !! n with
       | Some nd => (Ok nd, s)
       | None => (Raise Dangling, s)
       end.
Definition store (n : loc) (nd : Node) : M unit :=
  λ s, (Ok tt, mkState (self s) (<[n := nd]> (heap s))).
Definition set_next (n : loc) (o : option loc) : M unit :=
  let! nd := load n in store n (mkNode (_element nd) o).

(** [self._Node(e, next)]. *)
Definition new_node (e : E) (next : option loc) : M loc :=
  λ s, let l := fresh (dom (heap s)) in
       (Ok l, mkState (self s) (<[l := mkNode e next]> (heap s))).

(** [LinkedQueue()]. *)
Definition new_queue : State := mkState (mkQueue None None 0) ∅.

Definition __len__ : M Z := let! q := get_self in ret (_size q).

Definition is_empty : M bool := let! q := get_self in ret (Z.eqb (_size q) 0).

Definition first : M E :=
  let! e := is_empty in
  if e : bool then raise (Empty "Queue is empty")
  else
    let! q := get_self in
    let! h := deref (_head q) in
    let! nd := load h in
    ret (_element nd).

Definition dequeue : M E :=
  let! e := is_empty in
  if e : bool then raise (Empty "Queue is empty")
  else
    let! q := get_self in
    let! h := deref (_head q) in
    let! nd := load h in
    let answer := _element nd in
    let! q := get_self in
    let! h := deref (_head q) in
    let! nd := load h in
    let! _ := set_head (_next nd) in
    let! q := get_self in
    let! _ := set_size (_size q - 1) in
    let! e := is_empty in
    let! _ := if e : bool then set_tail None else ret tt in
    ret answer.

Definition enqueue (e : E) : M unit :=
  let! newest := new_node e None in
  let! em := is_empty in
  let! _ := if em : bool then set_head (Some newest)
            else
              let! q := get_self in
              let! t := deref (_tail q) in
              set_next t (Some newest) in
  let! _ := set_tail (Some newest) in
  let! q := get_self in
  set_size (_size q + 1).

(** Programs over a queue, and what each call gives back: [None] for
    [enqueue], the element for [first] and [dequeue]. *)
Inductive op :=
| Enqueue (e : E)
| Dequeue
| First.

Definition apply_op (o : op) : M (option E) :=
  match o with
  | Enqueue e => let! _ := enqueue e in ret None
  | Dequeue => let! e := dequeue in ret (Some e)
  | First => let! e := first in ret (Some e)
  end.

Fixpoint run (ops : list op) (s : State) : list (Res (option E)) * State :=
  match ops with
  | [] => ([], s)
  | o :: ops =>
      let '(r, s1) := apply_op o s in
      let '(rs, s2) := run ops s1 in
      (r :: rs, s2)
  end.

(** The same programs over a list: elements are added at the back and
    taken from the front. *)
Definition list_op (o : op) (l : list E) : Res (option E) * list E :=
  match o, l with
  | Enqueue e, _ => (Ok None, l ++ [e])
  | Dequeue, e :: l' => (Ok (Some e), l')
  | First, e :: _ => (Ok (Some e), l)
  | _, [] => (Raise (Empty "Queue is empty"), [])
  end.

Fixpoint list_run (ops : list op) (l : list E) : list (Res (option E)) * list E :=
  match ops with
  | [] => ([], l)
  | o :: ops =>
      let '(r, l1) := list_op o l in
      let '(rs, l2) := list_run ops l1 in
      (r :: rs, l2)
  end.

(** The linked list from [o]: its nodes [ns] hold the elements [l], the
    last one has no successor. *)
Fixpoint chain (h : gmap loc Node) (o : option loc) (ns : list loc)
  (l : list E) : Prop :=
  match ns, l with
  | [], [] => o = None
  | n :: ns', e :: l' =>
      o = Some n ∧ ∃ nxt, h !! n = Some (mkNode e nxt) ∧ chain h nxt ns' l'
  | _, _ => False
  end.

(** The queue [s] holds the elements [l], front first. *)
Definition holds (s : State) (l : list E) : Prop :=
  ∃ ns, chain (heap s) (_head (self s)) ns l
        ∧ NoDup ns
        ∧ _tail (self s) = list.last ns
        ∧ _size (self s) = Z.of_nat (length l).

End WithElements.
Arguments Node : clear implicits.
Arguments Queue : clear implicits.
Arguments State : clear implicits.
Arguments M : clear implicits.
Arguments op : clear implicits.

End LinkedQueue.

(** * levelorderPrint

    The breadth-first traversal of [LinkedBinaryTree] keeps the positions
    it has still to visit in a [LinkedQueue]; the elements it prints are
    yielded.  An exception comes from the tree or from the queue. *)
Inductive lexn :=
| TreeExn (e : exn)
| QueueExn (e : LinkedQueue.exn).

Inductive LRes :=
| LOk
| LRaise (e : lexn).

Section LevelOrder.
Context {V : Type}.

(** [for c in self.children(p): queue.enqueue(c)], for the positions [cs]
    that [children] yields. *)
Fixpoint enqueue_all (cs : list (option Position))
  (q : LinkedQueue.State (option Position))
  : LinkedQueue.Res unit * LinkedQueue.State (option Position) :=
  match cs with
  | [] => (LinkedQueue.Ok tt, q)
  | c :: cs =>
      match LinkedQueue.enqueue c q with
      | (LinkedQueue.Ok _, q') => enqueue_all cs q'
      | (LinkedQueue.Raise e, q') => (LinkedQueue.Raise e, q')
      end
  end.

(** The loop [while not queue.is_empty()]. *)
Fixpoint levelorder_loop (fuel : nat)
  (q : LinkedQueue.State (option Position)) (s : @State V)
  : list (@Item V) * LRes * @State V :=
  match fuel with
  | O => ([], LRaise (TreeExn OutOfFuel), s)
  | S fuel =>
      match LinkedQueue.is_empty q with
      | (LinkedQueue.Raise e, _) => ([], LRaise (QueueExn e), s)
      | (LinkedQueue.Ok true, _) => ([], LOk, s)
      | (LinkedQueue.Ok false, q) =>
          match LinkedQueue.dequeue q with
          | (LinkedQueue.Raise e, _) => ([], LRaise (QueueExn e), s)
          | (LinkedQueue.Ok p, q) =>
              match element p s with
              | (Raise e, s) => ([], LRaise (TreeExn e), s)
              | (Ok e, s) =>
                  let '(cs, r, s) := children p s in
                  match enqueue_all cs q with
                  | (LinkedQueue.Raise e', _) => ([e], LRaise (QueueExn e'), s)
                  | (LinkedQueue.Ok _, q) =>
                      match r with
                      | Raise e' => ([e], LRaise (TreeExn e'), s)
                      | Ok _ =>
                          let '(out, r', s) := levelorder_loop fuel q s in
                          (e :: out, r', s)
                      end
                  end
              end
          end
      end
  end.

Definition levelorderPrint (fuel : nat) (s : @State V)
  : list (@Item V) * LRes * @State V :=
  match is_empty s with
  | (Raise e, s) => ([], LRaise (TreeExn e), s)
  | (Ok true, s) => ([], LOk, s)
  | (Ok false, s) =>
      match root s with
      | (Raise e, s) => ([], LRaise (TreeExn e), s)
      | (Ok r, s) =>
          match LinkedQueue.enqueue r LinkedQueue.new_queue with
          | (LinkedQueue.Raise e, _) => ([], LRaise (QueueExn e), s)
          | (LinkedQueue.Ok _, q) => levelorder_loop fuel q s
          end
      end
  end.

End LevelOrder.

(** * Properties *)

Section Properties.
Context {V : Type}.
Abbreviation State := (@State V).
Abbreviation Node := (@Node V).
Abbreviation Item := (@Item V).
Abbreviation atree := (@atree V).
Abbreviation M := (@M V).
Abbreviation Gen := (@Gen V).
Abbreviation op := (@op V).
Implicit Types (s : State) (h : gmap loc Node) (t : atree) (nd : Node)
  (it : Item).


(** ** Running the monad *)

Lemma bind_eq {A B} (m : M A) (f : A → M B) s :
  bind m f s = match m s with
               | (Ok a, s') => f a s'
               | (Raise e, s') => (Raise e, s')
               end.
Proof. reflexivity. Qed.

Lemma bind_ok {A B} (m : M A) (f : A → M B) s a s' :
  m s = (Ok a, s') → bind m f s = f a s'.
Proof. intros E. unfold bind. by rewrite E. Qed.

Lemma bind_raise {A B} (m : M A) (f : A → M B) s e s' :
  m s = (Raise e, s') → bind m f s = (Raise e, s').
Proof. intros E. unfold bind. by rewrite E. Qed.

Lemma load_ok s n nd : heap s !! n = Some nd → load n s = (Ok nd, s).
Proof. intros E. unfold load. by rewrite E. Qed.

Lemma validate_ok s n nd :
  heap s !! n = Some nd → _parent nd ≠ Some n →
  _validate (mkp (ident (self s)) n) s = (Ok n, s).
Proof.
  intros E Hp. cbn. unfold bind, get_self. cbn.
  rewrite Nat.eqb_refl. cbn. rewrite (load_ok _ _ _ E).
  by rewrite bool_decide_eq_false_2.
Qed.

Lemma make_position_ok s o :
  _make_position o s = (Ok (pos (ident (self s)) o), s).
Proof. by destruct o. Qed.

Lemma root_ok s : root s = (Ok (pos (ident (self s)) (_root (self s))), s).
Proof. unfold root, bind, get_self. apply make_position_ok. Qed.

Lemma parent_ok s n nd :
  heap s !! n = Some nd → _parent nd ≠ Some n →
  parent (mkp (ident (self s)) n) s = (Ok (pos (ident (self s)) (_parent nd)), s).
Proof.
  intros E Hp. unfold parent.
  rewrite (bind_ok _ _ _ _ _ (validate_ok _ _ _ E Hp)).
  rewrite (bind_ok _ _ _ _ _ (load_ok _ _ _ E)). apply make_position_ok.
Qed.

Lemma left_ok s n nd :
  heap s !! n = Some nd → _parent nd ≠ Some n →
  left (mkp (ident (self s)) n) s = (Ok (pos (ident (self s)) (_left nd)), s).
Proof.
  intros E Hp. unfold left.
  rewrite (bind_ok _ _ _ _ _ (validate_ok _ _ _ E Hp)).
  rewrite (bind_ok _ _ _ _ _ (load_ok _ _ _ E)). apply make_position_ok.
Qed.

Lemma right_ok s n nd :
  heap s !! n = Some nd → _parent nd ≠ Some n →
  right (mkp (ident (self s)) n) s = (Ok (pos (ident (self s)) (_right nd)), s).
Proof.
  intros E Hp. unfold right.
  rewrite (bind_ok _ _ _ _ _ (validate_ok _ _ _ E Hp)).
  rewrite (bind_ok _ _ _ _ _ (load_ok _ _ _ E)). apply make_position_ok.
Qed.

Lemma element_ok s i n nd :
  heap s !! n = Some nd → element (mkp i n) s = (Ok (_element nd), s).
Proof. intros E. cbn. by rewrite (bind_ok _ _ _ _ _ (load_ok _ _ _ E)). Qed.

Lemma key_ok s i n nd :
  heap s !! n = Some nd → key (mkp i n) s = (Ok (_key (_element nd)), s).
Proof. intros E. unfold key. by rewrite (bind_ok _ _ _ _ _ (element_ok _ _ _ _ E)). Qed.

Lemma value_ok s i n nd :
  heap s !! n = Some nd → value (mkp i n) s = (Ok (_value (_element nd)), s).
Proof. intros E. unfold value. by rewrite (bind_ok _ _ _ _ _ (element_ok _ _ _ _ E)). Qed.

(** ** Trees in the store *)

Lemma top_in t n : top t = Some n → n ∈ nodes t.
Proof. destruct t; cbn; [done|]. intros [= ->]. set_solver. Qed.

Lemma top_None t : top t = None → t = Lf.
Proof. by destruct t. Qed.

Lemma wf_Lf h bf par : wf h bf par Lf.
Proof. split; [done|]. split; [constructor|]. intros ? _. set_solver. Qed.

Lemma wf_Br h bf par l n it r :
  wf h bf par (Br l n it r) →
  h !! n = Some (mkNode it par (top l) (top r) bf)
  ∧ par ≠ Some n
  ∧ (n ∉ nodes l) ∧ (n ∉ nodes r)
  ∧ (∀ x, x ∈ nodes l → x ∉ nodes r)
  ∧ wf h bf (Some n) l ∧ wf h bf (Some n) r.
Proof.
  intros [(E & Hl & Hr) [Hnd Hpar]]. cbn in Hnd.
  apply NoDup_app in Hnd as (Hndl & Hd & Hndr).
  apply NoDup_cons in Hndr as [Hn Hndr].
  assert (n ∉ nodes l) by (intros Hin; apply (Hd _ Hin); set_solver).
  split_and!; try done.
  - intros ->. apply (Hpar n eq_refl). cbn. set_solver.
  - intros x Hx Hx'. apply (Hd _ Hx). set_solver.
  - split_and!; try done. by intros ? [= <-].
  - split_and!; try done. by intros ? [= <-].
Qed.

Lemma search_ok s bf k t : ∀ par fuel,
  wf (heap s) bf par t → t ≠ Lf → depth t ≤ fuel →
  _subtree_search fuel (pos (ident (self s)) (top t)) k s
  = (Ok (pos (ident (self s)) (anchor t k)), s).
Proof.
  induction t as [|l IHl n it r IHr]; intros par fuel Hwf Hne Hfuel; [done|].
  apply wf_Br in Hwf as (E & Hp & _ & _ & _ & Hl & Hr).
  destruct fuel as [|fuel]; [cbn in Hfuel; lia|]. cbn in Hfuel.
  cbn [_subtree_search top pos anchor].
  rewrite (bind_ok _ _ _ _ _ (key_ok _ _ _ _ E)). cbn [_element _key].
  destruct (Z.eqb k (_key it)); [done|].
  destruct (Z.ltb k (_key it)).
  - rewrite (bind_ok _ _ _ _ _ (left_ok _ _ _ E Hp)). cbn [_left].
    destruct l as [|ll ln lit lr]; [done|].
    cbn [top pos]. apply (IHl (Some n)); [done|done|lia].
  - rewrite (bind_ok _ _ _ _ _ (right_ok _ _ _ E Hp)). cbn [_right].
    destruct r as [|rl rn rit rr]; [done|].
    cbn [top pos]. apply (IHr (Some n)); [done|done|lia].
Qed.

Lemma rep_frame h h' bf t : ∀ par,
  rep h bf par t → (∀ n, n ∈ nodes t → h' !! n = h !! n) → rep h' bf par t.
Proof.
  induction t as [|l IHl n it r IHr]; intros par Hrep Hfr; [done|].
  destruct Hrep as (E & Hl & Hr). cbn in Hfr. split_and!.
  - rewrite Hfr; [done|set_solver].
  - apply IHl; [done|]. intros x Hx. apply Hfr. set_solver.
  - apply IHr; [done|]. intros x Hx. apply Hfr. set_solver.
Qed.

Lemma length_nodes_items t : length (items t) = length (nodes t).
Proof.
  induction t as [|l IHl n it r IHr]; [done|].
  cbn. rewrite !length_app. cbn. lia.
Qed.

(** Every node of the tree is in the store, with its item. *)
Lemma rep_items h bf t : ∀ par,
  rep h bf par t →
  Forall2 (λ n it, ∃ nd, h !! n = Some nd ∧ _element nd = it)
          (nodes t) (items t).
Proof.
  induction t as [|l IHl n it r IHr]; intros par Hrep; [constructor|].
  destruct Hrep as (E & Hl & Hr). cbn.
  apply Forall2_app; [by eapply IHl|].
  constructor; [|by eapply IHr]. eexists. split; [exact E|done].
Qed.

Lemma rep_in_heap h bf t par n :
  rep h bf par t → n ∈ nodes t → is_Some (h !! n).
Proof.
  intros Hrep Hin. apply rep_items in Hrep.
  apply list_elem_of_lookup in Hin as [i Hi].
  destruct (Forall2_lookup_l _ _ _ _ _ Hrep Hi) as (it & _ & nd & E & _).
  by exists nd.
Qed.

(** ** Generators *)

Lemma glift_ok {A B} (m : M B) (k : B → Gen A) s b s' :
  m s = (Ok b, s') → glift m k s = k b s'.
Proof. intros E. unfold glift. by rewrite E. Qed.

Lemma glift_raise {A B} (m : M B) (k : B → Gen A) s e s' :
  m s = (Raise e, s') → glift m k s = ([], Raise e, s').
Proof. intros E. unfold glift. by rewrite E. Qed.

Lemma gyield_from_ok {A} (g k : Gen A) s l s1 :
  g s = (l, Ok tt, s1) →
  gyield_from g k s = (let '(l2, r2, s2) := k s1 in (l ++ l2, r2, s2)).
Proof. intros E. unfold gyield_from. by rewrite E. Qed.

Lemma subtree_inorder_ok s bf t : ∀ par fuel,
  wf (heap s) bf par t → t ≠ Lf → depth t ≤ fuel →
  _subtree_inorder fuel (pos (ident (self s)) (top t)) s
  = (map (λ x, mkp (ident (self s)) x) (nodes t), Ok tt, s).
Proof.
  induction t as [|l IHl n it r IHr]; intros par fuel Hwf Hne Hfuel; [done|].
  apply wf_Br in Hwf as (E & Hp & _ & _ & _ & Hl & Hr).
  destruct fuel as [|fuel]; [cbn in Hfuel; lia|]. cbn in Hfuel.
  cbn [_subtree_inorder top pos nodes].
  rewrite (glift_ok _ _ _ _ _ (left_ok _ _ _ E Hp)). cbn [_left].
  assert (Hrest :
    gyield (mkp (ident (self s)) n)
      (glift (right (mkp (ident (self s)) n)) (λ r0,
         match r0 with
         | Some _ => gyield_from (_subtree_inorder fuel r0) gdone
         | None => gdone
         end)) s
    = (mkp (ident (self s)) n :: map (λ x, mkp (ident (self s)) x) (nodes r), Ok tt, s)).
  { unfold gyield.
    rewrite (glift_ok _ _ _ _ _ (right_ok _ _ _ E Hp)). cbn [_right].
    destruct r as [|rl rn rit rr]; [done|].
    cbn [top pos].
    change (mkp (ident (self s)) rn)
      with (pos (ident (self s)) (top (Br rl rn rit rr))) at 1.
    rewrite (gyield_from_ok _ _ _ _ _ (IHr (Some n) fuel Hr ltac:(done) ltac:(lia))).
    unfold gdone. by rewrite app_nil_r. }
  destruct l as [|ll ln lit lr].
  - cbn [top pos]. exact Hrest.
  - cbn [top pos].
    change (mkp (ident (self s)) ln)
      with (pos (ident (self s)) (top (Br ll ln lit lr))) at 1.
    rewrite (gyield_from_ok _ _ _ _ _ (IHl (Some n) fuel Hl ltac:(done) ltac:(lia))).
    rewrite Hrest. by rewrite map_app.
Qed.

Lemma keys_of_ok s i ns : ∀ its,
  Forall2 (λ n it, ∃ nd, heap s !! n = Some nd ∧ _element nd = it) ns its →
  keys_of (map (λ x, mkp i x) ns) s = (map _key its, Ok tt, s).
Proof.
  induction ns as [|n ns IH]; intros its H2.
  - by apply Forall2_nil_inv_l in H2 as ->.
  - apply Forall2_cons_inv_l in H2 as (it & its' & (nd & E & <-) & H2 & ->).
    cbn [map keys_of].
    rewrite (glift_ok _ _ _ _ _ (key_ok _ _ _ _ E)).
    unfold gyield. by rewrite (IH _ H2).
Qed.

(** ** Search trees and sorted lists *)

Lemma keys_Br l n it r : keys (Br l n it r) = keys l ++ _key it :: keys r.
Proof. unfold keys. cbn. by rewrite map_app. Qed.

Lemma bst_sorted t : bst t → StronglySorted Z.lt (keys t).
Proof.
  induction t as [|l IHl n it r IHr]; [constructor|].
  intros (Hl & Hr & Hlt & Hgt). rewrite keys_Br.
  apply StronglySorted_app_2; [|by apply IHl|].
  - intros x1 x2 H1 H2. rewrite Forall_forall in Hlt, Hgt.
    apply elem_of_cons in H2 as [->|H2]; [by apply Hlt|].
    specialize (Hlt _ H1). specialize (Hgt _ H2). lia.
  - constructor; [by apply IHr|done].
Qed.

Lemma sorted_bst t : StronglySorted Z.lt (keys t) → bst t.
Proof.
  induction t as [|l IHl n it r IHr]; [done|].
  rewrite keys_Br. intros Hs.
  apply StronglySorted_app in Hs as (Hlr & Hl & Hr).
  apply StronglySorted_cons in Hr as [Hgt Hr].
  split_and!; [by apply IHl|by apply IHr| |done].
  apply Forall_forall. intros x Hx. apply Hlr; [done|]. apply list_elem_of_here.
Qed.

Lemma StronglySorted_sublist {A} (R : relation A) (l1 l2 : list A) :
  l1 `sublist_of` l2 → StronglySorted R l2 → StronglySorted R l1.
Proof.
  induction 1 as [|x l1 l2 Hsub IH|x l1 l2 Hsub IH]; intros Hs; [done| |].
  - apply StronglySorted_cons in Hs as [Hall Hs].
    constructor; [by apply IH|].
    rewrite Forall_forall in Hall |- *.
    intros y Hy. apply Hall. by eapply elem_of_sublist.
  - apply StronglySorted_cons in Hs as [_ Hs]. by apply IH.
Qed.

Lemma bst_sublist t t' :
  items t' `sublist_of` items t → bst t → bst t'.
Proof.
  intros Hsub Hb. apply sorted_bst.
  eapply StronglySorted_sublist; [|by apply bst_sorted].
  unfold keys. by apply fmap_sublist.
Qed.

(** ** The tree after an insertion *)

Lemma top_insert nw k v t : t ≠ Lf → top (a_insert nw k v t) = top t.
Proof.
  destruct t as [|l n it r]; [done|]. intros _. cbn.
  by destruct (Z.eqb k (_key it)), (Z.ltb k (_key it)).
Qed.

Lemma nodes_insert_in nw k v t x :
  x ∈ nodes (a_insert nw k v t) → x = nw ∨ x ∈ nodes t.
Proof.
  induction t as [|l IHl n it r IHr]; cbn.
  - set_solver.
  - destruct (Z.eqb k (_key it)); [cbn; set_solver|].
    destruct (Z.ltb k (_key it)); cbn; set_solver.
Qed.

Lemma nodes_insert_keep nw k v t x :
  x ∈ nodes t → x ∈ nodes (a_insert nw k v t).
Proof.
  induction t as [|l IHl n it r IHr]; cbn; [set_solver|].
  destruct (Z.eqb k (_key it)); [cbn; set_solver|].
  destruct (Z.ltb k (_key it)); cbn; set_solver.
Qed.

Lemma nodes_insert_NoDup nw k v t :
  NoDup (nodes t) → nw ∉ nodes t → NoDup (nodes (a_insert nw k v t)).
Proof.
  induction t as [|l IHl n it r IHr]; cbn; intros Hnd Hnw.
  - apply NoDup_singleton.
  - apply NoDup_app in Hnd as (Hl & Hd & Hr).
    apply NoDup_cons in Hr as [Hn Hr].
    destruct (Z.eqb k (_key it)); cbn.
    { apply NoDup_app. split_and!; [done|done|by apply NoDup_cons]. }
    destruct (Z.ltb k (_key it)); cbn; apply NoDup_app.
    + split_and!; [apply IHl; [done|set_solver]| |by apply NoDup_cons].
      intros x Hx. apply nodes_insert_in in Hx as [->|Hx]; [set_solver|by apply Hd].
    + split_and!; [done| |].
      * intros x Hx Hx'. apply elem_of_cons in Hx' as [->|Hx'].
        { apply (Hd _ Hx). set_solver. }
        apply nodes_insert_in in Hx' as [->|Hx']; [set_solver|].
        apply (Hd _ Hx). set_solver.
      * apply NoDup_cons. split; [|apply IHr; [done|set_solver]].
        intros Hx. apply nodes_insert_in in Hx as [->|Hx]; set_solver.
Qed.

Lemma length_nodes_insert nw k v t :
  length (nodes (a_insert nw k v t)) ≤ S (length (nodes t)).
Proof.
  induction t as [|l IHl n it r IHr]; cbn; [lia|].
  destruct (Z.eqb k (_key it)); [cbn; rewrite !length_app; cbn; lia|].
  destruct (Z.ltb k (_key it)); cbn; rewrite !length_app; cbn; lia.
Qed.

Lemma keys_insert_Forall (P : Z → Prop) nw k v t :
  P k → Forall P (keys t) → Forall P (keys (a_insert nw k v t)).
Proof.
  intros Hk. induction t as [|l IHl n it r IHr].
  - intros _. by repeat constructor.
  - cbn [a_insert]. rewrite keys_Br. intros Hall.
    apply Forall_app in Hall as [Hl Hr]. apply Forall_cons in Hr as [Hn Hr].
    destruct (Z.eqb k (_key it)); [|destruct (Z.ltb k (_key it))];
      rewrite keys_Br; apply Forall_app; split; try apply Forall_cons;
      try split; auto.
Qed.

Lemma bst_insert nw k v t : bst t → bst (a_insert nw k v t).
Proof.
  induction t as [|l IHl n it r IHr]; cbn.
  - intros _. split_and!; try done; constructor.
  - intros (Hl & Hr & Hlt & Hgt).
    destruct (Z.eqb_spec k (_key it)) as [->|Hne]; [done|].
    destruct (Z.ltb_spec k (_key it)) as [Hlt'|Hge]; cbn.
    + split_and!; auto. apply keys_insert_Forall; [lia|done].
    + split_and!; auto. apply keys_insert_Forall; [lia|done].
Qed.

(** ** Subtrees *)

Lemma subtree_notin x t : x ∉ nodes t → subtree x t = Lf.
Proof.
  induction t as [|l IHl n it r IHr]; cbn; [done|]. intros Hx.
  destruct (Nat.eqb_spec n x) as [->|Hne]; [set_solver|].
  rewrite IHl, IHr; set_solver.
Qed.

Lemma subtree_in x t :
  x ∈ nodes t → ∃ l it r, subtree x t = Br l x it r.
Proof.
  induction t as [|l IHl n it r IHr]; cbn; [set_solver|]. intros Hx.
  destruct (Nat.eqb_spec n x) as [->|Hne]; [by eauto|].
  destruct (decide (x ∈ nodes l)) as [Hl|Hl].
  - destruct (IHl Hl) as (a & e & b & ->). eauto.
  - rewrite (subtree_notin _ _ Hl). apply IHr. set_solver.
Qed.

Lemma Lf_or_not (t : atree) : t = Lf ∨ t ≠ Lf.
Proof. destruct t; [by left|by right]. Qed.

Lemma splice_notin x t : x ∉ nodes t → a_splice x t = t.
Proof.
  induction t as [|l IHl n it r IHr]; cbn; [done|]. intros Hx.
  destruct (Nat.eqb_spec n x) as [->|Hne]; [set_solver|].
  rewrite IHl, IHr; set_solver.
Qed.

Lemma replace_notin x e t : x ∉ nodes t → a_replace x e t = t.
Proof.
  induction t as [|l IHl n it r IHr]; cbn; [done|]. intros Hx.
  destruct (Nat.eqb_spec n x) as [->|Hne]; [set_solver|].
  rewrite IHl, IHr; set_solver.
Qed.

Lemma nodes_replace x e t : nodes (a_replace x e t) = nodes t.
Proof.
  induction t as [|l IHl n it r IHr]; cbn; [done|].
  destruct (Nat.eqb n x); cbn; [done|]. by rewrite IHl, IHr.
Qed.

Lemma top_replace x e t : top (a_replace x e t) = top t.
Proof. destruct t as [|l n it r]; cbn; [done|]. by destruct (Nat.eqb n x). Qed.

Lemma nodes_splice_sublist x t : nodes (a_splice x t) `sublist_of` nodes t.
Proof.
  induction t as [|l IHl n it r IHr]; cbn; [done|].
  destruct (Nat.eqb n x).
  - destruct l; [apply sublist_inserts_l, sublist_cons; done|].
    by apply sublist_inserts_r.
  - cbn. apply sublist_app; [done|]. by apply sublist_skip.
Qed.

Lemma items_splice_sublist x t : items (a_splice x t) `sublist_of` items t.
Proof.
  induction t as [|l IHl n it r IHr]; cbn; [done|].
  destruct (Nat.eqb n x).
  - destruct l; [apply sublist_inserts_l, sublist_cons; done|].
    by apply sublist_inserts_r.
  - cbn. apply sublist_app; [done|]. by apply sublist_skip.
Qed.

Lemma length_nodes_splice x t :
  x ∈ nodes t → S (length (nodes (a_splice x t))) ≤ length (nodes t).
Proof.
  induction t as [|l IHl n it r IHr]; cbn; [set_solver|]. intros Hx.
  pose proof (sublist_length _ _ (nodes_splice_sublist x l)).
  pose proof (sublist_length _ _ (nodes_splice_sublist x r)).
  destruct (Nat.eqb_spec n x) as [->|Hne].
  - destruct l; cbn; rewrite ?length_app; cbn; lia.
  - cbn. rewrite !length_app. cbn.
    apply elem_of_app in Hx as [Hx|Hx].
    + specialize (IHl Hx). lia.
    + apply elem_of_cons in Hx as [->|Hx]; [done|]. specialize (IHr Hx). lia.
Qed.

Lemma last_node_in (l : atree) m e :
  last_node l = Some (m, e) → m ∈ nodes l.
Proof.
  induction l as [|a IHa n it b IHb]; cbn; [done|].
  destruct b as [|ba bn bit bb]; [intros [= -> ->]; set_solver|].
  intros H. specialize (IHb H). set_solver.
Qed.

Lemma last_node_subtree (l : atree) m e :
  NoDup (nodes l) → last_node l = Some (m, e) →
  ∃ ml, subtree m l = Br ml m e Lf.
Proof.
  induction l as [|a IHa n it b IHb]; [done|]. intros Hnd Hl.
  cbn in Hnd. apply NoDup_app in Hnd as (Ha & Hd & Hb).
  apply NoDup_cons in Hb as [Hn Hb]. cbn [last_node] in Hl.
  destruct b as [|ba bn bit bb].
  - injection Hl as -> ->. cbn. rewrite Nat.eqb_refl. eauto.
  - pose proof (last_node_in _ _ _ Hl) as Hin.
    destruct (IHb Hb Hl) as [ml E]. exists ml.
    cbn [subtree]. destruct (Nat.eqb_spec n m) as [->|Hne]; [done|].
    rewrite (subtree_notin m a); [exact E|].
    intros Hm. apply (Hd _ Hm). set_solver.
Qed.

Lemma splice_last (l : atree) m e :
  NoDup (nodes l) → last_node l = Some (m, e) →
  items (a_splice m l) ++ [e] = items l.
Proof.
  induction l as [|a IHa n it b IHb]; [done|]. intros Hnd Hl.
  cbn in Hnd. apply NoDup_app in Hnd as (Ha & Hd & Hb).
  apply NoDup_cons in Hb as [Hn Hb]. cbn [last_node] in Hl.
  destruct (Lf_or_not b) as [->|Hne].
  - injection Hl as -> ->. cbn. rewrite Nat.eqb_refl.
    by destruct a.
  - assert (Hl' : last_node b = Some (m, e)) by (by destruct b).
    pose proof (last_node_in _ _ _ Hl') as Hin.
    cbn [a_splice]. destruct (Nat.eqb_spec n m) as [->|Hnm]; [done|].
    rewrite (splice_notin m a); [|intros Hm; apply (Hd _ Hm); set_solver].
    cbn [items]. rewrite <- (IHb Hb Hl').
    by rewrite <- app_assoc.
Qed.

Lemma subtree_nodes x t u y : subtree x t = u → y ∈ nodes u → y ∈ nodes t.
Proof.
  revert u. induction t as [|l IHl n it r IHr]; cbn; intros u <-; [done|].
  destruct (Nat.eqb n x); [done|].
  destruct (subtree x l) eqn:E.
  - intros Hy. specialize (IHr _ eq_refl Hy). set_solver.
  - intros Hy. specialize (IHl _ eq_refl Hy). set_solver.
Qed.

Lemma subtree_top x t l n it r : subtree x t = Br l n it r → n = x.
Proof.
  induction t as [|tl IHl m e tr IHr]; cbn; [done|].
  destruct (Nat.eqb_spec m x) as [->|Hne]; [by intros [= _ -> _ _]|].
  destruct (subtree x tl) eqn:E; [exact IHr|]. intros H. by apply IHl.
Qed.

Lemma depth_subtree x t : depth (subtree x t) ≤ depth t.
Proof.
  induction t as [|l IHl n it r IHr]; cbn; [done|].
  destruct (Nat.eqb n x); [done|].
  destruct (subtree x l) eqn:E; lia.
Qed.

Lemma depth_le_nodes t : depth t ≤ length (nodes t).
Proof.
  induction t as [|l IHl n it r IHr]; cbn; [done|].
  rewrite length_app. cbn. lia.
Qed.

(** The item of a node with two children is replaced by the last item of
    its left subtree and that node is taken out: the items that remain. *)
Lemma items_delete2 x t : ∀ l it r m e,
  NoDup (nodes t) → subtree x t = Br l x it r → last_node l = Some (m, e) →
  items (a_splice m (a_replace x e t)) `sublist_of` items t.
Proof.
  induction t as [|tl IHl n it' tr IHr]; [done|].
  intros l it r m e Hnd Hsub Hlast.
  cbn in Hnd. apply NoDup_app in Hnd as (Hndl & Hd & Hndr).
  apply NoDup_cons in Hndr as [Hn Hndr]. cbn [subtree] in Hsub.
  pose proof (last_node_in _ _ _ Hlast) as Hm.
  cbn [a_replace]. destruct (Nat.eqb_spec n x) as [->|Hne].
  - injection Hsub as -> -> ->.
    assert (x ∉ nodes l) by (intros Hx; apply (Hd _ Hx); set_solver).
    cbn [a_splice]. destruct (Nat.eqb_spec x m) as [->|Hxm]; [done|].
    rewrite (splice_notin m r); [|intros Hm'; apply (Hd _ Hm); set_solver].
    cbn [items]. rewrite <- (splice_last _ _ _ Hndl Hlast).
    rewrite <- app_assoc. apply sublist_app; [done|]. cbn.
    by apply sublist_skip, sublist_cons.
  - destruct (subtree x tl) eqn:E.
    + assert (Hml : m ∈ nodes tr).
      { eapply subtree_nodes; [exact Hsub|]. cbn. set_solver. }
      assert (Hxl : x ∉ nodes tl).
      { intros Hx. destruct (subtree_in _ _ Hx) as (?&?&?&?). congruence. }
      rewrite (replace_notin x e tl Hxl).
      cbn [a_splice]. destruct (Nat.eqb_spec n m) as [->|Hnm]; [done|].
      rewrite (splice_notin m tl); [|intros Hm'; apply (Hd _ Hm'); set_solver].
      cbn [items]. apply sublist_app; [done|]. apply sublist_skip.
      by apply (IHr l it r m e).
    + assert (Hml : m ∈ nodes tl).
      { eapply subtree_nodes; [exact E|]. rewrite Hsub. cbn. set_solver. }
      assert (Hxl : x ∈ nodes tl).
      { eapply subtree_nodes; [exact E|]. rewrite Hsub. cbn. set_solver. }
      rewrite (replace_notin x e tr);
        [|intros Hx; apply (Hd _ Hxl); set_solver].
      cbn [a_splice]. destruct (Nat.eqb_spec n m) as [->|Hnm].
      { exfalso. apply (Hd _ Hml). set_solver. }
      rewrite (splice_notin m tr); [|intros Hm'; apply (Hd _ Hml); set_solver].
      cbn [items]. apply sublist_app; [|done].
      exact (IHl l it r m e Hndl Hsub Hlast).
Qed.

Lemma nodes_le_heap h bf par t :
  rep h bf par t → NoDup (nodes t) → length (nodes t) ≤ size h.
Proof.
  intros Hrep Hnd. rewrite <- size_dom.
  unfold size at 1, set_size. cbn.
  apply submseteq_length, NoDup_submseteq; [done|].
  intros x Hx. apply elem_of_elements, elem_of_dom.
  by eapply rep_in_heap.
Qed.

Lemma wf_subtree h bf t : ∀ par x,
  wf h bf par t → x ∈ nodes t →
  ∃ par', wf h bf par' (subtree x t)
    ∧ (top t = Some x ∧ par' = par
       ∨ top t ≠ Some x ∧ ∃ p, par' = Some p ∧ p ∈ nodes t).
Proof.
  induction t as [|l IHl n it r IHr]; intros par x Hwf Hx; [set_solver|].
  pose proof Hwf as Hwf'.
  apply wf_Br in Hwf' as (E & Hp & Hnl & Hnr & Hd & Hl & Hr).
  cbn [subtree top]. destruct (Nat.eqb_spec n x) as [->|Hne].
  { exists par. split; [done|]. by left. }
  assert (Some n ≠ Some x) by congruence.
  destruct (decide (x ∈ nodes l)) as [Hxl|Hxl].
  - destruct (subtree_in _ _ Hxl) as (a & e & b & Es).
    destruct (IHl (Some n) x Hl Hxl) as (par' & Hw & Hc). rewrite Es in *.
    exists par'. split; [done|]. right. split; [done|].
    destruct Hc as [[_ ->]|[_ (p & -> & Hpin)]]; eexists; (split; [done|]);
      cbn; set_solver.
  - rewrite (subtree_notin _ _ Hxl).
    assert (Hxr : x ∈ nodes r) by (cbn in Hx; set_solver).
    destruct (IHr (Some n) x Hr Hxr) as (par' & Hw & Hc).
    exists par'. split; [done|]. right. split; [done|].
    destruct Hc as [[_ ->]|[_ (p & -> & Hpin)]]; eexists; (split; [done|]);
      cbn; set_solver.
Qed.

(** ** The rebalancing walk of AVLTreeMap *)

Lemma bind_ret {A B} (a : A) (f : A → M B) s : bind (ret a) f s = f a s.
Proof. reflexivity. Qed.

Lemma get_balance_factor_ok s n nd b :
  heap s !! n = Some nd → _balance_factor nd = Some b →
  get_balance_factor n s = (Ok b, s).
Proof.
  intros E Hb. unfold get_balance_factor.
  rewrite (bind_ok _ _ _ _ _ (load_ok _ _ _ E)). by rewrite Hb.
Qed.

Lemma isbalanced_ok s i n nd :
  heap s !! n = Some nd → _balance_factor nd = Some 0%Z →
  _isbalanced (mkp i n) s = (Ok true, s).
Proof.
  intros E Hb. unfold _isbalanced. cbn [node_of]. rewrite bind_ret.
  by rewrite (bind_ok _ _ _ _ _ (get_balance_factor_ok _ _ _ _ E Hb)).
Qed.

Lemma rebalance_step s n nd rest :
  heap s !! n = Some nd → _balance_factor nd = Some 0%Z →
  _parent nd ≠ Some n →
  _rebalance (S rest) (mkp (ident (self s)) n) s
  = _rebalance rest (pos (ident (self s)) (_parent nd)) s.
Proof.
  intros E Hb Hp. cbn [_rebalance].
  rewrite (bind_ok _ _ _ _ _ (isbalanced_ok _ _ _ _ E Hb)). cbn [negb].
  rewrite bind_ret.
  by rewrite (bind_ok _ _ _ _ _ (parent_ok _ _ _ E Hp)).
Qed.

Lemma rebalance_climb s t : ∀ par x,
  wf (heap s) (Some 0%Z) par t → x ∈ nodes t →
  ∃ d, 1 ≤ d ≤ depth t ∧ ∀ rest,
    _rebalance (d + rest) (mkp (ident (self s)) x) s
    = _rebalance rest (pos (ident (self s)) par) s.
Proof.
  induction t as [|l IHl n it r IHr]; intros par x Hwf Hx; [set_solver|].
  apply wf_Br in Hwf as (E & Hp & Hnl & Hnr & Hd & Hl & Hr).
  assert (Hn : ∀ rest, _rebalance (S rest) (mkp (ident (self s)) n) s
               = _rebalance rest (pos (ident (self s)) par) s).
  { intros rest. by rewrite (rebalance_step _ _ _ _ E). }
  cbn in Hx. apply elem_of_app in Hx as [Hx|Hx];
    [|apply elem_of_cons in Hx as [->|Hx]].
  - destruct (IHl _ _ Hl Hx) as (d & Hdd & Hclimb).
    exists (S d). split; [cbn; lia|]. intros rest.
    replace (S d + rest) with (d + S rest) by lia.
    by rewrite Hclimb.
  - exists 1. split; [cbn; lia|]. apply Hn.
  - destruct (IHr _ _ Hr Hx) as (d & Hdd & Hclimb).
    exists (S d). split; [cbn; lia|]. intros rest.
    replace (S d + rest) with (d + S rest) by lia.
    by rewrite Hclimb.
Qed.

Lemma rebalance_noop s t x fuel :
  wf (heap s) (Some 0%Z) None t → x ∈ nodes t → depth t < fuel →
  _rebalance fuel (mkp (ident (self s)) x) s = (Ok tt, s).
Proof.
  intros Hwf Hx Hfuel.
  destruct (rebalance_climb _ _ _ _ Hwf Hx) as (d & Hd & Hclimb).
  replace fuel with (d + S (fuel - d - 1)) by lia.
  by rewrite Hclimb.
Qed.

(** ** The store after a mutation *)

Lemma anchor_in t k m : anchor t k = Some m → m ∈ nodes t.
Proof.
  induction t as [|l IHl n it r IHr]; cbn; [done|].
  destruct (Z.eqb k (_key it)); [intros [= ->]; set_solver|].
  destruct (Z.ltb k (_key it)).
  - destruct l; [intros [= ->]; set_solver|]. intros H. specialize (IHl H). set_solver.
  - destruct r; [intros [= ->]; set_solver|]. intros H. specialize (IHr H). set_solver.
Qed.

Lemma anchor_Some t k : t ≠ Lf → is_Some (anchor t k).
Proof.
  induction t as [|l IHl n it r IHr]; [done|]. intros _. cbn.
  destruct (Z.eqb k (_key it)); [done|].
  destruct (Z.ltb k (_key it)).
  - destruct l; [done|]. by apply IHl.
  - destruct r; [done|]. by apply IHr.
Qed.

(** Where the search stops, the slot on the side of [k] is empty. *)
Lemma anchor_slot h bf k t : ∀ par m,
  wf h bf par t → anchor t k = Some m →
  ∃ mnd, h !! m = Some mnd ∧ _parent mnd ≠ Some m
    ∧ _balance_factor mnd = bf
    ∧ ((_key (_element mnd) < k)%Z → _right mnd = None)
    ∧ ((k < _key (_element mnd))%Z → _left mnd = None).
Proof.
  induction t as [|l IHl n it r IHr]; intros par m Hwf Ha; [done|].
  apply wf_Br in Hwf as (E & Hp & Hnl & Hnr & Hd & Hl & Hr).
  cbn [anchor] in Ha.
  destruct (Z.eqb_spec k (_key it)) as [->|Hne].
  { injection Ha as <-. eexists. split; [exact E|]. cbn. split_and!; [done|done|lia|lia]. }
  destruct (Z.ltb_spec k (_key it)) as [Hlt|Hge].
  - destruct l as [|ll ln lit lr]; [|by eapply IHl].
    injection Ha as <-. eexists. split; [exact E|]. cbn. split_and!; [done|done|lia|done].
  - destruct r as [|rl rn rit rr]; [|by eapply IHr].
    injection Ha as <-. eexists. split; [exact E|]. cbn. split_and!; [done|done|done|lia].
Qed.

Lemma rep_replace h bf x xnd e t : ∀ par,
  wf h bf par t → h !! x = Some xnd →
  rep (<[x := with_element xnd e]> h) bf par (a_replace x e t).
Proof.
  induction t as [|l IHl n it r IHr]; intros par Hwf Hx; [done|].
  apply wf_Br in Hwf as (E & Hp & Hnl & Hnr & Hd & Hl & Hr).
  cbn [a_replace]. destruct (Nat.eqb_spec n x) as [->|Hne].
  - rewrite E in Hx. injection Hx as <-. split_and!.
    + by rewrite lookup_insert_eq.
    + eapply rep_frame; [apply Hl|]. intros y Hy.
      rewrite lookup_insert_ne; [done|]. by intros ->.
    + eapply rep_frame; [apply Hr|]. intros y Hy.
      rewrite lookup_insert_ne; [done|]. by intros ->.
  - split_and!.
    + rewrite lookup_insert_ne; [|done]. by rewrite !top_replace.
    + by apply IHl.
    + by apply IHr.
Qed.

Lemma keys_replace h bf x xnd e t : ∀ par,
  rep h bf par t → h !! x = Some xnd → _key e = _key (_element xnd) →
  keys (a_replace x e t) = keys t.
Proof.
  induction t as [|l IHl n it r IHr]; intros par Hrep Hx Hk; [done|].
  destruct Hrep as (E & Hl & Hr). cbn [a_replace].
  destruct (Nat.eqb_spec n x) as [->|Hne].
  - rewrite E in Hx. injection Hx as <-. rewrite !keys_Br. by rewrite Hk.
  - rewrite !keys_Br. by rewrite (IHl _ Hl Hx Hk), (IHr _ Hr Hx Hk).
Qed.

Lemma rep_insert h bf nw k v t : ∀ par m mnd,
  wf h bf par t → anchor t k = Some m → h !! m = Some mnd →
  _key (_element mnd) ≠ k → h !! nw = None →
  rep (<[m := if Z.ltb (_key (_element mnd)) k
              then with_right mnd (Some nw)
              else with_left mnd (Some nw)]>
         (<[nw := mkNode (mkItem k v) (Some m) None None bf]> h))
      bf par (a_insert nw k v t).
Proof.
  induction t as [|l IHl n it r IHr]; intros par m mnd Hwf Ha Hm Hk Hnw; [done|].
  pose proof Hwf as Hwf'.
  apply wf_Br in Hwf' as (E & Hp & Hnl & Hnr & Hd & Hl & Hr).
  assert (Hfresh : ∀ y, is_Some (h !! y) → y ≠ nw).
  { intros y [? Hy] ->. congruence. }
  assert (Hnnw : n ≠ nw) by (apply Hfresh; eauto).
  cbn [anchor a_insert] in *.
  destruct (Z.eqb_spec k (_key it)) as [->|Hne].
  { injection Ha as <-. rewrite E in Hm. injection Hm as <-. done. }
  destruct (Z.ltb_spec k (_key it)) as [Hlt|Hge].
  - destruct l as [|ll ln lit lr].
    + injection Ha as <-. rewrite E in Hm. injection Hm as <-. cbn [_element].
      destruct (Z.ltb_spec (_key it) k) as [?|_]; [lia|].
      split_and!.
      * by rewrite lookup_insert_eq.
      * split_and!; [|done|done].
        rewrite lookup_insert_ne; [|done]. by rewrite lookup_insert_eq.
      * eapply rep_frame; [apply Hr|]. intros y Hy.
        rewrite !lookup_insert_ne; [done| |].
        -- symmetry. apply Hfresh. by eapply rep_in_heap; [apply Hr|].
        -- by intros ->.
    + pose proof (anchor_in _ _ _ Ha) as Hmin.
      split_and!.
      * rewrite !lookup_insert_ne; [|done|by intros ->].
        by rewrite top_insert.
      * by apply IHl.
      * eapply rep_frame; [apply Hr|]. intros y Hy.
        rewrite !lookup_insert_ne; [done| |].
        -- symmetry. apply Hfresh. by eapply rep_in_heap; [apply Hr|].
        -- intros ->. by apply (Hd _ Hmin).
  - destruct r as [|rl rn rit rr].
    + injection Ha as <-. rewrite E in Hm. injection Hm as <-. cbn [_element].
      destruct (Z.ltb_spec (_key it) k) as [_|?]; [|lia].
      split_and!.
      * by rewrite lookup_insert_eq.
      * eapply rep_frame; [apply Hl|]. intros y Hy.
        rewrite !lookup_insert_ne; [done| |].
        -- symmetry. apply Hfresh. by eapply rep_in_heap; [apply Hl|].
        -- by intros ->.
      * split_and!; [|done|done].
        rewrite lookup_insert_ne; [|done]. by rewrite lookup_insert_eq.
    + pose proof (anchor_in _ _ _ Ha) as Hmin.
      split_and!.
      * rewrite !lookup_insert_ne; [|done|by intros ->].
        by rewrite top_insert.
      * eapply rep_frame; [apply Hl|]. intros y Hy.
        rewrite !lookup_insert_ne; [done| |].
        -- symmetry. apply Hfresh. by eapply rep_in_heap; [apply Hl|].
        -- intros ->. by apply (Hd _ Hy).
      * by apply IHr.
Qed.

Lemma top_splice_ne x t : top t ≠ Some x → top (a_splice x t) = top t.
Proof.
  destruct t as [|l n it r]; [done|]. cbn. intros Hne.
  destruct (Nat.eqb_spec n x) as [->|_]; done.
Qed.

Lemma first_child_in (e : Item) par (a b : atree) bf c :
  first_child (mkNode e par (top a) (top b) bf) = Some c →
  c ∈ nodes a ∨ c ∈ nodes b.
Proof.
  unfold first_child. cbn. destruct (top a) eqn:Ea.
  - intros [= ->]. left. by apply top_in.
  - intros H. right. by apply top_in.
Qed.

(** The subtree and the parent of a node of the tree. *)
Lemma wf_node h bf par t x :
  wf h bf par t → x ∈ nodes t →
  ∃ a e b par',
    subtree x t = Br a x e b
    ∧ wf h bf par' (Br a x e b)
    ∧ h !! x = Some (mkNode e par' (top a) (top b) bf)
    ∧ (top t = Some x ∧ par' = par
       ∨ top t ≠ Some x ∧ ∃ p, par' = Some p ∧ p ∈ nodes t ∧ p ≠ x).
Proof.
  intros Hwf Hx. destruct (subtree_in _ _ Hx) as (a & e & b & Es).
  destruct (wf_subtree _ _ _ _ _ Hwf Hx) as (par' & Hw & Hc).
  rewrite Es in Hw. exists a, e, b, par'.
  pose proof Hw as Hw'. apply wf_Br in Hw' as (E & Hp & _).
  split_and!; try done.
  destruct Hc as [?|[? (p & -> & ?)]]; [by left|right].
  split; [done|]. exists p. split_and!; try done. congruence.
Qed.

Lemma rep_splice h h' bf x xnd :
  h !! x = Some xnd →
  (_left xnd = None ∨ _right xnd = None) →
  (∀ c, first_child xnd = Some c →
        ∃ cnd, h !! c = Some cnd
               ∧ h' !! c = Some (with_parent cnd (_parent xnd))) →
  (∀ p pnd, _parent xnd = Some p → h !! p = Some pnd →
        h' !! p = Some (if bool_decide (_left pnd = Some x)
                        then with_left pnd (first_child xnd)
                        else with_right pnd (first_child xnd))) →
  (∀ y, y ≠ x → first_child xnd ≠ Some y → _parent xnd ≠ Some y →
        h' !! y = h !! y) →
  ∀ t par, wf h bf par t → x ∈ nodes t → rep h' bf par (a_splice x t).
Proof.
  intros Hx H1 Hc Hp Hfr.
  induction t as [|l IHl n it r IHr]; intros par Hwf Hin; [set_solver|].
  pose proof Hwf as Hwf'.
  apply wf_Br in Hwf' as (E & Hpar & Hnl & Hnr & Hd & Hl & Hr).
  cbn [a_splice]. destruct (Nat.eqb_spec n x) as [->|Hne].
  - (* the node to take out is the top of this subtree *)
    rewrite E in Hx. injection Hx as <-. cbn in H1, Hc, Hfr.
    assert (Hsub : ∀ u c ce ul ur,
      u = Br ul c ce ur → first_child (mkNode it par (top l) (top r) bf) = Some c →
      wf h bf (Some x) u → (∀ y, y ∈ nodes u → y ∈ nodes l ∨ y ∈ nodes r) →
      rep h' bf par u).
    { intros u c ce ul ur -> Hfc Hu Hsubset.
      apply wf_Br in Hu as (Ec & _ & Hcl & Hcr & _ & Hul & Hur).
      destruct (Hc c Hfc) as (cnd & Ec1 & Ec2).
      rewrite Ec in Ec1. injection Ec1 as <-.
      assert (Hframe : ∀ y, y ∈ nodes ul ∨ y ∈ nodes ur → h' !! y = h !! y).
      { intros y Hy. apply Hfr.
        - intros ->. destruct (Hsubset x); [cbn; set_solver|done|done].
        - rewrite Hfc. intros [= ->]. by destruct Hy.
        - intros ->. destruct Hwf as (_ & _ & Hout).
          apply (Hout y eq_refl). cbn.
          destruct (Hsubset y); [cbn; set_solver|set_solver|set_solver]. }
      split_and!; [exact Ec2| |].
      - eapply rep_frame; [apply Hul|]. intros y Hy. apply Hframe. by left.
      - eapply rep_frame; [apply Hur|]. intros y Hy. apply Hframe. by right. }
    destruct l as [|ll c lit lr].
    + destruct r as [|rl c rit rr]; [done|].
      eapply Hsub; [done|done|done|]. intros y Hy. by right.
    + eapply Hsub; [done|done|done|]. intros y Hy. by left.
  - (* the node is further down *)
    cbn in Hin.
    assert (Hcases : x ∈ nodes l ∧ x ∉ nodes r ∨ x ∈ nodes r ∧ x ∉ nodes l).
    { apply elem_of_app in Hin as [Hin|Hin].
      - left. split; [done|]. by apply Hd.
      - apply elem_of_cons in Hin as [->|Hin]; [done|]. right. split; [done|].
        intros Hxl. by apply (Hd _ Hxl). }
    destruct Hcases as [[Hxl Hxr]|[Hxr Hxl]].
    + rewrite (splice_notin x r Hxr).
      destruct (wf_node _ _ _ _ _ Hl Hxl)
        as (a & e & b & par' & Es & Hw & Ex & Hcase).
      rewrite Ex in Hx. injection Hx as <-.
      assert (Hfcl : ∀ c, first_child (mkNode e par' (top a) (top b) bf) = Some c
                          → c ∈ nodes l).
      { intros c Hfc. eapply subtree_nodes; [exact Es|].
        apply first_child_in in Hfc. cbn. set_solver. }
      assert (Hparl : ∀ p, par' = Some p → p = n ∨ p ∈ nodes l).
      { intros p ->. destruct Hcase as [[_ [= ->]]|[_ (q & [= ->] & ? & _)]]; auto. }
      split_and!.
      * destruct Hcase as [[Htop ->]|[Htop (p & -> & Hpl & Hpx)]].
        -- rewrite (Hp n _ eq_refl E). cbn [_left].
           rewrite bool_decide_eq_true_2; [|done]. cbn.
           destruct l as [|l1 l2 l3 l4]; [done|]. cbn in Htop.
           injection Htop as ->. cbn in Es. rewrite Nat.eqb_refl in Es.
           injection Es as -> -> ->. cbn. rewrite Nat.eqb_refl.
           unfold first_child. cbn. by destruct a.
        -- rewrite Hfr; [|done| |].
           ++ by rewrite (top_splice_ne _ _ Htop).
           ++ intros Hfc. by apply Hfcl in Hfc.
           ++ cbn. intros [= ->]. done.
      * by apply IHl.
      * eapply rep_frame; [apply Hr|]. intros y Hy. apply Hfr.
        -- by intros ->.
        -- intros Hfc. apply Hfcl in Hfc. by apply (Hd _ Hfc).
        -- cbn. intros ->. destruct (Hparl y eq_refl) as [->|Hyl]; [done|].
           by apply (Hd _ Hyl).
    + rewrite (splice_notin x l Hxl).
      destruct (wf_node _ _ _ _ _ Hr Hxr)
        as (a & e & b & par' & Es & Hw & Ex & Hcase).
      rewrite Ex in Hx. injection Hx as <-.
      assert (Hfcr : ∀ c, first_child (mkNode e par' (top a) (top b) bf) = Some c
                          → c ∈ nodes r).
      { intros c Hfc. eapply subtree_nodes; [exact Es|].
        apply first_child_in in Hfc. cbn. set_solver. }
      assert (Hparr : ∀ p, par' = Some p → p = n ∨ p ∈ nodes r).
      { intros p ->. destruct Hcase as [[_ [= ->]]|[_ (q & [= ->] & ? & _)]]; auto. }
      split_and!.
      * destruct Hcase as [[Htop ->]|[Htop (p & -> & Hpl & Hpx)]].
        -- rewrite (Hp n _ eq_refl E). cbn [_left].
           rewrite bool_decide_eq_false_2.
           2:{ intros Htl. apply top_in in Htl. done. }
           cbn.
           destruct r as [|r1 r2 r3 r4]; [done|]. cbn in Htop.
           injection Htop as ->. cbn in Es. rewrite Nat.eqb_refl in Es.
           injection Es as -> -> ->. cbn. rewrite Nat.eqb_refl.
           unfold first_child. cbn. by destruct a.
        -- rewrite Hfr; [|done| |].
           ++ by rewrite (top_splice_ne _ _ Htop).
           ++ intros Hfc. by apply Hfcr in Hfc.
           ++ cbn. intros [= ->]. done.
      * eapply rep_frame; [apply Hl|]. intros y Hy. apply Hfr.
        -- by intros ->.
        -- intros Hfc. apply Hfcr in Hfc. by apply (Hd _ Hy).
        -- cbn. intros ->. destruct (Hparr y eq_refl) as [->|Hyr]; [done|].
           by apply (Hd _ Hy).
      * by apply IHr.
Qed.

(** ** The mutators on a valid node *)

Lemma is_empty_eq s : is_empty s = (Ok (Z.eqb (_size (self s)) 0), s).
Proof. reflexivity. Qed.

Lemma fresh_None (h : gmap loc Node) : h !! fresh (dom h) = None.
Proof. apply not_elem_of_dom, is_fresh. Qed.

Lemma fresh_ne (h : gmap loc Node) n nd : h !! n = Some nd → n ≠ fresh (dom h).
Proof. intros E ->. rewrite fresh_None in E. done. Qed.

Lemma add_root_ok s e :
  _root (self s) = None →
  _add_root e s
  = (Ok (mkp (ident (self s)) (fresh (dom (heap s)))),
     mkState (mkTree (ident (self s)) (class (self s))
                (Some (fresh (dom (heap s)))) 1)
       (<[fresh (dom (heap s)) :=
            mkNode e None None None (bf_of (class (self s)))]> (heap s))).
Proof.
  intros Hr. unfold _add_root, bind, get_self. rewrite Hr. cbn.
  by destruct (class (self s)).
Qed.

Lemma add_left_ok s m mnd e :
  heap s !! m = Some mnd → _parent mnd ≠ Some m → _left mnd = None →
  _add_left (mkp (ident (self s)) m) e s
  = (Ok (mkp (ident (self s)) (fresh (dom (heap s)))),
     mkState (mkTree (ident (self s)) (class (self s)) (_root (self s))
                (_size (self s) + 1))
       (<[m := with_left mnd (Some (fresh (dom (heap s))))]>
          (<[fresh (dom (heap s)) :=
               mkNode e (Some m) None None (bf_of (class (self s)))]> (heap s)))).
Proof.
  intros E Hp Hl. unfold _add_left.
  rewrite (bind_ok _ _ _ _ _ (validate_ok _ _ _ E Hp)).
  rewrite (bind_ok _ _ _ _ _ (load_ok _ _ _ E)). rewrite Hl.
  unfold bind, get_self, set_size, new_node, set_left, bind, load, store. cbn.
  rewrite lookup_insert_ne; [|symmetry; by eapply fresh_ne].
  rewrite E. cbn. rewrite lookup_insert_eq. cbn.
  by destruct (class (self s)).
Qed.

Lemma add_right_ok s m mnd e :
  heap s !! m = Some mnd → _parent mnd ≠ Some m → _right mnd = None →
  _add_right (mkp (ident (self s)) m) e s
  = (Ok (mkp (ident (self s)) (fresh (dom (heap s)))),
     mkState (mkTree (ident (self s)) (class (self s)) (_root (self s))
                (_size (self s) + 1))
       (<[m := with_right mnd (Some (fresh (dom (heap s))))]>
          (<[fresh (dom (heap s)) :=
               mkNode e (Some m) None None (bf_of (class (self s)))]> (heap s)))).
Proof.
  intros E Hp Hl. unfold _add_right.
  rewrite (bind_ok _ _ _ _ _ (validate_ok _ _ _ E Hp)).
  rewrite (bind_ok _ _ _ _ _ (load_ok _ _ _ E)). rewrite Hl.
  unfold bind, get_self, set_size, new_node, set_right, bind, load, store. cbn.
  rewrite lookup_insert_ne; [|symmetry; by eapply fresh_ne].
  rewrite E. cbn. rewrite lookup_insert_eq. cbn.
  by destruct (class (self s)).
Qed.

(** The insertion hook does not change a tree whose nodes all carry the
    balance factor of their class. *)
Lemma rebalance_insert_ok s t x fuel :
  wf (heap s) (bf_of (class (self s))) None t → x ∈ nodes t →
  depth t < fuel →
  _rebalance_insert fuel (mkp (ident (self s)) x) s = (Ok tt, s).
Proof.
  intros Hwf Hx Hfuel. unfold _rebalance_insert, bind, get_self.
  destruct (class (self s)) eqn:Ec; [done|].
  unfold update_balance_factor_for_add, ret.
  by eapply rebalance_noop.
Qed.

Lemma rebalance_delete_ok s t o fuel :
  wf (heap s) (bf_of (class (self s))) None t →
  (∀ x, o = Some x → x ∈ nodes t) →
  depth t < fuel →
  _rebalance_delete fuel (pos (ident (self s)) o) s = (Ok tt, s).
Proof.
  intros Hwf Hx Hfuel. unfold _rebalance_delete, bind, get_self.
  destruct (class (self s)) eqn:Ec; [done|].
  destruct o as [x|].
  - cbn [pos]. eapply rebalance_noop; [done|by apply Hx|done].
  - destruct fuel; [lia|done].
Qed.

(** ** The invariant *)

Lemma inv_wf s t : Inv s t → wf (heap s) (bf_of (class (self s))) None t.
Proof. intros [? ? ? ? ? ?]. split_and!; done. Qed.

Lemma nodes_nil t : nodes t = [] → t = Lf.
Proof. destruct t as [|l n it r]; [done|]. cbn. by destruct (nodes l). Qed.

Lemma inv_size_0 s t : Inv s t → _size (self s) = 0%Z → t = Lf.
Proof.
  intros HI Hs. apply nodes_nil. pose proof (inv_size _ _ HI) as H.
  rewrite Hs in H. destruct (nodes t); [done|]. cbn in H. lia.
Qed.

Lemma depth_insert nw k v t : depth (a_insert nw k v t) ≤ S (depth t).
Proof.
  induction t as [|l IHl n it r IHr]; cbn; [lia|].
  destruct (Z.eqb k (_key it)); [cbn; lia|].
  destruct (Z.ltb k (_key it)); cbn; lia.
Qed.

Lemma insert_new h bf nw k v t : ∀ par m mnd,
  rep h bf par t → anchor t k = Some m → h !! m = Some mnd →
  _key (_element mnd) ≠ k → nw ∈ nodes (a_insert nw k v t).
Proof.
  induction t as [|l IHl n it r IHr]; intros par m mnd Hrep Ha Hm Hk; [done|].
  destruct Hrep as (E & Hl & Hr). cbn [anchor a_insert] in *.
  destruct (Z.eqb_spec k (_key it)) as [->|Hne].
  { injection Ha as <-. rewrite E in Hm. injection Hm as <-. done. }
  destruct (Z.ltb k (_key it)).
  - destruct l as [|ll ln lit lr]; [cbn; set_solver|].
    specialize (IHl _ _ _ Hl Ha Hm Hk). cbn [nodes]. set_solver.
  - destruct r as [|rl rn rit rr]; [cbn; set_solver|].
    specialize (IHr _ _ _ Hr Ha Hm Hk). cbn [nodes]. set_solver.
Qed.

(** Nodes outside the tree stay as they are when no parent link of an
    existing parentless node is changed. *)
Lemma rest_step (h h' : gmap loc Node) t t' :
  (∀ n nd, h !! n = Some nd → n ∉ nodes t →
           deprecated n nd ∨ left_behind h nd) →
  (∀ n nd', h' !! n = Some nd' → n ∉ nodes t' →
            (h !! n = Some nd' ∧ n ∉ nodes t)
            ∨ deprecated n nd' ∨ left_behind h' nd') →
  (∀ c cnd, h !! c = Some cnd → _parent cnd = None →
            ∃ cnd', h' !! c = Some cnd' ∧ _parent cnd' = None) →
  ∀ n nd', h' !! n = Some nd' → n ∉ nodes t' →
           deprecated n nd' ∨ left_behind h' nd'.
Proof.
  intros Hold Hnew Hpar n nd' En Hn.
  destruct (Hnew _ _ En Hn) as [[En' Hn']|H]; [|done].
  destruct (Hold _ _ En' Hn') as [Hdep|(Hp & H1 & Hc)]; [by left|right].
  split_and!; [done|done|]. intros c Hcc.
  destruct (Hc c Hcc) as (cnd & Ec & Hcp). by eapply Hpar.
Qed.

Lemma setitem_inv s t k v :
  Inv s t → Inv (setitem_state s t k v) (setitem_tree s t k v).
Proof.
  intros HI. pose proof (inv_wf _ _ HI) as Hwf.
  destruct HI as [Hroot Hrep Hnd Hbst Hsize Hrest].
  unfold setitem_state, setitem_tree.
  set (nw := fresh (dom (heap s))).
  assert (Hnw : heap s !! nw = None) by apply fresh_None.
  assert (Hnwt : nw ∉ nodes t).
  { intros Hin. destruct (rep_in_heap _ _ _ _ _ Hrep Hin) as [? E]. congruence. }
  destruct (anchor t k) as [m|] eqn:Ea.
  - destruct (anchor_slot _ _ _ _ _ _ Hwf Ea) as (mnd & Em & Hmp & Hmb & Hmr & Hml).
    pose proof (anchor_in _ _ _ Ea) as Hmin.
    rewrite Em. destruct (Z.eqb_spec (_key (_element mnd)) k) as [Hk|Hk].
    + (* the key is there: the value is overwritten *)
      split; cbn [self heap _root _size class].
      * by rewrite top_replace.
      * by apply rep_replace.
      * by rewrite nodes_replace.
      * apply sorted_bst. erewrite keys_replace; [by apply bst_sorted|done|done|done].
      * by rewrite nodes_replace.
      * rewrite nodes_replace. eapply rest_step; [exact Hrest| |].
        -- intros n nd' En Hn. left. split; [|done].
           rewrite lookup_insert_ne in En; [done|]. by intros ->.
        -- intros c cnd Ec Hcp. destruct (decide (c = m)) as [->|Hne].
           ++ rewrite lookup_insert_eq. eexists. split; [done|].
              rewrite Em in Ec. injection Ec as <-. done.
           ++ rewrite lookup_insert_ne; [|done]. eauto.
    + (* a new node below the anchor *)
      assert (Hin : nw ∈ nodes (a_insert nw k v t)) by (by eapply insert_new).
      assert (Hmnw : m ≠ nw) by (intros ->; congruence).
      assert (Hne : t ≠ Lf) by (by destruct t).
      split; cbn [self heap _root _size class].
      * by rewrite top_insert.
      * by apply rep_insert.
      * by apply nodes_insert_NoDup.
      * by apply bst_insert.
      * pose proof (length_nodes_insert nw k v t). lia.
      * eapply rest_step; [exact Hrest| |].
        -- intros n nd' En Hn. left.
           assert (n ≠ nw) by (by intros ->).
           assert (n ≠ m) by (intros ->; apply Hn; by apply nodes_insert_keep).
           rewrite !lookup_insert_ne in En; [|done|done].
           split; [done|]. intros Hnt. apply Hn. by apply nodes_insert_keep.
        -- intros c cnd Ec Hcp. destruct (decide (c = m)) as [->|Hcm].
           ++ rewrite lookup_insert_eq. eexists. split; [done|].
              rewrite Em in Ec. injection Ec as <-.
              by destruct (Z.ltb (_key (_element mnd)) k).
           ++ rewrite !lookup_insert_ne; [eauto|by intros ->; congruence|done].
  - assert (t = Lf) as ->.
    { destruct (Lf_or_not t) as [|Hne]; [done|].
      destruct (anchor_Some t k Hne) as [? ?]. congruence. }
    destruct (Z.eqb_spec (_size (self s)) 0) as [Hs|Hs]; [|by split].
    split; cbn [self heap _root _size class top nodes rep length app].
    + done.
    + split_and!; [|done|done]. by rewrite lookup_insert_eq.
    + apply NoDup_singleton.
    + split_and!; try done; constructor.
    + cbn. lia.
    + apply (rest_step (heap s) _ Lf (Br Lf nw (mkItem k v) Lf)); [exact Hrest| |].
      * intros n nd' En Hn. left.
        rewrite lookup_insert_ne in En; [|set_solver]. split; [done|set_solver].
      * intros c cnd Ec Hcp.
        rewrite lookup_insert_ne; [eauto|by intros ->; congruence].
Qed.

Lemma bind_assoc {A B C} (m : M A) (f : A → M B) (g : B → M C) s :
  bind (bind m f) g s = bind m (λ x, bind (f x) g) s.
Proof. unfold bind. by destruct (m s) as [[a|e] s']. Qed.

Lemma search_None s fuel k :
  0 < fuel → _subtree_search fuel None k s = (Raise AttributeError, s).
Proof. destruct fuel; [lia|done]. Qed.

Lemma root_inv s t :
  Inv s t → root s = (Ok (pos (ident (self s)) (top t)), s).
Proof. intros HI. rewrite root_ok. by rewrite (inv_root _ _ HI). Qed.

Lemma setitem_run s t k v fuel :
  Inv s t → S (depth t) < fuel →
  __setitem__ fuel k v s = (setitem_result s t, setitem_state s t k v).
Proof.
  intros HI Hfuel. pose proof (setitem_inv s t k v HI) as HI'.
  assert (Hfuel0 : 0 < fuel) by lia.
  assert (Hfuel1 : depth t ≤ fuel) by lia.
  pose proof (inv_wf _ _ HI') as Hwf'. pose proof (inv_wf _ _ HI) as Hwf.
  pose proof (inv_root _ _ HI) as Hroot.
  unfold __setitem__. rewrite (bind_ok _ _ _ _ _ (is_empty_eq s)).
  unfold setitem_state, setitem_tree, setitem_result in *.
  set (nw := fresh (dom (heap s))) in *.
  destruct (Z.eqb_spec (_size (self s)) 0) as [Hs|Hs].
  - rewrite (inv_size_0 _ _ HI Hs) in *. cbn [anchor top] in *.
    cbv beta iota.
    rewrite bind_assoc, (bind_ok _ _ _ _ _ (add_root_ok s _ Hroot)), bind_ret.
    fold nw.
    cbv beta iota.
    match goal with
    | |- _ = (_, ?s1) => apply (rebalance_insert_ok s1 _ nw fuel Hwf')
    end; [cbn; set_solver|cbn; lia].
  - cbv beta iota.
    rewrite bind_assoc, (bind_ok _ _ _ _ _ (root_inv s _ HI)).
    destruct (Lf_or_not t) as [->|Hne].
    + cbn [top pos anchor].
      rewrite bind_assoc, (bind_raise _ _ _ _ _ (search_None s fuel k Hfuel0)).
      done.
    + rewrite bind_assoc, (bind_ok _ _ _ _ _ (search_ok _ _ k _ _ _ Hwf Hne Hfuel1)).
      destruct (anchor t k) as [m|] eqn:Ea; [|destruct (anchor_Some t k Hne) as [? ?]; congruence].
      destruct (anchor_slot _ _ _ _ _ _ Hwf Ea) as (mnd & Em & Hmp & Hmb & Hmr & Hml).
      rewrite Em in *. cbn [pos].
      rewrite bind_assoc, (bind_ok _ _ _ _ _ (key_ok _ _ _ _ Em)).
      destruct t as [|tl tn tit tr]; [done|].
      destruct (Z.eqb_spec (_key (_element mnd)) k) as [Hk|Hk].
      * rewrite bind_assoc. cbn [node_of]. rewrite bind_ret.
        rewrite bind_assoc, (bind_ok _ _ _ _ _ (load_ok _ _ _ Em)).
        rewrite bind_assoc. unfold set_element.
        rewrite bind_assoc, (bind_ok _ _ _ _ _ (load_ok _ _ _ Em)).
        done.
      * rewrite bind_assoc, (bind_ok _ _ _ _ _ (key_ok _ _ _ _ Em)).
        assert (Hin : nw ∈ nodes (a_insert nw k v (Br tl tn tit tr))).
        { eapply insert_new; [apply Hwf|done|done|done]. }
        pose proof (depth_insert nw k v (Br tl tn tit tr)) as Hdep.
        destruct (Z.ltb_spec (_key (_element mnd)) k) as [Hlt|Hge].
        -- rewrite bind_assoc,
             (bind_ok _ _ _ _ _ (add_right_ok s _ _ _ Em Hmp (Hmr Hlt))), bind_ret.
           fold nw.
           cbv beta iota.
           match goal with
           | |- _ = (_, ?s1) => apply (rebalance_insert_ok s1 _ nw fuel Hwf')
           end; [done|lia].
        -- rewrite bind_assoc,
             (bind_ok _ _ _ _ _ (add_left_ok s _ _ _ Em Hmp (Hml ltac:(lia)))), bind_ret.
           fold nw.
           cbv beta iota.
           match goal with
           | |- _ = (_, ?s1) => apply (rebalance_insert_ok s1 _ nw fuel Hwf')
           end; [done|lia].
Qed.

Lemma num_children_ok s n nd :
  heap s !! n = Some nd → _parent nd ≠ Some n →
  num_children (mkp (ident (self s)) n) s = (Ok (num_children_of nd), s).
Proof.
  intros E Hp. unfold num_children.
  rewrite (bind_ok _ _ _ _ _ (validate_ok _ _ _ E Hp)).
  by rewrite (bind_ok _ _ _ _ _ (load_ok _ _ _ E)).
Qed.

Lemma num_children_le1 nd :
  _left nd = None ∨ _right nd = None → Z.eqb (num_children_of nd) 2 = false.
Proof.
  unfold num_children_of. intros [H|H]; rewrite H; by destruct (_left nd), (_right nd).
Qed.

Lemma unlink_child_lookup (h : gmap loc Node) nd c cnd :
  first_child nd = Some c → h !! c = Some cnd →
  unlink_child h nd !! c = Some (with_parent cnd (_parent nd)).
Proof.
  intros Hc Ec. unfold unlink_child. rewrite Hc, Ec. apply lookup_insert_eq.
Qed.

Lemma unlink_child_other (h : gmap loc Node) nd z :
  first_child nd ≠ Some z → unlink_child h nd !! z = h !! z.
Proof.
  intros Hz. unfold unlink_child. destruct (first_child nd) as [c|]; [|done].
  destruct (h !! c); [|done]. rewrite lookup_insert_ne; [done|congruence].
Qed.

Lemma unlink_child_run s nd :
  (∀ c, first_child nd = Some c → is_Some (heap s !! c)) →
  match first_child nd with
  | Some c => set_parent c (_parent nd)
  | None => ret tt
  end s = (Ok tt, mkState (self s) (unlink_child (heap s) nd)).
Proof.
  intros Hc. unfold unlink_child. destruct (first_child nd) as [c|].
  - destruct (Hc c eq_refl) as [cnd Ec]. rewrite Ec. unfold set_parent.
    by rewrite (bind_ok _ _ _ _ _ (load_ok _ _ _ Ec)).
  - by destruct s.
Qed.

Lemma nodes_splice_keep y t : ∀ a e b n,
  NoDup (nodes t) → subtree y t = Br a y e b → a = Lf ∨ b = Lf →
  n ∈ nodes t → n ≠ y → n ∈ nodes (a_splice y t).
Proof.
  induction t as [|l IHl m it r IHr]; intros a e b n Hnd Hs Hab Hn Hny; [done|].
  cbn in Hnd. apply NoDup_app in Hnd as (Hndl & Hd & Hndr).
  apply NoDup_cons in Hndr as [Hm Hndr].
  cbn [subtree a_splice] in *. destruct (Nat.eqb_spec m y) as [->|Hne].
  - injection Hs as -> -> ->. cbn in Hn.
    destruct Hab as [-> | ->].
    + cbn in Hn. set_solver.
    + destruct a; [set_solver|]. cbn in *. set_solver.
  - cbn [nodes]. destruct (subtree y l) eqn:El.
    + assert (y ∉ nodes l).
      { intros Hy. destruct (subtree_in _ _ Hy) as (?&?&?&?). congruence. }
      rewrite (splice_notin y l); [|done].
      cbn in Hn. apply elem_of_app in Hn as [Hn|Hn]; [set_solver|].
      apply elem_of_cons in Hn as [->|Hn]; [set_solver|].
      specialize (IHr _ _ _ _ Hndr Hs Hab Hn Hny). set_solver.
    + assert (Hyl : y ∈ nodes l).
      { eapply subtree_nodes; [exact El|]. rewrite Hs. cbn. set_solver. }
      rewrite (splice_notin y r); [|intros Hy; apply (Hd _ Hyl); set_solver].
      cbn in Hn. apply elem_of_app in Hn as [Hn|Hn]; [|set_solver].
      specialize (IHl _ _ _ _ Hndl Hs Hab Hn Hny). set_solver.
Qed.

Lemma top_splice_top t a y e b :
  t = Br a y e b →
  top (a_splice y t) = first_child (mkNode e None (top a) (top b) None).
Proof.
  intros ->. cbn. rewrite Nat.eqb_refl. unfold first_child. cbn. by destruct a.
Qed.

Lemma subtree_at_top y t a e b :
  top t = Some y → subtree y t = Br a y e b → t = Br a y e b.
Proof.
  destruct t as [|l n it r]; [done|]. cbn. intros [= ->].
  by rewrite Nat.eqb_refl.
Qed.

Lemma top_splice_first y (a : atree) (e : Item) (b : atree) par bf :
  top (a_splice y (Br a y e b))
  = first_child (mkNode e par (top a) (top b) bf).
Proof. cbn. rewrite Nat.eqb_refl. unfold first_child. cbn. by destruct a. Qed.

Lemma set_left_ok s p pnd c :
  heap s !! p = Some pnd →
  set_left p c s = (Ok tt, mkState (self s) (<[p := with_left pnd c]> (heap s))).
Proof. intros E. unfold set_left. by rewrite (bind_ok _ _ _ _ _ (load_ok _ _ _ E)). Qed.

Lemma set_right_ok s p pnd c :
  heap s !! p = Some pnd →
  set_right p c s = (Ok tt, mkState (self s) (<[p := with_right pnd c]> (heap s))).
Proof. intros E. unfold set_right. by rewrite (bind_ok _ _ _ _ _ (load_ok _ _ _ E)). Qed.

Lemma set_parent_ok s p pnd c :
  heap s !! p = Some pnd →
  set_parent p c s = (Ok tt, mkState (self s) (<[p := with_parent pnd c]> (heap s))).
Proof. intros E. unfold set_parent. by rewrite (bind_ok _ _ _ _ _ (load_ok _ _ _ E)). Qed.

Lemma delete_node_run s t y a e b :
  wf (heap s) (bf_of (class (self s))) None t →
  _root (self s) = top t →
  subtree y t = Br a y e b → y ∈ nodes t → a = Lf ∨ b = Lf →
  ∃ res sz h',
    _delete (mkp (ident (self s)) y) s
    = (res, mkState (mkTree (ident (self s)) (class (self s))
                       (top (a_splice y t)) sz) h')
    ∧ (top t = Some y ∧ res = Raise UnboundLocalError ∧ sz = _size (self s)
       ∨ top t ≠ Some y ∧ res = Ok e ∧ sz = (_size (self s) - 1)%Z)
    ∧ rep h' (bf_of (class (self s))) None (a_splice y t)
    ∧ (∀ n, n ∉ nodes t → h' !! n = heap s !! n)
    ∧ (∀ c cnd, heap s !! c = Some cnd → _parent cnd = None →
                ∃ cnd', h' !! c = Some cnd' ∧ _parent cnd' = None)
    ∧ (∃ ynd', h' !! y = Some ynd'
               ∧ (deprecated y ynd' ∨ left_behind h' ynd')).
Proof.
  intros Hwf Hroot Hs Hy Hab.
  destruct (wf_node _ _ _ _ _ Hwf Hy) as (a' & e' & b' & par' & Es & Hw & Ey & Hcase).
  rewrite Hs in Es. injection Es as <- <- <-.
  set (bf := bf_of (class (self s))) in *.
  set (ynd := mkNode e par' (top a) (top b) bf) in *.
  pose proof Hw as Hw'.
  apply wf_Br in Hw' as (_ & Hyp & Hya & Hyb & Hdab & Hwa & Hwb).
  assert (H1 : _left ynd = None ∨ _right ynd = None).
  { destruct Hab as [-> | ->]; [by left|by right]. }
  assert (Hfc : ∀ c, first_child ynd = Some c →
            c ∈ nodes t ∧ c ≠ y ∧ par' ≠ Some c
            ∧ ∃ cnd, heap s !! c = Some cnd ∧ _parent cnd = Some y).
  { intros c Hc. pose proof (first_child_in _ _ _ _ _ _ Hc) as Hin.
    split_and!.
    - eapply subtree_nodes; [exact Hs|]. cbn. set_solver.
    - intros ->. by destruct Hin.
    - intros ->. destruct Hw as (_ & _ & Hout). apply (Hout c eq_refl).
      cbn. set_solver.
    - unfold first_child in Hc. cbn in Hc.
      destruct a as [|a1 c1 a2 a3].
      + destruct b as [|b1 c1 b2 b3]; [done|]. cbn in Hc. injection Hc as ->.
        apply wf_Br in Hwb as (Ec & _). eauto.
      + cbn in Hc. injection Hc as ->.
        apply wf_Br in Hwa as (Ec & _). eauto. }
  assert (Hfc' : ∀ c, first_child ynd = Some c → is_Some (heap s !! c)).
  { intros c Hc. destruct (Hfc c Hc) as (_ & _ & _ & cnd & Ec & _). eauto. }
  assert (Hchild : ∀ c, _left ynd = Some c ∨ _right ynd = Some c →
                        first_child ynd = Some c).
  { intros c. unfold first_child. destruct H1 as [H1|H1]; rewrite H1.
    - by intros [?|?].
    - intros [H|?]; [|done]. by rewrite H. }
  unfold _delete.
  rewrite (bind_ok _ _ _ _ _ (validate_ok _ _ _ Ey Hyp)).
  rewrite (bind_ok _ _ _ _ _ (num_children_ok _ _ _ Ey Hyp)).
  rewrite (num_children_le1 _ H1).
  rewrite (bind_ok _ _ _ _ _ (load_ok _ _ _ Ey)).
  change (match _left ynd with Some l => Some l | None => _right ynd end)
    with (first_child ynd).
  rewrite (bind_ok _ _ _ _ _ (unlink_child_run s ynd Hfc')).
  set (h1 := unlink_child (heap s) ynd).
  assert (Ey1 : h1 !! y = Some ynd).
  { unfold h1. rewrite unlink_child_other; [done|].
    intros Hc. by destruct (Hfc _ Hc) as (_ & ? & _). }
  rewrite (bind_ok get_self _ (mkState (self s) h1) _ _ eq_refl).
  cbn [self _root]. rewrite Hroot.
  destruct Hcase as [[Htop ->]|[Htop (p & -> & Hp & Hpy)]].
  - (* the root: the local variable [parent] is never assigned *)
    rewrite bool_decide_eq_true_2; [|done].
    pose proof (subtree_at_top _ _ _ _ _ Htop Hs) as ->.
    rewrite (top_splice_first y a e b None bf). fold ynd.
    exists (Raise UnboundLocalError), (_size (self s)), h1.
    split_and!.
    + done.
    + left. done.
    + eapply (rep_splice (heap s) h1 bf y ynd Ey H1); [| | |exact Hwf|exact Hy].
      * intros c Hc. destruct (Hfc c Hc) as (_ & _ & _ & cnd & Ec & _).
        exists cnd. split; [done|]. by apply unlink_child_lookup.
      * intros p pnd Hpp. done.
      * intros z _ Hz _. by apply unlink_child_other.
    + intros n Hn. apply unlink_child_other. intros Hc.
      by destruct (Hfc _ Hc) as (? & _).
    + intros c cnd Ec Hcp. exists cnd. split; [|done].
      unfold h1. rewrite unlink_child_other; [done|]. intros Hc.
      destruct (Hfc _ Hc) as (_ & _ & _ & cnd' & Ec' & Hcp'). congruence.
    + exists ynd. split; [done|]. right. split_and!; [done|done|].
      intros c Hc. apply Hchild in Hc.
      destruct (Hfc c Hc) as (_ & _ & _ & cnd & Ec & _).
      eexists. split; [by apply unlink_child_lookup|done].
  - (* a node below the root *)
    rewrite bool_decide_eq_false_2; [|done].
    rewrite (top_splice_ne _ _ Htop).
    destruct (rep_in_heap _ _ _ _ _ (proj1 Hwf) Hp) as [pnd Ep].
    assert (Ep1 : h1 !! p = Some pnd).
    { unfold h1. rewrite unlink_child_other; [done|].
      intros Hc. by destruct (Hfc _ Hc) as (_ & _ & ? & _). }
    set (pnd' := if bool_decide (_left pnd = Some y)
                 then with_left pnd (first_child ynd)
                 else with_right pnd (first_child ynd)).
    set (h2 := <[p := pnd']> h1).
    set (h3 := <[y := with_parent ynd (Some y)]> h2).
    assert (Ey2 : h2 !! y = Some ynd).
    { unfold h2. by rewrite lookup_insert_ne. }
    exists (Ok e), (_size (self s) - 1)%Z, h3.
    split_and!.
    + set (s1 := mkState (self s) h1).
      cbv beta iota.
      rewrite bind_assoc, (bind_ok _ _ _ _ _ (load_ok s1 y ynd Ey1)), bind_ret.
      cbv beta iota. cbn [_parent ynd deref]. rewrite bind_ret.
      rewrite (bind_ok _ _ _ _ _ (load_ok s1 p pnd Ep1)).
      assert (Hstep :
        (if bool_decide (_left pnd = Some y)
         then set_left p (first_child ynd)
         else set_right p (first_child ynd)) s1
        = (Ok tt, mkState (self s) h2)).
      { unfold h2, pnd'. destruct (bool_decide (_left pnd = Some y)).
        - apply (set_left_ok s1 _ _ _ Ep1).
        - apply (set_right_ok s1 _ _ _ Ep1). }
      rewrite (bind_ok _ _ _ _ _ Hstep).
      rewrite (bind_ok get_self _ _ _ _ eq_refl).
      rewrite (bind_ok (set_size _) _ _ _ _ eq_refl).
      cbn [self heap ident class _root _size].
      match goal with
      | |- bind _ _ ?s2 = _ =>
          rewrite (bind_ok _ _ _ _ _ (set_parent_ok s2 y ynd (Some y) Ey2))
      end.
      cbn [self heap]. fold h3.
      match goal with
      | |- bind _ _ ?s3 = _ =>
          rewrite (bind_ok _ _ _ _ _
                     (load_ok s3 y (with_parent ynd (Some y)) ltac:(apply lookup_insert_eq)))
      end.
      by rewrite Hroot.
    + right. done.
    + eapply (rep_splice (heap s) h3 bf y ynd Ey H1); [| | |exact Hwf|exact Hy].
      * intros c Hc. destruct (Hfc c Hc) as (_ & Hcy & Hcp & cnd & Ec & _).
        exists cnd. split; [done|]. unfold h3, h2.
        rewrite lookup_insert_ne by congruence.
        rewrite lookup_insert_ne by congruence.
        by apply unlink_child_lookup.
      * intros p0 pnd0 [= <-] Ep0. rewrite Ep in Ep0. injection Ep0 as <-.
        unfold h3, h2. rewrite lookup_insert_ne; [|done].
        by rewrite lookup_insert_eq.
      * intros z Hzy Hzc Hzp. unfold h3, h2. cbn in Hzp.
        rewrite lookup_insert_ne by congruence.
        rewrite lookup_insert_ne by congruence.
        by apply unlink_child_other.
    + intros n Hn. unfold h3, h2.
      rewrite lookup_insert_ne by (by intros ->).
      rewrite lookup_insert_ne by (by intros ->).
      apply unlink_child_other. intros Hc. by destruct (Hfc _ Hc) as (? & _).
    + intros c cnd Ec Hcp.
      assert (c ≠ y) by (intros ->; rewrite Ey in Ec; by injection Ec as <-).
      destruct (decide (c = p)) as [->|Hcp'].
      * exists pnd'. unfold h3, h2. rewrite lookup_insert_ne by done.
        rewrite lookup_insert_eq. split; [done|].
        rewrite Ep in Ec. injection Ec as <-. unfold pnd'.
        by destruct (bool_decide (_left pnd = Some y)).
      * exists cnd. split; [|done]. unfold h3, h2.
        rewrite lookup_insert_ne by done.
        rewrite lookup_insert_ne by done.
        unfold h1. rewrite unlink_child_other; [done|]. intros Hc.
        destruct (Hfc _ Hc) as (_ & _ & _ & cnd' & Ec' & Hcp''). congruence.
    + exists (with_parent ynd (Some y)). split; [|by left].
      unfold h3. by rewrite lookup_insert_eq.
Qed.

Lemma last_node_Some t : t ≠ Lf → is_Some (last_node t).
Proof.
  induction t as [|l IHl n it r IHr]; [done|]. intros _. cbn.
  destruct r; [done|]. by apply IHr.
Qed.

Lemma last_position_ok s bf t : ∀ par fuel m me,
  wf (heap s) bf par t → last_node t = Some (m, me) → depth t ≤ fuel →
  _subtree_last_position fuel (pos (ident (self s)) (top t)) s
  = (Ok (mkp (ident (self s)) m), s).
Proof.
  induction t as [|l IHl n it r IHr]; intros par fuel m me Hwf Hl Hfuel; [done|].
  apply wf_Br in Hwf as (E & Hp & _ & _ & _ & _ & Hr).
  destruct fuel as [|fuel]; [cbn in Hfuel; lia|]. cbn in Hfuel.
  cbn [_subtree_last_position top pos].
  rewrite (bind_ok _ _ _ _ _ (right_ok _ _ _ E Hp)). cbn [_right last_node] in *.
  destruct r as [|rl rn rit rr].
  - by injection Hl as -> ->.
  - cbn [top pos]. apply (IHr (Some n) _ _ me); [done|done|lia].
Qed.

Lemma replace_ok s x xnd e :
  heap s !! x = Some xnd → _parent xnd ≠ Some x →
  _replace (mkp (ident (self s)) x) e s
  = (Ok (_element xnd),
     mkState (self s) (<[x := with_element xnd e]> (heap s))).
Proof.
  intros E Hp. unfold _replace.
  rewrite (bind_ok _ _ _ _ _ (validate_ok _ _ _ E Hp)).
  rewrite (bind_ok _ _ _ _ _ (load_ok _ _ _ E)). unfold set_element.
  rewrite bind_assoc, (bind_ok _ _ _ _ _ (load_ok _ _ _ E)). done.
Qed.

Lemma depth_splice x t : depth (a_splice x t) ≤ depth t.
Proof.
  induction t as [|l IHl n it r IHr]; cbn; [done|].
  destruct (Nat.eqb n x); [destruct l; cbn; lia|]. cbn. lia.
Qed.

Lemma depth_replace x e t : depth (a_replace x e t) = depth t.
Proof.
  induction t as [|l IHl n it r IHr]; cbn; [done|].
  destruct (Nat.eqb n x); cbn; [done|]. by rewrite IHl, IHr.
Qed.

(** The copy in [AVLTreeMap] runs as the original: the routine it adds
    is a no-op. *)
Lemma delete_eq fuel p s : delete fuel p s = TreeMap_delete fuel p s.
Proof. unfold delete, bind, get_self. by destruct (class (self s)). Qed.

(** The second half of [delete]: the node [y] has at most one child. *)
Lemma delete_tail s t y a e b fuel :
  wf (heap s) (bf_of (class (self s))) None t →
  _root (self s) = top t →
  (Z.of_nat (length (nodes t)) ≤ _size (self s))%Z →
  (∀ n nd, heap s !! n = Some nd → n ∉ nodes t →
           deprecated n nd ∨ left_behind (heap s) nd) →
  bst (a_splice y t) →
  subtree y t = Br a y e b → y ∈ nodes t → a = Lf ∨ b = Lf →
  depth t < fuel →
  Inv ((let! par := parent (mkp (ident (self s)) y) in
        let! _ := _delete (mkp (ident (self s)) y) in
        _rebalance_delete fuel par) s).2 (a_splice y t).
Proof.
  intros Hwf Hroot Hsize Hrest Hbst Hs Hy Hab Hfuel.
  destruct (wf_node _ _ _ _ _ Hwf Hy) as (a' & e' & b' & par' & Es & Hw & Ey & Hcase).
  rewrite Hs in Es. injection Es as <- <- <-.
  pose proof Hw as Hw'. apply wf_Br in Hw' as (_ & Hyp & _).
  rewrite (bind_ok _ _ _ _ _ (parent_ok _ _ _ Ey Hyp)). cbn [_parent].
  destruct (delete_node_run _ _ _ _ _ _ Hwf Hroot Hs Hy Hab)
    as (res & sz & h' & Hrun & Hres & Hrep & Hout & Hpar & ynd' & Ey' & Hgone).
  set (s2 := mkState (mkTree (ident (self s)) (class (self s))
                        (top (a_splice y t)) sz) h') in *.
  assert (HI2 : Inv s2 (a_splice y t)).
  { unfold s2. split; cbn [self heap _root _size class].
    - done.
    - exact Hrep.
    - eapply sublist_NoDup; [apply Hwf|apply nodes_splice_sublist].
    - exact Hbst.
    - pose proof (length_nodes_splice y t Hy).
      destruct Hres as [(_ & _ & ->)|(_ & _ & ->)]; lia.
    - eapply rest_step; [exact Hrest| |exact Hpar].
      intros n nd' En Hn. destruct (decide (n = y)) as [->|Hny].
      + right. rewrite Ey' in En. by injection En as <-.
      + left. assert (n ∉ nodes t).
        { intros Hin. apply Hn.
          eapply nodes_splice_keep; [apply Hwf|exact Hs|done|done|done]. }
        split; [|done]. by rewrite <- Hout. }
  destruct Hres as [(Htop & -> & ->)|(Htop & -> & ->)].
  - by rewrite (bind_raise _ _ _ _ _ Hrun).
  - rewrite (bind_ok _ _ _ _ _ Hrun).
    assert (Hreb : _rebalance_delete fuel (pos (ident (self s)) par') s2
                   = (Ok tt, s2)); [|by rewrite Hreb].
    apply (rebalance_delete_ok s2 (a_splice y t) par' fuel).
    + by apply inv_wf.
    + intros p ->. destruct Hcase as [[? ?]|[_ (q & [= ->] & Hq & Hqy)]]; [done|].
      eapply nodes_splice_keep; [apply Hwf|exact Hs|done|done|done].
    + pose proof (depth_splice y t). lia.
Qed.

(** [delete] at a node of the tree. *)
Lemma delete_in s t x fuel :
  Inv s t → x ∈ nodes t → depth t < fuel →
  ∃ t', Inv (delete fuel (mkp (ident (self s)) x) s).2 t'
        ∧ items t' `sublist_of` items t.
Proof.
  intros HI Hx Hfuel. pose proof (inv_wf _ _ HI) as Hwf.
  destruct HI as [Hroot Hrep Hnd Hbst Hsize Hrest].
  destruct (wf_node _ _ _ _ _ Hwf Hx) as (a & e & b & par' & Es & Hw & Ex & Hcase).
  pose proof Hw as Hw'.
  apply wf_Br in Hw' as (_ & Hxp & Hxa & Hxb & Hdab & Hwa & Hwb).
  rewrite delete_eq. unfold TreeMap_delete.
  rewrite (bind_ok _ _ _ _ _ (validate_ok _ _ _ Ex Hxp)).
  rewrite (bind_ok _ _ _ _ _ (left_ok _ _ _ Ex Hxp)). cbn [_left].
  assert (Hone : a = Lf ∨ b = Lf →
    ∃ t', Inv ((let! par := parent (mkp (ident (self s)) x) in
                let! _ := _delete (mkp (ident (self s)) x) in
                _rebalance_delete fuel par) s).2 t'
          ∧ items t' `sublist_of` items t).
  { intros Hab. exists (a_splice x t). split; [|apply items_splice_sublist].
    eapply delete_tail; try done.
    eapply bst_sublist; [apply items_splice_sublist|done]. }
  destruct a as [|a1 an ae a2].
  { cbn [top pos]. rewrite bind_ret. cbv beta iota. rewrite bind_ret.
    apply Hone. by left. }
  cbn [top pos].
  rewrite bind_assoc, (bind_ok _ _ _ _ _ (right_ok _ _ _ Ex Hxp)), bind_ret.
  cbn [_right].
  destruct b as [|b1 bn be b2].
  { cbn [top pos]. rewrite bool_decide_eq_false_2; [|by intros H; apply H].
    cbv beta iota. rewrite bind_ret. apply Hone. by right. }
  clear Hone. cbn [top pos]. rewrite bool_decide_eq_true_2; [|done].
  cbv beta iota.
  set (a := Br a1 an ae a2) in *. set (b := Br b1 bn be b2) in *.
  destruct (last_node_Some a ltac:(done)) as [[m me] Hlast].
  pose proof (last_node_in _ _ _ Hlast) as Hma.
  destruct (last_node_subtree _ _ _ (proj1 (proj2 Hwa)) Hlast) as [ml Hml].
  destruct (wf_node _ _ _ _ _ Hwa Hma) as (ma & me' & mb & pm & Esm & Hwm & Em & _).
  rewrite Hml in Esm. injection Esm as <- <- <-.
  assert (Hmx : m ≠ x) by (by intros ->).
  assert (Hmt : m ∈ nodes t).
  { eapply subtree_nodes; [exact Es|]. cbn. set_solver. }
  rewrite bind_assoc.
  assert (Hlp : _subtree_last_position fuel (mkp (ident (self s)) an) s
                = (Ok (mkp (ident (self s)) m), s)).
  { apply (last_position_ok s _ a (Some x) fuel m me Hwa Hlast).
    pose proof (depth_subtree x t) as Hd. rewrite Es in Hd.
    unfold a, b in *. cbn in Hd |- *. lia. }
  rewrite (bind_ok _ _ _ _ _ Hlp).
  rewrite bind_assoc, (bind_ok _ _ _ _ _ (element_ok _ _ _ _ Em)). cbn [_element].
  rewrite bind_assoc, (bind_ok _ _ _ _ _ (replace_ok _ _ _ _ Ex Hxp)), bind_ret.
  set (xnd := mkNode e par' (top a) (top b) (bf_of (class (self s)))) in *.
  set (s1 := mkState (self s) (<[x := with_element xnd me]> (heap s))).
  set (t1 := a_replace x me t).
  assert (Hwf1 : wf (heap s1) (bf_of (class (self s1))) None t1).
  { split_and!.
    - by apply rep_replace.
    - unfold t1. by rewrite nodes_replace.
    - done. }
  assert (Hmt1 : m ∈ nodes t1) by (unfold t1; by rewrite nodes_replace).
  destruct (wf_node _ _ _ _ _ Hwf1 Hmt1) as (a' & e' & b' & pm' & Es1 & _ & Em1 & _).
  cbn [heap s1] in Em1. rewrite lookup_insert_ne in Em1 by done.
  rewrite Em in Em1. injection Em1 as <- _ Ha' Hb'.
  assert (b' = Lf) as -> by (by apply top_None).
  exists (a_splice m t1). split.
  - apply (delete_tail s1 t1 m a' me Lf fuel); try done.
    + unfold t1. by rewrite top_replace.
    + unfold t1. by rewrite nodes_replace.
    + unfold t1. rewrite nodes_replace. cbn [heap s1].
      eapply rest_step; [exact Hrest| |].
      * intros n nd' En Hn. left. split; [|done].
        rewrite lookup_insert_ne in En; [done|]. by intros ->.
      * intros c cnd Ec Hcp. destruct (decide (c = x)) as [->|Hne].
        -- rewrite lookup_insert_eq. eexists. split; [done|].
           rewrite Ex in Ec. by injection Ec as <-.
        -- rewrite lookup_insert_ne by done. eauto.
    + eapply bst_sublist; [|exact Hbst]. by eapply items_delete2.
    + by right.
    + unfold t1. by rewrite depth_replace.
  - by eapply items_delete2.
Qed.

(** ** Positions that [_validate] rejects *)

Lemma validate_None s :
  _validate None s = (Raise (TypeError "p must be proper Position type"), s).
Proof. reflexivity. Qed.

Lemma validate_foreign s c n :
  c ≠ ident (self s) →
  _validate (Some (mkPos c n)) s
  = (Raise (ValueError "p does not belong to this container"), s).
Proof.
  intros Hc. cbn. unfold bind, get_self. cbn.
  by rewrite (proj2 (Nat.eqb_neq _ _) Hc).
Qed.

Lemma validate_deprecated s n nd :
  heap s !! n = Some nd → _parent nd = Some n →
  _validate (mkp (ident (self s)) n) s
  = (Raise (ValueError "p is no longer valid"), s).
Proof.
  intros E Hp. cbn. unfold bind, get_self. cbn.
  rewrite Nat.eqb_refl. cbn. rewrite (load_ok _ _ _ E).
  by rewrite bool_decide_eq_true_2.
Qed.

Lemma validate_dangling s n :
  heap s !! n = None →
  _validate (mkp (ident (self s)) n) s = (Raise Dangling, s).
Proof.
  intros E. cbn. unfold bind, get_self. cbn.
  rewrite Nat.eqb_refl. cbn. unfold load. by rewrite E.
Qed.

Lemma with_parent_same (nd : Node) : with_parent nd (_parent nd) = nd.
Proof. by destruct nd. Qed.

Lemma unlink_child_left_behind (h : gmap loc Node) nd :
  left_behind h nd → unlink_child h nd = h.
Proof.
  intros (Hp & H1 & Hc). unfold unlink_child.
  destruct (first_child nd) as [c|] eqn:Efc; [|done].
  destruct (Hc c) as (cnd & Ec & Hcp).
  { unfold first_child in Efc. destruct (_left nd); [left; congruence|by right]. }
  rewrite Ec, Hp, <- Hcp, with_parent_same. by apply insert_id.
Qed.

(** [delete] at a position that is not a node of the tree leaves the
    state as it is. *)
Lemma delete_out s t p fuel :
  Inv s t →
  (∀ x, p = mkp (ident (self s)) x → x ∉ nodes t) →
  (delete fuel p s).2 = s.
Proof.
  intros HI Hp. rewrite delete_eq. destruct p as [[c n]|]; [|done].
  unfold TreeMap_delete.
  destruct (decide (c = ident (self s))) as [->|Hc];
    [|by rewrite (bind_raise _ _ _ _ _ (validate_foreign _ _ _ Hc))].
  specialize (Hp n eq_refl).
  destruct (heap s !! n) as [nd|] eqn:En;
    [|by rewrite (bind_raise _ _ _ _ _ (validate_dangling _ _ En))].
  destruct (inv_rest _ _ HI _ _ En Hp) as [Hdep|Hlb];
    [by rewrite (bind_raise _ _ _ _ _ (validate_deprecated _ _ _ En Hdep))|].
  pose proof Hlb as (Hpar & H1 & Hch).
  assert (Hnp : _parent nd ≠ Some n) by (by rewrite Hpar).
  rewrite (bind_ok _ _ _ _ _ (validate_ok _ _ _ En Hnp)).
  rewrite (bind_ok _ _ _ _ _ (left_ok _ _ _ En Hnp)).
  assert (Htwo : (match pos (ident (self s)) (_left nd) with
                  | Some _ =>
                      let! r := right (mkp (ident (self s)) n) in
                      ret (bool_decide (r ≠ None))
                  | None => ret false
                  end) s = (Ok false, s)).
  { destruct (_left nd) as [l|] eqn:El; [|done]. cbn [pos].
    rewrite (bind_ok _ _ _ _ _ (right_ok _ _ _ En Hnp)).
    destruct H1 as [H1|H1]; [done|]. rewrite H1. cbn [pos].
    unfold ret. by rewrite bool_decide_eq_false_2; [|intros H; apply H]. }
  rewrite (bind_ok _ _ _ _ _ Htwo). cbv beta iota. rewrite bind_ret.
  rewrite (bind_ok _ _ _ _ _ (parent_ok _ _ _ En Hnp)).
  assert (Hdel : _delete (mkp (ident (self s)) n) s = (Raise AttributeError, s)).
  { unfold _delete.
    rewrite (bind_ok _ _ _ _ _ (validate_ok _ _ _ En Hnp)).
    rewrite (bind_ok _ _ _ _ _ (num_children_ok _ _ _ En Hnp)).
    rewrite (num_children_le1 _ H1).
    rewrite (bind_ok _ _ _ _ _ (load_ok _ _ _ En)).
    change (match _left nd with Some l => Some l | None => _right nd end)
      with (first_child nd).
    assert (Hfc : ∀ c, first_child nd = Some c → is_Some (heap s !! c)).
    { intros c Hc. destruct (Hch c) as (cnd & Ec & _); [|by eauto].
      unfold first_child in Hc. destruct (_left nd); [left; congruence|by right]. }
    rewrite (bind_ok _ _ _ _ _ (unlink_child_run s nd Hfc)).
    rewrite (unlink_child_left_behind _ _ Hlb).
    replace (mkState (self s) (heap s)) with s by (by destruct s).
    rewrite (bind_ok get_self _ _ _ _ eq_refl).
    rewrite bool_decide_eq_false_2.
    2:{ rewrite (inv_root _ _ HI). intros Ht. by apply top_in in Ht. }
    rewrite bind_assoc, (bind_ok _ _ _ _ _ (load_ok _ _ _ En)), bind_ret.
    cbv beta iota. by rewrite Hpar. }
  by rewrite (bind_raise _ _ _ _ _ Hdel).
Qed.

(** ** Every public operation keeps the invariant *)

Lemma enough_depth s t : Inv s t → S (depth t) < enough s.
Proof.
  intros HI. unfold enough.
  pose proof (depth_le_nodes t).
  pose proof (nodes_le_heap _ _ _ _ (inv_rep _ _ HI) (inv_nodup _ _ HI)). lia.
Qed.

Lemma delete_inv s t p fuel :
  Inv s t → depth t < fuel → ∃ t', Inv (delete fuel p s).2 t'.
Proof.
  intros HI Hfuel.
  destruct p as [[c n]|]; [|exists t; by rewrite (delete_out s t None fuel HI)].
  destruct (decide (c = ident (self s) ∧ n ∈ nodes t)) as [[-> Hn]|Hout].
  - destruct (delete_in _ _ _ _ HI Hn Hfuel) as (t' & HI' & _). eauto.
  - exists t. rewrite (delete_out s t _ fuel HI); [done|].
    intros x [= -> ->] Hx. by apply Hout.
Qed.

Lemma delitem_inv s t k fuel :
  Inv s t → depth t < fuel → ∃ t', Inv (__delitem__ fuel k s).2 t'.
Proof.
  intros HI Hfuel. pose proof (inv_wf _ _ HI) as Hwf.
  assert (Hfuel0 : 0 < fuel) by lia.
  assert (Hfuel1 : depth t ≤ fuel) by lia.
  unfold __delitem__. rewrite (bind_ok _ _ _ _ _ (is_empty_eq s)).
  destruct (Z.eqb (_size (self s)) 0); [by exists t|].
  cbn [negb]. cbv beta iota.
  rewrite bind_assoc, (bind_ok _ _ _ _ _ (root_inv s _ HI)).
  destruct (Lf_or_not t) as [->|Hne].
  { cbn [top pos].
    rewrite bind_assoc, (bind_raise _ _ _ _ _ (search_None s fuel k Hfuel0)).
    by exists Lf. }
  rewrite bind_assoc,
    (bind_ok _ _ _ _ _ (search_ok _ _ k _ _ _ Hwf Hne Hfuel1)).
  destruct (anchor_Some t k Hne) as [m Ea]. rewrite Ea.
  destruct (anchor_slot _ _ _ _ _ _ Hwf Ea) as (mnd & Em & _).
  cbn [pos]. rewrite bind_assoc, (bind_ok _ _ _ _ _ (key_ok _ _ _ _ Em)).
  destruct (Z.eqb k (_key (_element mnd))); [|by exists t].
  destruct (delete_in _ _ _ _ HI (anchor_in _ _ _ Ea) Hfuel) as (t' & HI' & _).
  exists t'. rewrite bind_assoc.
  destruct (delete fuel (mkp (ident (self s)) m) s) as [[[]|err] s'] eqn:Ed;
    cbn in HI'.
  - by rewrite (bind_ok _ _ _ _ _ Ed).
  - by rewrite (bind_raise _ _ _ _ _ Ed).
Qed.

Lemma apply_op_inv s t o : Inv s t → ∃ t', Inv (apply_op o s).2 t'.
Proof.
  intros HI. pose proof (enough_depth _ _ HI) as Hfuel.
  destruct o as [k v|k|p]; cbn [apply_op].
  - exists (setitem_tree s t k v).
    rewrite (setitem_run _ _ _ _ _ HI Hfuel). by apply setitem_inv.
  - apply (delitem_inv s t); [done|lia].
  - apply (delete_inv s t); [done|lia].
Qed.

Lemma init_inv i c : Inv (init i c) (Lf : atree).
Proof.
  split; cbn; try done; constructor.
Qed.

Lemma apply_ops_inv ops : ∀ s t, Inv s t → ∃ t', Inv (apply_ops ops s) t'.
Proof.
  induction ops as [|o ops IH]; intros s t HI; [by exists t|].
  destruct (apply_op_inv _ _ o HI) as [t1 HI1].
  cbn. by apply (IH _ t1).
Qed.

(** ** The in-order traversal of a tree that satisfies the invariant *)

Lemma inorder_keys_inv s t fuel :
  Inv s t → depth t ≤ fuel →
  ∃ r, inorder_keys fuel s = (keys t, r, s)
       ∧ (t ≠ Lf ∨ _size (self s) = 0%Z → r = Ok tt).
Proof.
  intros HI Hfuel. pose proof (inv_wf _ _ HI) as Hwf.
  unfold inorder_keys, inorder.
  rewrite (glift_ok _ _ _ _ _ (is_empty_eq s)).
  destruct (Z.eqb_spec (_size (self s)) 0) as [Hs|Hs]; cbn [negb].
  { rewrite (inv_size_0 _ _ HI Hs). cbn. eauto. }
  rewrite (glift_ok _ _ _ _ _ (root_inv s _ HI)).
  destruct (Lf_or_not t) as [->|Hne].
  - cbn [top pos]. exists (match fuel with
                           | O => Raise OutOfFuel
                           | S _ => Raise (TypeError "p must be proper Position type")
                           end).
    split; [by destruct fuel|]. intros [?|?]; done.
  - rewrite (gyield_from_ok _ _ _ _ _
               (subtree_inorder_ok _ _ _ _ _ Hwf Hne Hfuel)).
    unfold gdone. rewrite app_nil_r.
    rewrite (keys_of_ok s _ _ _ (rep_items _ _ _ _ (inv_rep _ _ HI))).
    eauto.
Qed.

Lemma reachable_inv s : reachable s → ∃ t, Inv s t.
Proof. intros (i & c & ops & ->). eapply apply_ops_inv, init_inv. Qed.

(** C6: after every sequence of [__setitem__], [__delitem__] and [delete]
    operations on a new tree (of either class; an operation that raises
    leaves the tree as it is at that point), the keys that the in-order
    traversal yields are strictly ascending, so no key is yielded twice. *)
Theorem inorder_strictly_ascending (i : tid) (c : Class) (ops : list op) :
  StronglySorted Z.lt
    (inorder_keys (enough (apply_ops ops (init i c)))
       (apply_ops ops (init i c))).1.1.
Proof.
  destruct (apply_ops_inv ops _ _ (init_inv i c)) as [t HI].
  destruct (inorder_keys_inv _ _ (enough (apply_ops ops (init i c))) HI)
    as (r & -> & _).
  - pose proof (enough_depth _ _ HI). lia.
  - cbn. apply bst_sorted, (inv_bst _ _ HI).
Qed.

Lemma anchor_found h bf k t : ∀ par,
  rep h bf par t → bst t → k ∈ keys t →
  ∃ m mnd, anchor t k = Some m ∧ h !! m = Some mnd
           ∧ _key (_element mnd) = k.
Proof.
  induction t as [|l IHl n it r IHr]; intros par Hrep Hbst Hk.
  { by apply elem_of_nil in Hk. }
  destruct Hrep as (E & Hl & Hr). destruct Hbst as (Hbl & Hbr & Hlt & Hgt).
  rewrite keys_Br in Hk. rewrite Forall_forall in Hlt, Hgt. cbn [anchor].
  destruct (Z.eqb_spec k (_key it)) as [->|Hne].
  { eexists _, _. split_and!; [done|exact E|done]. }
  apply elem_of_app in Hk as [Hk|Hk];
    [|apply elem_of_cons in Hk as [->|Hk]; [done|]].
  - pose proof (Hlt _ Hk). destruct (Z.ltb_spec k (_key it)); [|lia].
    destruct l as [|ll ln lit lr]; [by apply elem_of_nil in Hk|].
    by eapply IHl.
  - pose proof (Hgt _ Hk). destruct (Z.ltb_spec k (_key it)); [lia|].
    destruct r as [|rl rn rit rr]; [by apply elem_of_nil in Hk|].
    by eapply IHr.
Qed.


(** ** AVLTreeMap against TreeMap *)

Lemma plain_setitem_state s t k v :
  setitem_state (plain s) t k v = plain (setitem_state s t k v).
Proof.
  unfold setitem_state, plain. cbn [heap self ident class _root _size].
  rewrite dom_fmap_L. destruct (anchor t k) as [m|].
  - rewrite lookup_fmap. destruct (heap s !! m) as [mnd|]; cbn; [|done].
    destruct (Z.eqb (_key (_element mnd)) k); cbn.
    + by rewrite fmap_insert.
    + rewrite !fmap_insert. by destruct (Z.ltb (_key (_element mnd)) k).
  - destruct (Z.eqb (_size (self s)) 0); cbn; [|done]. by rewrite fmap_insert.
Qed.

Lemma plain_setitem_tree s t k v :
  setitem_tree (plain s) t k v = setitem_tree s t k v.
Proof.
  unfold setitem_tree, plain. cbn [heap self ident class _root _size].
  rewrite dom_fmap_L. destruct (anchor t k) as [m|]; [|done].
  rewrite lookup_fmap. by destruct (heap s !! m) as [mnd|].
Qed.

Lemma enough_plain s : enough (plain s) = enough s.
Proof. unfold enough, plain. cbn. by rewrite map_size_fmap. Qed.

Lemma setitem_uniform s t k v :
  uniform s → uniform (setitem_state s t k v).
Proof.
  intros Hu. unfold setitem_state.
  destruct (anchor t k) as [m|].
  - destruct (heap s !! m) as [mnd|] eqn:Em; [|done].
    destruct (Z.eqb (_key (_element mnd)) k); intros n nd; cbn.
    + destruct (decide (n = m)) as [->|Hne].
      * rewrite lookup_insert_eq. intros [= <-]. cbn. by eapply Hu.
      * rewrite lookup_insert_ne by done. apply Hu.
    + destruct (decide (n = m)) as [->|Hne].
      * rewrite lookup_insert_eq. intros [= <-].
        destruct (Z.ltb (_key (_element mnd)) k); cbn; by eapply Hu.
      * rewrite lookup_insert_ne by done.
        destruct (decide (n = fresh (dom (heap s)))) as [->|Hne'].
        -- rewrite lookup_insert_eq. by intros [= <-].
        -- rewrite lookup_insert_ne by done. apply Hu.
  - destruct (Z.eqb (_size (self s)) 0); [|done]. intros n nd. cbn.
    destruct (decide (n = fresh (dom (heap s)))) as [->|Hne'].
    + rewrite lookup_insert_eq. by intros [= <-].
    + rewrite lookup_insert_ne by done. apply Hu.
Qed.

Lemma setitem_class s t k v :
  class (self (setitem_state s t k v)) = class (self s)
  ∧ ident (self (setitem_state s t k v)) = ident (self s).
Proof.
  unfold setitem_state. destruct (anchor t k) as [m|].
  - destruct (heap s !! m) as [mnd|]; [|done].
    by destruct (Z.eqb (_key (_element mnd)) k).
  - by destruct (Z.eqb (_size (self s)) 0).
Qed.

Lemma inserts_plain kvs : ∀ s t,
  Inv s t → Inv (plain s) t → uniform s →
  plain (apply_ops (inserts kvs) s) = apply_ops (inserts kvs) (plain s)
  ∧ uniform (apply_ops (inserts kvs) s)
  ∧ class (self (apply_ops (inserts kvs) s)) = class (self s)
  ∧ ident (self (apply_ops (inserts kvs) s)) = ident (self s).
Proof.
  induction kvs as [|[k v] kvs IH]; intros s t HI HIp Hu; [done|].
  cbn [inserts map apply_ops fold_left apply_op fst snd].
  rewrite enough_plain.
  rewrite (setitem_run _ _ k v _ HI (enough_depth _ _ HI)).
  pose proof (enough_depth _ _ HIp) as Hdp. rewrite enough_plain in Hdp.
  rewrite (setitem_run _ _ k v _ HIp Hdp). cbn [snd].
  rewrite plain_setitem_state.
  pose proof (setitem_inv _ _ k v HI) as HI'.
  pose proof (setitem_inv _ _ k v HIp) as HIp'.
  rewrite plain_setitem_state, plain_setitem_tree in HIp'.
  destruct (IH _ _ HI' HIp' (setitem_uniform _ _ _ _ Hu)) as (H1 & H2 & H3 & H4).
  destruct (setitem_class s t k v) as [Hc Hi].
  split_and!; [exact H1|exact H2|by rewrite <- Hc|by rewrite <- Hi].
Qed.

(** C10: for every sequence of insertions, the [AVLTreeMap] that results
    is, node for node (identities, items, parent and child links, root,
    size), the [TreeMap] that the same insertions build; every node has
    the balance factor 0 and passes [_isbalanced]; and the three
    balance-factor routines change nothing. *)
Theorem avl_inserts_as_plain (i : tid) (kvs : list (Z * V)) :
  plain (apply_ops (inserts kvs) (init i AVLTreeMapC))
  = apply_ops (inserts kvs) (init i TreeMapC)
  ∧ (∀ n nd,
       heap (apply_ops (inserts kvs) (init i AVLTreeMapC)) !! n = Some nd →
       _balance_factor nd = Some 0%Z
       ∧ _isbalanced (mkp i n) (apply_ops (inserts kvs) (init i AVLTreeMapC))
         = (Ok true, apply_ops (inserts kvs) (init i AVLTreeMapC)))
  ∧ (∀ p s, update_balance_factor_for_add p s = (Ok tt, s)
            ∧ update_balance_factor_for_delete p s = (Ok tt, s)
            ∧ update_balance_factor_for_rotate p s = (Ok tt, s)).
Proof.
  assert (Hp : plain (init i AVLTreeMapC) = (init i TreeMapC : State)).
  { unfold plain, init. cbn. by rewrite fmap_empty. }
  destruct (inserts_plain kvs (init i AVLTreeMapC) Lf) as (H1 & H2 & H3 & H4).
  - apply init_inv.
  - rewrite Hp. apply init_inv.
  - intros n nd E. cbn in E. by rewrite lookup_empty in E.
  - rewrite Hp in H1. split_and!; [exact H1| |done].
    intros n nd E. pose proof (H2 _ _ E) as Hb. rewrite H3 in Hb. cbn in Hb.
    split; [done|]. by eapply isbalanced_ok.
Qed.

(** ** The successor of a position *)

Lemma first_node_head t : first_node t = nodes t !! 0.
Proof.
  induction t as [|l IHl n it r IHr]; [done|]. cbn.
  destruct l as [|ll ln lit lr]; [done|].
  rewrite IHl. rewrite lookup_app_l; [done|].
  cbn. rewrite length_app. cbn. lia.
Qed.

Lemma first_node_Some t : t ≠ Lf → is_Some (first_node t).
Proof.
  induction t as [|l IHl n it r IHr]; [done|]. intros _. cbn.
  destruct l; [done|]. by apply IHl.
Qed.

Lemma first_position_ok s bf t : ∀ par fuel f,
  wf (heap s) bf par t → first_node t = Some f → depth t ≤ fuel →
  _subtree_first_position fuel (pos (ident (self s)) (top t)) s
  = (Ok (mkp (ident (self s)) f), s).
Proof.
  induction t as [|l IHl n it r IHr]; intros par fuel f Hwf Hf Hfuel; [done|].
  apply wf_Br in Hwf as (E & Hp & _ & _ & _ & Hl & _).
  destruct fuel as [|fuel]; [cbn in Hfuel; lia|]. cbn in Hfuel.
  cbn [_subtree_first_position top pos].
  rewrite (bind_ok _ _ _ _ _ (left_ok _ _ _ E Hp)). cbn [_left first_node] in *.
  destruct l as [|ll ln lit lr].
  - by injection Hf as ->.
  - cbn [top pos]. apply (IHl (Some n)); [done|done|lia].
Qed.

Lemma after_right s n nd c fuel :
  heap s !! n = Some nd → _parent nd ≠ Some n → _right nd = Some c →
  after fuel (mkp (ident (self s)) n) s
  = _subtree_first_position fuel (mkp (ident (self s)) c) s.
Proof.
  intros E Hp Hr. unfold after.
  rewrite (bind_ok _ _ _ _ _ (validate_ok _ _ _ E Hp)).
  rewrite (bind_ok _ _ _ _ _ (right_ok _ _ _ E Hp)). by rewrite Hr.
Qed.

Lemma after_up s n nd fuel :
  heap s !! n = Some nd → _parent nd ≠ Some n → _right nd = None →
  after fuel (mkp (ident (self s)) n) s
  = after_walk fuel (mkp (ident (self s)) n)
      (pos (ident (self s)) (_parent nd)) s.
Proof.
  intros E Hp Hr. unfold after.
  rewrite (bind_ok _ _ _ _ _ (validate_ok _ _ _ E Hp)).
  rewrite (bind_ok _ _ _ _ _ (right_ok _ _ _ E Hp)). rewrite Hr. cbn [pos].
  by rewrite (bind_ok _ _ _ _ _ (parent_ok _ _ _ E Hp)).
Qed.

Lemma after_walk_climb s m mnd w rest :
  heap s !! m = Some mnd → _parent mnd ≠ Some m → _right mnd = Some w →
  after_walk (S rest) (mkp (ident (self s)) w) (mkp (ident (self s)) m) s
  = after_walk rest (mkp (ident (self s)) m)
      (pos (ident (self s)) (_parent mnd)) s.
Proof.
  intros E Hp Hr. cbn [after_walk].
  rewrite (bind_ok _ _ _ _ _ (right_ok _ _ _ E Hp)). rewrite Hr.
  cbn [pos pos_eq _node]. rewrite Nat.eqb_refl.
  by rewrite (bind_ok _ _ _ _ _ (parent_ok _ _ _ E Hp)).
Qed.

Lemma after_walk_stop s m mnd w rest :
  heap s !! m = Some mnd → _parent mnd ≠ Some m → _right mnd ≠ Some w →
  after_walk (S rest) (mkp (ident (self s)) w) (mkp (ident (self s)) m) s
  = (Ok (mkp (ident (self s)) m), s).
Proof.
  intros E Hp Hr. cbn [after_walk].
  rewrite (bind_ok _ _ _ _ _ (right_ok _ _ _ E Hp)).
  destruct (_right mnd) as [c|]; cbn [pos pos_eq _node]; [|done].
  destruct (Nat.eqb_spec c w) as [->|Hne]; [done|done].
Qed.

Lemma lookup_after_middle {A} (l1 l2 : list A) x j :
  (l1 ++ x :: l2) !! (length l1 + S j) = l2 !! j.
Proof.
  rewrite lookup_app_r by lia.
  replace (length l1 + S j - length l1) with (S j) by lia. done.
Qed.

(** [after] in a subtree: the next node of the in-order list, or, at the
    last node, the upward walk that leaves the subtree through its top. *)
Lemma after_idx s bf t : ∀ par j n,
  wf (heap s) bf par t → nodes t !! j = Some n →
  match nodes t !! S j with
  | Some x => ∀ fuel, depth t ≤ fuel →
      after fuel (mkp (ident (self s)) n) s = (Ok (mkp (ident (self s)) x), s)
  | None => ∃ d, d < depth t ∧ ∀ rest,
      after (d + rest) (mkp (ident (self s)) n) s
      = after_walk rest (pos (ident (self s)) (top t))
          (pos (ident (self s)) par) s
  end.
Proof.
  induction t as [|l IHl m it r IHr]; intros par j n Hwf Hj; [done|].
  apply wf_Br in Hwf as (E & Hp & Hml & Hmr & Hd & Hl & Hr).
  cbn [nodes depth top] in *.
  destruct (lt_eq_lt_dec j (length (nodes l))) as [[Hlt|Heq]|Hgt].
  - (* a node of the left subtree *)
    rewrite lookup_app_l in Hj by done.
    specialize (IHl (Some m) j n Hl Hj).
    destruct (decide (S j < length (nodes l))) as [Hs|Hs].
    + rewrite lookup_app_l by done.
      destruct (nodes l !! S j) eqn:E1; [|apply lookup_ge_None in E1; lia].
      intros fuel Hf. apply IHl. lia.
    + rewrite list_lookup_middle by lia.
      rewrite (lookup_ge_None_2 (nodes l) (S j)) in IHl by lia.
      destruct IHl as (d & Hdl & Hw). intros fuel Hf.
      replace fuel with (d + S (fuel - d - 1)) by lia. rewrite Hw.
      destruct l as [|ll ln lit lr]; [cbn in Hlt; lia|]. cbn [top pos].
      apply (after_walk_stop s m _ ln _ E Hp). cbn [_right].
      intros Htr. apply top_in in Htr. apply (Hd ln); [cbn; set_solver|done].
  - (* the top of the subtree *)
    subst j. rewrite list_lookup_middle in Hj by done. injection Hj as <-.
    replace (S (length (nodes l))) with (length (nodes l) + 1) by lia.
    rewrite lookup_after_middle, <- first_node_head.
    destruct (first_node r) as [f|] eqn:Ef.
    + intros fuel Hf. destruct r as [|rl rn rit rr]; [done|].
      rewrite (after_right s m _ rn fuel E Hp eq_refl).
      apply (first_position_ok s bf (Br rl rn rit rr) (Some m)); [done|done|lia].
    + destruct (Lf_or_not r) as [->|Hne];
        [|destruct (first_node_Some r Hne) as [? ?]; congruence].
      exists 0. split; [lia|]. intros rest. cbn [plus].
      by rewrite (after_up s m _ rest E Hp eq_refl).
  - (* a node of the right subtree *)
    replace j with (length (nodes l) + S (j - length (nodes l) - 1)) in * by lia.
    set (j' := j - length (nodes l) - 1) in *.
    rewrite lookup_after_middle in Hj.
    replace (S (length (nodes l) + S j')) with (length (nodes l) + S (S j')) by lia.
    rewrite lookup_after_middle.
    specialize (IHr (Some m) j' n Hr Hj).
    destruct (nodes r !! S j') eqn:E1.
    + intros fuel Hf. apply IHr. lia.
    + destruct IHr as (d & Hdr & Hw). exists (S d). split; [lia|].
      intros rest. replace (S d + rest) with (d + S rest) by lia. rewrite Hw.
      destruct r as [|rl rn rit rr]; [done|]. cbn [top pos].
      by rewrite (after_walk_climb s m _ rn rest E Hp eq_refl).
Qed.

Lemma after_top s t j n fuel :
  Inv s t → nodes t !! j = Some n → depth t < fuel →
  after fuel (mkp (ident (self s)) n) s
  = (Ok (pos (ident (self s)) (nodes t !! S j)), s).
Proof.
  intros HI Hj Hfuel.
  pose proof (after_idx s _ t None j n (inv_wf _ _ HI) Hj) as H.
  destruct (nodes t !! S j) as [x|]; [apply H; lia|].
  destruct H as (d & Hd & Hw).
  replace fuel with (d + S (fuel - d - 1)) by lia. rewrite Hw.
  by destruct (top t).
Qed.

(** ** Range queries *)

Lemma pair_of_ok s i n nd :
  heap s !! n = Some nd →
  pair_of (mkp i n) s = (Ok (_key (_element nd), _value (_element nd)), s).
Proof.
  intros E. unfold pair_of.
  rewrite (bind_ok _ _ _ _ _ (key_ok _ _ _ _ E)).
  by rewrite (bind_ok _ _ _ _ _ (value_ok _ _ _ _ E)).
Qed.

Lemma pairs_of_ok s i ns : ∀ its,
  Forall2 (λ n it, ∃ nd, heap s !! n = Some nd ∧ _element nd = it) ns its →
  pairs_of (map (λ x, mkp i x) ns) s
  = (map (λ it, (_key it, _value it)) its, Ok tt, s).
Proof.
  induction ns as [|n ns IH]; intros its H2.
  - by apply Forall2_nil_inv_l in H2 as ->.
  - apply Forall2_cons_inv_l in H2 as (it & its' & (nd & E & <-) & H2 & ->).
    cbn [map pairs_of].
    rewrite (glift_ok _ _ _ _ _ (pair_of_ok _ _ _ _ E)).
    unfold gyield. by rewrite (IH _ H2).
Qed.

Lemma inorder_pairs_inv s t fuel :
  Inv s t → depth t ≤ fuel → (inorder_pairs fuel s).1.1 = pairs t.
Proof.
  intros HI Hfuel. pose proof (inv_wf _ _ HI) as Hwf.
  unfold inorder_pairs, inorder.
  rewrite (glift_ok _ _ _ _ _ (is_empty_eq s)).
  destruct (Z.eqb_spec (_size (self s)) 0) as [Hs|Hs]; cbn [negb].
  { by rewrite (inv_size_0 _ _ HI Hs). }
  rewrite (glift_ok _ _ _ _ _ (root_inv s _ HI)).
  destruct (Lf_or_not t) as [->|Hne]; [by destruct fuel|].
  rewrite (gyield_from_ok _ _ _ _ _
             (subtree_inorder_ok _ _ _ _ _ Hwf Hne Hfuel)).
  unfold gdone. rewrite app_nil_r.
  by rewrite (pairs_of_ok s _ _ _ (rep_items _ _ _ _ (inv_rep _ _ HI))).
Qed.

Lemma length_pairs t : length (pairs t) = length (nodes t).
Proof. unfold pairs. by rewrite length_map, length_nodes_items. Qed.

Lemma pairs_keys t : map fst (pairs t) = keys t.
Proof.
  unfold pairs, keys. rewrite map_map. by apply map_ext.
Qed.

(** The node at index [j] of the in-order list, in the store. *)
Lemma node_at s t j n :
  Inv s t → nodes t !! j = Some n →
  ∃ nd, heap s !! n = Some nd
        ∧ pairs t !! j = Some (_key (_element nd), _value (_element nd)).
Proof.
  intros HI Hj.
  destruct (Forall2_lookup_l _ _ _ _ _ (rep_items _ _ _ _ (inv_rep _ _ HI)) Hj)
    as (it & Hit & nd & E & <-).
  exists nd. split; [done|]. unfold pairs.
  by rewrite list_lookup_fmap, Hit.
Qed.

Lemma range_loop s t stop inner :
  Inv s t → depth t < inner →
  ∀ fuel j n, nodes t !! j = Some n → length (nodes t) - j < fuel →
  find_range_loop fuel inner (mkp (ident (self s)) n) stop s
  = (take_while (λ kv, below stop kv.1) (drop j (pairs t)), Ok tt, s).
Proof.
  intros HI Hinner. induction fuel as [|fuel IH]; intros j n Hj Hf; [lia|].
  destruct (node_at _ _ _ _ HI Hj) as (nd & E & Hpj).
  rewrite (drop_S _ _ _ Hpj). cbn [take_while fst find_range_loop].
  assert (Hgo : (match stop with
                 | None => ret true
                 | Some stop =>
                     let! pk := key (mkp (ident (self s)) n) in
                     ret (Z.ltb pk stop)
                 end) s = (Ok (below stop (_key (_element nd))), s)).
  { destruct stop as [b|]; [|done].
    by rewrite (bind_ok _ _ _ _ _ (key_ok _ _ _ _ E)). }
  rewrite (glift_ok _ _ _ _ _ Hgo).
  destruct (below stop (_key (_element nd))); [|done].
  rewrite (glift_ok _ _ _ _ _ (pair_of_ok _ _ _ _ E)). unfold gyield.
  rewrite (glift_ok _ _ _ _ _ (after_top _ _ _ _ _ HI Hj Hinner)).
  pose proof (lookup_lt_Some _ _ _ Hj) as Hlt.
  destruct (nodes t !! S j) as [x|] eqn:Ex; cbn [pos].
  - rewrite (IH (S j) x Ex); [done|lia].
  - apply lookup_ge_None in Ex.
    rewrite (drop_ge (pairs t) (S j)) by (rewrite length_pairs; lia).
    destruct fuel; [lia|done].
Qed.

Lemma take_middle {A} (l1 l2 : list A) x : take (length l1) (l1 ++ x :: l2) = l1.
Proof. apply take_app_length. Qed.

Lemma drop_middle {A} (l1 l2 : list A) x j :
  drop (length l1 + S j) (l1 ++ x :: l2) = drop j l2.
Proof.
  rewrite drop_app_ge by lia.
  replace (length l1 + S j - length l1) with (S j) by lia. done.
Qed.

Lemma length_keys t : length (keys t) = length (nodes t).
Proof. unfold keys. by rewrite length_map, length_nodes_items. Qed.

(** Where the search for [k] stops: the keys before that node are smaller
    than [k], the keys after it are greater. *)
Lemma anchor_split k t :
  bst t → t ≠ Lf →
  ∃ j m, anchor t k = Some m ∧ nodes t !! j = Some m
         ∧ Forall (λ x, (x < k)%Z) (take j (keys t))
         ∧ Forall (λ x, (k < x)%Z) (drop (S j) (keys t)).
Proof.
  induction t as [|l IHl n it r IHr]; [done|]. intros (Hbl & Hbr & Hlt & Hgt) _.
  cbn [anchor nodes]. rewrite keys_Br.
  assert (Hmid : ∀ km, (km = k ∨ (km < k)%Z ∧ r = Lf ∨ (k < km)%Z ∧ l = Lf) →
            km = _key it →
            ∃ j m, Some n = Some m ∧ (nodes l ++ n :: nodes r) !! j = Some m
              ∧ Forall (λ x, (x < k)%Z) (take j (keys l ++ km :: keys r))
              ∧ Forall (λ x, (k < x)%Z) (drop (S j) (keys l ++ km :: keys r))).
  { intros km Hc ->. exists (length (nodes l)), n. split_and!; [done| | |].
    - by apply list_lookup_middle.
    - rewrite <- length_keys, take_middle.
      destruct Hc as [<-|[[? ->]|[? ->]]]; [done| |done].
      eapply Forall_impl; [exact Hlt|]. cbn. intros; lia.
    - replace (S (length (nodes l))) with (length (keys l) + 1)
        by (rewrite length_keys; lia).
      rewrite drop_middle. cbn.
      destruct Hc as [<-|[[? ->]|[? ->]]]; [done|done|].
      eapply Forall_impl; [exact Hgt|]. cbn. intros; lia. }
  destruct (Z.eqb_spec k (_key it)) as [Hk|Hk];
    [apply (Hmid (_key it)); [by left|done]|].
  destruct (Z.ltb_spec k (_key it)) as [Hklt|Hkge].
  - destruct (Lf_or_not l) as [->|Hne];
      [apply (Hmid (_key it)); [by right; right|done]|].
    destruct (IHl Hbl Hne) as (j & m & Ha & Hj & Hpre & Hpost).
    pose proof (lookup_lt_Some _ _ _ Hj) as Hjl. rewrite <- length_keys in Hjl.
    exists j, m. split_and!.
    + by destruct l.
    + by apply lookup_app_l_Some.
    + by rewrite take_app_le by lia.
    + rewrite drop_app_le by lia. apply Forall_app. split; [done|].
      constructor; [done|]. eapply Forall_impl; [exact Hgt|]. cbn. intros; lia.
  - destruct (Lf_or_not r) as [->|Hne];
      [apply (Hmid (_key it)); [right; left; split; [lia|done]|done]|].
    destruct (IHr Hbr Hne) as (j & m & Ha & Hj & Hpre & Hpost).
    exists (length (nodes l) + S j), m. split_and!.
    + by destruct r.
    + by rewrite lookup_after_middle.
    + rewrite <- length_keys. rewrite take_app_ge by lia.
      replace (length (keys l) + S j - length (keys l)) with (S j) by lia.
      cbn. apply Forall_app. split.
      * eapply Forall_impl; [exact Hlt|]. cbn. intros; lia.
      * constructor; [lia|done].
    + replace (S (length (nodes l) + S j)) with (length (keys l) + S (S j))
        by (rewrite length_keys; lia).
      by rewrite drop_middle.
Qed.

Lemma filter_none {A} (f : A → bool) l :
  Forall (λ x, f x = false) l → List.filter f l = [].
Proof. induction 1 as [|x l Hx _ IH]; cbn; [done|]. by rewrite Hx. Qed.

Lemma filter_same {A} (f g : A → bool) l :
  Forall (λ x, f x = g x) l → List.filter f l = List.filter g l.
Proof. induction 1 as [|x l Hx _ IH]; cbn; [done|]. by rewrite Hx, IH. Qed.

Lemma filter_below_sorted (l : list (Z * V)) stop :
  StronglySorted Z.lt (map fst l) →
  List.filter (λ kv, below stop kv.1) l = take_while (λ kv, below stop kv.1) l.
Proof.
  induction l as [|[k v] l IH]; [done|]. cbn [map fst].
  intros Hs. apply StronglySorted_cons in Hs as [Hall Hs]. cbn.
  destruct (below stop k) eqn:Hb; [by rewrite IH|].
  apply filter_none. rewrite Forall_forall in Hall. apply Forall_forall.
  intros [k' v'] Hin. cbn.
  assert (k < k')%Z.
  { apply Hall. apply list_elem_of_In, in_map_iff. exists (k', v').
    split; [done|]. by apply list_elem_of_In. }
  destruct stop as [b|]; [|done]. cbn in *. lia.
Qed.

Lemma filter_in_range (l : list (Z * V)) j start stop :
  StronglySorted Z.lt (map fst l) →
  Forall (λ k, above start k = false) (take j (map fst l)) →
  Forall (λ k, above start k = true) (drop j (map fst l)) →
  List.filter (λ kv, in_range start stop kv.1) l
  = take_while (λ kv, below stop kv.1) (drop j l).
Proof.
  intros Hs Hpre Hpost. rewrite <- (take_drop j l) at 1.
  rewrite List.filter_app.
  rewrite firstn_map in Hpre. rewrite skipn_map in Hpost.
  rewrite Forall_map in Hpre, Hpost.
  rewrite filter_none.
  2:{ eapply Forall_impl; [exact Hpre|]. cbn. intros kv H.
      unfold in_range. by rewrite H. }
  cbn [app]. rewrite (filter_same _ (λ kv, below stop kv.1)).
  2:{ eapply Forall_impl; [exact Hpost|]. cbn. intros kv H.
      unfold in_range. by rewrite H. }
  apply filter_below_sorted.
  eapply StronglySorted_sublist; [|exact Hs].
  rewrite <- skipn_map. apply sublist_drop.
Qed.

Lemma len_eq s : __len__ s = (Ok (_size (self s)), s).
Proof. reflexivity. Qed.

Lemma find_position_ok s t k fuel :
  Inv s t → t ≠ Lf → depth t ≤ fuel → _size (self s) ≠ 0%Z →
  find_position fuel k s = (Ok (pos (ident (self s)) (anchor t k)), s).
Proof.
  intros HI Hne Hfuel Hs. unfold find_position.
  rewrite (bind_ok _ _ _ _ _ (is_empty_eq s)).
  rewrite (proj2 (Z.eqb_neq _ _) Hs).
  rewrite (bind_ok _ _ _ _ _ (root_inv s _ HI)).
  by rewrite (bind_ok _ _ _ _ _ (search_ok _ _ k _ _ _ (inv_wf _ _ HI) Hne Hfuel)).
Qed.

Lemma find_range_inv s t start stop fuel :
  Inv s t → S (length (nodes t)) < fuel →
  (find_range fuel start stop s).1.1
  = List.filter (λ kv, in_range start stop kv.1) (pairs t).
Proof.
  intros HI Hfuel. pose proof (inv_wf _ _ HI) as Hwf.
  pose proof (depth_le_nodes t) as Hdep.
  unfold find_range. rewrite (glift_ok _ _ _ _ _ (is_empty_eq s)).
  destruct (Z.eqb_spec (_size (self s)) 0) as [Hs|Hs]; cbn [negb].
  { by rewrite (inv_size_0 _ _ HI Hs). }
  destruct (Lf_or_not t) as [->|Hne].
  - (* the root is [None] although the size is not zero *)
    destruct fuel as [|fuel]; [lia|].
    destruct start as [a|].
    + assert (Hm : (let! p := find_position (S fuel) a in
                    let! pk := key p in
                    if Z.ltb pk a then after (S fuel) p else ret p) s
                   = (Raise AttributeError, s)).
      { unfold find_position.
        rewrite bind_assoc, (bind_ok _ _ _ _ _ (is_empty_eq s)).
        rewrite (proj2 (Z.eqb_neq _ _) Hs).
        by rewrite bind_assoc, (bind_ok _ _ _ _ _ (root_inv s _ HI)). }
      by rewrite (glift_raise _ _ _ _ _ Hm).
    + unfold first, glift. rewrite (bind_ok _ _ _ _ _ (len_eq s)).
      destruct (Z.ltb 0 (_size (self s))); [|done].
      by rewrite (bind_ok _ _ _ _ _ (root_inv s _ HI)).
  - assert (Hstart : ∃ j,
      (match start with
       | None => first fuel
       | Some start =>
           let! p := find_position fuel start in
           let! pk := key p in
           if Z.ltb pk start then after fuel p else ret p
       end) s = (Ok (pos (ident (self s)) (nodes t !! j)), s)
      ∧ Forall (λ k, above start k = false) (take j (keys t))
      ∧ Forall (λ k, above start k = true) (drop j (keys t))).
    { destruct start as [a|].
      - destruct (anchor_split a t (inv_bst _ _ HI) Hne)
          as (j & m & Ha & Hj & Hpre & Hpost).
        destruct (node_at _ _ _ _ HI Hj) as (nd & E & Hpj).
        assert (Hkj : keys t !! j = Some (_key (_element nd))).
        { rewrite <- pairs_keys, list_lookup_fmap, Hpj. done. }
        rewrite (bind_ok _ _ _ _ _
                   (find_position_ok s t a fuel HI Hne ltac:(lia) Hs)).
        rewrite Ha. cbn [pos].
        rewrite (bind_ok _ _ _ _ _ (key_ok _ _ _ _ E)).
        destruct (Z.ltb_spec (_key (_element nd)) a) as [Hlt|Hge].
        + exists (S j). split_and!.
          * apply (after_top _ _ _ _ _ HI Hj). lia.
          * rewrite (take_S_r _ _ _ Hkj). apply Forall_app. split.
            -- eapply Forall_impl; [exact Hpre|]. cbn. intros; lia.
            -- constructor; [cbn; lia|done].
          * eapply Forall_impl; [exact Hpost|]. cbn. intros; lia.
        + exists j. split_and!.
          * by rewrite Hj.
          * eapply Forall_impl; [exact Hpre|]. cbn. intros; lia.
          * rewrite (drop_S _ _ _ Hkj). constructor; [cbn; lia|].
            eapply Forall_impl; [exact Hpost|]. cbn. intros; lia.
      - exists 0. split_and!; [|done|by apply Forall_true].
        unfold first. rewrite (bind_ok _ _ _ _ _ (len_eq s)).
        pose proof (inv_size _ _ HI).
        destruct (Z.ltb_spec 0 (_size (self s))); [|lia].
        rewrite (bind_ok _ _ _ _ _ (root_inv s _ HI)).
        destruct (first_node_Some t Hne) as [f Hf].
        rewrite <- first_node_head, Hf. cbn [pos].
        apply (first_position_ok s _ t None fuel f Hwf Hf). lia. }
    destruct Hstart as (j & Hrun & Hpre & Hpost).
    rewrite (glift_ok _ _ _ _ _ Hrun).
    rewrite (filter_in_range (pairs t) j start stop).
    + destruct (nodes t !! j) as [n|] eqn:Hj; cbn [pos].
      * rewrite (range_loop s t stop fuel HI ltac:(lia) fuel j n Hj); [done|lia].
      * apply lookup_ge_None in Hj.
        rewrite (drop_ge (pairs t) j) by (rewrite length_pairs; lia).
        destruct fuel; [lia|done].
    + rewrite pairs_keys. apply bst_sorted, (inv_bst _ _ HI).
    + by rewrite pairs_keys.
    + by rewrite pairs_keys.
Qed.

Lemma filter_sublist {A} (f : A → bool) l : List.filter f l `sublist_of` l.
Proof.
  induction l as [|x l IH]; cbn; [done|].
  destruct (f x); [by apply sublist_skip|by apply sublist_cons].
Qed.

Lemma map_fst_filter (f : Z → bool) (l : list (Z * V)) :
  map fst (List.filter (λ kv, f kv.1) l) = List.filter f (map fst l).
Proof.
  induction l as [|[k v] l IH]; cbn; [done|].
  destruct (f k); cbn; by rewrite IH.
Qed.

Lemma enough_nodes s t : Inv s t → S (length (nodes t)) < enough s.
Proof.
  intros HI. unfold enough.
  pose proof (nodes_le_heap _ _ _ _ (inv_rep _ _ HI) (inv_nodup _ _ HI)). lia.
Qed.

(** C7: in every reachable tree, [find_range(start, stop)] yields exactly
    the pairs of the map (in-order traversal) whose key [k] satisfies
    [start <= k < stop], a bound [None] being no bound, and it yields them
    in strictly ascending key order; over the keys 2, 5, 7, 10, 12, 18,
    [find_range(5, 15)] yields the keys 5, 7, 10, 12 in that order. *)
Theorem find_range_yields (s : State) (start stop : option Z) :
  reachable s →
  (find_range (enough s) start stop s).1.1
  = List.filter (λ kv, in_range start stop kv.1)
      (inorder_pairs (enough s) s).1.1
  ∧ StronglySorted Z.lt (map fst (find_range (enough s) start stop s).1.1)
  ∧ (map fst (inorder_pairs (enough s) s).1.1 = [2; 5; 7; 10; 12; 18]%Z →
     map fst (find_range (enough s) (Some 5%Z) (Some 15%Z) s).1.1
     = [5; 7; 10; 12]%Z).
Proof.
  intros Hreach. destruct (reachable_inv _ Hreach) as [t HI].
  pose proof (enough_nodes _ _ HI) as Hn.
  pose proof (enough_depth _ _ HI) as Hd.
  rewrite !(find_range_inv _ _ _ _ _ HI Hn).
  rewrite (inorder_pairs_inv _ _ _ HI) by lia.
  split_and!; [done| |].
  - eapply StronglySorted_sublist;
      [apply fmap_sublist, filter_sublist|].
    rewrite pairs_keys. apply bst_sorted, (inv_bst _ _ HI).
  - intros Hk. rewrite map_fst_filter, Hk. reflexivity.
Qed.

(** ** Invalid positions *)

Lemma validate_invalid s p : invalid s p → rejects (_validate (Some p)) s.
Proof.
  destruct p as [c n]. intros Hinv.
  destruct (decide (c = ident (self s))) as [->|Hc].
  - destruct Hinv as [?|(nd & E & Hp)]; [done|]. cbn in E, Hp.
    eexists. by apply (validate_deprecated _ _ _ E Hp).
  - eexists. by apply validate_foreign.
Qed.

Lemma rejects_bind {A B} (m : M A) (f : A → M B) s :
  rejects m s → rejects (bind m f) s.
Proof. intros [msg E]. exists msg. by rewrite (bind_raise _ _ _ _ _ E). Qed.

Lemma rejects_glift {A B} (m : M B) (k : B → Gen A) s :
  rejects m s → rejects_gen (glift m k) s.
Proof. intros [msg E]. exists msg. by rewrite (glift_raise _ _ _ _ _ E). Qed.

(** C9 (as amended): the accessors, the mutators and the navigation
    operations listed here validate their position first: for a position
    of another tree, or of a deprecated node, each of them raises
    [ValueError] and leaves the state as it was; [delete] is among them. *)
Theorem invalid_position_rejected (s : State) (p : Position) (fuel : nat)
  (e : Item) :
  invalid s p →
  rejects (_validate (Some p)) s
  ∧ rejects (parent (Some p)) s
  ∧ rejects (left (Some p)) s
  ∧ rejects (right (Some p)) s
  ∧ rejects (num_children (Some p)) s
  ∧ rejects (is_leaf (Some p)) s
  ∧ rejects (sibling (Some p)) s
  ∧ rejects (height (S fuel) (Some p)) s
  ∧ rejects_gen (children (Some p)) s
  ∧ rejects_gen (_subtree_inorder (S fuel) (Some p)) s
  ∧ rejects (_add_left (Some p) e) s
  ∧ rejects (_add_right (Some p) e) s
  ∧ rejects (_replace (Some p) e) s
  ∧ rejects (_delete (Some p)) s
  ∧ rejects (_subtree_first_position (S fuel) (Some p)) s
  ∧ rejects (_subtree_last_position (S fuel) (Some p)) s
  ∧ rejects (before fuel (Some p)) s
  ∧ rejects (after fuel (Some p)) s
  ∧ rejects (_restructure (Some p)) s
  ∧ rejects (delete fuel (Some p)) s.
Proof.
  intros Hinv. pose proof (validate_invalid _ _ Hinv) as Hv.
  assert (Hl : rejects (left (Some p)) s) by (by apply rejects_bind).
  assert (Hr : rejects (right (Some p)) s) by (by apply rejects_bind).
  assert (Hpa : rejects (parent (Some p)) s) by (by apply rejects_bind).
  assert (Hn : rejects (num_children (Some p)) s) by (by apply rejects_bind).
  assert (Hlf : rejects (is_leaf (Some p)) s) by (by apply rejects_bind).
  split_and!; try done; try (by apply rejects_bind);
    try (by apply rejects_glift).
  - destruct Hlf as [msg E]. exists msg. unfold height.
    rewrite bind_ret. cbn [_height2]. by rewrite (bind_raise _ _ _ _ _ E).
  - destruct Hv as [msg E]. exists msg. rewrite delete_eq.
    unfold TreeMap_delete. by rewrite (bind_raise _ _ _ _ _ E).
Qed.

(** ** Lookup *)

Lemma StronglySorted_lt_NoDup (l : list Z) : StronglySorted Z.lt l → NoDup l.
Proof.
  induction 1 as [|x l Hs IH Hx]; constructor; [|done].
  intros Hin. rewrite Forall_forall in Hx. specialize (Hx _ Hin). lia.
Qed.

Lemma pairs_unique t k v v' :
  bst t → (k, v) ∈ pairs t → (k, v') ∈ pairs t → v = v'.
Proof.
  intros Hb H1 H2.
  apply list_elem_of_lookup in H1 as [i Hi], H2 as [j Hj].
  assert (Hnd : NoDup (map fst (pairs t))).
  { rewrite pairs_keys. by apply StronglySorted_lt_NoDup, bst_sorted. }
  assert (i = j) as ->.
  { eapply NoDup_lookup; [exact Hnd| |].
    - by rewrite list_lookup_fmap, Hi.
    - by rewrite list_lookup_fmap, Hj. }
  congruence.
Qed.

Lemma anchor_pair s t k m mnd :
  Inv s t → anchor t k = Some m → heap s !! m = Some mnd →
  (_key (_element mnd), _value (_element mnd)) ∈ pairs t.
Proof.
  intros HI Ha Em. apply anchor_in in Ha.
  apply list_elem_of_lookup in Ha as [j Hj].
  destruct (node_at _ _ _ _ HI Hj) as (nd & E & Hp).
  rewrite Em in E. injection E as <-. by eapply list_elem_of_lookup_2.
Qed.

Lemma anchor_missing s t k m mnd :
  Inv s t → anchor t k = Some m → heap s !! m = Some mnd →
  _key (_element mnd) ≠ k → k ∉ keys t.
Proof.
  intros HI Ha Em Hk Hin.
  destruct (anchor_found _ _ _ _ _ (inv_rep _ _ HI) (inv_bst _ _ HI) Hin)
    as (m' & mnd' & Ha' & Em' & Hk').
  congruence.
Qed.

Lemma inv_nonempty s t : Inv s t → t ≠ Lf → _size (self s) ≠ 0%Z.
Proof.
  intros HI Hne Hs. pose proof (inv_size _ _ HI).
  destruct t; [done|]. cbn in *. rewrite length_app in *. cbn in *. lia.
Qed.

Lemma getitem_run s t k fuel :
  Inv s t → t ≠ Lf → depth t ≤ fuel →
  ∃ m mnd, anchor t k = Some m ∧ heap s !! m = Some mnd
    ∧ __getitem__ fuel k s
      = (if Z.eqb k (_key (_element mnd))
         then Ok (_value (_element mnd)) else Raise (KeyError k), s).
Proof.
  intros HI Hne Hfuel. pose proof (inv_wf _ _ HI) as Hwf.
  destruct (anchor_Some t k Hne) as [m Ea].
  destruct (anchor_slot _ _ _ _ _ _ Hwf Ea) as (mnd & Em & _).
  exists m, mnd. split_and!; [done|done|].
  unfold __getitem__. rewrite (bind_ok _ _ _ _ _ (is_empty_eq s)).
  rewrite (proj2 (Z.eqb_neq _ _) (inv_nonempty _ _ HI Hne)).
  rewrite (bind_ok _ _ _ _ _ (root_inv s _ HI)).
  rewrite (bind_ok _ _ _ _ _ (search_ok _ _ k _ _ _ Hwf Hne Hfuel)).
  rewrite Ea. cbn [pos]. unfold _rebalance_access. rewrite bind_ret.
  rewrite (bind_ok _ _ _ _ _ (key_ok _ _ _ _ Em)).
  destruct (Z.eqb k (_key (_element mnd))); cbn [negb]; [|done].
  by rewrite (value_ok _ _ _ _ Em).
Qed.

Lemma getitem_in s t k v fuel :
  Inv s t → depth t ≤ fuel → (k, v) ∈ pairs t →
  __getitem__ fuel k s = (Ok v, s).
Proof.
  intros HI Hfuel Hin.
  assert (Hne : t ≠ Lf) by (intros ->; by apply elem_of_nil in Hin).
  destruct (getitem_run _ _ k _ HI Hne Hfuel) as (m & mnd & Ea & Em & ->).
  assert (Hk : k ∈ keys t).
  { rewrite <- pairs_keys. apply list_elem_of_fmap. by exists (k, v). }
  destruct (anchor_found _ _ _ _ _ (inv_rep _ _ HI) (inv_bst _ _ HI) Hk)
    as (m' & mnd' & Ea' & Em' & Hk').
  rewrite Ea in Ea'. injection Ea' as <-. rewrite Em in Em'. injection Em' as <-.
  rewrite Hk', Z.eqb_refl.
  pose proof (anchor_pair _ _ _ _ _ HI Ea Em) as Hp. rewrite Hk' in Hp.
  by rewrite (pairs_unique _ _ _ _ (inv_bst _ _ HI) Hin Hp).
Qed.

Lemma getitem_notin s t k fuel :
  Inv s t → depth t ≤ fuel → 0 < fuel → k ∉ keys t →
  __getitem__ fuel k s
  = (Raise (match _root (self s) with
            | Some _ => KeyError k
            | None => if Z.eqb (_size (self s)) 0
                      then KeyError k else AttributeError
            end), s).
Proof.
  intros HI Hfuel Hf0 Hk. rewrite (inv_root _ _ HI).
  destruct (Lf_or_not t) as [->|Hne].
  - cbn [top]. unfold __getitem__. rewrite (bind_ok _ _ _ _ _ (is_empty_eq s)).
    destruct (Z.eqb (_size (self s)) 0); [done|].
    rewrite (bind_ok _ _ _ _ _ (root_inv s _ HI)). cbn [top pos].
    by rewrite (bind_raise _ _ _ _ _ (search_None s fuel k Hf0)).
  - destruct (getitem_run _ _ k _ HI Hne Hfuel) as (m & mnd & Ea & Em & ->).
    destruct (Z.eqb_spec k (_key (_element mnd))) as [->|Hkm].
    + exfalso. apply Hk. rewrite <- pairs_keys. apply list_elem_of_fmap.
      eexists. split; [|by eapply anchor_pair]. done.
    + by destruct t.
Qed.

Lemma inorder_pairs_reach s t :
  Inv s t →
  (inorder_pairs (enough s) s).1.1 = pairs t
  ∧ (inorder_keys (enough s) s).1.1 = keys t.
Proof.
  intros HI. pose proof (enough_depth _ _ HI) as Hd. split.
  - apply inorder_pairs_inv; [done|lia].
  - destruct (inorder_keys_inv _ _ (enough s) HI ltac:(lia)) as (r & -> & _).
    done.
Qed.

(** X1: in a map that holds the pair [(k, v)], [t[k]] returns [v] and
    changes nothing. *)
Theorem getitem_found (s : State) (k : Z) (v : V) (fuel : nat) :
  reachable s →
  (k, v) ∈ (inorder_pairs (enough s) s).1.1 →
  enough s ≤ fuel →
  __getitem__ fuel k s = (Ok v, s).
Proof.
  intros Hreach Hin Hfuel. destruct (reachable_inv _ Hreach) as [t HI].
  rewrite (proj1 (inorder_pairs_reach _ _ HI)) in Hin.
  pose proof (enough_depth _ _ HI). apply (getitem_in _ t); [done|lia|done].
Qed.

(** X2: for a key that the map does not hold, [t[k]] raises [KeyError]
    and changes nothing; in a tree object that a failed deletion of its
    last node left with no root and a size that is not 0, the search runs
    on [None] and [AttributeError] is raised instead. *)
Theorem getitem_missing (s : State) (k : Z) (fuel : nat) :
  reachable s →
  k ∉ (inorder_keys (enough s) s).1.1 →
  enough s ≤ fuel →
  __getitem__ fuel k s
  = (Raise (match _root (self s) with
            | Some _ => KeyError k
            | None => if Z.eqb (_size (self s)) 0
                      then KeyError k else AttributeError
            end), s).
Proof.
  intros Hreach Hin Hfuel. destruct (reachable_inv _ Hreach) as [t HI].
  rewrite (proj2 (inorder_pairs_reach _ _ HI)) in Hin.
  pose proof (enough_depth _ _ HI).
  apply (getitem_notin _ t); [done|lia|lia|done].
Qed.

(** ** The pairs of the map after [t[k] = v] *)

Lemma filter_all {A} (f : A → bool) l :
  Forall (λ x, f x = true) l → List.filter f l = l.
Proof.
  induction 1 as [|x l Hx _ IH]; [done|]. cbn. by rewrite Hx, IH.
Qed.

Lemma pairs_Br (l : atree) n it r :
  pairs (Br l n it r) = pairs l ++ (_key it, _value it) :: pairs r.
Proof. unfold pairs. cbn. by rewrite map_app. Qed.

Lemma Forall_pairs (P : Z → Prop) t :
  Forall P (keys t) → Forall (λ kv : Z * V, P kv.1) (pairs t).
Proof.
  rewrite <- pairs_keys, !Forall_forall. intros H kv Hkv. apply H.
  apply list_elem_of_fmap. by exists kv.
Qed.

Lemma pairs_insert nw k v t :
  bst t →
  pairs (a_insert nw k v t)
  = List.filter (λ kv, Z.ltb kv.1 k) (pairs t)
    ++ (k, v) :: List.filter (λ kv, Z.ltb k kv.1) (pairs t).
Proof.
  induction t as [|l IHl n it r IHr]; [done|].
  intros (Hbl & Hbr & Hlt & Hgt). cbn [a_insert].
  apply Forall_pairs in Hlt, Hgt.
  rewrite (pairs_Br l n it r), !List.filter_app. cbn [List.filter fst].
  destruct (Z.eqb_spec k (_key it)) as [->|Hne].
  - rewrite pairs_Br. cbn [_key _value].
    rewrite !Z.ltb_irrefl.
    rewrite (filter_all _ (pairs l)), (filter_none _ (pairs r)),
      (filter_none _ (pairs l)), (filter_all _ (pairs r));
      [by rewrite app_nil_r|..];
      (eapply Forall_impl; [first [exact Hlt|exact Hgt]|]);
      intros x ?; first [apply Z.ltb_lt|apply Z.ltb_ge]; cbn in *; lia.
  - destruct (Z.ltb_spec k (_key it)) as [Hk|Hk].
    + rewrite pairs_Br, (IHl Hbl).
      destruct (Z.ltb_spec (_key it) k); [lia|].
      rewrite (filter_none _ (pairs r)), (filter_all _ (pairs r));
        [by rewrite <- !app_assoc|..];
        (eapply Forall_impl; [exact Hgt|]);
        intros x ?; first [apply Z.ltb_lt|apply Z.ltb_ge]; cbn in *; lia.
    + rewrite pairs_Br, (IHr Hbr).
      destruct (Z.ltb_spec (_key it) k); [|lia].
      rewrite (filter_all _ (pairs l)), (filter_none _ (pairs l));
        [by rewrite <- !app_assoc|..];
        (eapply Forall_impl; [exact Hlt|]);
        intros x ?; first [apply Z.ltb_lt|apply Z.ltb_ge]; cbn in *; lia.
Qed.

Lemma replace_as_insert h bf nw k v t : ∀ par m mnd,
  wf h bf par t → anchor t k = Some m → h !! m = Some mnd →
  _key (_element mnd) = k →
  a_replace m (mkItem (_key (_element mnd)) v) t = a_insert nw k v t.
Proof.
  induction t as [|l IHl n it r IHr]; intros par m mnd Hwf Ha Em Hk; [done|].
  apply wf_Br in Hwf as (E & Hp & Hnl & Hnr & Hd & Hwl & Hwr).
  cbn [anchor a_replace a_insert] in *.
  destruct (Z.eqb_spec k (_key it)) as [Hkk|Hne].
  { injection Ha as <-. rewrite Nat.eqb_refl.
    rewrite E in Em. injection Em as <-. cbn [_element]. done. }
  assert (Hmn : m ≠ n).
  { intros ->. rewrite E in Em. injection Em as <-. cbn in Hk. done. }
  destruct (Z.ltb k (_key it)).
  - destruct l as [|l1 ln lit l2]; [by injection Ha|].
    rewrite (proj2 (Nat.eqb_neq n m)) by done.
    pose proof (anchor_in _ _ _ Ha) as Hin.
    rewrite (IHl _ _ _ Hwl Ha Em Hk), replace_notin; [done|]. by apply Hd.
  - destruct r as [|r1 rn rit r2]; [by injection Ha|].
    rewrite (proj2 (Nat.eqb_neq n m)) by done.
    pose proof (anchor_in _ _ _ Ha) as Hin.
    rewrite (IHr _ _ _ Hwr Ha Em Hk), replace_notin; [done|].
    intros Hl. by apply (Hd _ Hl).
Qed.

Lemma pairs_setitem s t k v :
  Inv s t → setitem_result s t = Ok tt →
  pairs (setitem_tree s t k v)
  = List.filter (λ kv, Z.ltb kv.1 k) (pairs t)
    ++ (k, v) :: List.filter (λ kv, Z.ltb k kv.1) (pairs t).
Proof.
  intros HI Hres. pose proof (inv_wf _ _ HI) as Hwf. unfold setitem_tree.
  destruct (Lf_or_not t) as [->|Hne].
  { cbn in *. by destruct (Z.eqb (_size (self s)) 0). }
  destruct (anchor_Some t k Hne) as [m Ea]. rewrite Ea.
  destruct (anchor_slot _ _ _ _ _ _ Hwf Ea) as (mnd & Em & _). rewrite Em.
  destruct (Z.eqb_spec (_key (_element mnd)) k) as [Hk|Hk].
  - rewrite (replace_as_insert _ _ (fresh (dom (heap s))) _ v _ _ _ _ Hwf Ea Em Hk).
    apply pairs_insert, (inv_bst _ _ HI).
  - apply pairs_insert, (inv_bst _ _ HI).
Qed.

Lemma setitem_result_ok s t :
  Inv s t → _root (self s) ≠ None ∨ _size (self s) = 0%Z →
  setitem_result s t = Ok tt.
Proof.
  intros HI H. unfold setitem_result. destruct t; [|done].
  destruct H as [H|H]; [by rewrite (inv_root _ _ HI) in H|].
  by rewrite H.
Qed.

Lemma depth_setitem s t k v : depth (setitem_tree s t k v) ≤ S (depth t).
Proof.
  unfold setitem_tree. destruct (anchor t k) as [m|].
  - destruct (heap s !! m) as [mnd|]; [|lia].
    destruct (Z.eqb (_key (_element mnd)) k).
    + rewrite depth_replace. lia.
    + apply depth_insert.
  - destruct (Z.eqb (_size (self s)) 0); cbn; lia.
Qed.

Lemma setitem_root s t k v :
  Inv s t → setitem_result s t = Ok tt →
  _root (self (setitem_state s t k v)) ≠ None.
Proof.
  intros HI Hres. rewrite (inv_root _ _ (setitem_inv _ _ k v HI)).
  unfold setitem_tree, setitem_result in *.
  destruct t as [|l n it r].
  - cbn. by destruct (Z.eqb (_size (self s)) 0).
  - destruct (anchor (Br l n it r) k) as [m|] eqn:Ea; [|by destruct (Z.eqb _ _)].
    destruct (heap s !! m) as [mnd|]; [|done].
    destruct (Z.eqb (_key (_element mnd)) k).
    + by rewrite top_replace.
    + by rewrite top_insert.
Qed.

(** X3: an assignment [t[k] = v] that is followed by the lookup [t[k]]
    gives [v] back, and the lookup of any other key gives what it gave
    before the assignment. *)
Theorem setitem_then_getitem (s : State) (k : Z) (v : V) (fuel : nat) :
  reachable s →
  enough s ≤ fuel →
  _root (self s) ≠ None ∨ _size (self s) = 0%Z →
  ∃ s',
    __setitem__ fuel k v s = (Ok tt, s')
    ∧ __getitem__ fuel k s' = (Ok v, s')
    ∧ ∀ k', k' ≠ k → (__getitem__ fuel k' s').1 = (__getitem__ fuel k' s).1.
Proof.
  intros Hreach Hfuel Hnd. destruct (reachable_inv _ Hreach) as [t HI].
  pose proof (enough_depth _ _ HI) as Hd.
  pose proof (setitem_result_ok _ _ HI Hnd) as Hres.
  pose proof (setitem_inv _ _ k v HI) as HI'.
  pose proof (depth_setitem s t k v) as Hd'.
  pose proof (pairs_setitem _ _ k v HI Hres) as Hp.
  exists (setitem_state s t k v).
  assert (Hf : S (depth t) < fuel) by lia.
  rewrite (setitem_run _ t _ _ _ HI Hf), Hres. split_and!; [done| |].
  - apply (getitem_in _ _ _ _ _ HI'); [lia|]. rewrite Hp. set_solver.
  - intros k' Hk'.
    destruct (decide (k' ∈ keys t)) as [Hin|Hout].
    + rewrite <- pairs_keys in Hin. apply list_elem_of_fmap in Hin as ([k0 v0] & -> & Hin).
      cbn [fst] in *.
      rewrite (getitem_in _ _ _ v0 fuel HI ltac:(lia) Hin).
      rewrite (getitem_in _ _ _ v0 _ HI'); [done|lia|].
      rewrite Hp. destruct (Z.lt_total k0 k) as [Hlt|[?|Hgt]]; [|done|].
      * apply elem_of_app. left. apply list_elem_of_In, List.filter_In.
        split; [by apply list_elem_of_In|]. by apply Z.ltb_lt.
      * apply elem_of_app. right. apply elem_of_cons. right.
        apply list_elem_of_In, List.filter_In.
        split; [by apply list_elem_of_In|]. by apply Z.ltb_lt.
    + rewrite (getitem_notin _ _ _ fuel HI ltac:(lia) ltac:(lia) Hout).
      rewrite (getitem_notin _ _ _ _ HI'); [|lia|lia|].
      * pose proof (setitem_root _ _ k v HI Hres) as Hr.
        destruct (_root (self (setitem_state s t k v))); [|done]. cbn.
        destruct (_root (self s)); [done|].
        destruct Hnd as [?| ->]; done.
      * rewrite <- pairs_keys, Hp. intros Hin.
        apply list_elem_of_fmap in Hin as ([k0 v0] & -> & Hin). cbn [fst] in *.
        apply Hout. rewrite <- pairs_keys. apply list_elem_of_fmap.
        exists (k0, v0). split; [done|].
        apply elem_of_app in Hin as [Hin|Hin].
        -- apply list_elem_of_In, List.filter_In in Hin as [Hin _].
           by apply list_elem_of_In.
        -- apply elem_of_cons in Hin as [Heq|Hin]; [by injection Heq as -> ->|].
           apply list_elem_of_In, List.filter_In in Hin as [Hin _].
           by apply list_elem_of_In.
Qed.

(** X4: in a tree with a root, or of size 0, [t[k] = v] returns normally
    and the pairs of the map after it, in key order, are the pairs before
    it with a key less than [k], then [(k, v)], then the pairs before it
    with a key greater than [k].  In a tree object that a failed deletion
    of its last node left with no root and a size that is not 0, the
    search runs on [None]: [t[k] = v] raises [AttributeError] and changes
    nothing. *)
Theorem setitem_contents (s : State) (k : Z) (v : V) (fuel : nat) :
  reachable s →
  enough s ≤ fuel →
  (_root (self s) ≠ None ∨ _size (self s) = 0%Z →
   ∃ s',
     __setitem__ fuel k v s = (Ok tt, s')
     ∧ (inorder_pairs (enough s') s').1.1
       = List.filter (λ kv, Z.ltb kv.1 k) (inorder_pairs (enough s) s).1.1
         ++ (k, v)
         :: List.filter (λ kv, Z.ltb k kv.1) (inorder_pairs (enough s) s).1.1)
  ∧ (_root (self s) = None ∧ _size (self s) ≠ 0%Z →
     __setitem__ fuel k v s = (Raise AttributeError, s)).
Proof.
  intros Hreach Hfuel. destruct (reachable_inv _ Hreach) as [t HI].
  pose proof (enough_depth _ _ HI) as Hd.
  assert (Hf : S (depth t) < fuel) by lia.
  rewrite (setitem_run _ t _ _ _ HI Hf). split.
  - intros Hnd.
    pose proof (setitem_result_ok _ _ HI Hnd) as Hres.
    pose proof (setitem_inv _ _ k v HI) as HI'.
    exists (setitem_state s t k v). rewrite Hres. split; [done|].
    rewrite (proj1 (inorder_pairs_reach _ _ HI)),
      (proj1 (inorder_pairs_reach _ _ HI')).
    by apply pairs_setitem.
  - intros [Hr Hs]. rewrite (inv_root _ _ HI) in Hr. apply top_None in Hr as ->.
    unfold setitem_result, setitem_state. cbn [anchor].
    apply Z.eqb_neq in Hs. by rewrite Hs.
Qed.

(** ** Deletion, exactly *)

Lemma items_splice_split x t : ∀ a e b,
  NoDup (nodes t) → subtree x t = Br a x e b → a = Lf ∨ b = Lf →
  ∃ l1 l2, items t = l1 ++ e :: l2 ∧ items (a_splice x t) = l1 ++ l2.
Proof.
  induction t as [|l IHl n it r IHr]; [done|].
  intros a e b Hnd Hsub Hab.
  cbn in Hnd. apply NoDup_app in Hnd as (Hndl & Hd & Hndr).
  apply NoDup_cons in Hndr as [Hn Hndr]. cbn [subtree a_splice] in *.
  destruct (Nat.eqb_spec n x) as [->|Hne].
  - injection Hsub as -> -> ->. exists (items a), (items b). split; [done|].
    destruct Hab as [-> | ->]; [done|]. destruct a; [done|]. by rewrite app_nil_r.
  - destruct (subtree x l) eqn:E.
    + assert (Hxl : x ∉ nodes l).
      { intros Hx. destruct (subtree_in _ _ Hx) as (?&?&?&?). congruence. }
      destruct (IHr _ _ _ Hndr Hsub Hab) as (l1 & l2 & E1 & E2).
      exists (items l ++ it :: l1), l2. cbn [items].
      rewrite (splice_notin x l Hxl), E1, E2. by rewrite <- !app_assoc.
    + assert (Hxl : x ∈ nodes l).
      { eapply subtree_nodes; [exact E|]. rewrite Hsub. cbn. set_solver. }
      destruct (IHl _ _ _ Hndl Hsub Hab) as (l1 & l2 & E1 & E2).
      exists l1, (l2 ++ it :: items r). cbn [items].
      rewrite (splice_notin x r); [|intros Hx; apply (Hd _ Hxl); set_solver].
      rewrite E1, E2. by rewrite <- !app_assoc.
Qed.

Lemma items_delete2_split x t : ∀ l it r m e,
  NoDup (nodes t) → subtree x t = Br l x it r → last_node l = Some (m, e) →
  ∃ l1 l2, items t = l1 ++ it :: l2
           ∧ items (a_splice m (a_replace x e t)) = l1 ++ l2.
Proof.
  induction t as [|tl IHl n it' tr IHr]; [done|].
  intros l it r m e Hnd Hsub Hlast.
  cbn in Hnd. apply NoDup_app in Hnd as (Hndl & Hd & Hndr).
  apply NoDup_cons in Hndr as [Hn Hndr]. cbn [subtree] in Hsub.
  pose proof (last_node_in _ _ _ Hlast) as Hm.
  cbn [a_replace]. destruct (Nat.eqb_spec n x) as [->|Hne].
  - injection Hsub as -> -> ->.
    assert (x ∉ nodes l) by (intros Hx; apply (Hd _ Hx); set_solver).
    cbn [a_splice]. destruct (Nat.eqb_spec x m) as [->|Hxm]; [done|].
    rewrite (splice_notin m r); [|intros Hm'; apply (Hd _ Hm); set_solver].
    exists (items l), (items r). split; [done|].
    cbn [items]. rewrite <- (splice_last _ _ _ Hndl Hlast).
    by rewrite <- app_assoc.
  - destruct (subtree x tl) eqn:E.
    + assert (Hml : m ∈ nodes tr).
      { eapply subtree_nodes; [exact Hsub|]. cbn. set_solver. }
      assert (Hxl : x ∉ nodes tl).
      { intros Hx. destruct (subtree_in _ _ Hx) as (?&?&?&?). congruence. }
      rewrite (replace_notin x e tl Hxl).
      cbn [a_splice]. destruct (Nat.eqb_spec n m) as [->|Hnm]; [done|].
      rewrite (splice_notin m tl); [|intros Hm'; apply (Hd _ Hm'); set_solver].
      destruct (IHr l it r m e Hndr Hsub Hlast) as (l1 & l2 & E1 & E2).
      exists (items tl ++ it' :: l1), l2. cbn [items].
      rewrite E1, E2. by rewrite <- !app_assoc.
    + assert (Hml : m ∈ nodes tl).
      { eapply subtree_nodes; [exact E|]. rewrite Hsub. cbn. set_solver. }
      assert (Hxl : x ∈ nodes tl).
      { eapply subtree_nodes; [exact E|]. rewrite Hsub. cbn. set_solver. }
      rewrite (replace_notin x e tr);
        [|intros Hx; apply (Hd _ Hxl); set_solver].
      cbn [a_splice]. destruct (Nat.eqb_spec n m) as [->|Hnm].
      { exfalso. apply (Hd _ Hml). set_solver. }
      rewrite (splice_notin m tr); [|intros Hm'; apply (Hd _ Hml); set_solver].
      destruct (IHl l it r m e Hndl Hsub Hlast) as (l1 & l2 & E1 & E2).
      exists l1, (l2 ++ it' :: items tr). cbn [items].
      rewrite E1, E2. by rewrite <- !app_assoc.
Qed.

(** What the second half of [delete] returns, and the size it leaves. *)
Lemma delete_tail_res s t y a e b fuel :
  wf (heap s) (bf_of (class (self s))) None t →
  _root (self s) = top t →
  subtree y t = Br a y e b → y ∈ nodes t → a = Lf ∨ b = Lf →
  depth t < fuel →
  ∃ s',
    (let! par := parent (mkp (ident (self s)) y) in
     let! _ := _delete (mkp (ident (self s)) y) in
     _rebalance_delete fuel par) s
    = (if bool_decide (top t = Some y)
       then Raise UnboundLocalError else Ok tt, s')
    ∧ _size (self s')
      = (if bool_decide (top t = Some y)
         then _size (self s) else _size (self s) - 1)%Z.
Proof.
  intros Hwf Hroot Hs Hy Hab Hfuel.
  destruct (wf_node _ _ _ _ _ Hwf Hy) as (a' & e' & b' & par' & Es & Hw & Ey & Hcase).
  rewrite Hs in Es. injection Es as <- <- <-.
  pose proof Hw as Hw'. apply wf_Br in Hw' as (_ & Hyp & _).
  rewrite (bind_ok _ _ _ _ _ (parent_ok _ _ _ Ey Hyp)). cbn [_parent].
  destruct (delete_node_run _ _ _ _ _ _ Hwf Hroot Hs Hy Hab)
    as (res & sz & h' & Hrun & Hres & Hrep & Hout & Hpar & ynd' & Ey' & Hgone).
  set (s2 := mkState (mkTree (ident (self s)) (class (self s))
                        (top (a_splice y t)) sz) h') in *.
  exists s2.
  destruct Hres as [(Htop & -> & ->)|(Htop & -> & ->)].
  - rewrite (bind_raise _ _ _ _ _ Hrun).
    by rewrite bool_decide_eq_true_2.
  - rewrite (bind_ok _ _ _ _ _ Hrun). rewrite bool_decide_eq_false_2 by done.
    split; [|done].
    apply (rebalance_delete_ok s2 (a_splice y t) par' fuel).
    + split_and!; [exact Hrep| |done].
      eapply sublist_NoDup; [apply Hwf|apply nodes_splice_sublist].
    + intros p ->. destruct Hcase as [[? ?]|[_ (q & [= ->] & Hq & Hqy)]]; [done|].
      eapply nodes_splice_keep; [apply Hwf|exact Hs|done|done|done].
    + pose proof (depth_splice y t). lia.
Qed.

(** [delete] at a node of the tree: the item of that node goes, the
    others stay; the call fails, after the node is unlinked, when the node
    is the root and has fewer than two children. *)
Lemma delete_in_exact s t x fuel :
  Inv s t → x ∈ nodes t → depth t < fuel →
  ∃ t' xnd l1 l2 s',
    heap s !! x = Some xnd
    ∧ delete fuel (mkp (ident (self s)) x) s
      = (if bool_decide (top t = Some x)
            && bool_decide (_left xnd = None ∨ _right xnd = None)
         then Raise UnboundLocalError else Ok tt, s')
    ∧ Inv s' t'
    ∧ items t = l1 ++ _element xnd :: l2
    ∧ items t' = l1 ++ l2
    ∧ _size (self s')
      = (if bool_decide (top t = Some x)
            && bool_decide (_left xnd = None ∨ _right xnd = None)
         then _size (self s) else _size (self s) - 1)%Z.
Proof.
  intros HI Hx Hfuel. pose proof (inv_wf _ _ HI) as Hwf.
  destruct HI as [Hroot Hrep Hnd Hbst Hsize Hrest].
  destruct (wf_node _ _ _ _ _ Hwf Hx) as (a & e & b & par' & Es & Hw & Ex & Hcase).
  pose proof Hw as Hw'.
  apply wf_Br in Hw' as (_ & Hxp & Hxa & Hxb & Hdab & Hwa & Hwb).
  rewrite delete_eq. unfold TreeMap_delete.
  rewrite (bind_ok _ _ _ _ _ (validate_ok _ _ _ Ex Hxp)).
  rewrite (bind_ok _ _ _ _ _ (left_ok _ _ _ Ex Hxp)). cbn [_left].
  set (xnd := mkNode e par' (top a) (top b) (bf_of (class (self s)))) in *.
  assert (Hone : a = Lf ∨ b = Lf →
    ∃ t' l1 l2 s',
      (let! par := parent (mkp (ident (self s)) x) in
       let! _ := _delete (mkp (ident (self s)) x) in
       _rebalance_delete fuel par) s
      = (if bool_decide (top t = Some x)
            && bool_decide (_left xnd = None ∨ _right xnd = None)
         then Raise UnboundLocalError else Ok tt, s')
      ∧ Inv s' t'
      ∧ items t = l1 ++ _element xnd :: l2
      ∧ items t' = l1 ++ l2
      ∧ _size (self s')
        = (if bool_decide (top t = Some x)
              && bool_decide (_left xnd = None ∨ _right xnd = None)
           then _size (self s) else _size (self s) - 1)%Z).
  { intros Hab.
    assert (H1 : _left xnd = None ∨ _right xnd = None).
    { destruct Hab as [-> | ->]; [by left|by right]. }
    rewrite (bool_decide_eq_true_2 _ H1), andb_true_r.
    destruct (items_splice_split _ _ _ _ _ Hnd Es Hab) as (l1 & l2 & E1 & E2).
    destruct (delete_tail_res _ _ _ _ _ _ fuel Hwf Hroot Es Hx Hab Hfuel)
      as (s' & Hrun & Hsz).
    exists (a_splice x t), l1, l2, s'. split_and!; try done.
    pose proof (delete_tail s t x a e b fuel Hwf Hroot Hsize Hrest) as HI'.
    rewrite Hrun in HI'. apply HI'; try done.
    eapply bst_sublist; [apply items_splice_sublist|done]. }
  destruct a as [|a1 an ae a2].
  { cbn [top pos]. rewrite bind_ret. cbv beta iota. rewrite bind_ret.
    destruct Hone as (t' & l1 & l2 & s' & H); [by left|].
    exists t', xnd, l1, l2, s'. by split. }
  cbn [top pos].
  rewrite bind_assoc, (bind_ok _ _ _ _ _ (right_ok _ _ _ Ex Hxp)), bind_ret.
  cbn [_right].
  destruct b as [|b1 bn be b2].
  { cbn [top pos]. rewrite bool_decide_eq_false_2; [|by intros H; apply H].
    cbv beta iota. rewrite bind_ret.
    destruct Hone as (t' & l1 & l2 & s' & H); [by right|].
    exists t', xnd, l1, l2, s'. by split. }
  clear Hone. cbn [top pos]. rewrite bool_decide_eq_true_2; [|done].
  cbv beta iota.
  assert (H2 : ¬ (_left xnd = None ∨ _right xnd = None)) by (by intros [?|?]).
  set (a := Br a1 an ae a2) in *. set (b := Br b1 bn be b2) in *.
  destruct (last_node_Some a ltac:(done)) as [[m me] Hlast].
  pose proof (last_node_in _ _ _ Hlast) as Hma.
  destruct (last_node_subtree _ _ _ (proj1 (proj2 Hwa)) Hlast) as [ml Hml].
  destruct (wf_node _ _ _ _ _ Hwa Hma) as (ma & me' & mb & pm & Esm & Hwm & Em & Hpm).
  rewrite Hml in Esm. injection Esm as <- <- <-.
  assert (Hmx : m ≠ x) by (by intros ->).
  assert (Hmt : m ∈ nodes t).
  { eapply subtree_nodes; [exact Es|]. cbn. set_solver. }
  assert (Hpm' : pm ≠ None).
  { destruct Hpm as [[_ ->]|[_ (p & -> & _)]]; done. }
  rewrite bind_assoc.
  assert (Hlp : _subtree_last_position fuel (mkp (ident (self s)) an) s
                = (Ok (mkp (ident (self s)) m), s)).
  { apply (last_position_ok s _ a (Some x) fuel m me Hwa Hlast).
    pose proof (depth_subtree x t) as Hd. rewrite Es in Hd.
    unfold a, b in *. cbn in Hd |- *. lia. }
  rewrite (bind_ok _ _ _ _ _ Hlp).
  rewrite bind_assoc, (bind_ok _ _ _ _ _ (element_ok _ _ _ _ Em)). cbn [_element].
  rewrite bind_assoc, (bind_ok _ _ _ _ _ (replace_ok _ _ _ _ Ex Hxp)), bind_ret.
  set (s1 := mkState (self s) (<[x := with_element xnd me]> (heap s))).
  set (t1 := a_replace x me t).
  assert (Hwf1 : wf (heap s1) (bf_of (class (self s1))) None t1).
  { split_and!.
    - by apply rep_replace.
    - unfold t1. by rewrite nodes_replace.
    - done. }
  assert (Hmt1 : m ∈ nodes t1) by (unfold t1; by rewrite nodes_replace).
  destruct (wf_node _ _ _ _ _ Hwf1 Hmt1) as (a' & e' & b' & pm' & Es1 & _ & Em1 & Hcase1).
  cbn [heap s1] in Em1. rewrite lookup_insert_ne in Em1 by done.
  rewrite Em in Em1. injection Em1 as <- Hpp Ha' Hb'.
  assert (b' = Lf) as -> by (by apply top_None).
  assert (Htop1 : top t1 ≠ Some m).
  { intros Ht. destruct Hcase1 as [[_ ->]|[? _]]; done. }
  destruct (items_delete2_split _ _ _ _ _ _ _ Hnd Es Hlast) as (l1 & l2 & E1 & E2).
  assert (Hroot1 : _root (self s1) = top t1).
  { unfold t1. by rewrite top_replace. }
  assert (Hfuel1 : depth t1 < fuel).
  { unfold t1. by rewrite depth_replace. }
  destruct (delete_tail_res s1 t1 m a' me Lf fuel Hwf1 Hroot1 Es1 Hmt1
              ltac:(by right) Hfuel1) as (s' & Hrun & Hsz).
  rewrite bool_decide_eq_false_2 in Hrun, Hsz by done.
  exists (a_splice m t1), xnd, l1, l2, s'.
  rewrite (bool_decide_eq_false_2 _ H2), andb_false_r.
  split_and!; try done.
  pose proof (delete_tail s1 t1 m a' me Lf fuel Hwf1 Hroot1) as HI'.
  cbn [s1 self] in HI', Hrun. rewrite Hrun in HI'. apply HI'; try done.
  - unfold t1. by rewrite nodes_replace.
  - unfold t1. rewrite nodes_replace. cbn [heap s1].
    eapply rest_step; [exact Hrest| |].
    + intros n nd' En Hn. left. split; [|done].
      rewrite lookup_insert_ne in En; [done|]. by intros ->.
    + intros c cnd Ec Hcp. destruct (decide (c = x)) as [->|Hne].
      * rewrite lookup_insert_eq. eexists. split; [done|].
        rewrite Ex in Ec. by injection Ec as <-.
      * rewrite lookup_insert_ne by done. eauto.
  - eapply bst_sublist; [|exact Hbst]. by eapply items_delete2.
  - by right.
Qed.

Lemma delitem_run s t k fuel :
  Inv s t → t ≠ Lf → depth t < fuel →
  ∃ m mnd, anchor t k = Some m ∧ heap s !! m = Some mnd
    ∧ __delitem__ fuel k s
      = (if Z.eqb k (_key (_element mnd))
         then delete fuel (mkp (ident (self s)) m) s
         else (Raise (KeyError k), s)).
Proof.
  intros HI Hne Hfuel. pose proof (inv_wf _ _ HI) as Hwf.
  assert (Hfuel1 : depth t ≤ fuel) by lia.
  destruct (anchor_Some t k Hne) as [m Ea].
  destruct (anchor_slot _ _ _ _ _ _ Hwf Ea) as (mnd & Em & _).
  exists m, mnd. split_and!; [done|done|].
  unfold __delitem__. rewrite (bind_ok _ _ _ _ _ (is_empty_eq s)).
  rewrite (proj2 (Z.eqb_neq _ _) (inv_nonempty _ _ HI Hne)).
  cbn [negb]. cbv beta iota.
  rewrite bind_assoc, (bind_ok _ _ _ _ _ (root_inv s _ HI)).
  rewrite bind_assoc,
    (bind_ok _ _ _ _ _ (search_ok _ _ k _ _ _ Hwf Hne Hfuel1)).
  rewrite Ea.
  cbn [pos]. rewrite bind_assoc, (bind_ok _ _ _ _ _ (key_ok _ _ _ _ Em)).
  destruct (Z.eqb k (_key (_element mnd))); [|done].
  rewrite bind_assoc.
  destruct (delete fuel (mkp (ident (self s)) m) s) as [[[]|err] s'] eqn:Ed.
  - by rewrite (bind_ok _ _ _ _ _ Ed).
  - by rewrite (bind_raise _ _ _ _ _ Ed).
Qed.

Lemma delitem_notin s t k fuel :
  Inv s t → depth t < fuel → k ∉ keys t →
  __delitem__ fuel k s
  = (Raise (match _root (self s) with
            | Some _ => KeyError k
            | None => if Z.eqb (_size (self s)) 0
                      then KeyError k else AttributeError
            end), s).
Proof.
  intros HI Hfuel Hk. rewrite (inv_root _ _ HI).
  destruct (Lf_or_not t) as [->|Hne].
  - cbn [top]. unfold __delitem__. rewrite (bind_ok _ _ _ _ _ (is_empty_eq s)).
    destruct (Z.eqb (_size (self s)) 0); [done|]. cbn [negb]. cbv beta iota.
    rewrite bind_assoc, (bind_ok _ _ _ _ _ (root_inv s _ HI)). cbn [top pos].
    rewrite bind_assoc, (bind_raise _ _ _ _ _ (search_None s fuel k ltac:(lia))).
    done.
  - destruct (delitem_run _ _ k _ HI Hne Hfuel) as (m & mnd & Ea & Em & ->).
    destruct (Z.eqb_spec k (_key (_element mnd))) as [->|Hkm].
    + exfalso. apply Hk. rewrite <- pairs_keys. apply list_elem_of_fmap.
      eexists. split; [|by eapply anchor_pair]. done.
    + by destruct t.
Qed.

Lemma filter_remove_key (l1 l2 : list Item) it :
  StronglySorted Z.lt (map _key (l1 ++ it :: l2)) →
  List.filter (λ kv : Z * V, negb (Z.eqb kv.1 (_key it)))
    (map (λ it, (_key it, _value it)) (l1 ++ it :: l2))
  = map (λ it, (_key it, _value it)) (l1 ++ l2).
Proof.
  intros Hs. rewrite !map_app in *. cbn [map] in *.
  apply StronglySorted_app in Hs as (Hlr & H1 & H2).
  apply StronglySorted_cons in H2 as [Hgt H2].
  rewrite List.filter_app. cbn [List.filter fst]. rewrite Z.eqb_refl. cbn [negb].
  rewrite !filter_all; [done|..].
  - apply Forall_forall. intros kv Hkv.
    apply list_elem_of_fmap in Hkv as (it' & -> & Hin). cbn [fst].
    rewrite Forall_forall in Hgt.
    assert (_key it < _key it')%Z; [|apply negb_true_iff, Z.eqb_neq; lia].
    apply Hgt. apply list_elem_of_fmap. by exists it'.
  - apply Forall_forall. intros kv Hkv.
    apply list_elem_of_fmap in Hkv as (it' & -> & Hin). cbn [fst].
    assert (_key it' < _key it)%Z; [|apply negb_true_iff, Z.eqb_neq; lia].
    apply Hlr; [|apply list_elem_of_here].
    apply list_elem_of_fmap. by exists it'.
Qed.

Lemma delitem_in s t k fuel :
  Inv s t → depth t < fuel → k ∈ keys t →
  ∃ t' m mnd s',
    anchor t k = Some m ∧ heap s !! m = Some mnd
    ∧ _key (_element mnd) = k
    ∧ __delitem__ fuel k s
      = (if bool_decide (top t = Some m)
            && bool_decide (_left mnd = None ∨ _right mnd = None)
         then Raise UnboundLocalError else Ok tt, s')
    ∧ Inv s' t'
    ∧ pairs t' = List.filter (λ kv, negb (Z.eqb kv.1 k)) (pairs t)
    ∧ _size (self s')
      = (if bool_decide (top t = Some m)
            && bool_decide (_left mnd = None ∨ _right mnd = None)
         then _size (self s) else _size (self s) - 1)%Z.
Proof.
  intros HI Hfuel Hk.
  assert (Hne : t ≠ Lf) by (intros ->; by apply elem_of_nil in Hk).
  destruct (delitem_run _ _ k _ HI Hne Hfuel) as (m & mnd & Ea & Em & ->).
  destruct (anchor_found _ _ _ _ _ (inv_rep _ _ HI) (inv_bst _ _ HI) Hk)
    as (m' & mnd' & Ea' & Em' & Hk').
  rewrite Ea in Ea'. injection Ea' as <-. rewrite Em in Em'. injection Em' as <-.
  rewrite Hk', Z.eqb_refl.
  destruct (delete_in_exact _ _ _ _ HI (anchor_in _ _ _ Ea) Hfuel)
    as (t' & xnd & l1 & l2 & s' & Ex & Hrun & HI' & E1 & E2 & Hsz).
  rewrite Em in Ex. injection Ex as <-.
  exists t', m, mnd, s'. split_and!; try done.
  unfold pairs. rewrite E1, E2, <- Hk'. apply eq_sym, filter_remove_key.
  rewrite <- E1. apply bst_sorted, (inv_bst _ _ HI).
Qed.

(** X5: [del t[k]] for a key that the map does not hold raises
    [KeyError] and changes nothing ([AttributeError] in a tree object
    without root whose size is not 0). *)
Theorem delitem_missing (s : State) (k : Z) (fuel : nat) :
  reachable s →
  k ∉ (inorder_keys (enough s) s).1.1 →
  enough s ≤ fuel →
  __delitem__ fuel k s
  = (Raise (match _root (self s) with
            | Some _ => KeyError k
            | None => if Z.eqb (_size (self s)) 0
                      then KeyError k else AttributeError
            end), s).
Proof.
  intros Hreach Hin Hfuel. destruct (reachable_inv _ Hreach) as [t HI].
  rewrite (proj2 (inorder_pairs_reach _ _ HI)) in Hin.
  pose proof (enough_depth _ _ HI).
  apply (delitem_notin _ t); [done|lia|done].
Qed.

(** X6: after [del t[k]] for a key that the map holds, the pairs of the
    map are the pairs before it without the pair of [k], also when the
    call raises. *)
Theorem delitem_contents (s : State) (k : Z) (fuel : nat) :
  reachable s →
  k ∈ (inorder_keys (enough s) s).1.1 →
  enough s ≤ fuel →
  (inorder_pairs (enough (__delitem__ fuel k s).2) (__delitem__ fuel k s).2).1.1
  = List.filter (λ kv, negb (Z.eqb kv.1 k)) (inorder_pairs (enough s) s).1.1.
Proof.
  intros Hreach Hin Hfuel. destruct (reachable_inv _ Hreach) as [t HI].
  rewrite (proj2 (inorder_pairs_reach _ _ HI)) in Hin.
  pose proof (enough_depth _ _ HI).
  destruct (delitem_in _ _ _ fuel HI ltac:(lia) Hin)
    as (t' & m & mnd & s' & _ & _ & _ & -> & HI' & Hp & _).
  cbn [snd].
  by rewrite (proj1 (inorder_pairs_reach _ _ HI)),
    (proj1 (inorder_pairs_reach _ _ HI')).
Qed.

Lemma num_children_of_2 nd :
  num_children_of nd = 2%Z ↔ ¬ (_left nd = None ∨ _right nd = None).
Proof.
  unfold num_children_of. destruct (_left nd), (_right nd); cbn; split;
    intros H; first [done | by intros [?|?] | exfalso; apply H; auto].
Qed.

(** X7: [del t[k]] for a key that the map holds returns normally and
    takes 1 off the size, unless [k] is the key of the root and the root
    has fewer than two children: then it raises [UnboundLocalError] and
    the size stays as it was. *)
Theorem delitem_outcome (s : State) (k : Z) (fuel : nat) :
  reachable s →
  k ∈ (inorder_keys (enough s) s).1.1 →
  enough s ≤ fuel →
  ((bind root key s).1 = Ok k → (bind root num_children s).1 ≠ Ok 2%Z →
   (__delitem__ fuel k s).1 = Raise UnboundLocalError
   ∧ _size (self (__delitem__ fuel k s).2) = _size (self s))
  ∧ ((bind root key s).1 ≠ Ok k ∨ (bind root num_children s).1 = Ok 2%Z →
     (__delitem__ fuel k s).1 = Ok tt
     ∧ _size (self (__delitem__ fuel k s).2) = (_size (self s) - 1)%Z).
Proof.
  intros Hreach Hin Hfuel. destruct (reachable_inv _ Hreach) as [t HI].
  rewrite (proj2 (inorder_pairs_reach _ _ HI)) in Hin.
  pose proof (enough_depth _ _ HI).
  destruct (delitem_in _ _ _ fuel HI ltac:(lia) Hin)
    as (t' & m & mnd & s' & Ea & Em & Hkm & -> & _ & _ & Hsz).
  cbn [fst snd]. rewrite Hsz. clear Hsz.
  rewrite (bind_ok _ _ _ _ _ (root_inv s _ HI)).
  rewrite (bind_ok _ _ _ _ _ (root_inv s _ HI)).
  pose proof (inv_wf _ _ HI) as Hwf.
  destruct t as [|l n it r]; [by apply elem_of_nil in Hin|].
  apply wf_Br in Hwf as (En & Hp & _). cbn [top pos].
  rewrite (key_ok _ _ _ _ En), (num_children_ok _ _ _ En Hp). cbn [fst _element].
  assert (Htop : Some n = Some m ↔ _key it = k).
  { split.
    - intros [= ->]. rewrite En in Em. by injection Em as <-.
    - intros <-. cbn [anchor] in Ea. by rewrite Z.eqb_refl in Ea. }
  assert (Hnc : _left mnd = None ∨ _right mnd = None
                → Some n = Some m → num_children_of
                    (mkNode it None (top l) (top r) (bf_of (class (self s))))
                  ≠ 2%Z).
  { intros H1 [= ->]. rewrite En in Em. injection Em as <-.
    intros H2. by apply num_children_of_2 in H2. }
  split.
  - intros [= Hk] Hn2.
    rewrite (bool_decide_eq_true_2 (Some n = Some m)) by (by apply Htop).
    rewrite bool_decide_eq_true_2; [done|].
    apply Htop in Hk. injection Hk as ->. rewrite En in Em. injection Em as <-.
    destruct (decide (_left (mkNode it None (top l) (top r)
                (bf_of (class (self s)))) = None
              ∨ _right (mkNode it None (top l) (top r)
                  (bf_of (class (self s)))) = None)) as [?|Hno]; [done|].
    exfalso. apply Hn2. f_equal. by apply num_children_of_2.
  - intros [Hk|Hn2].
    + rewrite (bool_decide_eq_false_2 (Some n = Some m)); [done|].
      intros Hm. apply Htop in Hm. apply Hk. by rewrite Hm.
    + injection Hn2 as Hn2.
      destruct (decide (Some n = Some m)) as [Hm|Hm].
      * rewrite (bool_decide_eq_true_2 _ Hm).
        rewrite bool_decide_eq_false_2; [done|].
        intros H1. by apply (Hnc H1 Hm).
      * by rewrite (bool_decide_eq_false_2 _ Hm).
Qed.

(** ** The predecessor of a position *)

Lemma last_node_last t : fst <$> last_node t = list.last (nodes t).
Proof.
  induction t as [|l IHl n it r IHr]; [done|]. cbn [last_node nodes].
  rewrite last_app, last_cons, <- IHr.
  destruct (Lf_or_not r) as [->|Hne]; [done|].
  destruct (last_node_Some r Hne) as [[m e] Hm].
  destruct r; [done|]. by rewrite Hm.
Qed.

Lemma before_left s n nd c fuel :
  heap s !! n = Some nd → _parent nd ≠ Some n → _left nd = Some c →
  before fuel (mkp (ident (self s)) n) s
  = _subtree_last_position fuel (mkp (ident (self s)) c) s.
Proof.
  intros E Hp Hr. unfold before.
  rewrite (bind_ok _ _ _ _ _ (validate_ok _ _ _ E Hp)).
  rewrite (bind_ok _ _ _ _ _ (left_ok _ _ _ E Hp)). by rewrite Hr.
Qed.

Lemma before_up s n nd fuel :
  heap s !! n = Some nd → _parent nd ≠ Some n → _left nd = None →
  before fuel (mkp (ident (self s)) n) s
  = before_walk fuel (mkp (ident (self s)) n)
      (pos (ident (self s)) (_parent nd)) s.
Proof.
  intros E Hp Hr. unfold before.
  rewrite (bind_ok _ _ _ _ _ (validate_ok _ _ _ E Hp)).
  rewrite (bind_ok _ _ _ _ _ (left_ok _ _ _ E Hp)). rewrite Hr. cbn [pos].
  by rewrite (bind_ok _ _ _ _ _ (parent_ok _ _ _ E Hp)).
Qed.

Lemma before_walk_climb s m mnd w rest :
  heap s !! m = Some mnd → _parent mnd ≠ Some m → _left mnd = Some w →
  before_walk (S rest) (mkp (ident (self s)) w) (mkp (ident (self s)) m) s
  = before_walk rest (mkp (ident (self s)) m)
      (pos (ident (self s)) (_parent mnd)) s.
Proof.
  intros E Hp Hr. cbn [before_walk].
  rewrite (bind_ok _ _ _ _ _ (left_ok _ _ _ E Hp)). rewrite Hr.
  cbn [pos pos_eq _node]. rewrite Nat.eqb_refl.
  by rewrite (bind_ok _ _ _ _ _ (parent_ok _ _ _ E Hp)).
Qed.

Lemma before_walk_stop s m mnd w rest :
  heap s !! m = Some mnd → _parent mnd ≠ Some m → _left mnd ≠ Some w →
  before_walk (S rest) (mkp (ident (self s)) w) (mkp (ident (self s)) m) s
  = (Ok (mkp (ident (self s)) m), s).
Proof.
  intros E Hp Hr. cbn [before_walk].
  rewrite (bind_ok _ _ _ _ _ (left_ok _ _ _ E Hp)).
  destruct (_left mnd) as [c|]; cbn [pos pos_eq _node]; [|done].
  destruct (Nat.eqb_spec c w) as [->|Hne]; [done|done].
Qed.

(** [before] in a subtree: the previous node of the in-order list, or, at
    the first node, the upward walk that leaves the subtree through its
    top. *)
Lemma before_idx s bf t : ∀ par j n,
  wf (heap s) bf par t → nodes t !! j = Some n →
  match pred_at (nodes t) j with
  | Some x => ∀ fuel, depth t ≤ fuel →
      before fuel (mkp (ident (self s)) n) s = (Ok (mkp (ident (self s)) x), s)
  | None => ∃ d, d < depth t ∧ ∀ rest,
      before (d + rest) (mkp (ident (self s)) n) s
      = before_walk rest (pos (ident (self s)) (top t))
          (pos (ident (self s)) par) s
  end.
Proof.
  induction t as [|l IHl m it r IHr]; intros par j n Hwf Hj; [done|].
  apply wf_Br in Hwf as (E & Hp & Hml & Hmr & Hd & Hl & Hr).
  cbn [nodes depth top] in *.
  destruct (lt_eq_lt_dec j (length (nodes l))) as [[Hlt|Heq]|Hgt].
  - (* a node of the left subtree *)
    rewrite lookup_app_l in Hj by done.
    specialize (IHl (Some m) j n Hl Hj).
    destruct j as [|j']; cbn [pred_at] in *.
    + destruct IHl as (d & Hdl & Hw). exists (S d). split; [lia|].
      intros rest. replace (S d + rest) with (d + S rest) by lia. rewrite Hw.
      destruct l as [|ll ln lit lr]; [done|]. cbn [top pos].
      by rewrite (before_walk_climb s m _ ln rest E Hp eq_refl).
    + rewrite lookup_app_l by lia.
      destruct (nodes l !! j') eqn:E1; [|apply lookup_ge_None in E1; lia].
      intros fuel Hf. apply IHl. lia.
  - (* the top of the subtree *)
    subst j. rewrite list_lookup_middle in Hj by done. injection Hj as <-.
    destruct (Lf_or_not l) as [->|Hne].
    + cbn [nodes length pred_at]. exists 0. split; [lia|]. intros rest.
      cbn [plus]. by rewrite (before_up s m _ rest E Hp eq_refl).
    + destruct (last_node_Some l Hne) as [[x xe] Hlast].
      pose proof (last_node_last l) as Hll. rewrite Hlast in Hll. cbn in Hll.
      destruct l as [|ll ln lit lr]; [done|].
      assert (Hpred : pred_at (nodes (Br ll ln lit lr) ++ m :: nodes r)
                        (length (nodes (Br ll ln lit lr))) = Some x).
      { destruct (length (nodes (Br ll ln lit lr))) as [|k] eqn:Ek.
        { cbn in Ek. rewrite length_app in Ek. cbn in Ek. lia. }
        cbn [pred_at]. rewrite lookup_app_l by lia.
        rewrite last_lookup, Ek in Hll. done. }
      rewrite Hpred. intros fuel Hf.
      rewrite (before_left s m _ ln fuel E Hp eq_refl).
      apply (last_position_ok s bf (Br ll ln lit lr) (Some m) fuel x xe);
        [done|done|lia].
  - (* a node of the right subtree *)
    replace j with (length (nodes l) + S (j - length (nodes l) - 1)) in * by lia.
    set (j' := j - length (nodes l) - 1) in *.
    rewrite lookup_after_middle in Hj.
    specialize (IHr (Some m) j' n Hr Hj).
    replace (length (nodes l) + S j') with (S (length (nodes l) + j')) by lia.
    cbn [pred_at].
    destruct j' as [|j'']; cbn [pred_at] in IHr.
    + rewrite Nat.add_0_r, list_lookup_middle by done.
      destruct IHr as (d & Hdr & Hw). intros fuel Hf.
      replace fuel with (d + S (fuel - d - 1)) by lia. rewrite Hw.
      destruct r as [|rl rn rit rr]; [done|]. cbn [top pos].
      apply (before_walk_stop s m _ rn _ E Hp). cbn [_left].
      intros Htl. apply top_in in Htl. apply (Hd rn); [done|cbn; set_solver].
    + rewrite lookup_after_middle.
      destruct (nodes r !! j'') eqn:E1.
      * intros fuel Hf. apply IHr. lia.
      * apply lookup_ge_None in E1. apply lookup_lt_Some in Hj. lia.
Qed.

Lemma before_top s t j n fuel :
  Inv s t → nodes t !! j = Some n → depth t < fuel →
  before fuel (mkp (ident (self s)) n) s
  = (Ok (pos (ident (self s)) (pred_at (nodes t) j)), s).
Proof.
  intros HI Hj Hfuel.
  pose proof (before_idx s _ t None j n (inv_wf _ _ HI) Hj) as H.
  destruct (pred_at (nodes t) j) as [x|]; [apply H; lia|].
  destruct H as (d & Hd & Hw).
  replace fuel with (d + S (fuel - d - 1)) by lia. rewrite Hw.
  by destruct (top t).
Qed.

(** ** Iteration in both directions *)

Lemma key_at s t j n :
  Inv s t → nodes t !! j = Some n →
  ∃ nd, heap s !! n = Some nd ∧ keys t !! j = Some (_key (_element nd)).
Proof.
  intros HI Hj. destruct (node_at _ _ _ _ HI Hj) as (nd & E & Hp).
  exists nd. split; [done|]. rewrite <- pairs_keys.
  by rewrite list_lookup_fmap, Hp.
Qed.

Lemma iter_loop_ok s t inner :
  Inv s t → depth t < inner →
  ∀ fuel j n, nodes t !! j = Some n → length (nodes t) - j < fuel →
  iter_loop fuel inner (mkp (ident (self s)) n) s
  = (drop j (keys t), Ok tt, s).
Proof.
  intros HI Hinner. induction fuel as [|fuel IH]; intros j n Hj Hf; [lia|].
  destruct (key_at _ _ _ _ HI Hj) as (nd & E & Hkj).
  rewrite (drop_S _ _ _ Hkj). cbn [iter_loop].
  rewrite (glift_ok _ _ _ _ _ (key_ok _ _ _ _ E)). unfold gyield.
  rewrite (glift_ok _ _ _ _ _ (after_top _ _ _ _ _ HI Hj Hinner)).
  pose proof (lookup_lt_Some _ _ _ Hj) as Hlt.
  destruct (nodes t !! S j) as [x|] eqn:Ex; cbn [pos].
  - rewrite (IH (S j) x Ex); [done|lia].
  - apply lookup_ge_None in Ex.
    rewrite (drop_ge (keys t) (S j)) by (rewrite length_keys; lia).
    destruct fuel; [lia|done].
Qed.

Lemma reversed_loop_ok s t inner :
  Inv s t → depth t < inner →
  ∀ fuel j n, nodes t !! j = Some n → S j < fuel →
  reversed_loop fuel inner (mkp (ident (self s)) n) s
  = (rev (take (S j) (keys t)), Ok tt, s).
Proof.
  intros HI Hinner. induction fuel as [|fuel IH]; intros j n Hj Hf; [lia|].
  destruct (key_at _ _ _ _ HI Hj) as (nd & E & Hkj).
  rewrite (take_S_r _ _ _ Hkj), rev_unit. cbn [reversed_loop].
  rewrite (glift_ok _ _ _ _ _ (key_ok _ _ _ _ E)). unfold gyield.
  rewrite (glift_ok _ _ _ _ _ (before_top _ _ _ _ _ HI Hj Hinner)).
  destruct j as [|j']; cbn [pred_at pos].
  - destruct fuel; [lia|done].
  - pose proof (lookup_lt_Some _ _ _ Hj) as Hlt.
    destruct (nodes t !! j') as [x|] eqn:Ex; [|apply lookup_ge_None in Ex; lia].
    cbn [pos]. rewrite (IH j' x Ex); [done|lia].
Qed.

Lemma first_inv s t fuel :
  Inv s t → depth t ≤ fuel → t ≠ Lf ∨ _size (self s) = 0%Z →
  first fuel s = (Ok (pos (ident (self s)) (nodes t !! 0)), s).
Proof.
  intros HI Hfuel Hnd. unfold first. rewrite (bind_ok _ _ _ _ _ (len_eq s)).
  destruct (Lf_or_not t) as [->|Hne].
  - destruct Hnd as [?|Hs]; [done|]. by rewrite Hs.
  - pose proof (inv_nonempty _ _ HI Hne). pose proof (inv_size _ _ HI).
    destruct (Z.ltb_spec 0 (_size (self s))); [|lia].
    rewrite (bind_ok _ _ _ _ _ (root_inv s _ HI)).
    destruct (first_node_Some t Hne) as [f Hf].
    rewrite (first_position_ok s _ t None fuel f (inv_wf _ _ HI) Hf Hfuel).
    by rewrite <- first_node_head, Hf.
Qed.

Lemma last_inv s t fuel :
  Inv s t → depth t ≤ fuel → t ≠ Lf ∨ _size (self s) = 0%Z →
  last fuel s = (Ok (pos (ident (self s)) (list.last (nodes t))), s).
Proof.
  intros HI Hfuel Hnd. unfold last. rewrite (bind_ok _ _ _ _ _ (len_eq s)).
  destruct (Lf_or_not t) as [->|Hne].
  - destruct Hnd as [?|Hs]; [done|]. by rewrite Hs.
  - pose proof (inv_nonempty _ _ HI Hne). pose proof (inv_size _ _ HI).
    destruct (Z.ltb_spec 0 (_size (self s))); [|lia].
    rewrite (bind_ok _ _ _ _ _ (root_inv s _ HI)).
    destruct (last_node_Some t Hne) as [[m me] Hm].
    rewrite (last_position_ok s _ t None fuel m me (inv_wf _ _ HI) Hm Hfuel).
    by rewrite <- last_node_last, Hm.
Qed.

Lemma nondegenerate s t :
  Inv s t → _root (self s) ≠ None ∨ _size (self s) = 0%Z →
  t ≠ Lf ∨ _size (self s) = 0%Z.
Proof.
  intros HI [H|H]; [left|by right]. intros ->. by rewrite (inv_root _ _ HI) in H.
Qed.

(** A tree object without root whose size is not 0: the walks and the
    search start at [None]. *)
Lemma rootless_runs s fuel k :
  _root (self s) = None → (0 < _size (self s))%Z → 0 < fuel →
  first fuel s = (Raise (TypeError "p must be proper Position type"), s)
  ∧ last fuel s = (Raise (TypeError "p must be proper Position type"), s)
  ∧ find_position fuel k s = (Raise AttributeError, s).
Proof.
  intros Hr Hs Hfuel. destruct fuel as [|fuel]; [lia|].
  assert (Hlt : Z.ltb 0 (_size (self s)) = true) by (by apply Z.ltb_lt).
  assert (Hz : Z.eqb (_size (self s)) 0 = false) by (apply Z.eqb_neq; lia).
  unfold first, last, find_position, __len__, is_empty, __len__, root, bind,
    get_self, ret. cbn. rewrite Hlt, Hz, Hr. done.
Qed.

Lemma rootless_size s t :
  Inv s t → _root (self s) = None ∧ _size (self s) ≠ 0%Z →
  t = Lf ∧ (0 < _size (self s))%Z.
Proof.
  intros HI [Hr Hs]. rewrite (inv_root _ _ HI) in Hr.
  apply top_None in Hr as ->. pose proof (inv_size _ _ HI). cbn in *.
  split; [done|lia].
Qed.

(** X8: in a tree with a root, or of size 0, the iteration [for k in t]
    yields the keys in the order of the in-order traversal, all of them,
    and ends normally.  In a tree object that a failed deletion of its
    last node left with no root and a size that is not 0 it yields nothing
    and raises [TypeError]: the walk to the first position starts at
    [None]. *)
Theorem iter_yields_inorder_keys (s : State) (fuel : nat) :
  reachable s →
  enough s ≤ fuel →
  (_root (self s) ≠ None ∨ _size (self s) = 0%Z →
   __iter__ fuel s = ((inorder_keys (enough s) s).1.1, Ok tt, s))
  ∧ (_root (self s) = None ∧ _size (self s) ≠ 0%Z →
     __iter__ fuel s
     = ([], Raise (TypeError "p must be proper Position type"), s)).
Proof.
  intros Hreach Hfuel. destruct (reachable_inv _ Hreach) as [t HI].
  rewrite (proj2 (inorder_pairs_reach _ _ HI)).
  pose proof (enough_depth _ _ HI). pose proof (enough_nodes _ _ HI).
  unfold __iter__. split.
  - intros Hnd.
    rewrite (glift_ok _ _ _ _ _
               (first_inv _ _ fuel HI ltac:(lia) (nondegenerate _ _ HI Hnd))).
    destruct (nodes t !! 0) as [n|] eqn:E0; cbn [pos].
    + rewrite (iter_loop_ok s t fuel HI ltac:(lia) fuel 0 n E0 ltac:(lia)).
      by rewrite drop_0.
    + apply lookup_ge_None in E0. rewrite <- length_keys in E0.
      destruct (keys t); [|cbn in E0; lia]. destruct fuel; [lia|done].
  - intros Hdeg. destruct (rootless_size _ _ HI Hdeg) as [_ Hs].
    destruct (rootless_runs s fuel 0 (proj1 Hdeg) Hs ltac:(lia)) as (Hf & _).
    unfold glift. by rewrite Hf.
Qed.

(** X9: in a tree with a root, or of size 0, [reversed(t)] yields the keys
    of the in-order traversal in reverse order, and ends normally.  In a
    tree object that a failed deletion of its last node left with no root
    and a size that is not 0 it yields nothing and raises [TypeError]: the
    walk to the last position starts at [None]. *)
Theorem reversed_yields_keys_backwards (s : State) (fuel : nat) :
  reachable s →
  enough s ≤ fuel →
  (_root (self s) ≠ None ∨ _size (self s) = 0%Z →
   __reversed__ fuel s = (rev (inorder_keys (enough s) s).1.1, Ok tt, s))
  ∧ (_root (self s) = None ∧ _size (self s) ≠ 0%Z →
     __reversed__ fuel s
     = ([], Raise (TypeError "p must be proper Position type"), s)).
Proof.
  intros Hreach Hfuel. destruct (reachable_inv _ Hreach) as [t HI].
  rewrite (proj2 (inorder_pairs_reach _ _ HI)).
  pose proof (enough_depth _ _ HI). pose proof (enough_nodes _ _ HI).
  unfold __reversed__. split.
  - intros Hnd.
    rewrite (glift_ok _ _ _ _ _
               (last_inv _ _ fuel HI ltac:(lia) (nondegenerate _ _ HI Hnd))).
    destruct (list.last (nodes t)) as [n|] eqn:E0; cbn [pos].
    + rewrite last_lookup in E0.
      pose proof (lookup_lt_Some _ _ _ E0) as Hlt.
      rewrite (reversed_loop_ok s t fuel HI ltac:(lia) fuel _ n E0 ltac:(lia)).
      rewrite firstn_all2; [done|]. rewrite length_keys. lia.
    + apply last_None in E0.
      rewrite <- length_zero_iff_nil, <- length_keys in E0.
      destruct (keys t); [|cbn in E0; lia]. destruct fuel; [lia|done].
  - intros Hdeg. destruct (rootless_size _ _ HI Hdeg) as [_ Hs].
    destruct (rootless_runs s fuel 0 (proj1 Hdeg) Hs ltac:(lia)) as (_ & Hl & _).
    unfold glift. by rewrite Hl.
Qed.

(** ** The sorted-map queries *)

Lemma pos_pair s t (o : option loc) j :
  Inv s t → (∀ n, o = Some n → nodes t !! j = Some n) →
  (o = None → pairs t !! j = None) →
  pair_or_none (pos (ident (self s)) o) s = (Ok (pairs t !! j), s).
Proof.
  intros HI Hsome Hnone. destruct o as [n|]; cbn [pos pair_or_none].
  - destruct (node_at _ _ _ _ HI (Hsome n eq_refl)) as (nd & E & ->).
    by rewrite (bind_ok _ _ _ _ _ (pair_of_ok _ _ _ _ E)).
  - by rewrite Hnone.
Qed.

Lemma pairs_lookup_None t j : nodes t !! j = None → pairs t !! j = None.
Proof.
  intros H. apply lookup_ge_None in H. apply lookup_ge_None.
  by rewrite length_pairs.
Qed.

Lemma find_min_inv s t fuel :
  Inv s t → depth t ≤ fuel → t ≠ Lf ∨ _size (self s) = 0%Z →
  find_min fuel s = (Ok (head (pairs t)), s).
Proof.
  intros HI Hfuel Hnd. unfold find_min.
  rewrite (bind_ok _ _ _ _ _ (is_empty_eq s)).
  destruct (Z.eqb_spec (_size (self s)) 0) as [Hs|Hs].
  { by rewrite (inv_size_0 _ _ HI Hs). }
  destruct Hnd as [Hne|?]; [|done].
  rewrite (bind_ok _ _ _ _ _ (first_inv _ _ fuel HI Hfuel (or_introl Hne))).
  destruct (first_node_Some t Hne) as [f Hf]. rewrite first_node_head in Hf.
  rewrite Hf. cbn [pos].
  destruct (node_at _ _ _ _ HI Hf) as (nd & E & Hp).
  rewrite (bind_ok _ _ _ _ _ (pair_of_ok _ _ _ _ E)).
  by rewrite head_lookup, Hp.
Qed.

Lemma find_max_inv s t fuel :
  Inv s t → depth t ≤ fuel → t ≠ Lf ∨ _size (self s) = 0%Z →
  find_max fuel s = (Ok (list.last (pairs t)), s).
Proof.
  intros HI Hfuel Hnd. unfold find_max.
  rewrite (bind_ok _ _ _ _ _ (is_empty_eq s)).
  destruct (Z.eqb_spec (_size (self s)) 0) as [Hs|Hs].
  { by rewrite (inv_size_0 _ _ HI Hs). }
  destruct Hnd as [Hne|?]; [|done].
  rewrite (bind_ok _ _ _ _ _ (last_inv _ _ fuel HI Hfuel (or_introl Hne))).
  destruct (last_node_Some t Hne) as [[m me] Hm].
  pose proof (last_node_last t) as Hl. rewrite Hm in Hl. cbn in Hl.
  rewrite <- Hl. cbn [pos]. rewrite last_lookup in Hl.
  destruct (node_at _ _ _ _ HI (eq_sym Hl)) as (nd & E & Hp).
  rewrite (bind_ok _ _ _ _ _ (pair_of_ok _ _ _ _ E)).
  by rewrite last_lookup, length_pairs, Hp.
Qed.

Lemma filter_drop {A} (f : A → bool) (l : list A) j :
  Forall (λ x, f x = false) (take j l) →
  Forall (λ x, f x = true) (drop j l) →
  List.filter f l = drop j l.
Proof.
  intros H1 H2. rewrite <- (take_drop j l) at 1.
  by rewrite List.filter_app, (filter_none _ _ H1), (filter_all _ _ H2).
Qed.

Lemma filter_take {A} (f : A → bool) (l : list A) j :
  Forall (λ x, f x = true) (take j l) →
  Forall (λ x, f x = false) (drop j l) →
  List.filter f l = take j l.
Proof.
  intros H1 H2. rewrite <- (take_drop j l) at 1.
  by rewrite List.filter_app, (filter_none _ _ H2), (filter_all _ _ H1),
    app_nil_r.
Qed.

Lemma Forall_fst (P : Z → Prop) (l : list (Z * V)) :
  Forall P (map fst l) → Forall (λ kv, P kv.1) l.
Proof.
  rewrite !Forall_forall. intros H kv Hkv. apply H.
  apply list_elem_of_fmap. by exists kv.
Qed.

(** The search for [k] splits the pairs: before the node where it stops
    the keys are smaller than [k], after it they are greater. *)
Lemma anchor_split_pairs s t k :
  Inv s t → t ≠ Lf →
  ∃ j m mnd,
    anchor t k = Some m ∧ nodes t !! j = Some m ∧ heap s !! m = Some mnd
    ∧ pairs t !! j = Some (_key (_element mnd), _value (_element mnd))
    ∧ Forall (λ kv, (kv.1 < k)%Z) (take j (pairs t))
    ∧ Forall (λ kv, (k < kv.1)%Z) (drop (S j) (pairs t)).
Proof.
  intros HI Hne.
  destruct (anchor_split k t (inv_bst _ _ HI) Hne) as (j & m & Ea & Hj & Hlt & Hgt).
  destruct (node_at _ _ _ _ HI Hj) as (mnd & Em & Hp).
  exists j, m, mnd. split_and!; try done.
  - apply (Forall_fst (λ x, (x < k)%Z)). by rewrite <- firstn_map, pairs_keys.
  - apply (Forall_fst (λ x, (k < x)%Z)). by rewrite <- skipn_map, pairs_keys.
Qed.

Lemma head_drop_lookup {A} (l : list A) j : head (drop j l) = l !! j.
Proof. rewrite head_lookup, lookup_drop. f_equal. lia. Qed.

Lemma last_take_pred {A} (l : list A) j :
  j ≤ length l → list.last (take j l) = pred_at l j.
Proof.
  intros Hj. rewrite last_lookup, length_take, Nat.min_l by done.
  destruct j as [|j']; [done|]. cbn [pred pred_at].
  apply lookup_take_lt. lia.
Qed.

Lemma Forall_drop_S {A} (P : A → Prop) (l : list A) j x :
  l !! j = Some x → P x → Forall P (drop (S j) l) → Forall P (drop j l).
Proof. intros Hj Hx H. rewrite (drop_S _ _ _ Hj). by constructor. Qed.

Lemma Forall_take_S {A} (P : A → Prop) (l : list A) j x :
  l !! j = Some x → P x → Forall P (take j l) → Forall P (take (S j) l).
Proof.
  intros Hj Hx H. rewrite (take_S_r _ _ _ Hj). apply Forall_app. split; [done|].
  by constructor.
Qed.

(** The four queries, for a tree that is not empty. *)
Lemma find_near s t k fuel :
  Inv s t → t ≠ Lf → depth t < fuel →
  find_ge fuel k s
  = (Ok (head (List.filter (λ kv, Z.leb k kv.1) (pairs t))), s)
  ∧ find_gt fuel k s
    = (Ok (head (List.filter (λ kv, Z.ltb k kv.1) (pairs t))), s)
  ∧ find_le fuel k s
    = (Ok (list.last (List.filter (λ kv, Z.leb kv.1 k) (pairs t))), s)
  ∧ find_lt fuel k s
    = (Ok (list.last (List.filter (λ kv, Z.ltb kv.1 k) (pairs t))), s).
Proof.
  intros HI Hne Hfuel.
  destruct (anchor_split_pairs _ _ k HI Hne)
    as (j & m & mnd & Ea & Hj & Em & Hp & Hlt & Hgt).
  pose proof (inv_nonempty _ _ HI Hne) as Hsz.
  pose proof (lookup_lt_Some _ _ _ Hp) as Hjl.
  assert (Hfp : find_position fuel k s = (Ok (mkp (ident (self s)) m), s)).
  { assert (Hf : depth t ≤ fuel) by lia.
    rewrite (find_position_ok _ _ k _ HI Hne Hf Hsz). by rewrite Ea. }
  assert (Haft : after fuel (mkp (ident (self s)) m) s
                 = (Ok (pos (ident (self s)) (nodes t !! S j)), s))
    by (by apply after_top).
  assert (Hbef : before fuel (mkp (ident (self s)) m) s
                 = (Ok (pos (ident (self s)) (pred_at (nodes t) j)), s))
    by (by apply before_top).
  assert (Hnext : pair_or_none (pos (ident (self s)) (nodes t !! S j)) s
                  = (Ok (pairs t !! S j), s)).
  { apply pos_pair; [done|by intros n ->|apply pairs_lookup_None]. }
  assert (Hprev : pair_or_none (pos (ident (self s)) (pred_at (nodes t) j)) s
                  = (Ok (pred_at (pairs t) j), s)).
  { destruct j as [|j']; [done|]. cbn [pred_at].
    apply pos_pair; [done|by intros n ->|apply pairs_lookup_None]. }
  assert (Hhere : pair_or_none (mkp (ident (self s)) m) s
                  = (Ok (pairs t !! j), s)).
  { apply (pos_pair s t (Some m) j HI); [by intros n [= <-]|done]. }
  set (km := _key (_element mnd)) in *.
  unfold find_ge, find_gt, find_le, find_lt.
  rewrite !(bind_ok _ _ _ _ _ (is_empty_eq s)).
  rewrite (proj2 (Z.eqb_neq _ _) Hsz).
  rewrite !(bind_ok _ _ _ _ _ Hfp).
  rewrite !(bind_ok _ _ _ _ _ (key_ok _ _ _ _ Em)). fold km.
  split_and!.
  - (* find_ge *)
    destruct (Z.ltb_spec km k) as [Hk|Hk].
    + rewrite (bind_ok _ _ _ _ _ Haft), Hnext.
      rewrite (filter_drop _ _ (S j)), head_drop_lookup; [done| |].
      * eapply (Forall_take_S _ _ _ _ Hp); [cbn; apply Z.leb_gt; lia|].
        eapply Forall_impl; [exact Hlt|]. intros x Hx; cbv beta in Hx. apply Z.leb_gt. lia.
      * eapply Forall_impl; [exact Hgt|]. intros x Hx; cbv beta in Hx. apply Z.leb_le. lia.
    + rewrite bind_ret, Hhere.
      rewrite (filter_drop _ _ j), head_drop_lookup; [done| |].
      * eapply Forall_impl; [exact Hlt|]. intros x Hx; cbv beta in Hx. apply Z.leb_gt. lia.
      * eapply (Forall_drop_S _ _ _ _ Hp); [cbn; apply Z.leb_le; lia|].
        eapply Forall_impl; [exact Hgt|]. intros x Hx; cbv beta in Hx. apply Z.leb_le. lia.
  - (* find_gt *)
    destruct (Z.ltb_spec k km) as [Hk|Hk]; cbn [negb].
    + rewrite bind_ret, Hhere.
      rewrite (filter_drop _ _ j), head_drop_lookup; [done| |].
      * eapply Forall_impl; [exact Hlt|]. intros x Hx; cbv beta in Hx. apply Z.ltb_ge. lia.
      * eapply (Forall_drop_S _ _ _ _ Hp); [cbn; apply Z.ltb_lt; lia|].
        eapply Forall_impl; [exact Hgt|]. intros x Hx; cbv beta in Hx. apply Z.ltb_lt. lia.
    + rewrite (bind_ok _ _ _ _ _ Haft), Hnext.
      rewrite (filter_drop _ _ (S j)), head_drop_lookup; [done| |].
      * eapply (Forall_take_S _ _ _ _ Hp); [cbn; apply Z.ltb_ge; lia|].
        eapply Forall_impl; [exact Hlt|]. intros x Hx; cbv beta in Hx. apply Z.ltb_ge. lia.
      * eapply Forall_impl; [exact Hgt|]. intros x Hx; cbv beta in Hx. apply Z.ltb_lt. lia.
  - (* find_le *)
    destruct (Z.ltb_spec k km) as [Hk|Hk].
    + rewrite (bind_ok _ _ _ _ _ Hbef), Hprev.
      rewrite (filter_take _ _ j), last_take_pred; [done|lia| |].
      * eapply Forall_impl; [exact Hlt|]. intros x Hx; cbv beta in Hx. apply Z.leb_le. lia.
      * eapply (Forall_drop_S _ _ _ _ Hp); [cbn; apply Z.leb_gt; lia|].
        eapply Forall_impl; [exact Hgt|]. intros x Hx; cbv beta in Hx. apply Z.leb_gt. lia.
    + rewrite bind_ret, Hhere.
      rewrite (filter_take _ _ (S j)), last_take_pred; [done|lia| |].
      * eapply (Forall_take_S _ _ _ _ Hp); [cbn; apply Z.leb_le; lia|].
        eapply Forall_impl; [exact Hlt|]. intros x Hx; cbv beta in Hx. apply Z.leb_le. lia.
      * eapply Forall_impl; [exact Hgt|]. intros x Hx; cbv beta in Hx. apply Z.leb_gt. lia.
  - (* find_lt *)
    destruct (Z.ltb_spec km k) as [Hk|Hk]; cbn [negb].
    + rewrite bind_ret, Hhere.
      rewrite (filter_take _ _ (S j)), last_take_pred; [done|lia| |].
      * eapply (Forall_take_S _ _ _ _ Hp); [cbn; apply Z.ltb_lt; lia|].
        eapply Forall_impl; [exact Hlt|]. intros x Hx; cbv beta in Hx. apply Z.ltb_lt. lia.
      * eapply Forall_impl; [exact Hgt|]. intros x Hx; cbv beta in Hx. apply Z.ltb_ge. lia.
    + rewrite (bind_ok _ _ _ _ _ Hbef), Hprev.
      rewrite (filter_take _ _ j), last_take_pred; [done|lia| |].
      * eapply Forall_impl; [exact Hlt|]. intros x Hx; cbv beta in Hx. apply Z.ltb_lt. lia.
      * eapply (Forall_drop_S _ _ _ _ Hp); [cbn; apply Z.ltb_ge; lia|].
        eapply Forall_impl; [exact Hgt|]. intros x Hx; cbv beta in Hx. apply Z.ltb_ge. lia.
Qed.

Lemma find_near_empty s fuel k :
  _size (self s) = 0%Z →
  find_ge fuel k s = (Ok None, s) ∧ find_gt fuel k s = (Ok None, s)
  ∧ find_le fuel k s = (Ok None, s) ∧ find_lt fuel k s = (Ok None, s).
Proof.
  intros Hs. unfold find_ge, find_gt, find_le, find_lt.
  rewrite !(bind_ok _ _ _ _ _ (is_empty_eq s)), Hs. done.
Qed.

(** The four searches in a tree object without root whose size is not
    0. *)
Lemma find_near_rootless s fuel k :
  _root (self s) = None → (0 < _size (self s))%Z → 0 < fuel →
  find_min fuel s = (Raise (TypeError "p must be proper Position type"), s)
  ∧ find_max fuel s = (Raise (TypeError "p must be proper Position type"), s)
  ∧ find_ge fuel k s = (Raise AttributeError, s)
  ∧ find_gt fuel k s = (Raise AttributeError, s)
  ∧ find_le fuel k s = (Raise AttributeError, s)
  ∧ find_lt fuel k s = (Raise AttributeError, s).
Proof.
  intros Hr Hs Hfuel.
  destruct (rootless_runs s fuel k Hr Hs Hfuel) as (Hf & Hl & Hp).
  assert (Hz : Z.eqb (_size (self s)) 0 = false) by (apply Z.eqb_neq; lia).
  unfold find_min, find_max, find_ge, find_gt, find_le, find_lt.
  rewrite !(bind_ok _ _ _ _ _ (is_empty_eq s)), Hz.
  rewrite (bind_raise _ _ _ _ _ Hf), (bind_raise _ _ _ _ _ Hl),
    !(bind_raise _ _ _ _ _ Hp). done.
Qed.

(** X10: in a tree with a root, or of size 0, [find_min] and [find_max]
    return the first and the last pair of the in-order traversal, [None]
    for a map without pairs.  In a tree object that a failed deletion of
    its last node left with no root and a size that is not 0 both raise
    [TypeError] and change nothing. *)
Theorem find_min_max (s : State) (fuel : nat) :
  reachable s →
  enough s ≤ fuel →
  (_root (self s) ≠ None ∨ _size (self s) = 0%Z →
   find_min fuel s = (Ok (head (inorder_pairs (enough s) s).1.1), s)
   ∧ find_max fuel s = (Ok (list.last (inorder_pairs (enough s) s).1.1), s))
  ∧ (_root (self s) = None ∧ _size (self s) ≠ 0%Z →
     find_min fuel s
     = (Raise (TypeError "p must be proper Position type"), s)
     ∧ find_max fuel s
       = (Raise (TypeError "p must be proper Position type"), s)).
Proof.
  intros Hreach Hfuel. destruct (reachable_inv _ Hreach) as [t HI].
  rewrite (proj1 (inorder_pairs_reach _ _ HI)).
  pose proof (enough_depth _ _ HI). split.
  - intros Hnd. pose proof (nondegenerate _ _ HI Hnd).
    split; [apply find_min_inv|apply find_max_inv]; try done; lia.
  - intros Hdeg. destruct (rootless_size _ _ HI Hdeg) as [_ Hs].
    destruct (find_near_rootless s fuel 0 (proj1 Hdeg) Hs ltac:(lia))
      as (? & ? & _). done.
Qed.

(** X11: in a tree with a root, or of size 0, [find_ge(k)] returns the
    first pair whose key is at least [k], [find_gt(k)] the first pair
    whose key is greater than [k]; [None] when there is no such pair.  In
    a tree object that a failed deletion of its last node left with no
    root and a size that is not 0 both raise [AttributeError] and change
    nothing. *)
Theorem find_ge_gt (s : State) (k : Z) (fuel : nat) :
  reachable s →
  enough s ≤ fuel →
  (_root (self s) ≠ None ∨ _size (self s) = 0%Z →
   find_ge fuel k s
   = (Ok (head (List.filter (λ kv, Z.leb k kv.1)
                  (inorder_pairs (enough s) s).1.1)), s)
   ∧ find_gt fuel k s
     = (Ok (head (List.filter (λ kv, Z.ltb k kv.1)
                    (inorder_pairs (enough s) s).1.1)), s))
  ∧ (_root (self s) = None ∧ _size (self s) ≠ 0%Z →
     find_ge fuel k s = (Raise AttributeError, s)
     ∧ find_gt fuel k s = (Raise AttributeError, s)).
Proof.
  intros Hreach Hfuel. destruct (reachable_inv _ Hreach) as [t HI].
  rewrite (proj1 (inorder_pairs_reach _ _ HI)).
  pose proof (enough_depth _ _ HI). split.
  - intros Hnd. destruct (nondegenerate _ _ HI Hnd) as [Hne|Hs].
    + destruct (find_near _ _ k fuel HI Hne ltac:(lia)) as (? & ? & _). done.
    + destruct (find_near_empty s fuel k Hs) as (-> & -> & _).
      by rewrite (inv_size_0 _ _ HI Hs).
  - intros Hdeg. destruct (rootless_size _ _ HI Hdeg) as [_ Hs].
    destruct (find_near_rootless s fuel k (proj1 Hdeg) Hs ltac:(lia))
      as (_ & _ & ? & ? & _). done.
Qed.

(** X12: in a tree with a root, or of size 0, [find_le(k)] returns the
    last pair whose key is at most [k], [find_lt(k)] the last pair whose
    key is less than [k]; [None] when there is no such pair.  In a tree
    object that a failed deletion of its last node left with no root and a
    size that is not 0 both raise [AttributeError] and change nothing. *)
Theorem find_le_lt (s : State) (k : Z) (fuel : nat) :
  reachable s →
  enough s ≤ fuel →
  (_root (self s) ≠ None ∨ _size (self s) = 0%Z →
   find_le fuel k s
   = (Ok (list.last (List.filter (λ kv, Z.leb kv.1 k)
                       (inorder_pairs (enough s) s).1.1)), s)
   ∧ find_lt fuel k s
     = (Ok (list.last (List.filter (λ kv, Z.ltb kv.1 k)
                         (inorder_pairs (enough s) s).1.1)), s))
  ∧ (_root (self s) = None ∧ _size (self s) ≠ 0%Z →
     find_le fuel k s = (Raise AttributeError, s)
     ∧ find_lt fuel k s = (Raise AttributeError, s)).
Proof.
  intros Hreach Hfuel. destruct (reachable_inv _ Hreach) as [t HI].
  rewrite (proj1 (inorder_pairs_reach _ _ HI)).
  pose proof (enough_depth _ _ HI). split.
  - intros Hnd. destruct (nondegenerate _ _ HI Hnd) as [Hne|Hs].
    + destruct (find_near _ _ k fuel HI Hne ltac:(lia)) as (_ & _ & ? & ?).
      done.
    + destruct (find_near_empty s fuel k Hs) as (_ & _ & -> & ->).
      by rewrite (inv_size_0 _ _ HI Hs).
  - intros Hdeg. destruct (rootless_size _ _ HI Hdeg) as [_ Hs].
    destruct (find_near_rootless s fuel k (proj1 Hdeg) Hs ltac:(lia))
      as (_ & _ & _ & _ & ? & ?). done.
Qed.

(** ** Positions of the in-order traversal *)

Lemma inorder_inv s t fuel :
  Inv s t → depth t ≤ fuel →
  (inorder fuel s).1.1 = map (λ x, mkp (ident (self s)) x) (nodes t).
Proof.
  intros HI Hfuel. pose proof (inv_wf _ _ HI) as Hwf. unfold inorder.
  rewrite (glift_ok _ _ _ _ _ (is_empty_eq s)).
  destruct (Z.eqb_spec (_size (self s)) 0) as [Hs|Hs]; cbn [negb].
  { by rewrite (inv_size_0 _ _ HI Hs). }
  rewrite (glift_ok _ _ _ _ _ (root_inv s _ HI)).
  destruct (Lf_or_not t) as [->|Hne]; [by destruct fuel|].
  rewrite (gyield_from_ok _ _ _ _ _
             (subtree_inorder_ok _ _ _ _ _ Hwf Hne Hfuel)).
  unfold gdone. by rewrite app_nil_r.
Qed.

(** X13: at the position with index [j] of the in-order traversal,
    [after] returns the position with index [j + 1] and [before] the one
    with index [j - 1]; [None] at the last and at the first position. *)
Theorem after_before_inorder (s : State) (j : nat) (p : option Position)
  (fuel : nat) :
  reachable s →
  (inorder (enough s) s).1.1 !! j = Some p →
  enough s ≤ fuel →
  after fuel p s = (Ok (default None ((inorder (enough s) s).1.1 !! S j)), s)
  ∧ before fuel p s
    = (Ok (default None (pred_at (inorder (enough s) s).1.1 j)), s).
Proof.
  intros Hreach Hj Hfuel. destruct (reachable_inv _ Hreach) as [t HI].
  pose proof (enough_depth _ _ HI) as Hd.
  rewrite (inorder_inv _ _ (enough s) HI ltac:(lia)) in *.
  rewrite list_lookup_fmap in Hj.
  destruct (nodes t !! j) as [n|] eqn:En; [|done]. injection Hj as <-.
  split.
  - rewrite (after_top _ _ _ _ fuel HI En ltac:(lia)).
    rewrite list_lookup_fmap. by destruct (nodes t !! S j).
  - rewrite (before_top _ _ _ _ fuel HI En ltac:(lia)).
    destruct j as [|j']; [done|]. cbn [pred_at].
    rewrite list_lookup_fmap. by destruct (nodes t !! j').
Qed.

(** ** Sequences of assignments *)

Lemma length_insert_new nw k v t :
  k ∉ keys t → length (nodes (a_insert nw k v t)) = S (length (nodes t)).
Proof.
  induction t as [|l IHl n it r IHr]; [done|]. rewrite keys_Br. intros Hk.
  cbn [a_insert].
  destruct (Z.eqb_spec k (_key it)) as [->|Hne]; [set_solver|].
  destruct (Z.ltb k (_key it)); cbn [nodes]; rewrite !length_app; cbn [length].
  - rewrite IHl; [lia|set_solver].
  - rewrite IHr; [lia|set_solver].
Qed.

Lemma setitem_size s t k v :
  Inv s t → _size (self s) = Z.of_nat (length (nodes t)) →
  _size (self (setitem_state s t k v))
  = Z.of_nat (length (nodes (setitem_tree s t k v))).
Proof.
  intros HI Hs. pose proof (inv_wf _ _ HI) as Hwf.
  unfold setitem_state, setitem_tree.
  destruct (Lf_or_not t) as [->|Hne].
  { cbn in *. rewrite Hs. done. }
  destruct (anchor_Some t k Hne) as [m Ea]. rewrite Ea.
  destruct (anchor_slot _ _ _ _ _ _ Hwf Ea) as (mnd & Em & _). rewrite Em.
  destruct (Z.eqb_spec (_key (_element mnd)) k) as [Hk|Hk]; cbn [self _size].
  - by rewrite nodes_replace.
  - rewrite length_insert_new; [lia|]. by eapply anchor_missing.
Qed.

Lemma pairs_setitem_in s t k v k' v' :
  Inv s t → setitem_result s t = Ok tt →
  (k', v') ∈ pairs (setitem_tree s t k v)
  ↔ (k' = k ∧ v' = v) ∨ (k' ≠ k ∧ (k', v') ∈ pairs t).
Proof.
  intros HI Hres. rewrite (pairs_setitem _ _ _ _ HI Hres).
  rewrite elem_of_app, elem_of_cons, !list_elem_of_In, !List.filter_In.
  cbn [fst]. rewrite !Z.ltb_lt. split.
  - intros [[? ?]|[[= -> ->]|[? ?]]]; [right|by left|right]; split; try done; lia.
  - intros [[-> ->]|[Hne Hin]]; [by right; left|].
    destruct (Z.lt_total k' k) as [?|[?|?]]; [by left|done|by right; right].
Qed.

(** The value of the last pair with key [k] in a list of pairs. *)
Lemma last_filter_cons (k k0 : Z) (v0 : V) (kvs : list (Z * V)) :
  list.last (List.filter (λ kv, Z.eqb kv.1 k) ((k0, v0) :: kvs))
  = match list.last (List.filter (λ kv, Z.eqb kv.1 k) kvs) with
    | Some y => Some y
    | None => if Z.eqb k0 k then Some (k0, v0) else None
    end.
Proof.
  cbn [List.filter fst]. destruct (Z.eqb k0 k); [|by destruct (list.last _)].
  by rewrite last_cons.
Qed.

Lemma inserts_run kvs : ∀ s t,
  Inv s t → _size (self s) = Z.of_nat (length (nodes t)) →
  ∃ t',
    Inv (apply_ops (inserts kvs) s) t'
    ∧ _size (self (apply_ops (inserts kvs) s)) = Z.of_nat (length (nodes t'))
    ∧ ∀ k v, (k, v) ∈ pairs t'
        ↔ match list.last (List.filter (λ kv, Z.eqb kv.1 k) kvs) with
          | Some kv => kv = (k, v)
          | None => (k, v) ∈ pairs t
          end.
Proof.
  induction kvs as [|[k0 v0] kvs IH]; intros s t HI Hs.
  { exists t. done. }
  cbn [inserts map apply_ops fold_left apply_op fst snd].
  pose proof (enough_depth _ _ HI) as Hd.
  rewrite (setitem_run _ t _ _ _ HI Hd). cbn [snd].
  assert (Hres : setitem_result s t = Ok tt).
  { unfold setitem_result. destruct t; [|done]. cbn in Hs. by rewrite Hs. }
  destruct (IH _ _ (setitem_inv _ _ k0 v0 HI) (setitem_size _ _ k0 v0 HI Hs))
    as (t' & HI' & Hs' & Hp).
  exists t'. split_and!; [done|done|].
  intros k v. rewrite Hp, last_filter_cons.
  destruct (list.last (List.filter _ kvs)) as [kv|]; [done|].
  rewrite (pairs_setitem_in _ _ _ _ _ _ HI Hres).
  destruct (Z.eqb_spec k0 k) as [->|Hne].
  - split; [intros [[_ ->]|[? _]]; done|intros [= ->]; by left].
  - split; [intros [[-> _]|[_ ?]]; done|intros ?; by right].
Qed.

(** X14: after the assignments [t[k] = v] of a list of pairs to a new
    map, [len(t)] is the number of keys of the in-order traversal, these
    keys are the keys of the list, and [t[k]] is the value of the last pair
    of the list with key [k]. *)
Theorem inserts_len_keys_values (i : tid) (c : Class) (kvs : list (Z * V)) :
  __len__ (apply_ops (inserts kvs) (init i c))
  = (Ok (Z.of_nat
           (length
              (inorder_keys (enough (apply_ops (inserts kvs) (init i c)))
                 (apply_ops (inserts kvs) (init i c))).1.1)),
     apply_ops (inserts kvs) (init i c))
  ∧ (∀ k, k ∈ (inorder_keys (enough (apply_ops (inserts kvs) (init i c)))
                 (apply_ops (inserts kvs) (init i c))).1.1
          ↔ k ∈ map fst kvs)
  ∧ (∀ k v,
       list.last (List.filter (λ kv, Z.eqb kv.1 k) kvs) = Some (k, v) →
       __getitem__ (enough (apply_ops (inserts kvs) (init i c))) k
         (apply_ops (inserts kvs) (init i c))
       = (Ok v, apply_ops (inserts kvs) (init i c))).
Proof.
  destruct (inserts_run kvs _ _ (init_inv i c) eq_refl) as (t & HI & Hs & Hp).
  set (s := apply_ops (inserts kvs) (init i c)) in *.
  rewrite (proj2 (inorder_pairs_reach _ _ HI)).
  pose proof (enough_depth _ _ HI) as Hd.
  split_and!.
  - rewrite len_eq, Hs. rewrite length_keys. reflexivity.
  - intros k. rewrite <- pairs_keys, !list_elem_of_fmap. split.
    + intros ([k' v] & -> & Hin). apply Hp in Hin. cbn [fst].
      destruct (list.last _) as [kv|] eqn:El; [|by apply elem_of_nil in Hin].
      subst kv. apply last_Some_elem_of, list_elem_of_In, List.filter_In in El.
      exists (k', v). split; [done|]. apply list_elem_of_In, El.
    + intros ([k' v] & -> & Hin). cbn [fst].
      destruct (list.last (List.filter (λ kv, Z.eqb kv.1 k') kvs))
        as [[k1 v1]|] eqn:El.
      * exists (k', v1). split; [done|]. apply Hp. rewrite El.
        apply last_Some_elem_of, list_elem_of_In, List.filter_In in El.
        destruct El as [_ El]. cbn in El. apply Z.eqb_eq in El. by subst.
      * apply last_None in El.
        assert (Hf : (k', v) ∈ List.filter (λ kv, Z.eqb kv.1 k') kvs).
        { apply list_elem_of_In, List.filter_In. split; [by apply list_elem_of_In|].
          apply Z.eqb_refl. }
        rewrite El in Hf. by apply elem_of_nil in Hf.
  - intros k v El. apply (getitem_in _ t); [done|lia|].
    apply Hp. by rewrite El.
Qed.

(** ** [iterative_search] *)

Lemma is_leaf_ok s n nd :
  heap s !! n = Some nd → _parent nd ≠ Some n →
  is_leaf (mkp (ident (self s)) n) s
  = (Ok (bool_decide (_left nd = None ∧ _right nd = None)), s).
Proof.
  intros E Hp. unfold is_leaf.
  rewrite (bind_ok _ _ _ _ _ (num_children_ok _ _ _ E Hp)). unfold ret.
  do 2 f_equal. unfold num_children_of.
  destruct (_left nd), (_right nd); cbn;
    by rewrite ?bool_decide_eq_true_2, ?bool_decide_eq_false_2 by (by intros [? ?]).
Qed.

Lemma iterative_ok s bf k t : ∀ par fuel,
  wf (heap s) bf par t → t ≠ Lf → depth t ≤ fuel →
  iterative_search fuel (pos (ident (self s)) (top t)) k s
  = (Ok (pos (ident (self s)) (anchor t k)), s).
Proof.
  induction t as [|l IHl n it r IHr]; intros par fuel Hwf Hne Hfuel; [done|].
  apply wf_Br in Hwf as (E & Hp & _ & _ & _ & Hl & Hr).
  destruct fuel as [|fuel]; [cbn in Hfuel; lia|]. cbn in Hfuel.
  cbn [iterative_search top pos anchor].
  rewrite (bind_ok _ _ _ _ _ (key_ok _ _ _ _ E)). cbn [_element _key].
  rewrite (Z.eqb_sym (_key it) k).
  destruct (Z.eqb k (_key it)); [done|].
  rewrite (bind_ok _ _ _ _ _ (is_leaf_ok _ _ _ E Hp)). cbn [_left _right].
  destruct (decide (top l = None ∧ top r = None)) as [[Htl Htr]|Hnl].
  { rewrite bool_decide_eq_true_2 by done.
    apply top_None in Htl, Htr. subst. by destruct (Z.ltb k (_key it)). }
  rewrite bool_decide_eq_false_2 by done.
  destruct (Z.ltb k (_key it)).
  - rewrite (bind_ok _ _ _ _ _ (left_ok _ _ _ E Hp)). cbn [_left].
    destruct l as [|ll ln lit lr]; [done|].
    cbn [top pos]. apply (IHl (Some n)); [done|done|lia].
  - rewrite (bind_ok _ _ _ _ _ (right_ok _ _ _ E Hp)). cbn [_right].
    destruct r as [|rl rn rit rr]; [done|].
    cbn [top pos]. apply (IHr (Some n)); [done|done|lia].
Qed.

Lemma sorted_lookup_lt (l : list Z) : ∀ i j x y,
  StronglySorted Z.lt l → l !! i = Some x → l !! j = Some y → i < j →
  (x < y)%Z.
Proof.
  induction l as [|a l IH]; intros i j x y Hs Hi Hj Hij; [done|].
  apply StronglySorted_cons in Hs as [Ha Hs].
  destruct j as [|j']; [lia|]. cbn in Hj.
  destruct i as [|i']; cbn in Hi.
  - injection Hi as <-. rewrite Forall_lookup in Ha. by eapply Ha.
  - eapply (IH i' j'); try done. lia.
Qed.

(** X15: from the root, [iterative_search] returns what
    [_subtree_search] returns: the position of [k] when the map holds [k],
    and otherwise a position next to where [k] would be, no key of the map
    lying between its key and [k]. *)
Theorem iterative_search_finds (s : State) (k : Z) (fuel : nat)
  (r : option Position) :
  reachable s →
  enough s ≤ fuel →
  root s = (Ok r, s) →
  r ≠ None →
  iterative_search fuel r k s = _subtree_search fuel r k s
  ∧ ∃ p km,
      _subtree_search fuel r k s = (Ok p, s)
      ∧ key p s = (Ok km, s)
      ∧ (k ∈ (inorder_keys (enough s) s).1.1 → km = k)
      ∧ ∀ x, x ∈ (inorder_keys (enough s) s).1.1 →
             ¬ (km < x < k)%Z ∧ ¬ (k < x < km)%Z.
Proof.
  intros Hreach Hfuel Hroot Hr. destruct (reachable_inv _ Hreach) as [t HI].
  rewrite (proj2 (inorder_pairs_reach _ _ HI)).
  pose proof (enough_depth _ _ HI) as Hd. pose proof (inv_wf _ _ HI) as Hwf.
  rewrite (root_inv _ _ HI) in Hroot. injection Hroot as <-.
  assert (Hne : t ≠ Lf) by (by intros ->).
  assert (Hf : depth t ≤ fuel) by lia.
  rewrite (iterative_ok _ _ k _ _ _ Hwf Hne Hf),
    (search_ok _ _ k _ _ _ Hwf Hne Hf).
  split; [done|].
  destruct (anchor_split_pairs _ _ k HI Hne)
    as (j & m & mnd & Ea & Hj & Em & Hp & Hlt & Hgt).
  rewrite Ea. cbn [pos]. eexists _, _. split_and!; [done|by apply key_ok| |].
  - intros Hin.
    destruct (anchor_found _ _ _ _ _ (inv_rep _ _ HI) (inv_bst _ _ HI) Hin)
      as (m' & mnd' & Ea' & Em' & Hk').
    congruence.
  - intros x Hx. rewrite <- pairs_keys in Hx.
    apply list_elem_of_fmap in Hx as ([x' v] & -> & Hx). cbn [fst].
    apply list_elem_of_lookup in Hx as [i Hi].
    pose proof (bst_sorted _ (inv_bst _ _ HI)) as Hs.
    rewrite <- pairs_keys in Hs.
    rewrite Forall_lookup in Hlt, Hgt.
    destruct (lt_eq_lt_dec i j) as [[Hij|Hij]|Hij].
    + specialize (Hlt i (x', v)). rewrite lookup_take_lt in Hlt by done.
      specialize (Hlt Hi). cbn in Hlt.
      assert (x' < _key (_element mnd))%Z; [|lia].
      eapply (sorted_lookup_lt _ i j x' (_key (_element mnd)) Hs);
        [by rewrite list_lookup_fmap, Hi|by rewrite list_lookup_fmap, Hp|done].
    + subst i. rewrite Hp in Hi. injection Hi as <- _. lia.
    + specialize (Hgt (i - S j) (x', v)). rewrite lookup_drop in Hgt.
      replace (S j + (i - S j)) with i in Hgt by lia.
      specialize (Hgt Hi). cbn in Hgt.
      assert (_key (_element mnd) < x')%Z; [|lia].
      eapply (sorted_lookup_lt _ j i (_key (_element mnd)) x' Hs);
        [by rewrite list_lookup_fmap, Hp|by rewrite list_lookup_fmap, Hi|done].
Qed.

(** ** Height *)

Lemma children_ok s n nd :
  heap s !! n = Some nd → _parent nd ≠ Some n →
  children (mkp (ident (self s)) n) s
  = (match _left nd with
     | Some l => [mkp (ident (self s)) l]
     | None => []
     end ++
     match _right nd with
     | Some r => [mkp (ident (self s)) r]
     | None => []
     end, Ok tt, s).
Proof.
  intros E Hp. unfold children.
  rewrite (glift_ok _ _ _ _ _ (left_ok _ _ _ E Hp)).
  destruct (_left nd) as [l|]; cbn [pos]; unfold gyield;
    rewrite (glift_ok _ _ _ _ _ (right_ok _ _ _ E Hp));
    by destruct (_right nd).
Qed.

Lemma collect_ok {A} (g : Gen A) s l s' :
  g s = (l, Ok tt, s') → collect g s = (Ok l, s').
Proof. intros E. unfold collect. by rewrite E. Qed.

Lemma height2_ok s bf t : ∀ par fuel,
  wf (heap s) bf par t → t ≠ Lf → depth t ≤ fuel →
  _height2 fuel (pos (ident (self s)) (top t)) s
  = (Ok (Z.of_nat (depth t) - 1)%Z, s).
Proof.
  induction t as [|l IHl n it r IHr]; intros par fuel Hwf Hne Hfuel; [done|].
  apply wf_Br in Hwf as (E & Hp & _ & _ & _ & Hl & Hr).
  destruct fuel as [|fuel]; [cbn in Hfuel; lia|]. cbn [depth] in Hfuel.
  cbn [_height2 top pos].
  rewrite (bind_ok _ _ _ _ _ (is_leaf_ok _ _ _ E Hp)). cbn [_left _right].
  destruct (decide (top l = None ∧ top r = None)) as [[Htl Htr]|Hnl].
  { rewrite bool_decide_eq_true_2 by done.
    apply top_None in Htl, Htr. by subst. }
  rewrite bool_decide_eq_false_2 by done.
  rewrite (bind_ok _ _ _ _ _ (collect_ok _ _ _ _ (children_ok _ _ _ E Hp))).
  cbn [_left _right].
  destruct l as [|ll ln lit lr], r as [|rl rn rit rr]; cbn [top app].
  - exfalso. by apply Hnl.
  - cbn [mapM].
    rewrite !bind_assoc.
    rewrite (bind_ok _ _ _ _ _
               (IHr (Some n) fuel Hr ltac:(done) ltac:(cbn in *; lia))).
    repeat (rewrite bind_assoc || rewrite bind_ret). unfold ret. do 2 f_equal. cbn [max_list fold_left depth].
    lia.
  - cbn [mapM].
    rewrite !bind_assoc.
    rewrite (bind_ok _ _ _ _ _
               (IHl (Some n) fuel Hl ltac:(done) ltac:(cbn in *; lia))).
    repeat (rewrite bind_assoc || rewrite bind_ret). unfold ret. do 2 f_equal. cbn [max_list fold_left depth].
    lia.
  - cbn [mapM].
    rewrite !bind_assoc.
    rewrite (bind_ok _ _ _ _ _
               (IHl (Some n) fuel Hl ltac:(done) ltac:(cbn in *; lia))).
    rewrite !bind_assoc.
    rewrite (bind_ok _ _ _ _ _
               (IHr (Some n) fuel Hr ltac:(done) ltac:(cbn in *; lia))).
    repeat (rewrite bind_assoc || rewrite bind_ret). unfold ret. do 2 f_equal.
    cbn [max_list fold_left]. cbn [depth]. lia.
Qed.

Lemma height_inv s t fuel :
  Inv s t → t ≠ Lf → depth t ≤ fuel →
  height fuel None s = (Ok (Z.of_nat (depth t) - 1)%Z, s).
Proof.
  intros HI Hne Hfuel. unfold height.
  rewrite (bind_ok _ _ _ _ _ (root_inv s _ HI)).
  by apply (height2_ok _ _ _ None _ (inv_wf _ _ HI)).
Qed.

Lemma nodes_lt_pow t : length (nodes t) < 2 ^ depth t.
Proof.
  induction t as [|l IHl n it r IHr]; [cbn; lia|].
  cbn [nodes depth]. rewrite length_app. cbn [length].
  rewrite Nat.pow_succ_r'.
  pose proof (Nat.pow_le_mono_r 2 (depth l) (Nat.max (depth l) (depth r))
                ltac:(lia) ltac:(lia)).
  pose proof (Nat.pow_le_mono_r 2 (depth r) (Nat.max (depth l) (depth r))
                ltac:(lia) ltac:(lia)).
  lia.
Qed.

(** X16: [height()] of a tree without root raises [TypeError]; otherwise
    it returns a number [ht] with [0 <= ht < n] and [n < 2 ^ (ht + 1)], [n]
    being the number of positions of the in-order traversal. *)
Theorem height_bounds (s : State) (fuel : nat) :
  reachable s →
  enough s ≤ fuel →
  match _root (self s) with
  | None =>
      height fuel None s
      = (Raise (TypeError "p must be proper Position type"), s)
  | Some _ =>
      ∃ ht, height fuel None s = (Ok ht, s)
           ∧ (0 ≤ ht
              < Z.of_nat (length (inorder_keys (enough s) s).1.1))%Z
           ∧ (Z.of_nat (length (inorder_keys (enough s) s).1.1)
              < 2 ^ (ht + 1))%Z
  end.
Proof.
  intros Hreach Hfuel. destruct (reachable_inv _ Hreach) as [t HI].
  rewrite (proj2 (inorder_pairs_reach _ _ HI)).
  pose proof (enough_depth _ _ HI) as Hd.
  rewrite (inv_root _ _ HI). destruct (Lf_or_not t) as [->|Hne].
  - cbn [top]. unfold height. rewrite (bind_ok _ _ _ _ _ (root_inv s _ HI)).
    cbn [top pos]. destruct fuel; [lia|done].
  - destruct (top t) as [n|] eqn:Et; [|by apply top_None in Et].
    exists (Z.of_nat (depth t) - 1)%Z.
    rewrite (height_inv _ _ fuel HI Hne ltac:(lia)).
    rewrite length_keys.
    pose proof (depth_le_nodes t). pose proof (nodes_lt_pow t).
    assert (0 < depth t) by (destruct t; [done|cbn; lia]).
    split_and!; [done|lia|lia|].
    replace (Z.of_nat (depth t) - 1 + 1)%Z with (Z.of_nat (depth t)) by lia.
    change 2%Z with (Z.of_nat 2). rewrite <- Nat2Z.inj_pow. lia.
Qed.

(** ** Ascending insertions *)

Lemma chain_insert nw k v t :
  chain t → Forall (λ x, (x < k)%Z) (keys t) →
  chain (a_insert nw k v t) ∧ depth (a_insert nw k v t) = S (depth t).
Proof.
  induction t as [|l IHl n it r IHr]; [done|].
  intros [-> Hc]. rewrite keys_Br. cbn [keys items map app].
  intros Hk. apply Forall_cons in Hk as [Hit Hk].
  cbn [a_insert].
  destruct (Z.eqb_spec k (_key it)); [lia|].
  destruct (Z.ltb_spec k (_key it)); [lia|].
  destruct (IHr Hc Hk) as [Hc' Hd']. cbn [chain depth]. rewrite Hd'.
  split; [done|]. lia.
Qed.

Lemma setitem_tree_new s t k v :
  Inv s t → setitem_result s t = Ok tt → k ∉ keys t →
  setitem_tree s t k v = a_insert (fresh (dom (heap s))) k v t.
Proof.
  intros HI Hres Hk. pose proof (inv_wf _ _ HI) as Hwf. unfold setitem_tree.
  destruct (Lf_or_not t) as [->|Hne].
  { cbn in *. by destruct (Z.eqb (_size (self s)) 0). }
  destruct (anchor_Some t k Hne) as [m Ea]. rewrite Ea.
  destruct (anchor_slot _ _ _ _ _ _ Hwf Ea) as (mnd & Em & _). rewrite Em.
  destruct (Z.eqb_spec (_key (_element mnd)) k) as [Hkm|Hkm]; [|done].
  exfalso. apply Hk. rewrite <- pairs_keys. apply list_elem_of_fmap.
  eexists. split; [|by eapply anchor_pair]. done.
Qed.

Lemma ascending_run kvs : ∀ s t,
  Inv s t → _size (self s) = Z.of_nat (length (nodes t)) → chain t →
  StronglySorted Z.lt (map fst kvs) →
  (∀ x y, x ∈ keys t → y ∈ map fst kvs → (x < y)%Z) →
  ∃ t', Inv (apply_ops (inserts kvs) s) t' ∧ chain t'
        ∧ depth t' = depth t + length kvs.
Proof.
  induction kvs as [|[k0 v0] kvs IH]; intros s t HI Hs Hc Hsort Hlt.
  { exists t. split_and!; [done|done|cbn; lia]. }
  cbn [inserts map apply_ops fold_left apply_op fst snd] in *.
  apply StronglySorted_cons in Hsort as [Hk0 Hsort].
  pose proof (enough_depth _ _ HI) as Hd.
  rewrite (setitem_run _ t _ _ _ HI Hd). cbn [snd].
  assert (Hres : setitem_result s t = Ok tt).
  { unfold setitem_result. destruct t; [|done]. cbn in Hs. by rewrite Hs. }
  assert (Hnew : k0 ∉ keys t).
  { intros Hin. specialize (Hlt k0 k0 Hin ltac:(set_solver)). lia. }
  pose proof (setitem_tree_new _ _ _ v0 HI Hres Hnew) as Et.
  destruct (chain_insert (fresh (dom (heap s))) k0 v0 t Hc) as [Hc1 Hd1].
  { apply Forall_forall. intros x Hx. apply Hlt; [done|set_solver]. }
  rewrite <- Et in Hc1, Hd1.
  destruct (IH _ _ (setitem_inv _ _ k0 v0 HI) (setitem_size _ _ k0 v0 HI Hs)
              Hc1 Hsort) as (t' & HI' & Hc' & Hd').
  { intros x y Hx Hy. rewrite <- pairs_keys in Hx.
    apply list_elem_of_fmap in Hx as ([x' v] & -> & Hx). cbn [fst].
    apply (pairs_setitem_in _ _ _ _ _ _ HI Hres) in Hx as [[-> _]|[_ Hx]].
    - rewrite Forall_forall in Hk0. by apply Hk0.
    - apply Hlt; [|set_solver]. rewrite <- pairs_keys.
      apply list_elem_of_fmap. by exists (x', v). }
  exists t'. split_and!; [done|done|]. rewrite Hd', Hd1. cbn [length]. lia.
Qed.

(** X17: after the insertion of [n >= 1] pairs in strictly ascending key
    order into a new map of either class, [height()] returns [n - 1]: the
    tree is a chain, also for an [AVLTreeMap]. *)
Theorem ascending_inserts_height (i : tid) (c : Class) (kvs : list (Z * V)) :
  StronglySorted Z.lt (map fst kvs) →
  kvs ≠ [] →
  height (enough (apply_ops (inserts kvs) (init i c))) None
    (apply_ops (inserts kvs) (init i c))
  = (Ok (Z.of_nat (length kvs) - 1)%Z, apply_ops (inserts kvs) (init i c)).
Proof.
  intros Hsort Hne.
  destruct (ascending_run kvs _ _ (init_inv i c) eq_refl I Hsort)
    as (t & HI & Hc & Hd).
  { intros x y Hx. by apply elem_of_nil in Hx. }
  cbn [depth] in Hd. pose proof (enough_depth _ _ HI).
  assert (t ≠ Lf).
  { intros ->. cbn in Hd. destruct kvs; [done|cbn in Hd; lia]. }
  rewrite (height_inv _ t); [|done|done|lia]. by rewrite Hd.
Qed.

(** ** Rotation *)

Lemma rotate_notin x t : x ∉ nodes t → a_rotate x t = t.
Proof.
  induction t as [|l IHl n it r IHr]; [done|]. cbn [nodes a_rotate]. intros Hx.
  rewrite bool_decide_eq_false_2.
  2:{ intros Ht. apply top_in in Ht. set_solver. }
  rewrite bool_decide_eq_false_2.
  2:{ intros Ht. apply top_in in Ht. set_solver. }
  rewrite IHl, IHr; set_solver.
Qed.

Lemma nodes_rotate x t : nodes (a_rotate x t) = nodes t.
Proof.
  induction t as [|l IHl n it r IHr]; [done|]. cbn [a_rotate].
  destruct (bool_decide (top l = Some x)).
  { destruct l; [done|]. cbn. by rewrite <- !app_assoc. }
  destruct (bool_decide (top r = Some x)).
  { destruct r; [done|]. cbn. by rewrite <- !app_assoc. }
  cbn. by rewrite IHl, IHr.
Qed.

Lemma items_rotate x t : items (a_rotate x t) = items t.
Proof.
  induction t as [|l IHl n it r IHr]; [done|]. cbn [a_rotate].
  destruct (bool_decide (top l = Some x)).
  { destruct l; [done|]. cbn. by rewrite <- !app_assoc. }
  destruct (bool_decide (top r = Some x)).
  { destruct r; [done|]. cbn. by rewrite <- !app_assoc. }
  cbn. by rewrite IHl, IHr.
Qed.

Lemma depth_rotate x t : depth (a_rotate x t) ≤ S (depth t).
Proof.
  induction t as [|l IHl n it r IHr]; [cbn; lia|]. cbn [a_rotate].
  destruct (bool_decide (top l = Some x)).
  { destruct l; cbn; lia. }
  destruct (bool_decide (top r = Some x)).
  { destruct r; cbn; lia. }
  cbn. lia.
Qed.

Lemma top_rotate x l n it r :
  top (a_rotate x (Br l n it r))
  = if bool_decide (top l = Some x ∨ top r = Some x) then Some x else Some n.
Proof.
  cbn [a_rotate].
  destruct (decide (top l = Some x)) as [Hl|Hl].
  { rewrite (bool_decide_eq_true_2 _ Hl), bool_decide_eq_true_2 by (by left).
    destruct l; [done|]. cbn in *. done. }
  rewrite (bool_decide_eq_false_2 _ Hl).
  destruct (decide (top r = Some x)) as [Hr|Hr].
  { rewrite (bool_decide_eq_true_2 _ Hr), bool_decide_eq_true_2 by (by right).
    destruct r; [done|]. cbn in *. done. }
  rewrite (bool_decide_eq_false_2 _ Hr), bool_decide_eq_false_2; [done|].
  by intros [?|?].
Qed.

(** The parent of a node below the top, in the tree and in the store. *)
Lemma wf_parent h bf t : ∀ par x,
  wf h bf par t → x ∈ nodes t → top t ≠ Some x →
  ∃ y a e b par',
    subtree y t = Br a y e b ∧ y ∈ nodes t
    ∧ wf h bf par' (Br a y e b)
    ∧ (top a = Some x ∨ top b = Some x)
    ∧ (top t = Some y ∧ par' = par
       ∨ top t ≠ Some y ∧ ∃ q, par' = Some q ∧ q ∈ nodes t ∧ q ≠ y).
Proof.
  induction t as [|l IHl n it r IHr]; intros par x Hwf Hx Htop;
    [by apply elem_of_nil in Hx|].
  pose proof Hwf as Hwf'.
  apply wf_Br in Hwf' as (E & Hp & Hnl & Hnr & Hd & Hl & Hr).
  cbn [top] in Htop.
  destruct (decide (top l = Some x ∨ top r = Some x)) as [Hc|Hc].
  { exists n, l, it, r, par. cbn [subtree nodes top]. rewrite Nat.eqb_refl.
    split_and!; [done|set_solver|done|done|by left]. }
  assert (Hxn : x ≠ n) by congruence.
  cbn [nodes] in Hx. apply elem_of_app in Hx as [Hx|Hx].
  - destruct (IHl (Some n) x Hl Hx) as (y & a & e & b & par' & Hs & Hy & Hw & Hch & Hcase).
    { intros Ht. apply Hc. by left. }
    exists y, a, e, b, par'. cbn [subtree nodes top].
    assert (Hyn : n ≠ y) by (by intros ->).
    rewrite (proj2 (Nat.eqb_neq n y) Hyn), Hs.
    split_and!; [done|set_solver|done|done|]. right. split; [congruence|].
    destruct Hcase as [[Ht ->]|[Ht (q & -> & Hq & Hqy)]].
    + exists n. split_and!; [done|set_solver|done].
    + exists q. split_and!; [done|set_solver|done].
  - apply elem_of_cons in Hx as [->|Hx]; [done|].
    destruct (IHr (Some n) x Hr Hx) as (y & a & e & b & par' & Hs & Hy & Hw & Hch & Hcase).
    { intros Ht. apply Hc. by right. }
    exists y, a, e, b, par'. cbn [subtree nodes top].
    assert (Hyn : n ≠ y) by (by intros ->).
    rewrite (proj2 (Nat.eqb_neq n y) Hyn).
    rewrite (subtree_notin y l); [|intros Hyl; by apply (Hd _ Hyl)].
    split_and!; [done|set_solver|done|done|]. right. split; [congruence|].
    destruct Hcase as [[Ht ->]|[Ht (q & -> & Hq & Hqy)]].
    + exists n. split_and!; [done|set_solver|done].
    + exists q. split_and!; [done|set_solver|done].
Qed.

Lemma rep_reparent h h' bf p p' t :
  wf h bf p t →
  (∀ c cnd, top t = Some c → h !! c = Some cnd →
            h' !! c = Some (with_parent cnd p')) →
  (∀ n, n ∈ nodes t → top t ≠ Some n → h' !! n = h !! n) →
  rep h' bf p' t.
Proof.
  intros Hwf Htop Hfr. destruct t as [|l c it r]; [done|].
  apply wf_Br in Hwf as (E & Hp & Hnl & Hnr & Hd & Hl & Hr).
  cbn [rep]. split_and!.
  - by rewrite (Htop c _ eq_refl E).
  - apply (rep_frame h); [apply Hl|]. intros n Hn. apply Hfr; [cbn; set_solver|].
    cbn. intros [= ->]. done.
  - apply (rep_frame h); [apply Hr|]. intros n Hn. apply Hfr; [cbn; set_solver|].
    cbn. intros [= ->]. done.
Qed.

Lemma wf_top_node h bf par t x :
  wf h bf par t → top t = Some x →
  ∃ a e b, t = Br a x e b
           ∧ h !! x = Some (mkNode e par (top a) (top b) bf).
Proof.
  intros Hwf Ht. destruct t as [|a n e b]; [done|]. injection Ht as ->.
  apply wf_Br in Hwf as (E & _). by exists a, e, b.
Qed.

(** Where the parent of [x], the children of [x] and the grandparent of
    [x] are, for a node [x] below the top of [t]. *)
Lemma rotated_facts h bf par t x xnd y ynd :
  wf h bf par t → x ∈ nodes t → top t ≠ Some x →
  h !! x = Some xnd → _parent xnd = Some y → h !! y = Some ynd →
  y ∈ nodes t ∧ x ≠ y
  ∧ (∀ m, _left xnd = Some m ∨ _right xnd = Some m → m ∈ nodes t)
  ∧ ((∃ l it r, t = Br l y it r ∧ (top l = Some x ∨ top r = Some x)
                ∧ _parent ynd = par)
     ∨ top t ≠ Some y
       ∧ (∃ q, _parent ynd = Some q ∧ q ∈ nodes t)
       ∧ ∀ l n it r, t = Br l n it r → top l ≠ Some x ∧ top r ≠ Some x).
Proof.
  intros Hwf Hx Htop Ex Hxp Ey.
  destruct (wf_parent _ _ _ _ _ Hwf Hx Htop)
    as (y0 & a & e & b & par' & Hs & Hy0 & Hw & Hch & Hcase).
  pose proof Hw as Hw'.
  apply wf_Br in Hw' as (Ey0 & Hp0 & Hna & Hnb & Hdab & Ha & Hb).
  assert (Hx0 : ∃ (xa : atree) xe (xb : atree), h !! x = Some (mkNode xe (Some y0) (top xa) (top xb) bf)
                 ∧ x ∈ nodes (Br a y0 e b)
                 ∧ (∀ m, top xa = Some m ∨ top xb = Some m →
                         m ∈ nodes (Br a y0 e b))
                 ∧ x ≠ y0).
  { destruct Hch as [Hc|Hc].
    - destruct (wf_top_node _ _ _ _ _ Ha Hc) as (xa & xe & xb & -> & E).
      exists xa, xe, xb. split_and!; [done|cbn; set_solver| |by intros ->; apply Hna; cbn; set_solver].
      intros m [Hm|Hm]; apply top_in in Hm; cbn; set_solver.
    - destruct (wf_top_node _ _ _ _ _ Hb Hc) as (xa & xe & xb & -> & E).
      exists xa, xe, xb. split_and!; [done|cbn; set_solver| |by intros ->; apply Hnb; cbn; set_solver].
      intros m [Hm|Hm]; apply top_in in Hm; cbn; set_solver. }
  destruct Hx0 as (xa & xe & xb & Ex0 & Hxin & Hmin & Hxy).
  rewrite Ex in Ex0. injection Ex0 as ->. cbn in Hxp. injection Hxp as <-.
  rewrite Ey in Ey0. injection Ey0 as ->. cbn [_parent _left _right].
  split_and!; [done|done| |].
  - intros m Hm. eapply subtree_nodes; [exact Hs|]. by apply Hmin.
  - destruct Hcase as [[Ht ->]|[Ht (q & -> & Hq & Hqy)]].
    + left. pose proof (subtree_at_top _ _ _ _ _ Ht Hs) as ->.
      by exists a, e, b.
    + right. split_and!; [done|by exists q|].
      intros l n it r ->.
      pose proof Hwf as Hwf'.
      apply wf_Br in Hwf' as (_ & _ & _ & _ & _ & Hl & Hr).
      split; intros Hc.
      * destruct (wf_top_node _ _ _ _ _ Hl Hc) as (? & ? & ? & _ & E).
        rewrite Ex in E. injection E as _ E _ _. cbn in Ht. congruence.
      * destruct (wf_top_node _ _ _ _ _ Hr Hc) as (? & ? & ? & _ & E).
        rewrite Ex in E. injection E as _ E _ _. cbn in Ht. congruence.
Qed.

Lemma rep_rotate h h' bf x t : ∀ par,
  wf h bf par t → x ∈ nodes t → top t ≠ Some x → rotated h h' x →
  rep h' bf par (a_rotate x t).
Proof.
  intros par Hwf Hx Htop (xnd & y & ynd & Ex & Hxp & Ey & Hx' & Hy' & Hmid & Hz & Hfr).
  revert par Hwf Hx Htop.
  induction t as [|l IHl n it r IHr]; intros par Hwf Hx Htop; [done|].
  destruct (rotated_facts _ _ _ _ _ _ _ _ Hwf Hx Htop Ex Hxp Ey)
    as (Hyt & Hxy & Hch & Hpos).
  pose proof Hwf as Hwf'.
  apply wf_Br in Hwf' as (E & Hp & Hnl & Hnr & Hd & Hl & Hr).
  assert (Hout : ∀ m, m ∈ nodes (Br l n it r) → par ≠ Some m).
  { intros m Hm ->. destruct Hwf as (_ & _ & Ho). by apply (Ho m). }
  cbn [top] in Htop. assert (Hxn : x ≠ n) by congruence.
  cbn [a_rotate].
  destruct (decide (top l = Some x)) as [Hlx|Hlx].
  { (* [x] is the left child of the top *)
    rewrite (bool_decide_eq_true_2 _ Hlx).
    destruct (wf_top_node _ _ _ _ _ Hl Hlx) as (a & ex & b & -> & Ex0).
    rewrite Ex in Ex0. injection Ex0 as ->. cbn in Hxp. injection Hxp as <-.
    rewrite E in Ey. injection Ey as <-.
    cbn [_parent _left _right top] in *.
    rewrite bool_decide_eq_true_2 in * by done.
    apply wf_Br in Hl as (_ & _ & Hxa & Hxb & Hdab & Ha & Hb).
    cbn [rot_left_child rep]. cbn [nodes] in *. split_and!.
    - exact Hx'.
    - apply (rep_frame h); [apply Ha|]. intros m Hm. apply Hfr.
      + by intros ->.
      + intros ->. set_solver.
      + intros Hb'. apply top_in in Hb'. by apply (Hdab m).
      + apply Hout. set_solver.
    - exact Hy'.
    - apply (rep_reparent h h' bf (Some x) (Some n) b Hb).
      + intros c cnd Hc Ec. by apply Hmid.
      + intros m Hm Hc. apply Hfr.
        * by intros ->.
        * intros ->. set_solver.
        * done.
        * apply Hout. set_solver.
    - apply (rep_frame h); [apply Hr|]. intros m Hm. apply Hfr.
      + intros ->. apply (Hd x); [set_solver|done].
      + by intros ->.
      + intros Hb'. apply top_in in Hb'. apply (Hd m); [set_solver|done].
      + apply Hout. set_solver. }
  rewrite (bool_decide_eq_false_2 _ Hlx).
  destruct (decide (top r = Some x)) as [Hrx|Hrx].
  { (* [x] is the right child of the top *)
    rewrite (bool_decide_eq_true_2 _ Hrx).
    destruct (wf_top_node _ _ _ _ _ Hr Hrx) as (b & ex & c & -> & Ex0).
    rewrite Ex in Ex0. injection Ex0 as ->. cbn in Hxp. injection Hxp as <-.
    rewrite E in Ey. injection Ey as <-.
    cbn [_parent _left _right top] in *.
    rewrite bool_decide_eq_false_2 in * by congruence.
    apply wf_Br in Hr as (_ & _ & Hxb & Hxc & Hdbc & Hb & Hc).
    cbn [rot_right_child rep]. cbn [nodes] in *. split_and!.
    - exact Hx'.
    - exact Hy'.
    - apply (rep_frame h); [apply Hl|]. intros m Hm. apply Hfr.
      + intros ->. apply (Hd x); [done|set_solver].
      + by intros ->.
      + intros Hb'. apply top_in in Hb'. apply (Hd m); [done|set_solver].
      + apply Hout. set_solver.
    - apply (rep_reparent h h' bf (Some x) (Some n) b Hb).
      + intros c0 cnd Hc0 Ec. by apply Hmid.
      + intros m Hm Hc0. apply Hfr.
        * by intros ->.
        * intros ->. set_solver.
        * done.
        * apply Hout. set_solver.
    - apply (rep_frame h); [apply Hc|]. intros m Hm. apply Hfr.
      + by intros ->.
      + intros ->. set_solver.
      + intros Hb'. apply top_in in Hb'. by apply (Hdbc m).
      + apply Hout. set_solver. }
  rewrite (bool_decide_eq_false_2 _ Hrx).
  (* [x] is deeper *)
  destruct Hpos as [(l0 & it0 & r0 & [= <- <- <- <-] & [?|?] & _)|(Hty & (q & Hq & Hqt) & _)];
    [done|done|].
  cbn [top] in Hty. assert (Hyn : y ≠ n) by congruence.
  set (mid := if bool_decide (Some x = _left ynd) then _right xnd else _left xnd) in *.
  assert (Hmidt : ∀ m, mid = Some m → m ∈ nodes (Br l n it r)).
  { intros m Hm. apply Hch. unfold mid in Hm.
    destruct (bool_decide (Some x = _left ynd)); [by right|by left]. }
  cbn [nodes] in Hx. apply elem_of_app in Hx as [Hx|Hx].
  - (* in the left subtree *)
    assert (Hxr : x ∉ nodes r) by (by apply Hd).
    rewrite (rotate_notin x r Hxr).
    destruct (rotated_facts _ _ _ _ _ _ _ _ Hl Hx Hlx Ex Hxp Ey)
      as (Hyl & _ & Hchl & Hposl).
    assert (Hmidl : ∀ m, mid = Some m → m ∈ nodes l).
    { intros m Hm. apply Hchl. unfold mid in Hm.
      destruct (bool_decide (Some x = _left ynd)); [by right|by left]. }
    cbn [rep]. split_and!.
    + destruct Hposl as [(ll & le & lr & -> & Hc & Hyp)|(Hly & (q' & Hq' & Hql) & Hnc)].
      * rewrite top_rotate, bool_decide_eq_true_2 by done.
        rewrite (Hz n _ Hyp E). cbn [_left top].
        by rewrite bool_decide_eq_true_2.
      * destruct l as [|ll ly le lr]; [by apply elem_of_nil in Hx|].
        rewrite top_rotate, bool_decide_eq_false_2.
        2:{ destruct (Hnc _ _ _ _ eq_refl). by intros [?|?]. }
        rewrite Hfr; [done|done|done| |].
        -- intros Hm. by apply Hnl, Hmidl.
        -- rewrite Hq'. intros [= ->]. done.
    + by apply IHl.
    + apply (rep_frame h); [apply Hr|]. intros m Hm. apply Hfr.
      * by intros ->.
      * intros ->. by apply (Hd y).
      * intros Hm'. apply Hmidl in Hm'. by apply (Hd m).
      * destruct Hposl as [(ll & le & lr & -> & Hc & ->)|(Hly & (q' & -> & Hql) & Hnc)].
        -- by intros [= ->].
        -- intros [= ->]. by apply (Hd m).
  - (* in the right subtree *)
    apply elem_of_cons in Hx as [->|Hx]; [done|].
    assert (Hxl : x ∉ nodes l) by (intros Hxl; by apply (Hd x)).
    rewrite (rotate_notin x l Hxl).
    destruct (rotated_facts _ _ _ _ _ _ _ _ Hr Hx Hrx Ex Hxp Ey)
      as (Hyr & _ & Hchr & Hposr).
    assert (Hmidr : ∀ m, mid = Some m → m ∈ nodes r).
    { intros m Hm. apply Hchr. unfold mid in Hm.
      destruct (bool_decide (Some x = _left ynd)); [by right|by left]. }
    cbn [rep]. split_and!.
    + destruct Hposr as [(rl & re & rr & -> & Hc & Hyp)|(Hry & (q' & Hq' & Hqr) & Hnc)].
      * rewrite top_rotate, bool_decide_eq_true_2 by done.
        rewrite (Hz n _ Hyp E). cbn [_left top].
        rewrite bool_decide_eq_false_2; [done|].
        intros Hly. symmetry in Hly. apply top_in in Hly. by apply (Hd y).
      * destruct r as [|rl ry re rr]; [by apply elem_of_nil in Hx|].
        rewrite top_rotate, bool_decide_eq_false_2.
        2:{ destruct (Hnc _ _ _ _ eq_refl). by intros [?|?]. }
        rewrite Hfr; [done|done|done| |].
        -- intros Hm. by apply Hnr, Hmidr.
        -- rewrite Hq'. intros [= ->]. done.
    + apply (rep_frame h); [apply Hl|]. intros m Hm. apply Hfr.
      * by intros ->.
      * intros ->. by apply (Hd y).
      * intros Hm'. apply Hmidr in Hm'. by apply (Hd m).
      * destruct Hposr as [(rl & re & rr & -> & Hc & ->)|(Hry & (q' & -> & Hqr) & Hnc)].
        -- by intros [= ->].
        -- intros [= ->]. by apply (Hd m).
    + by apply IHr.
Qed.

Lemma relink_ok s p c (ml : bool) :
  is_Some (heap s !! p) →
  (∀ c', c = Some c' → is_Some (heap s !! c')) →
  _relink p c ml s = (Ok tt, mkState (self s) (relink_heap (heap s) p c ml)).
Proof.
  intros [pnd Ep] Hc. unfold _relink, relink_heap. rewrite Ep.
  assert (Hstep : (if ml then set_left p c else set_right p c) s
            = (Ok tt, mkState (self s)
                 (<[p := if ml then with_left pnd c else with_right pnd c]>
                    (heap s)))).
  { destruct ml; [apply (set_left_ok _ _ _ _ Ep)|apply (set_right_ok _ _ _ _ Ep)]. }
  rewrite (bind_ok _ _ _ _ _ Hstep).
  destruct c as [c'|]; [|done].
  destruct (Hc c' eq_refl) as [cnd Ec].
  set (h1 := <[p := _]> (heap s)).
  assert (is_Some (h1 !! c')) as [cnd' Ec'].
  { unfold h1. destruct (decide (p = c')) as [->|Hne].
    - rewrite lookup_insert_eq. eauto.
    - rewrite lookup_insert_ne by done. eauto. }
  rewrite Ec'.
  by rewrite (set_parent_ok (mkState (self s) h1) c' cnd' (Some p) Ec').
Qed.

Lemma top_rotate_deep x t :
  (∀ l n it r, t = Br l n it r → top l ≠ Some x ∧ top r ≠ Some x) →
  top (a_rotate x t) = top t.
Proof.
  intros H. destruct t as [|l n it r]; [done|].
  destruct (H _ _ _ _ eq_refl). rewrite top_rotate.
  rewrite bool_decide_eq_false_2; [done|]. by intros [?|?].
Qed.

Lemma relink_heap_lookup (h : gmap loc Node) p pnd c (ml : bool) :
  h !! p = Some pnd → c ≠ Some p →
  relink_heap h p c ml !! p
  = Some (if ml then with_left pnd c else with_right pnd c)
  ∧ (∀ c' cnd, c = Some c' → h !! c' = Some cnd →
       relink_heap h p c ml !! c' = Some (with_parent cnd (Some p)))
  ∧ (∀ n, n ≠ p → c ≠ Some n → relink_heap h p c ml !! n = h !! n).
Proof.
  intros Ep Hcp. unfold relink_heap. rewrite Ep.
  destruct c as [c'|].
  - assert (Hne : p ≠ c') by congruence.
    rewrite lookup_insert_ne by done.
    destruct (h !! c') as [cnd|] eqn:Ec.
    + split_and!.
      * rewrite lookup_insert_ne by done. by rewrite lookup_insert_eq.
      * intros ? ? [= <-] E. rewrite Ec in E. injection E as <-.
        by rewrite lookup_insert_eq.
      * intros n Hn Hc. rewrite lookup_insert_ne by congruence.
        by rewrite lookup_insert_ne.
    + split_and!.
      * by rewrite lookup_insert_eq.
      * intros ? ? [= <-] ?. congruence.
      * intros n Hn Hc. by rewrite lookup_insert_ne.
  - split_and!.
    + by rewrite lookup_insert_eq.
    + done.
    + intros n Hn _. by rewrite lookup_insert_ne.
Qed.

(** [_rotate] of a [TreeMap], on the store alone: [x] has the parent [y],
    whose parent [z] (if any) and the subtree between [x] and [y] (if any)
    are nodes other than [x] and [y]. *)
Lemma rotate_exec s x xnd y ynd :
  heap s !! x = Some xnd → _parent xnd = Some y → heap s !! y = Some ynd →
  x ≠ y → _parent ynd ≠ Some x → _parent ynd ≠ Some y →
  (∀ z', _parent ynd = Some z' → is_Some (heap s !! z')) →
  (∀ m, (if bool_decide (Some x = _left ynd) then _right xnd else _left xnd)
        = Some m →
        m ≠ x ∧ m ≠ y ∧ _parent ynd ≠ Some m ∧ is_Some (heap s !! m)) →
  ∃ h',
    TreeMap_rotate (mkp (ident (self s)) x) s
    = (Ok tt,
       mkState (mkTree (ident (self s)) (class (self s))
                  (match _parent ynd with
                   | None => Some x
                   | Some _ => _root (self s)
                   end) (_size (self s))) h')
    ∧ rotated (heap s) h' x.
Proof.
  intros Ex Hxp Ey Hxy Hzx Hzy Hzin Hmid.
  set (z := _parent ynd) in *.
  set (mid := if bool_decide (Some x = _left ynd) then _right xnd
              else _left xnd) in *.
  set (hz := match z with
             | None => <[x := with_parent xnd None]> (heap s)
             | Some z' =>
                 match heap s !! z' with
                 | Some znd =>
                     relink_heap (heap s) z' (Some x)
                       (bool_decide (Some y = _left znd))
                 | None => heap s
                 end
             end).
  set (s1 := mkState (mkTree (ident (self s)) (class (self s))
                        (match z with
                         | None => Some x
                         | Some _ => _root (self s)
                         end) (_size (self s))) hz).
  assert (Hz1 : hz !! x = Some (with_parent xnd z)
            ∧ (∀ z' znd, z = Some z' → heap s !! z' = Some znd →
                 hz !! z' = Some (if bool_decide (Some y = _left znd)
                                  then with_left znd (Some x)
                                  else with_right znd (Some x)))
            ∧ (∀ n, n ≠ x → z ≠ Some n → hz !! n = heap s !! n)).
  { unfold hz. destruct z as [z'|] eqn:Ez.
    - destruct (Hzin z' eq_refl) as [znd Ezn]. rewrite Ezn.
      destruct (relink_heap_lookup (heap s) z' znd (Some x)
                  (bool_decide (Some y = _left znd)) Ezn)
        as (Hp & Hc & Ho); [congruence|].
      split_and!.
      + by apply Hc.
      + intros ? ? [= <-] E. rewrite Ezn in E. injection E as <-. exact Hp.
      + intros n Hn Hzn. apply Ho; congruence.
    - split_and!.
      + by rewrite lookup_insert_eq.
      + done.
      + intros n Hn _. by rewrite lookup_insert_ne. }
  destruct Hz1 as (Hzx' & Hzz & Hzo).
  assert (Hzs : (match z with
                 | None => let! _ := set_root (Some x) in set_parent x None
                 | Some z =>
                     let! znd := load z in
                     _relink z (Some x) (bool_decide (Some y = _left znd))
                 end) s = (Ok tt, s1)).
  { unfold s1, hz. destruct z as [z'|] eqn:Ez.
    - destruct (Hzin z' eq_refl) as [znd Ezn]. rewrite Ezn.
      rewrite (bind_ok _ _ _ _ _ (load_ok _ _ _ Ezn)).
      rewrite relink_ok; [by destruct s as [[] ?]|by eauto|].
      intros ? [= <-]. eauto.
    - rewrite (bind_ok (set_root _) _ _ _ _ eq_refl).
      match goal with
      | |- set_parent _ _ ?s0 = _ =>
          by rewrite (set_parent_ok s0 x xnd None Ex)
      end. }
  assert (Ey1 : hz !! y = Some ynd) by (rewrite Hzo; done).
  unfold TreeMap_rotate. rewrite bind_ret.
  rewrite (bind_ok _ _ _ _ _ (load_ok _ _ _ Ex)). rewrite Hxp. cbn [deref].
  rewrite bind_ret, (bind_ok _ _ _ _ _ (load_ok _ _ _ Ey)).
  fold z. rewrite (bind_ok _ _ _ _ _ Hzs).
  rewrite (bind_ok _ _ _ _ _ (load_ok s1 _ _ Ey1)).
  set (xnd1 := with_parent xnd z) in *.
  assert (Hmid1 : ∀ m, mid = Some m → is_Some (hz !! m)).
  { intros m Hm. destruct (Hmid m Hm) as (? & ? & ? & ?). by rewrite Hzo. }
  assert (Hmidy : mid ≠ Some y).
  { intros Hm. by destruct (Hmid y Hm) as (_ & ? & _). }
  assert (Hmidx : mid ≠ Some x).
  { intros Hm. by destruct (Hmid x Hm) as (? & _). }
  exists (relink_heap
            (relink_heap hz y mid (bool_decide (Some x = _left ynd)))
            x (Some y) (negb (bool_decide (Some x = _left ynd)))).
  destruct (relink_heap_lookup hz y ynd mid
              (bool_decide (Some x = _left ynd)) Ey1 Hmidy)
    as (H2y & H2m & H2o).
  set (h2 := relink_heap hz y mid (bool_decide (Some x = _left ynd))) in *.
  assert (E2x : h2 !! x = Some xnd1) by (rewrite H2o; done).
  destruct (relink_heap_lookup h2 x xnd1 (Some y)
              (negb (bool_decide (Some x = _left ynd))) E2x)
    as (H3x & H3y & H3o); [congruence|].
  specialize (H3y y _ eq_refl H2y).
  split.
  - unfold mid in *. cbn [_node].
    destruct (bool_decide (Some x = _left ynd)); cbn [negb].
    + rewrite (bind_ok _ _ _ _ _ (load_ok s1 _ _ Hzx')).
      change (_right xnd1) with (_right xnd).
      rewrite (bind_ok _ _ _ _ _
                 (relink_ok s1 y (_right xnd) true ltac:(eauto) Hmid1)).
      rewrite relink_ok; [done|cbn; eauto|].
      intros ? [= <-]. cbn. eauto.
    + rewrite (bind_ok _ _ _ _ _ (load_ok s1 _ _ Hzx')).
      change (_left xnd1) with (_left xnd).
      rewrite (bind_ok _ _ _ _ _
                 (relink_ok s1 y (_left xnd) false ltac:(eauto) Hmid1)).
      rewrite relink_ok; [done|cbn; eauto|].
      intros ? [= <-]. cbn. eauto.
  - exists xnd, y, ynd. split_and!; [done|done|done|]. cbv zeta.
    fold z. fold mid. split_and!.
    + rewrite H3x. unfold xnd1.
      by destruct (bool_decide (Some x = _left ynd)).
    + rewrite H3y. by destruct (bool_decide (Some x = _left ynd)).
    + intros b bnd Hb Eb. destruct (Hmid b Hb) as (Hbx & Hby & Hbz & _).
      rewrite H3o by congruence. apply (H2m b bnd Hb). by rewrite Hzo.
    + intros z' znd Hz' Ez'.
      assert (z' ≠ x) by congruence. assert (z' ≠ y) by congruence.
      rewrite H3o by congruence. rewrite H2o; [by apply Hzz|done|].
      intros Hm. destruct (Hmid z' Hm) as (_ & _ & ? & _). congruence.
    + intros n Hnx Hny Hnm Hnz.
      rewrite H3o by congruence. rewrite H2o by done. by apply Hzo.
Qed.

(** [_rotate] of a [TreeMap] at a node below the root. *)
Lemma rotate_run s bf t x :
  wf (heap s) bf None t → _root (self s) = top t →
  x ∈ nodes t → top t ≠ Some x →
  ∃ h',
    TreeMap_rotate (mkp (ident (self s)) x) s
    = (Ok tt,
       mkState (mkTree (ident (self s)) (class (self s))
                  (top (a_rotate x t)) (_size (self s))) h')
    ∧ rotated (heap s) h' x
    ∧ wf h' bf None (a_rotate x t)
    ∧ (∀ n, n ∉ nodes t → h' !! n = heap s !! n).
Proof.
  intros Hwf Hroot Hx Htop.
  destruct (wf_parent _ _ _ _ _ Hwf Hx Htop)
    as (y & a & e & b & par' & Hs & Hy & Hw & Hch & Hcase).
  pose proof Hw as Hw'.
  apply wf_Br in Hw' as (Ey & Hp0 & Hna & Hnb & Hdab & Ha & Hb).
  assert (Ho : ∀ m, m ∈ nodes (Br a y e b) → par' ≠ Some m).
  { intros m Hm ->. destruct Hw as (_ & _ & Ho). by apply (Ho m). }
  assert (Hsubt : ∀ m, m ∈ nodes (Br a y e b) → m ∈ nodes t).
  { intros m Hm. by eapply subtree_nodes. }
  set (ynd := mkNode e par' (top a) (top b) bf) in *.
  assert (Hxf : ∃ (xa : atree) xe (xb : atree),
            heap s !! x = Some (mkNode xe (Some y) (top xa) (top xb) bf)
            ∧ x ≠ y ∧ x ∈ nodes (Br a y e b)
            ∧ (∀ m, (if bool_decide (Some x = _left ynd)
                     then top xb else top xa) = Some m →
                    m ≠ x ∧ m ≠ y ∧ m ∈ nodes (Br a y e b))).
  { destruct Hch as [Hc|Hc].
    - destruct (wf_top_node _ _ _ _ _ Ha Hc) as (xa & xe & xb & -> & Ex).
      apply wf_Br in Ha as (_ & _ & Hxxa & Hxxb & _ & _ & _).
      exists xa, xe, xb. cbn [nodes] in *.
      split_and!; [done|intros ->; set_solver|set_solver|].
      cbn [_left ynd top]. rewrite bool_decide_eq_true_2 by done.
      intros m Hm. apply top_in in Hm.
      split_and!; [by intros ->|intros ->; set_solver|set_solver].
    - destruct (wf_top_node _ _ _ _ _ Hb Hc) as (xa & xe & xb & -> & Ex).
      apply wf_Br in Hb as (_ & _ & Hxxa & Hxxb & _ & _ & _).
      exists xa, xe, xb. cbn [nodes] in *.
      split_and!; [done|intros ->; set_solver|set_solver|].
      cbn [_left ynd]. rewrite bool_decide_eq_false_2.
      2:{ intros Hax. symmetry in Hax. apply top_in in Hax.
          apply (Hdab x Hax). set_solver. }
      intros m Hm. apply top_in in Hm.
      split_and!; [by intros ->|intros ->; set_solver|set_solver]. }
  destruct Hxf as (xa & xe & xb & Ex & Hxy & Hxin & Hmid).
  set (xnd := mkNode xe (Some y) (top xa) (top xb) bf) in *.
  destruct (rotate_exec s x xnd y ynd Ex eq_refl Ey Hxy)
    as (h' & Hrun & Hrot).
  { by apply Ho. }
  { done. }
  { intros z' Hz'. cbn in Hz'.
    destruct Hcase as [[_ ->]|[_ (q & -> & Hq & _)]]; [done|].
    injection Hz' as <-. by eapply rep_in_heap; [apply Hwf|]. }
  { intros m Hm. destruct (Hmid m) as (? & ? & Hin).
    { by destruct (bool_decide (Some x = _left ynd)). }
    split_and!; [done|done|by apply Ho|].
    eapply rep_in_heap; [apply Hwf|]. by apply Hsubt. }
  exists h'.
  assert (Hroot' : match _parent ynd with
                   | Some _ => _root (self s)
                   | None => Some x
                   end = top (a_rotate x t)).
  { destruct (rotated_facts _ _ _ _ _ _ _ _ Hwf Hx Htop Ex eq_refl Ey)
      as (_ & _ & _ & [(l & it & r & -> & Hc & Hpar)|(Hty & (q & Hq & _) & Hnc)]).
    - rewrite Hpar, top_rotate. by rewrite bool_decide_eq_true_2.
    - rewrite Hq, (top_rotate_deep _ _ Hnc). done. }
  rewrite Hroot' in Hrun. split_and!; [done|done| |].
  - split_and!.
    + by apply (rep_rotate (heap s)).
    + rewrite nodes_rotate. apply Hwf.
    + done.
  - intros n Hn.
    destruct Hrot as (xnd0 & y0 & ynd0 & Ex0 & Hxp0 & Ey0 & _ & _ & _ & _ & Hfr).
    rewrite Ex in Ex0. injection Ex0 as <-. cbn in Hxp0. injection Hxp0 as <-.
    rewrite Ey in Ey0. injection Ey0 as <-.
    apply Hfr.
    + by intros ->.
    + by intros ->.
    + intros Hm. destruct (Hmid n) as (_ & _ & Hin).
      { fold xnd in Hm. by destruct (bool_decide (Some x = _left ynd)). }
      by apply Hn, Hsubt.
    + cbn. destruct Hcase as [[_ ->]|[_ (q & -> & Hq & _)]]; [done|].
      by intros [= ->].
Qed.

(** The in-order traversal of a state that holds a tree, with no
    assumption on the nodes outside the tree. *)
Lemma inorder_shape s bf t fuel :
  wf (heap s) bf None t → _root (self s) = top t → t ≠ Lf →
  _size (self s) ≠ 0%Z → depth t ≤ fuel →
  inorder fuel s = (map (λ x, mkp (ident (self s)) x) (nodes t), Ok tt, s)
  ∧ (inorder_pairs fuel s).1.1 = pairs t.
Proof.
  intros Hwf Hroot Hne Hs Hfuel.
  assert (Hin : inorder fuel s
            = (map (λ x, mkp (ident (self s)) x) (nodes t), Ok tt, s)).
  { unfold inorder. rewrite (glift_ok _ _ _ _ _ (is_empty_eq s)).
    rewrite (proj2 (Z.eqb_neq _ _) Hs). cbn [negb].
    rewrite (glift_ok _ _ _ _ _ (root_ok s)), Hroot.
    rewrite (gyield_from_ok _ _ _ _ _
               (subtree_inorder_ok _ _ _ _ _ Hwf Hne Hfuel)).
    unfold gdone. by rewrite app_nil_r. }
  split; [done|]. unfold inorder_pairs. rewrite Hin.
  by rewrite (pairs_of_ok s _ _ _ (rep_items _ _ _ _ (proj1 Hwf))).
Qed.

Lemma rotate_nonempty x t : t ≠ Lf → a_rotate x t ≠ Lf.
Proof.
  intros Hne Hr. apply Hne, nodes_nil. rewrite <- (nodes_rotate x), Hr. done.
Qed.

Lemma pairs_rotate x t : pairs (a_rotate x t) = pairs t.
Proof. unfold pairs. by rewrite items_rotate. Qed.

(** The parent of the parent of [x] is not [x]. *)
Lemma wf_grandparent h bf par t x xnd y ynd :
  wf h bf par t → x ∈ nodes t → top t ≠ Some x →
  h !! x = Some xnd → _parent xnd = Some y → h !! y = Some ynd →
  _parent ynd ≠ Some x.
Proof.
  intros Hwf Hx Htop Ex Hxp Ey.
  destruct (wf_parent _ _ _ _ _ Hwf Hx Htop)
    as (y0 & a & e & b & par' & Hs0 & Hy0 & Hw0 & Hch0 & _).
  pose proof Hw0 as Hw0'.
  apply wf_Br in Hw0' as (Ey0 & _ & _ & _ & _ & Ha0 & Hb0).
  assert (y0 = y ∧ x ∈ nodes (Br a y0 e b)) as [-> Hin].
  { destruct Hch0 as [Hc|Hc].
    - destruct (wf_top_node _ _ _ _ _ Ha0 Hc) as (? & ? & ? & -> & E).
      rewrite Ex in E. injection E as ->. cbn in Hxp. injection Hxp as ->.
      split; [done|]. cbn. set_solver.
    - destruct (wf_top_node _ _ _ _ _ Hb0 Hc) as (? & ? & ? & -> & E).
      rewrite Ex in E. injection E as ->. cbn in Hxp. injection Hxp as ->.
      split; [done|]. cbn. set_solver. }
  rewrite Ey in Ey0. injection Ey0 as ->. cbn.
  intros ->. destruct Hw0 as (_ & _ & Ho). by apply (Ho x).
Qed.

(** X18: in a [TreeMap], [_rotate] at a position other than the root
    returns normally; the in-order traversal yields the same positions
    and the same pairs as before, the former parent of the position is now
    its child, and the position has the parent that its former parent
    had. *)
Theorem rotate_keeps_inorder (s : State) (j : nat) (p : option Position) :
  reachable s →
  class (self s) = TreeMapC →
  (inorder (enough s) s).1.1 !! j = Some p →
  (root s).1 ≠ Ok p →
  ∃ q s',
    (parent p s).1 = Ok q ∧ q ≠ None
    ∧ _rotate p s = (Ok tt, s')
    ∧ inorder (enough s) s' = ((inorder (enough s) s).1.1, Ok tt, s')
    ∧ (inorder_pairs (enough s) s').1.1 = (inorder_pairs (enough s) s).1.1
    ∧ parent q s' = (Ok p, s')
    ∧ (parent p s').1 = (parent q s).1.
Proof.
  intros Hreach Hcls Hj Hroot. destruct (reachable_inv _ Hreach) as [t HI].
  pose proof (enough_depth _ _ HI) as Hd. pose proof (inv_wf _ _ HI) as Hwf.
  rewrite (proj1 (inorder_pairs_reach _ _ HI)).
  rewrite (inorder_inv _ _ (enough s) HI ltac:(lia)) in *.
  rewrite list_lookup_fmap in Hj.
  destruct (nodes t !! j) as [x|] eqn:En; [|done]. injection Hj as <-.
  apply list_elem_of_lookup_2 in En.
  rewrite (root_inv _ _ HI) in Hroot. cbn [fst] in Hroot.
  assert (Htop : top t ≠ Some x) by (intros Ht; by rewrite Ht in Hroot).
  assert (Hne : t ≠ Lf) by (intros ->; by apply elem_of_nil in En).
  destruct (rotate_run _ _ _ _ Hwf (inv_root _ _ HI) En Htop)
    as (h' & Hrun & Hrot & Hwf' & _).
  destruct Hrot as (xnd & y & ynd & Ex & Hxp & Ey & Hx' & Hy' & _).
  destruct (rotated_facts _ _ _ _ _ _ _ _ Hwf En Htop Ex Hxp Ey)
    as (Hyt & Hxy & _ & _).
  destruct (wf_node _ _ _ _ _ Hwf En) as (? & ? & ? & xpar & _ & Hwx & Ex0 & _).
  rewrite Ex in Ex0. injection Ex0 as ->.
  apply wf_Br in Hwx as (_ & Hxpar & _).
  destruct (wf_node _ _ _ _ _ Hwf Hyt) as (? & ? & ? & ypar & _ & Hwy & Ey0 & _).
  rewrite Ey in Ey0. injection Ey0 as ->.
  pose proof Hwy as Hwy'. apply wf_Br in Hwy' as (_ & Hypar & _).
  cbn [_parent] in *. subst xpar.
  set (s' := mkState _ h') in Hrun.
  exists (mkp (ident (self s)) y), s'.
  assert (Hzx : ypar ≠ Some x).
  { apply (wf_grandparent _ _ _ _ _ _ _ _ Hwf En Htop Ex eq_refl Ey). }
  split_and!.
  - by rewrite (parent_ok _ _ _ Ex Hxpar).
  - done.
  - unfold _rotate. rewrite (bind_ok get_self _ _ _ _ eq_refl), Hcls. exact Hrun.
  - destruct (inorder_shape s' _ (a_rotate x t) (enough s) Hwf') as [-> _].
    + done.
    + by apply rotate_nonempty.
    + apply (inv_nonempty _ _ HI Hne).
    + pose proof (depth_rotate x t). lia.
    + by rewrite nodes_rotate.
  - destruct (inorder_shape s' _ (a_rotate x t) (enough s) Hwf') as [_ ->].
    + done.
    + by apply rotate_nonempty.
    + apply (inv_nonempty _ _ HI Hne).
    + pose proof (depth_rotate x t). lia.
    + by rewrite pairs_rotate.
  - assert (Hyp' : ∃ ynd', h' !! y = Some ynd' ∧ _parent ynd' = Some x).
    { eexists. split; [exact Hy'|]. by destruct (bool_decide _). }
    destruct Hyp' as (ynd' & Ey' & Hp').
    pose proof (parent_ok s' y ynd' Ey') as H. rewrite Hp' in H.
    apply H. congruence.
  - assert (Hxp' : ∃ xnd', h' !! x = Some xnd' ∧ _parent xnd' = ypar).
    { eexists. split; [exact Hx'|]. by destruct (bool_decide _). }
    destruct Hxp' as (xnd' & Ex' & Hp').
    pose proof (parent_ok s' x xnd' Ex') as H. rewrite Hp' in H.
    rewrite (parent_ok s y _ Ey Hypar). cbn [_parent fst].
    unfold s' in H at 1. cbn [self ident] in H. by rewrite H.
Qed.

(** A node with a parent is not the top of the tree. *)
Lemma wf_has_parent h bf t x xnd y :
  wf h bf None t → x ∈ nodes t → h !! x = Some xnd → _parent xnd = Some y →
  top t ≠ Some x ∧ y ∈ nodes t ∧ x ≠ y.
Proof.
  intros Hwf Hx Ex Hxp.
  destruct (wf_node _ _ _ _ _ Hwf Hx) as (? & ? & ? & par' & _ & _ & Ex0 & Hcase).
  rewrite Ex in Ex0. injection Ex0 as ->. cbn in Hxp. subst par'.
  destruct Hcase as [[_ ?]|(Ht & q & [= <-] & Hq & Hqx)]; [done|].
  split_and!; [done|done|congruence].
Qed.

Lemma rotated_parents h h' x :
  rotated h h' x →
  ∃ xnd y ynd xnd' ynd',
    h !! x = Some xnd ∧ _parent xnd = Some y ∧ h !! y = Some ynd
    ∧ h' !! x = Some xnd' ∧ _parent xnd' = _parent ynd
    ∧ h' !! y = Some ynd' ∧ _parent ynd' = Some x
    ∧ (∀ z' znd, _parent ynd = Some z' → h !! z' = Some znd →
         ∃ znd', h' !! z' = Some znd' ∧ _parent znd' = _parent znd).
Proof.
  intros (xnd & y & ynd & Ex & Hxp & Ey & Hx' & Hy' & _ & Hz & _).
  eexists xnd, y, ynd, _, _.
  split_and!; [done|done|done|exact Hx'| |exact Hy'| |].
  - by destruct (bool_decide _).
  - by destruct (bool_decide _).
  - intros z' znd Hz' Ez'. eexists. split; [by apply Hz|].
    by destruct (bool_decide (Some y = _left znd)).
Qed.

(** X19: in a [TreeMap], [_restructure] at a position that has a
    grandparent returns the position itself or its parent; the in-order
    traversal yields the same positions and the same pairs as before, the
    former grandparent is now a child of the position returned, and that
    position has the parent that the grandparent had. *)
Theorem restructure_keeps_inorder (s : State) (j : nat)
  (p q g : option Position) :
  reachable s →
  class (self s) = TreeMapC →
  (inorder (enough s) s).1.1 !! j = Some p →
  parent p s = (Ok q, s) → q ≠ None →
  parent q s = (Ok g, s) → g ≠ None →
  ∃ r s',
    _restructure p s = (Ok r, s')
    ∧ (r = p ∨ r = q)
    ∧ inorder (enough s) s' = ((inorder (enough s) s).1.1, Ok tt, s')
    ∧ (inorder_pairs (enough s) s').1.1 = (inorder_pairs (enough s) s).1.1
    ∧ parent g s' = (Ok r, s')
    ∧ (parent r s').1 = (parent g s).1.
Proof.
  intros Hreach Hcls Hj Hpq Hq Hqg Hg. destruct (reachable_inv _ Hreach) as [t HI].
  pose proof (enough_depth _ _ HI) as Hd. pose proof (inv_wf _ _ HI) as Hwf.
  pose proof (inv_root _ _ HI) as Hroot.
  rewrite (proj1 (inorder_pairs_reach _ _ HI)).
  rewrite (inorder_inv _ _ (enough s) HI ltac:(lia)) in *.
  rewrite list_lookup_fmap in Hj.
  destruct (nodes t !! j) as [x|] eqn:En; [|done]. injection Hj as <-.
  apply list_elem_of_lookup_2 in En.
  assert (Hne : t ≠ Lf) by (intros ->; by apply elem_of_nil in En).
  pose proof (inv_nonempty _ _ HI Hne) as Hsz.
  (* the three nodes *)
  destruct (wf_node _ _ _ _ _ Hwf En) as (? & ? & ? & xpar & _ & Hwx & Ex & _).
  apply wf_Br in Hwx as (_ & Hxself & _).
  rewrite (parent_ok _ _ _ Ex Hxself) in Hpq. injection Hpq as <-.
  cbn [_parent] in Hq. destruct xpar as [y|]; [|done].
  set (xnd := mkNode _ _ _ _ _) in Ex.
  assert (Exp : _parent xnd = Some y) by done.
  destruct (wf_has_parent _ _ _ _ _ _ Hwf En Ex Exp) as (Htx & Hy & Hxy).
  destruct (wf_node _ _ _ _ _ Hwf Hy) as (? & ? & ? & ypar & _ & Hwy & Ey & _).
  apply wf_Br in Hwy as (_ & Hyself & _).
  cbn [pos] in *.
  rewrite (parent_ok _ _ _ Ey Hyself) in Hqg. injection Hqg as <-.
  cbn [_parent] in Hg. destruct ypar as [z|]; [|done].
  set (ynd := mkNode _ _ _ _ _) in Ey.
  assert (Eyp : _parent ynd = Some z) by done.
  destruct (wf_has_parent _ _ _ _ _ _ Hwf Hy Ey Eyp) as (Hty & Hz & Hyz).
  destruct (wf_node _ _ _ _ _ Hwf Hz) as (? & ? & ? & zpar & _ & Hwz & Ez & _).
  apply wf_Br in Hwz as (_ & Hzself & _).
  cbn [pos] in *.
  set (znd := mkNode _ _ _ _ _) in Ez.
  unfold _restructure.
  rewrite (bind_ok _ _ _ _ _ (parent_ok _ _ _ Ex Hxself)), Exp. cbn [pos].
  rewrite (bind_ok _ _ _ _ _ (parent_ok _ _ _ Ey Hyself)), Eyp. cbn [pos].
  rewrite (bind_ok _ _ _ _ _ (right_ok _ _ _ Ey Hyself)).
  rewrite (bind_ok _ _ _ _ _ (right_ok _ _ _ Ez Hzself)).
  rewrite (parent_ok _ _ _ Ez Hzself). cbn [fst].
  destruct (Bool.eqb _ _).
  - (* one rotation, of the parent *)
    destruct (rotate_run _ _ _ _ Hwf Hroot Hy Hty)
      as (h' & Hrun & Hrot & Hwf' & _).
    set (s' := mkState _ h') in Hrun.
    assert (Hrun' : _rotate (mkp (ident (self s)) y) s = (Ok tt, s')).
    { unfold _rotate. by rewrite (bind_ok get_self _ _ _ _ eq_refl), Hcls. }
    exists (mkp (ident (self s)) y), s'.
    rewrite (bind_ok _ _ _ _ _ Hrun').
    destruct (rotated_parents _ _ _ Hrot)
      as (ynd0 & z0 & znd0 & ynd' & znd' & Ey0 & Hyp0 & Ez0 & Ey' & Hyp' & Ez' & Hzp' & _).
    rewrite Ey in Ey0. injection Ey0 as <-. rewrite Eyp in Hyp0. injection Hyp0 as <-.
    rewrite Ez in Ez0. injection Ez0 as <-.
    destruct (inorder_shape s' _ (a_rotate y t) (enough s) Hwf') as [Hin Hpairs].
    { done. } { by apply rotate_nonempty. } { done. }
    { pose proof (depth_rotate y t). lia. }
    split_and!.
    + done.
    + by right.
    + by rewrite Hin, nodes_rotate.
    + by rewrite Hpairs, pairs_rotate.
    + pose proof (parent_ok s' z znd' Ez') as H. rewrite Hzp' in H.
      apply H. congruence.
    + pose proof (parent_ok s' y ynd' Ey') as H. rewrite Hyp' in H.
      unfold s' in H at 1. cbn [self ident] in H. rewrite H; [done|].
      apply (wf_grandparent _ _ _ _ _ _ _ _ Hwf Hy Hty Ey Eyp Ez).
  - (* two rotations, of the position *)
    destruct (rotate_run _ _ _ _ Hwf Hroot En Htx)
      as (h1 & Hrun1 & Hrot1 & Hwf1 & _).
    set (t1 := a_rotate x t) in *.
    set (s1 := mkState _ h1) in Hrun1.
    assert (Hrun1' : _rotate (mkp (ident (self s)) x) s = (Ok tt, s1)).
    { unfold _rotate. by rewrite (bind_ok get_self _ _ _ _ eq_refl), Hcls. }
    destruct (rotated_parents _ _ _ Hrot1)
      as (xnd0 & y0 & ynd0 & xnd1 & ynd1 & Ex0 & Hxp0 & Ey0 & Ex1 & Hxp1 & Ey1 & Hyp1 & Hz1).
    rewrite Ex in Ex0. injection Ex0 as <-. rewrite Exp in Hxp0. injection Hxp0 as <-.
    rewrite Ey in Ey0. injection Ey0 as <-.
    destruct (Hz1 z znd Eyp Ez) as (znd1 & Ez1 & Hzp1).
    rewrite Eyp in Hxp1.
    assert (Hx1 : x ∈ nodes t1) by (unfold t1; by rewrite nodes_rotate).
    destruct (wf_has_parent _ _ _ _ _ _ Hwf1 Hx1 Ex1 Hxp1) as (Htx1 & _ & Hxz).
    destruct (rotate_run s1 _ t1 x Hwf1 eq_refl Hx1 Htx1)
      as (h2 & Hrun2 & Hrot2 & Hwf2 & _).
    cbn [s1 self ident class _size] in Hrun2.
    set (s2 := mkState _ h2) in Hrun2.
    assert (Hrun2' : _rotate (mkp (ident (self s)) x) s1 = (Ok tt, s2)).
    { unfold _rotate. rewrite (bind_ok get_self _ _ _ _ eq_refl).
      cbn [s1 self class]. by rewrite Hcls. }
    exists (mkp (ident (self s)) x), s2.
    rewrite (bind_ok _ _ _ _ _ Hrun1'), (bind_ok _ _ _ _ _ Hrun2').
    destruct (rotated_parents _ _ _ Hrot2)
      as (xnd0 & z0 & znd0 & xnd2 & znd2 & Ex0 & Hxp0 & Ez0 & Ex2 & Hxp2 & Ez2 & Hzp2 & _).
    cbn [s1 heap] in Ex0, Ez0.
    rewrite Ex1 in Ex0. injection Ex0 as <-. rewrite Hxp1 in Hxp0. injection Hxp0 as <-.
    rewrite Ez1 in Ez0. injection Ez0 as <-.
    destruct (inorder_shape s2 _ (a_rotate x t1) (enough s) Hwf2) as [Hin Hpairs].
    { done. } { apply rotate_nonempty. by apply rotate_nonempty. } { done. }
    { pose proof (depth_rotate x t1). pose proof (depth_rotate x t).
      fold t1 in H0. lia. }
    split_and!.
    + done.
    + by left.
    + rewrite Hin. unfold t1. by rewrite !nodes_rotate.
    + rewrite Hpairs. unfold t1. by rewrite !pairs_rotate.
    + pose proof (parent_ok s2 z znd2 Ez2) as H. rewrite Hzp2 in H.
      apply H. congruence.
    + pose proof (parent_ok s2 x xnd2 Ex2) as H. rewrite Hxp2, Hzp1 in H.
      unfold s2 in H at 1. cbn [self ident] in H. rewrite H; [done|].
      rewrite <- Hzp1.
      apply (wf_grandparent _ _ _ _ _ _ _ _ Hwf1 Hx1 Htx1 Ex1 Hxp1 Ez1).
Qed.

(** ** The primitives of [LinkedBinaryTree] *)

Lemma bind_inv {A B} (m : M A) (f : A → M B) s b s' :
  bind m f s = (Ok b, s') → ∃ a s1, m s = (Ok a, s1) ∧ f a s1 = (Ok b, s').
Proof.
  unfold bind. destruct (m s) as [[a|e] s1]; [by eauto|done].
Qed.

Lemma set_inv n (upd : Node → Node) s s' :
  (let! nd := load n in store n (upd nd)) s = (Ok tt, s') →
  ∃ nd, heap s !! n = Some nd
        ∧ s' = mkState (self s) (<[n := upd nd]> (heap s)).
Proof.
  intros H. apply bind_inv in H as (nd & s1 & Hl & Hs).
  unfold load in Hl. destruct (heap s !! n) as [nd'|] eqn:E; [|done].
  injection Hl as <- <-. injection Hs as <-. by exists nd'.
Qed.

(** When [_delete] returns, the node of the position is marked as
    deprecated. *)
Lemma delete_tombstone p s e s' :
  _delete p s = (Ok e, s') →
  ∃ n nd, option_map _node p = Some n
          ∧ heap s' !! n = Some nd ∧ _parent nd = Some n.
Proof.
  unfold _delete. intros H.
  apply bind_inv in H as (n & s1 & Hv & H).
  assert (Hn : option_map _node p = Some n).
  { destruct p as [p|]; [|done]. cbn in Hv.
    destruct (negb _); [done|].
    apply bind_inv in Hv as (nd & s0' & _ & Hv).
    destruct (bool_decide _); [done|]. by injection Hv as <- _. }
  exists n.
  apply bind_inv in H as (nc & s2 & _ & H).
  destruct (Z.eqb nc 2); [done|].
  apply bind_inv in H as (nd & s3 & _ & H).
  apply bind_inv in H as ([] & s4 & _ & H).
  apply bind_inv in H as (tr & s5 & _ & H).
  apply bind_inv in H as (bound & s6 & _ & H).
  destruct bound as [par|]; [|done].
  apply bind_inv in H as (pa & s7 & _ & H).
  apply bind_inv in H as (pnd & s8 & _ & H).
  apply bind_inv in H as ([] & s9 & _ & H).
  apply bind_inv in H as (tr' & s10 & _ & H).
  apply bind_inv in H as ([] & s11 & _ & H).
  apply bind_inv in H as ([] & s12 & Hsp & H).
  apply bind_inv in H as (nd' & s13 & Hl & H).
  injection H as _ <-.
  apply set_inv in Hsp as (nd0 & E0 & ->).
  unfold load in Hl. cbn [heap] in Hl. rewrite lookup_insert_eq in Hl.
  injection Hl as <- <-. cbn [heap]. rewrite lookup_insert_eq.
  eexists. split_and!; [done|done|done].
Qed.

(** X20: [_delete] at a position below the root that has at most one
    child returns the element of the position and takes 1 off the size;
    afterwards the position is rejected by [_validate], and the in-order
    traversal yields the pairs it yielded before without the pair of the
    position.  At a position with two children [_delete] raises
    [ValueError] and changes nothing. *)
Theorem delete_below_root (s : State) (j : nat) (p : option Position) :
  reachable s →
  (inorder (enough s) s).1.1 !! j = Some p →
  (root s).1 ≠ Ok p →
  ((num_children p s).1 = Ok 2%Z →
   _delete p s = (Raise (ValueError "Position has two children"), s))
  ∧ ((num_children p s).1 ≠ Ok 2%Z →
     ∃ e s',
       element p s = (Ok e, s)
       ∧ _delete p s = (Ok e, s')
       ∧ _size (self s') = (_size (self s) - 1)%Z
       ∧ _validate p s' = (Raise (ValueError "p is no longer valid"), s')
       ∧ (inorder_pairs (enough s) s').1.1
         = List.filter (λ kv, negb (Z.eqb kv.1 (_key e)))
             (inorder_pairs (enough s) s).1.1).
Proof.
  intros Hreach Hj Hroot. destruct (reachable_inv _ Hreach) as [t HI].
  pose proof (enough_depth _ _ HI) as Hd. pose proof (inv_wf _ _ HI) as Hwf.
  rewrite (proj1 (inorder_pairs_reach _ _ HI)).
  rewrite (inorder_inv _ _ (enough s) HI ltac:(lia)) in *.
  rewrite list_lookup_fmap in Hj.
  destruct (nodes t !! j) as [y|] eqn:En; [|done]. injection Hj as <-.
  apply list_elem_of_lookup_2 in En.
  rewrite (root_inv _ _ HI) in Hroot. cbn [fst] in Hroot.
  assert (Htop : top t ≠ Some y) by (intros Ht; by rewrite Ht in Hroot).
  destruct (wf_node _ _ _ _ _ Hwf En) as (a & e & b & par' & Es & Hw & Ey & _).
  pose proof Hw as Hw'. apply wf_Br in Hw' as (_ & Hyp & _).
  set (ynd := mkNode e par' (top a) (top b) _) in *.
  rewrite (num_children_ok _ _ _ Ey Hyp). cbn [fst]. split.
  - intros [= H2]. unfold _delete.
    rewrite (bind_ok _ _ _ _ _ (validate_ok _ _ _ Ey Hyp)).
    rewrite (bind_ok _ _ _ _ _ (num_children_ok _ _ _ Ey Hyp)).
    by rewrite H2.
  - intros H2.
    assert (Hab : a = Lf ∨ b = Lf).
    { destruct a, b; [by left|by left|by right|]. exfalso. by apply H2. }
    destruct (delete_node_run _ _ _ _ _ _ Hwf (inv_root _ _ HI) Es En Hab)
      as (res & sz & h' & Hrun & Hres & Hrep & _).
    destruct Hres as [(? & _)|(_ & -> & ->)]; [done|].
    set (s' := mkState _ h') in Hrun.
    exists e, s'. rewrite (element_ok _ _ _ _ Ey).
    split_and!; [done|done|done| |].
    + destruct (delete_tombstone _ _ _ _ Hrun) as (n & nd & [= <-] & End & Hp).
      apply (validate_deprecated s' y nd End Hp).
    + assert (Hwf' : wf (heap s') (bf_of (class (self s'))) None (a_splice y t)).
      { split_and!; [exact Hrep| |done].
        eapply sublist_NoDup; [apply Hwf|apply nodes_splice_sublist]. }
      assert (Hne' : a_splice y t ≠ Lf).
      { intros Hl. pose proof (top_splice_ne _ _ Htop) as Ht.
        rewrite Hl in Ht. cbn in Ht. destruct t; [|done].
        by apply elem_of_nil in En. }
      destruct (inorder_shape s' _ (a_splice y t) (enough s) Hwf') as [_ ->].
      * done.
      * done.
      * cbn. pose proof (inv_size _ _ HI).
        assert (2 ≤ length (nodes t)); [|lia].
        pose proof (length_nodes_splice y t En).
        destruct (a_splice y t); [done|]. cbn in *. rewrite length_app in *.
        cbn in *. lia.
      * pose proof (depth_splice y t). lia.
      * destruct (items_splice_split _ _ _ _ _ (inv_nodup _ _ HI) Es Hab)
          as (l1 & l2 & E1 & E2).
        unfold pairs. rewrite E1, E2. apply eq_sym, filter_remove_key.
        rewrite <- E1. apply bst_sorted, (inv_bst _ _ HI).
Qed.

Lemma bst_subtree x t : bst t → bst (subtree x t).
Proof.
  induction t as [|l IHl n it r IHr]; [done|]. intros Hb.
  pose proof Hb as (Hl & Hr & _). cbn [subtree].
  destruct (Nat.eqb n x); [done|].
  destruct (subtree x l) eqn:E; [by apply IHr|]. by apply IHl.
Qed.

(** The node at the top of a subtree that hangs below [n]. *)
Lemma child_facts s bf n c u :
  wf (heap s) bf (Some n) u → top u = Some c →
  ∃ cnd, heap s !! c = Some cnd ∧ _parent cnd = Some n ∧ n ≠ c
         ∧ _key (_element cnd) ∈ keys u.
Proof.
  intros Hwf Ht.
  destruct (wf_top_node _ _ _ _ _ Hwf Ht) as (a & e & b & -> & E).
  pose proof Hwf as Hwf'. apply wf_Br in Hwf' as (_ & Hp & _).
  eexists. split_and!; [exact E|done|congruence|].
  rewrite keys_Br. cbn. set_solver.
Qed.

(** X21: at every position that the in-order traversal of a reachable tree
    yields, the links are consistent: a child returned by [left] or
    [right] has the position as its [parent], is itself a position of the
    traversal, has the other child as its [sibling], and its key is
    smaller (left child) or larger (right child) than the key of the
    position; [is_root] answers [True] exactly when [parent] returns
    [None]. *)
Theorem links_consistent (s : State) (p : option Position) :
  reachable s →
  p ∈ (inorder (enough s) s).1.1 →
  ∃ kp par l r,
    key p s = (Ok kp, s) ∧ parent p s = (Ok par, s)
    ∧ left p s = (Ok l, s) ∧ right p s = (Ok r, s)
    ∧ is_root p s = (Ok (bool_decide (par = None)), s)
    ∧ (l ≠ None →
       ∃ kl, key l s = (Ok kl, s) ∧ (kl < kp)%Z
             ∧ parent l s = (Ok p, s) ∧ sibling l s = (Ok r, s)
             ∧ l ∈ (inorder (enough s) s).1.1)
    ∧ (r ≠ None →
       ∃ kr, key r s = (Ok kr, s) ∧ (kp < kr)%Z
             ∧ parent r s = (Ok p, s) ∧ sibling r s = (Ok l, s)
             ∧ r ∈ (inorder (enough s) s).1.1).
Proof.
  intros Hreach Hp. destruct (reachable_inv _ Hreach) as [t HI].
  pose proof (enough_depth _ _ HI) as Hd. pose proof (inv_wf _ _ HI) as Hwf.
  rewrite (inorder_inv _ _ (enough s) HI ltac:(lia)) in *.
  apply list_elem_of_fmap in Hp as (y & -> & Hy).
  destruct (wf_node _ _ _ _ _ Hwf Hy) as (a & e & b & par' & Es & Hw & Ey & Hc).
  pose proof Hw as Hw'.
  apply wf_Br in Hw' as (_ & Hyp & Hna & Hnb & Hdis & Hwa & Hwb).
  pose proof (bst_subtree y t (inv_bst _ _ HI)) as Hb. rewrite Es in Hb.
  destruct Hb as (_ & _ & Hlt & Hgt). rewrite Forall_forall in Hlt, Hgt.
  set (ynd := mkNode e par' (top a) (top b) _) in *.
  assert (Hsub : ∀ c, c ∈ nodes a ∨ c ∈ nodes b → c ∈ nodes t).
  { intros c Hcin. apply (subtree_nodes y t _ c Es). cbn. set_solver. }
  exists (_key e), (pos (ident (self s)) par'),
    (pos (ident (self s)) (top a)), (pos (ident (self s)) (top b)).
  rewrite (key_ok _ _ _ _ Ey), (parent_ok _ _ _ Ey Hyp),
    (left_ok _ _ _ Ey Hyp), (right_ok _ _ _ Ey Hyp).
  split_and!; try done.
  - unfold is_root. rewrite (bind_ok _ _ _ _ _ (root_inv _ _ HI)).
    unfold ret. do 2 f_equal.
    destruct Hc as [[Ht ->]|[Ht (q & -> & _)]].
    + rewrite Ht. cbn. by rewrite Nat.eqb_refl.
    + cbn [pos]. rewrite bool_decide_eq_false_2 by done.
      destruct (top t) as [r|] eqn:Er; [|done]. cbn.
      apply Nat.eqb_neq. congruence.
  - intros Hl. destruct (top a) as [c|] eqn:Ea; [|done]. cbn [pos].
    destruct (child_facts _ _ _ _ _ Hwa Ea) as (cnd & Ec & Hcp & Hne & Hk).
    assert (Hcp' : _parent cnd ≠ Some c) by congruence.
    exists (_key (_element cnd)). rewrite (key_ok _ _ _ _ Ec).
    split_and!; [done|by apply Hlt| | |].
    + by rewrite (parent_ok _ _ _ Ec Hcp'), Hcp.
    + unfold sibling. rewrite (bind_ok _ _ _ _ _ (parent_ok _ _ _ Ec Hcp')).
      rewrite Hcp. cbn [pos].
      rewrite (bind_ok _ _ _ _ _ (left_ok _ _ _ Ey Hyp)). cbn [_left ynd].
      rewrite ?Ea. cbn [pos pos_eq _node]. rewrite Nat.eqb_refl.
      by rewrite (right_ok _ _ _ Ey Hyp).
    + apply list_elem_of_fmap. exists c. split; [done|].
      apply Hsub. left. by apply top_in.
  - intros Hr. destruct (top b) as [c|] eqn:Eb; [|done]. cbn [pos].
    destruct (child_facts _ _ _ _ _ Hwb Eb) as (cnd & Ec & Hcp & Hne & Hk).
    assert (Hcp' : _parent cnd ≠ Some c) by congruence.
    exists (_key (_element cnd)). rewrite (key_ok _ _ _ _ Ec).
    split_and!; [done|by apply Hgt| | |].
    + by rewrite (parent_ok _ _ _ Ec Hcp'), Hcp.
    + unfold sibling. rewrite (bind_ok _ _ _ _ _ (parent_ok _ _ _ Ec Hcp')).
      rewrite Hcp. cbn [pos].
      rewrite (bind_ok _ _ _ _ _ (left_ok _ _ _ Ey Hyp)). cbn [_left ynd].
      assert (Hpe : pos_eq (mkp (ident (self s)) c)
                      (pos (ident (self s)) (top a)) = false).
      { destruct (top a) as [c'|] eqn:Ea; [|done]. cbn.
        apply Nat.eqb_neq. intros ->.
        apply (Hdis c); by apply top_in. }
      rewrite Hpe. by rewrite (left_ok _ _ _ Ey Hyp).
    + apply list_elem_of_fmap. exists c. split; [done|].
      apply Hsub. right. by apply top_in.
Qed.

Lemma top_add lft x nw e t : top (a_add lft x nw e t) = top t.
Proof. destruct t as [|l n it r]; [done|]. cbn. by destruct (Nat.eqb n x), lft. Qed.

Lemma add_notin lft x nw e t : x ∉ nodes t → a_add lft x nw e t = t.
Proof.
  induction t as [|l IHl n it r IHr]; [done|]. cbn. intros Hx.
  destruct (Nat.eqb_spec n x) as [->|Hne]; [set_solver|].
  rewrite IHl, IHr; set_solver.
Qed.

Lemma rep_add h bf (lft : bool) x xnd nw e t : ∀ par,
  wf h bf par t → h !! x = Some xnd → h !! nw = None →
  (if lft then _left xnd else _right xnd) = None →
  rep (<[x := if lft then with_left xnd (Some nw)
              else with_right xnd (Some nw)]>
         (<[nw := mkNode e (Some x) None None bf]> h))
      bf par (a_add lft x nw e t).
Proof.
  intros par Hwf Ex Enw Hside. revert par Hwf.
  assert (Hxn : x ≠ nw) by congruence.
  induction t as [|l IHl n it r IHr]; intros par Hwf; [done|].
  pose proof Hwf as Hwf'.
  apply wf_Br in Hwf' as (E & Hp & Hnl & Hnr & Hd & Hl & Hr).
  assert (Hfr : ∀ (u : atree) p', wf h bf p' u → x ∉ nodes u →
            rep (<[x := if lft then with_left xnd (Some nw)
                        else with_right xnd (Some nw)]>
                   (<[nw := mkNode e (Some x) None None bf]> h)) bf p' u).
  { intros u p' Hu Hxu. eapply rep_frame; [apply Hu|]. intros m Hm.
    destruct (rep_in_heap _ _ _ _ _ (proj1 Hu) Hm) as [mnd Em].
    rewrite !lookup_insert_ne; [done|congruence|set_solver]. }
  cbn [a_add]. destruct (Nat.eqb_spec n x) as [->|Hne].
  - rewrite E in Ex. injection Ex as <-. destruct lft; cbn in Hside.
    + apply top_None in Hside as ->. cbn [rep top]. split_and!; try done.
      * by rewrite lookup_insert_eq.
      * by rewrite lookup_insert_ne, lookup_insert_eq.
      * by apply Hfr.
    + apply top_None in Hside as ->. cbn [rep top]. split_and!; try done.
      * by rewrite lookup_insert_eq.
      * by apply Hfr.
      * by rewrite lookup_insert_ne, lookup_insert_eq.
  - cbn [rep]. rewrite !top_add. split_and!; [|by apply IHl|by apply IHr].
    rewrite !lookup_insert_ne; [done|congruence|done].
Qed.

Lemma nodes_add h bf (lft : bool) x xnd nw e t : ∀ par,
  wf h bf par t → h !! x = Some xnd → x ∈ nodes t →
  (if lft then _left xnd else _right xnd) = None →
  ∃ l1 l2, nodes t = l1 ++ x :: l2
           ∧ nodes (a_add lft x nw e t)
             = if lft then l1 ++ nw :: x :: l2 else l1 ++ x :: nw :: l2.
Proof.
  intros par Hwf Ex Hx Hside. revert par Hwf Hx.
  induction t as [|l IHl n it r IHr]; intros par Hwf Hx;
    [by apply elem_of_nil in Hx|].
  pose proof Hwf as Hwf'.
  apply wf_Br in Hwf' as (E & Hp & Hnl & Hnr & Hd & Hl & Hr).
  cbn [a_add]. destruct (Nat.eqb_spec n x) as [->|Hne].
  - rewrite E in Ex. injection Ex as <-. destruct lft; cbn in Hside.
    + apply top_None in Hside as ->. by exists [], (nodes r).
    + apply top_None in Hside as ->. exists (nodes l), []. split; [done|].
      cbn. done.
  - cbn [nodes] in Hx. apply elem_of_app in Hx as [Hx|Hx].
    + destruct (IHl _ Hl Hx) as (l1 & l2 & E1 & E2).
      rewrite (add_notin _ _ _ _ r) by (by apply Hd).
      exists l1, (l2 ++ n :: nodes r). cbn [nodes]. rewrite E1, E2.
      destruct lft; by rewrite <- !app_assoc.
    + apply elem_of_cons in Hx as [->|Hx]; [done|].
      destruct (IHr _ Hr Hx) as (l1 & l2 & E1 & E2).
      rewrite (add_notin _ _ _ _ l) by (intros Hxl; by apply (Hd x)).
      exists (nodes l ++ n :: l1), l2. cbn [nodes]. rewrite E1, E2.
      destruct lft; by rewrite <- !app_assoc.
Qed.

(** The state after [_add_left] or [_add_right] at a position of the
    traversal whose child on that side is missing. *)
Lemma add_child_shape s t (lft : bool) x xnd e :
  Inv s t → x ∈ nodes t → heap s !! x = Some xnd →
  (if lft then _left xnd else _right xnd) = None →
  let nw := fresh (dom (heap s)) in
  let s' := mkState (mkTree (ident (self s)) (class (self s)) (_root (self s))
                       (_size (self s) + 1))
              (<[x := if lft then with_left xnd (Some nw)
                      else with_right xnd (Some nw)]>
                 (<[nw := mkNode e (Some x) None None (bf_of (class (self s)))]>
                    (heap s))) in
  ∃ l1 l2,
    (inorder (enough s) s).1.1
    = map (λ n, mkp (ident (self s)) n) (l1 ++ x :: l2)
    ∧ (inorder (enough s') s').1.1
      = map (λ n, mkp (ident (self s)) n)
          (if lft then l1 ++ nw :: x :: l2 else l1 ++ x :: nw :: l2).
Proof.
  intros HI Hx Ex Hside nw s'.
  pose proof (enough_depth _ _ HI) as Hd. pose proof (inv_wf _ _ HI) as Hwf.
  assert (Enw : heap s !! nw = None) by apply fresh_None.
  destruct (nodes_add _ _ lft _ _ nw e _ _ Hwf Ex Hx Hside) as (l1 & l2 & E1 & E2).
  exists l1, l2. rewrite (inorder_inv _ _ (enough s) HI ltac:(lia)), E1.
  split; [done|].
  pose proof (rep_add _ _ lft _ _ nw e _ _ Hwf Ex Enw Hside) as Hrep.
  assert (Hnd : NoDup (nodes (a_add lft x nw e t))).
  { pose proof (inv_nodup _ _ HI) as Hn. rewrite E1 in Hn. rewrite E2.
    assert (Hfresh : nw ∉ l1 ++ x :: l2).
    { rewrite <- E1. intros Hin.
      destruct (rep_in_heap _ _ _ _ _ (inv_rep _ _ HI) Hin) as [? ?]. congruence. }
    apply NoDup_app in Hn as (H1 & H2 & H3). apply NoDup_cons in H3 as [H3 H4].
    destruct lft.
    - apply NoDup_app. split_and!; [done| |].
      + intros y Hy. specialize (H2 _ Hy). set_solver.
      + apply NoDup_cons. split; [set_solver|]. by apply NoDup_cons.
    - apply NoDup_app. split_and!; [done| |].
      + intros y Hy. specialize (H2 _ Hy). set_solver.
      + apply NoDup_cons. split; [set_solver|]. apply NoDup_cons.
        split; [set_solver|done]. }
  assert (Hwf' : wf (heap s') (bf_of (class (self s'))) None
                   (a_add lft x nw e t)) by (split_and!; done).
  destruct (inorder_shape s' _ _ (enough s') Hwf') as [-> _].
  - cbn. rewrite top_add. apply (inv_root _ _ HI).
  - intros Hl. rewrite Hl in E2. destruct lft, l1; done.
  - cbn. pose proof (inv_size _ _ HI). lia.
  - pose proof (depth_le_nodes (a_add lft x nw e t)).
    pose proof (nodes_le_heap _ _ _ _ Hrep Hnd). unfold enough. cbn [heap s'].
    lia.
  - cbn. by rewrite E2.
Qed.

(** X22: [_add_left] at a position of the traversal that has a left child
    raises [ValueError] and changes nothing.  At one without a left child
    it returns a new position [q]: [q] is then the left child of the
    position and a leaf and holds the element, the size is 1 more, and the
    in-order traversal yields [q] immediately before the position and is
    otherwise as before. *)
Theorem add_left_before (s : State) (p : option Position) (e : Item) :
  reachable s →
  p ∈ (inorder (enough s) s).1.1 →
  ((left p s).1 ≠ Ok None →
   _add_left p e s = (Raise (ValueError "Left child exists"), s))
  ∧ ((left p s).1 = Ok None →
     ∃ q s' l1 l2,
       _add_left p e s = (Ok q, s')
       ∧ left p s' = (Ok q, s') ∧ parent q s' = (Ok p, s')
       ∧ element q s' = (Ok e, s') ∧ is_leaf q s' = (Ok true, s')
       ∧ __len__ s' = (Ok (_size (self s) + 1)%Z, s')
       ∧ (inorder (enough s) s).1.1 = l1 ++ p :: l2
       ∧ (inorder (enough s') s').1.1 = l1 ++ q :: p :: l2).
Proof.
  intros Hreach Hp. destruct (reachable_inv _ Hreach) as [t HI].
  pose proof (enough_depth _ _ HI) as Hd. pose proof (inv_wf _ _ HI) as Hwf.
  pose proof Hp as Hp'.
  rewrite (inorder_inv _ _ (enough s) HI ltac:(lia)) in Hp'.
  apply list_elem_of_fmap in Hp' as (x & -> & Hx).
  destruct (wf_node _ _ _ _ _ Hwf Hx) as (a & e0 & b & par' & Es & Hw & Ex & _).
  pose proof Hw as Hw'. apply wf_Br in Hw' as (_ & Hxp & _).
  set (xnd := mkNode e0 par' (top a) (top b) _) in *.
  rewrite (left_ok _ _ _ Ex Hxp). cbn [fst]. split.
  - intros Hl. unfold _add_left.
    rewrite (bind_ok _ _ _ _ _ (validate_ok _ _ _ Ex Hxp)).
    rewrite (bind_ok _ _ _ _ _ (load_ok _ _ _ Ex)).
    subst xnd. cbn [_left] in *. by destruct (top a).
  - intros Hl. assert (El : _left xnd = None).
    { subst xnd. cbn [_left] in *. by destruct (top a). }
    destruct (add_child_shape s t true x xnd e HI Hx Ex El) as (l1 & l2 & E1 & E2).
    cbv zeta in E2. rewrite (add_left_ok _ _ _ e Ex Hxp El).
    set (nw := fresh (dom (heap s))) in *.
    set (s' := mkState _ _) in *.
    assert (Hxn : x ≠ nw) by (by eapply fresh_ne).
    assert (Ex' : heap s' !! x = Some (with_left xnd (Some nw)))
      by (cbn; by rewrite lookup_insert_eq).
    assert (En' : heap s' !! nw
                  = Some (mkNode e (Some x) None None (bf_of (class (self s)))))
      by (cbn; by rewrite lookup_insert_ne, lookup_insert_eq).
    exists (mkp (ident (self s)) nw), s',
      (map (λ n, mkp (ident (self s)) n) l1),
      (map (λ n, mkp (ident (self s)) n) l2).
    split_and!; [done| | | | | | |].
    + exact (left_ok s' x _ Ex' Hxp).
    + apply (parent_ok s' nw _ En'). cbn. congruence.
    + exact (element_ok s' _ nw _ En').
    + apply (is_leaf_ok s' nw _ En'). cbn. congruence.
    + done.
    + by rewrite E1, map_app.
    + by rewrite E2, map_app.
Qed.

(** X23: [_add_right] at a position of the traversal that has a right
    child raises [ValueError] and changes nothing.  At one without a right
    child it returns a new position [q]: [q] is then the right child of
    the position and a leaf and holds the element, the size is 1 more, and
    the in-order traversal yields [q] immediately after the position and
    is otherwise as before. *)
Theorem add_right_after (s : State) (p : option Position) (e : Item) :
  reachable s →
  p ∈ (inorder (enough s) s).1.1 →
  ((right p s).1 ≠ Ok None →
   _add_right p e s = (Raise (ValueError "Right child exists"), s))
  ∧ ((right p s).1 = Ok None →
     ∃ q s' l1 l2,
       _add_right p e s = (Ok q, s')
       ∧ right p s' = (Ok q, s') ∧ parent q s' = (Ok p, s')
       ∧ element q s' = (Ok e, s') ∧ is_leaf q s' = (Ok true, s')
       ∧ __len__ s' = (Ok (_size (self s) + 1)%Z, s')
       ∧ (inorder (enough s) s).1.1 = l1 ++ p :: l2
       ∧ (inorder (enough s') s').1.1 = l1 ++ p :: q :: l2).
Proof.
  intros Hreach Hp. destruct (reachable_inv _ Hreach) as [t HI].
  pose proof (enough_depth _ _ HI) as Hd. pose proof (inv_wf _ _ HI) as Hwf.
  pose proof Hp as Hp'.
  rewrite (inorder_inv _ _ (enough s) HI ltac:(lia)) in Hp'.
  apply list_elem_of_fmap in Hp' as (x & -> & Hx).
  destruct (wf_node _ _ _ _ _ Hwf Hx) as (a & e0 & b & par' & Es & Hw & Ex & _).
  pose proof Hw as Hw'. apply wf_Br in Hw' as (_ & Hxp & _).
  set (xnd := mkNode e0 par' (top a) (top b) _) in *.
  rewrite (right_ok _ _ _ Ex Hxp). cbn [fst]. split.
  - intros Hl. unfold _add_right.
    rewrite (bind_ok _ _ _ _ _ (validate_ok _ _ _ Ex Hxp)).
    rewrite (bind_ok _ _ _ _ _ (load_ok _ _ _ Ex)).
    subst xnd. cbn [_right] in *. by destruct (top b).
  - intros Hl. assert (El : _right xnd = None).
    { subst xnd. cbn [_right] in *. by destruct (top b). }
    destruct (add_child_shape s t false x xnd e HI Hx Ex El) as (l1 & l2 & E1 & E2).
    cbv zeta in E2. rewrite (add_right_ok _ _ _ e Ex Hxp El).
    set (nw := fresh (dom (heap s))) in *.
    set (s' := mkState _ _) in *.
    assert (Hxn : x ≠ nw) by (by eapply fresh_ne).
    assert (Ex' : heap s' !! x = Some (with_right xnd (Some nw)))
      by (cbn; by rewrite lookup_insert_eq).
    assert (En' : heap s' !! nw
                  = Some (mkNode e (Some x) None None (bf_of (class (self s)))))
      by (cbn; by rewrite lookup_insert_ne, lookup_insert_eq).
    exists (mkp (ident (self s)) nw), s',
      (map (λ n, mkp (ident (self s)) n) l1),
      (map (λ n, mkp (ident (self s)) n) l2).
    split_and!; [done| | | | | | |].
    + exact (right_ok s' x _ Ex' Hxp).
    + apply (parent_ok s' nw _ En'). cbn. congruence.
    + exact (element_ok s' _ nw _ En').
    + apply (is_leaf_ok s' nw _ En'). cbn. congruence.
    + done.
    + by rewrite E1, map_app.
    + by rewrite E2, map_app.
Qed.

(** ** The printing traversals *)

Lemma print_child_some s (child : option Position → M (option Position))
    (rec : option Position → Gen Item) (k : Gen Item) p c out :
  child p s = (Ok (Some c), s) →
  rec (Some c) s = (out, Ok tt, s) →
  print_child p child rec k s
  = let '(l2, r2, s2) := k s in (out ++ l2, r2, s2).
Proof.
  intros Hc Hr. unfold print_child.
  rewrite !(glift_ok _ _ _ _ _ Hc). unfold gyield_from. by rewrite Hr.
Qed.

Lemma print_child_none s (child : option Position → M (option Position))
    (rec : option Position → Gen Item) (k : Gen Item) p :
  child p s = (Ok None, s) → print_child p child rec k s = k s.
Proof. intros Hc. unfold print_child. by rewrite (glift_ok _ _ _ _ _ Hc). Qed.

(** One child of a node: nothing is printed for a missing one. *)
Lemma print_child_ok s bf n (u : atree)
    (child : option Position → M (option Position))
    (rec : option Position → Gen Item) (k : Gen Item) (out : list Item) :
  child (mkp (ident (self s)) n) s = (Ok (pos (ident (self s)) (top u)), s) →
  (u ≠ Lf → rec (pos (ident (self s)) (top u)) s = (out, Ok tt, s)) →
  (u = Lf → out = []) →
  wf (heap s) bf (Some n) u →
  print_child (mkp (ident (self s)) n) child rec k s
  = let '(l2, r2, s2) := k s in (out ++ l2, r2, s2).
Proof.
  intros Hc Hr Hnil _. destruct u as [|a m e b].
  - rewrite (print_child_none _ _ _ _ _ Hc). rewrite (Hnil eq_refl).
    by destruct (k s) as [[? ?] ?].
  - cbn [top pos] in *. by rewrite (print_child_some _ _ _ _ _ _ _ Hc (Hr ltac:(done))).
Qed.

Lemma prints_ok s bf t : ∀ par fuel,
  wf (heap s) bf par t → t ≠ Lf → depth t ≤ fuel →
  preorderPrint fuel (pos (ident (self s)) (top t)) s = (preorder t, Ok tt, s)
  ∧ postorderPrint fuel (pos (ident (self s)) (top t)) s
    = (postorder t, Ok tt, s)
  ∧ inorderPrint fuel (pos (ident (self s)) (top t)) s = (items t, Ok tt, s).
Proof.
  induction t as [|l IHl n it r IHr]; intros par fuel Hwf Hne Hfuel; [done|].
  apply wf_Br in Hwf as (E & Hp & _ & _ & _ & Hl & Hr).
  destruct fuel as [|fuel]; [cbn in Hfuel; lia|]. cbn in Hfuel.
  pose proof (left_ok _ _ _ E Hp) as Hleft.
  pose proof (right_ok _ _ _ E Hp) as Hright. cbn [_left _right] in *.
  assert (Hel : ∀ k : Gen Item,
            print_element (mkp (ident (self s)) n) k s
            = let '(l2, r2, s2) := k s in (it :: l2, r2, s2)).
  { intros k. unfold print_element.
    by rewrite (glift_ok _ _ _ _ _ (element_ok _ _ _ _ E)). }
  assert (IHl' : l ≠ Lf →
            preorderPrint fuel (pos (ident (self s)) (top l)) s
            = (preorder l, Ok tt, s)
            ∧ postorderPrint fuel (pos (ident (self s)) (top l)) s
              = (postorder l, Ok tt, s)
            ∧ inorderPrint fuel (pos (ident (self s)) (top l)) s
              = (items l, Ok tt, s)).
  { intros H. apply (IHl _ _ Hl H). lia. }
  assert (IHr' : r ≠ Lf →
            preorderPrint fuel (pos (ident (self s)) (top r)) s
            = (preorder r, Ok tt, s)
            ∧ postorderPrint fuel (pos (ident (self s)) (top r)) s
              = (postorder r, Ok tt, s)
            ∧ inorderPrint fuel (pos (ident (self s)) (top r)) s
              = (items r, Ok tt, s)).
  { intros H. apply (IHr _ _ Hr H). lia. }
  cbn [top pos preorderPrint postorderPrint inorderPrint preorder postorder
       items].
  split_and!.
  - rewrite Hel.
    rewrite (print_child_ok s bf n l _ _ _ (preorder l) Hleft);
      [|intros H; apply (IHl' H)|by intros ->|done].
    rewrite (print_child_ok s bf n r _ _ _ (preorder r) Hright);
      [|intros H; apply (IHr' H)|by intros ->|done].
    unfold gdone. by rewrite app_nil_r.
  - rewrite (print_child_ok s bf n l _ _ _ (postorder l) Hleft);
      [|intros H; apply (IHl' H)|by intros ->|done].
    rewrite (print_child_ok s bf n r _ _ _ (postorder r) Hright);
      [|intros H; apply (IHr' H)|by intros ->|done].
    rewrite Hel. by unfold gdone.
  - rewrite (print_child_ok s bf n l _ _ _ (items l) Hleft);
      [|intros H; apply (IHl' H)|by intros ->|done].
    rewrite Hel.
    rewrite (print_child_ok s bf n r _ _ _ (items r) Hright);
      [|intros H; apply (IHr' H)|by intros ->|done].
    unfold gdone. by rewrite app_nil_r.
Qed.

(** X25: in a reachable state whose tree is laid out in the store as [t],
    [preorderPrint], [postorderPrint] and [inorderPrint] called at the
    root print the elements of [t] node first, node last and in order,
    and change nothing; the in-order print gives the pairs of the in-order
    traversal.  When [root] returns [None] each of the three raises
    [TypeError] and prints nothing. *)
Theorem print_traversals (s : State) :
  reachable s →
  ∃ t r,
    _root (self s) = top t
    ∧ rep (heap s) (bf_of (class (self s))) None t
    ∧ root s = (Ok r, s)
    ∧ (r ≠ None →
       preorderPrint (enough s) r s = (preorder t, Ok tt, s)
       ∧ postorderPrint (enough s) r s = (postorder t, Ok tt, s)
       ∧ inorderPrint (enough s) r s = (items t, Ok tt, s)
       ∧ map (λ it, (_key it, _value it)) (items t)
         = (inorder_pairs (enough s) s).1.1)
    ∧ (r = None →
       let err := Raise (TypeError "p must be proper Position type") in
       preorderPrint (enough s) r s = ([], err, s)
       ∧ postorderPrint (enough s) r s = ([], err, s)
       ∧ inorderPrint (enough s) r s = ([], err, s)).
Proof.
  intros Hreach. destruct (reachable_inv _ Hreach) as [t HI].
  pose proof (enough_depth _ _ HI) as Hd. pose proof (inv_wf _ _ HI) as Hwf.
  exists t, (pos (ident (self s)) (top t)).
  split_and!; [apply (inv_root _ _ HI)|apply (inv_rep _ _ HI)|
               apply (root_inv _ _ HI)| |].
  - intros Hr. assert (Hne : t ≠ Lf) by (by intros ->).
    destruct (prints_ok s _ t None (enough s) Hwf Hne ltac:(lia))
      as (H1 & H2 & H3).
    split_and!; [done|done|done|].
    by rewrite (proj1 (inorder_pairs_reach _ _ HI)).
  - intros Hr. destruct (top t); [done|]. cbn [pos]. unfold enough. done.
Qed.

Lemma items_replace h bf x e t : ∀ par j,
  wf h bf par t → nodes t !! j = Some x →
  items (a_replace x e t) = <[j := e]> (items t).
Proof.
  induction t as [|l IHl n it r IHr]; intros par j Hwf Hj; [done|].
  apply wf_Br in Hwf as (_ & _ & Hnl & Hnr & Hd & Hl & Hr).
  cbn [nodes items a_replace] in *.
  pose proof (length_nodes_items l) as Hlen.
  destruct (lt_eq_lt_dec j (length (nodes l))) as [[Hlt|Heq]|Hgt].
  - rewrite lookup_app_l in Hj by done.
    assert (Hx : x ∈ nodes l) by (by eapply list_elem_of_lookup_2).
    destruct (Nat.eqb_spec n x) as [->|Hne]; [done|]. cbn [items].
    rewrite (IHl _ _ Hl Hj), (replace_notin _ _ r) by (by apply Hd).
    by rewrite insert_app_l by lia.
  - subst j. rewrite list_lookup_middle in Hj by done. injection Hj as ->.
    rewrite Nat.eqb_refl. cbn [items].
    rewrite insert_app_r_alt by lia.
    replace (length (nodes l) - length (items l)) with 0 by lia. done.
  - rewrite lookup_app_r in Hj by lia.
    destruct (j - length (nodes l)) as [|k] eqn:Ek; [lia|]. cbn in Hj.
    assert (Hx : x ∈ nodes r) by (by eapply list_elem_of_lookup_2).
    destruct (Nat.eqb_spec n x) as [->|Hne]; [done|]. cbn [items].
    rewrite (IHr _ _ Hr Hj), (replace_notin _ _ l)
      by (intros Hxl; by apply (Hd x)).
    rewrite insert_app_r_alt by lia.
    replace (j - length (items l)) with (S k) by lia. done.
Qed.

(** X27: [_replace] at the position that the in-order traversal of a
    reachable tree yields in place [j] returns the element stored there
    and stores the new one: the size and the positions of the traversal
    are as before, the traversal yields the pair of the new element in
    place [j] and the other pairs as before, and replacing the old element
    back restores the state. *)
Theorem replace_round_trip (s : State) (j : nat) (p : option Position)
    (e : Item) :
  reachable s →
  (inorder (enough s) s).1.1 !! j = Some p →
  ∃ old s1,
    element p s = (Ok old, s)
    ∧ _replace p e s = (Ok old, s1)
    ∧ element p s1 = (Ok e, s1)
    ∧ _size (self s1) = _size (self s)
    ∧ (inorder (enough s) s1).1.1 = (inorder (enough s) s).1.1
    ∧ (inorder_pairs (enough s) s1).1.1
      = <[j := (_key e, _value e)]> (inorder_pairs (enough s) s).1.1
    ∧ _replace p old s1 = (Ok e, s).
Proof.
  intros Hreach Hj. destruct (reachable_inv _ Hreach) as [t HI].
  pose proof (enough_depth _ _ HI) as Hd. pose proof (inv_wf _ _ HI) as Hwf.
  rewrite (proj1 (inorder_pairs_reach _ _ HI)).
  rewrite (inorder_inv _ _ (enough s) HI ltac:(lia)) in *.
  rewrite list_lookup_fmap in Hj.
  destruct (nodes t !! j) as [x|] eqn:En; [|done]. injection Hj as <-.
  pose proof (list_elem_of_lookup_2 _ _ _ En) as Hx.
  destruct (wf_node _ _ _ _ _ Hwf Hx) as (a & e0 & b & par' & Es & Hw & Ex & _).
  pose proof Hw as Hw'. apply wf_Br in Hw' as (_ & Hxp & _).
  set (xnd := mkNode e0 par' (top a) (top b) _) in *.
  set (s1 := mkState (self s) (<[x := with_element xnd e]> (heap s))).
  assert (Ex1 : heap s1 !! x = Some (with_element xnd e))
    by (cbn; by rewrite lookup_insert_eq).
  assert (Hwf1 : wf (heap s1) (bf_of (class (self s1))) None
                   (a_replace x e t)).
  { split_and!; [exact (rep_replace _ _ x xnd e t None Hwf Ex)| |done].
    rewrite nodes_replace. apply (inv_nodup _ _ HI). }
  exists e0, s1.
  split_and!.
  - exact (element_ok s _ x _ Ex).
  - exact (replace_ok s x xnd e Ex Hxp).
  - exact (element_ok s1 _ x _ Ex1).
  - done.
  - destruct (inorder_shape s1 _ (a_replace x e t) (enough s) Hwf1) as [-> _].
    + cbn. rewrite top_replace. apply (inv_root _ _ HI).
    + intros Hl. pose proof (nodes_replace x e t) as Hn. rewrite Hl in Hn.
      rewrite <- Hn in Hx. by apply elem_of_nil in Hx.
    + cbn. pose proof (inv_size _ _ HI).
      destruct (nodes t); [by apply elem_of_nil in Hx|]. cbn in *. lia.
    + rewrite depth_replace. lia.
    + cbn. by rewrite nodes_replace.
  - destruct (inorder_shape s1 _ (a_replace x e t) (enough s) Hwf1) as [_ ->].
    + cbn. rewrite top_replace. apply (inv_root _ _ HI).
    + intros Hl. pose proof (nodes_replace x e t) as Hn. rewrite Hl in Hn.
      rewrite <- Hn in Hx. by apply elem_of_nil in Hx.
    + cbn. pose proof (inv_size _ _ HI).
      destruct (nodes t); [by apply elem_of_nil in Hx|]. cbn in *. lia.
    + rewrite depth_replace. lia.
    + unfold pairs. rewrite (items_replace _ _ _ _ _ _ _ Hwf En).
      by rewrite list_fmap_insert.
  - transitivity
      (Ok (_element (with_element xnd e)),
       mkState (self s1)
         (<[x := with_element (with_element xnd e) e0]> (heap s1))).
    + exact (replace_ok s1 x _ e0 Ex1 Hxp).
    + cbn. f_equal. rewrite insert_insert_eq.
      change (with_element (with_element xnd e) e0) with xnd.
      rewrite insert_id by done. by destruct s.
Qed.

(** What [_validate] has checked when it returns. *)
Lemma validate_accepts s p n s' :
  _validate p s = (Ok n, s') →
  s' = s ∧ p = mkp (ident (self s)) n
  ∧ ∃ nd, heap s !! n = Some nd ∧ _parent nd ≠ Some n.
Proof.
  destruct p as [[c m]|]; [|done]. cbn. unfold bind, get_self. cbn.
  destruct (Nat.eqb_spec c (ident (self s))) as [->|Hc]; [|done]. cbn.
  unfold load. destruct (heap s !! m) as [nd|] eqn:E; [|done].
  destruct (bool_decide_reflect (_parent nd = Some m)) as [Hp|Hp]; [done|].
  intros [= <- <-]. split_and!; [done|done|by exists nd].
Qed.

(** X28: at a position that [_validate] accepts, [children] yields the
    child that [left] returns and then the one that [right] returns,
    leaving out a missing one; [num_children] is the number of positions
    that [children] yields, and [is_leaf] tells whether there is none.
    Nothing is changed. *)
Theorem children_count (s : State) (p : option Position) (n : loc) :
  _validate p s = (Ok n, s) →
  ∃ l r,
    left p s = (Ok l, s) ∧ right p s = (Ok r, s)
    ∧ children p s = (filter (λ c, c ≠ None) [l; r], Ok tt, s)
    ∧ num_children p s
      = (Ok (Z.of_nat (length (filter (λ c, c ≠ None) [l; r]))), s)
    ∧ is_leaf p s
      = (Ok (bool_decide (filter (λ c, c ≠ None) [l; r] = [])), s).
Proof.
  intros Hv. destruct (validate_accepts _ _ _ _ Hv) as (_ & -> & nd & E & Hp).
  exists (pos (ident (self s)) (_left nd)), (pos (ident (self s)) (_right nd)).
  rewrite (left_ok _ _ _ E Hp), (right_ok _ _ _ E Hp),
    (children_ok _ _ _ E Hp), (num_children_ok _ _ _ E Hp),
    (is_leaf_ok _ _ _ E Hp).
  unfold num_children_of.
  destruct (_left nd) as [a|], (_right nd) as [b|]; split_and!; done.
Qed.

(** X29: [_add_root] raises [ValueError] and changes nothing when the tree
    has a root.  Otherwise it returns a new position that holds the
    element; afterwards that position is what [root] returns, it has no
    parent and no children, the size is 1 and the in-order traversal
    yields this position alone. *)
Theorem add_root_outcome (s : State) (e : Item) :
  match _root (self s) with
  | Some _ => _add_root e s = (Raise (ValueError "Root exists"), s)
  | None =>
      ∃ q s',
        _add_root e s = (Ok q, s')
        ∧ root s' = (Ok q, s')
        ∧ element q s' = (Ok e, s')
        ∧ parent q s' = (Ok None, s')
        ∧ is_leaf q s' = (Ok true, s')
        ∧ __len__ s' = (Ok 1%Z, s')
        ∧ inorder (enough s') s' = ([q], Ok tt, s')
  end.
Proof.
  destruct (_root (self s)) as [r|] eqn:Er.
  - unfold _add_root, bind, get_self. by rewrite Er.
  - rewrite (add_root_ok _ e Er).
    set (nw := fresh (dom (heap s))).
    set (s' := mkState _ _).
    assert (En : heap s' !! nw
                 = Some (mkNode e None None None (bf_of (class (self s)))))
      by (cbn; by rewrite lookup_insert_eq).
    exists (mkp (ident (self s)) nw), s'.
    split_and!; [done|done| | | |done|].
    + exact (element_ok s' _ nw _ En).
    + by apply (parent_ok s' nw _ En).
    + by apply (is_leaf_ok s' nw _ En).
    + assert (Hwf : wf (heap s') (bf_of (class (self s'))) None
                      (Br Lf nw e Lf)).
      { split_and!; [by split_and!| |done]. cbn. apply NoDup_singleton. }
      destruct (inorder_shape s' _ _ (enough s') Hwf) as [-> _]; try done.
      unfold enough. cbn. lia.
Qed.

End Properties.

(** C1 (the code fails the claim): after the insertions 0, 1, 2 into an
    [AVLTreeMap] the root has the stored balance factor 0, its left
    subtree has height 0 and its right subtree height 2. *)
Theorem avl_balance_factor_not_maintained :
  ∃ nd,
    _root (self (scenario_B 3)) = Some 0
    ∧ heap (scenario_B 3) !! 0 = Some nd
    ∧ _balance_factor nd = Some 0%Z
    ∧ avl_height 3 (heap (scenario_B 3)) (_left nd) = 0%Z
    ∧ avl_height 3 (heap (scenario_B 3)) (_right nd) = 2%Z.
Proof. eexists. vm_compute. by split_and!. Qed.

(** C2 (the code fails the claim): [update_balance_factor_for_add] returns
    without touching the state; after the insertion of key 1 below the
    root 0 of an [AVLTreeMap], the new node is the right child of the
    root and the balance factor of the root is still 0. *)
Theorem add_leaves_balance_factors :
  (∀ p (s : State (V:=string)), update_balance_factor_for_add p s = (Ok tt, s))
  ∧ ∃ nd,
      heap (scenario_B 2) !! 0 = Some nd
      ∧ _left nd = None ∧ _right nd = Some 1
      ∧ _balance_factor nd = Some 0%Z.
Proof. split; [done|]. eexists. vm_compute. by split_and!. Qed.

(** C3 (the code fails the claim): [_delete] at the root of a one-node
    tree raises [UnboundLocalError]; the root link is cleared, the size is
    still 1 and the node is not marked as deprecated. *)
Theorem delete_root_unbound_local :
  (root single).1 = Ok (Some root_of_single)
  ∧ _delete (Some root_of_single) single
    = (Raise UnboundLocalError,
       mkState (mkTree 0 TreeMapC None 1) (heap single))
  ∧ heap single !! 0 = Some (mkNode (mkItem 1 hi) None None None None).
Proof. vm_compute. by split_and!. Qed.

(** C4 (the code fails the claim): after the insertions 0, 1, 2, 3, 4 into
    an [AVLTreeMap], [height()] returns 4; already after the second
    insertion the root, with stored balance factor 0, has subtrees of
    heights 0 and 1. *)
Theorem scenario_B_height :
  (height (enough (scenario_B 5)) None (scenario_B 5)).1 = Ok 4%Z
  ∧ ∃ nd,
      heap (scenario_B 2) !! 0 = Some nd
      ∧ _balance_factor nd = Some 0%Z
      ∧ avl_height 2 (heap (scenario_B 2)) (_left nd) = 0%Z
      ∧ avl_height 2 (heap (scenario_B 2)) (_right nd) = 1%Z.
Proof. split; [by vm_compute|]. eexists. vm_compute. by split_and!. Qed.

(** C5, the claim as stated fails: [find_ge(8)] does not return a pair
    with key 12. *)
Lemma find_ge_8_is_not_12 :
  ¬ ∃ v, (find_ge (enough scenario_A) 8 scenario_A).1 = Ok (Some (12%Z, v)).
Proof. intros [v H]. vm_compute in H. discriminate. Qed.

(** C5 (as amended): in scenario A, [before] at the position of key 10 is
    the position of key 7, [after] there is the position of key 12, and
    [find_ge(8)] is the pair of key 10. *)
Theorem scenario_A_navigation :
  ∃ p10 p7 p12,
    (find_position (enough scenario_A) 10 scenario_A).1 = Ok p10
    ∧ (key p10 scenario_A).1 = Ok 10%Z
    ∧ (before (enough scenario_A) p10 scenario_A).1 = Ok p7
    ∧ (key p7 scenario_A).1 = Ok 7%Z
    ∧ (after (enough scenario_A) p10 scenario_A).1 = Ok p12
    ∧ (key p12 scenario_A).1 = Ok 12%Z
    ∧ (find_ge (enough scenario_A) 8 scenario_A).1 = Ok (Some (10%Z, hi)).
Proof.
  exists (Some (mkPos 0 0)), (Some (mkPos 0 4)), (Some (mkPos 0 5)).
  vm_compute. by split_and!.
Qed.

(** C7, at a concrete input: scenario E. *)
Lemma find_range_yields_witness :
  reachable scenario_E
  ∧ ((find_range (enough scenario_E) (Some 5%Z) (Some 15%Z) scenario_E).1.1
     = List.filter (λ kv, in_range (Some 5%Z) (Some 15%Z) kv.1)
         (inorder_pairs (enough scenario_E) scenario_E).1.1
     ∧ StronglySorted Z.lt
         (map fst
            (find_range (enough scenario_E) (Some 5%Z) (Some 15%Z)
               scenario_E).1.1)
     ∧ (map fst (inorder_pairs (enough scenario_E) scenario_E).1.1
        = [2; 5; 7; 10; 12; 18]%Z →
        map fst
          (find_range (enough scenario_E) (Some 5%Z) (Some 15%Z)
             scenario_E).1.1
        = [5; 7; 10; 12]%Z)).
Proof.
  assert (H : reachable scenario_E).
  { exists 0, TreeMapC, (inserts (with_hi [10; 5; 2; 7; 12; 18]%Z)).
    reflexivity. }
  split; [exact H|]. exact (find_range_yields scenario_E _ _ H).
Defined.


(** C9, the claim as stated fails: [is_root] takes a position of another
    tree and returns [False]; it raises nothing. *)
Lemma is_root_accepts_foreign_position :
  invalid other root_of_single
  ∧ is_root (Some root_of_single) other = (Ok false, other)
  ∧ ¬ rejects (is_root (Some root_of_single)) other.
Proof.
  split_and!.
  - left. vm_compute. lia.
  - by vm_compute.
  - intros [msg H]. vm_compute in H. discriminate.
Qed.

(** C9, at a concrete input: the root position of [single], given to the
    operations of [other]. *)
Lemma invalid_position_rejected_witness :
  invalid other root_of_single
  ∧ rejects (delete 3 (Some root_of_single)) other.
Proof.
  assert (H : invalid other root_of_single) by (left; vm_compute; lia).
  split; [exact H|].
  apply (invalid_position_rejected other root_of_single 3 (mkItem 0 hi) H).
Defined.

(** * The properties at concrete inputs *)

Lemma scenario_A_reachable : reachable scenario_A.
Proof.
  exists 0, TreeMapC, (inserts (with_hi [10; 5; 15; 2; 7; 12; 18]%Z)).
  reflexivity.
Qed.

Lemma scenario_A_has_root :
  _root (self scenario_A) ≠ None ∨ _size (self scenario_A) = 0%Z.
Proof. left. by vm_compute. Qed.

(** X1, at a concrete input: key 7 of scenario A. *)
Lemma getitem_found_witness :
  reachable scenario_A
  ∧ (7%Z, hi) ∈ (inorder_pairs (enough scenario_A) scenario_A).1.1
  ∧ enough scenario_A ≤ enough scenario_A
  ∧ __getitem__ (enough scenario_A) 7 scenario_A = (Ok hi, scenario_A).
Proof.
  assert (H2 : (7%Z, hi) ∈ (inorder_pairs (enough scenario_A) scenario_A).1.1).
  { vm_compute. repeat constructor. }
  assert (H3 : enough scenario_A ≤ enough scenario_A) by lia.
  split_and!; [exact scenario_A_reachable|exact H2|exact H3|].
  exact (getitem_found scenario_A 7 hi _ scenario_A_reachable H2 H3).
Defined.

(** X2, at a concrete input: key 8 is not in scenario A. *)
Lemma getitem_missing_witness :
  reachable scenario_A
  ∧ (8%Z ∉ (inorder_keys (enough scenario_A) scenario_A).1.1)
  ∧ enough scenario_A ≤ enough scenario_A
  ∧ __getitem__ (enough scenario_A) 8 scenario_A
    = (Raise (match _root (self scenario_A) with
              | Some _ => KeyError 8
              | None => if Z.eqb (_size (self scenario_A)) 0
                        then KeyError 8 else AttributeError
              end), scenario_A).
Proof.
  assert (H2 : 8%Z ∉ (inorder_keys (enough scenario_A) scenario_A).1.1).
  { apply (bool_decide_unpack _). by vm_compute. }
  assert (H3 : enough scenario_A ≤ enough scenario_A) by lia.
  split_and!; [exact scenario_A_reachable|exact H2|exact H3|].
  exact (getitem_missing scenario_A 8 _ scenario_A_reachable H2 H3).
Defined.

(** X3, at a concrete input: [t[7] = "new"] in scenario A. *)
Lemma setitem_then_getitem_witness :
  reachable scenario_A
  ∧ enough scenario_A ≤ enough scenario_A
  ∧ (_root (self scenario_A) ≠ None ∨ _size (self scenario_A) = 0%Z)
  ∧ ∃ s',
      __setitem__ (enough scenario_A) 7 "new" scenario_A = (Ok tt, s')
      ∧ __getitem__ (enough scenario_A) 7 s' = (Ok "new", s')
      ∧ ∀ k', k' ≠ 7%Z →
          (__getitem__ (enough scenario_A) k' s').1
          = (__getitem__ (enough scenario_A) k' scenario_A).1.
Proof.
  assert (H2 : enough scenario_A ≤ enough scenario_A) by lia.
  split_and!; [exact scenario_A_reachable|exact H2|exact scenario_A_has_root|].
  exact (setitem_then_getitem scenario_A 7 "new" _ scenario_A_reachable H2
           scenario_A_has_root).
Defined.

(** The map with the single key 1 after the failed [del t[1]]: no root,
    size 1. *)
Lemma rootless_reachable : reachable (apply_ops [DelItem 1%Z] single).
Proof.
  exists 0, TreeMapC, (inserts (with_hi [1]%Z) ++ [DelItem 1%Z]).
  reflexivity.
Qed.

Lemma rootless_no_root :
  _root (self (apply_ops [DelItem 1%Z] single)) = None
  ∧ _size (self (apply_ops [DelItem 1%Z] single)) ≠ 0%Z.
Proof. split; by vm_compute. Qed.

(** X4, at concrete inputs: [t[8] = "new"] in scenario A, and in the map
    that the failed [del t[1]] left without root. *)
Lemma setitem_contents_witness :
  reachable scenario_A
  ∧ enough scenario_A ≤ enough scenario_A
  ∧ (_root (self scenario_A) ≠ None ∨ _size (self scenario_A) = 0%Z)
  ∧ (∃ s',
      __setitem__ (enough scenario_A) 8 "new" scenario_A = (Ok tt, s')
      ∧ (inorder_pairs (enough s') s').1.1
        = List.filter (λ kv, Z.ltb kv.1 8)
            (inorder_pairs (enough scenario_A) scenario_A).1.1
          ++ (8%Z, "new")
          :: List.filter (λ kv, Z.ltb 8 kv.1)
               (inorder_pairs (enough scenario_A) scenario_A).1.1)
  ∧ __setitem__ (enough (apply_ops [DelItem 1%Z] single)) 8 "new"
      (apply_ops [DelItem 1%Z] single)
    = (Raise AttributeError, apply_ops [DelItem 1%Z] single).
Proof.
  assert (H2 : enough scenario_A ≤ enough scenario_A) by lia.
  assert (H3 : enough (apply_ops [DelItem 1%Z] single)
               ≤ enough (apply_ops [DelItem 1%Z] single)) by lia.
  split_and!; [exact scenario_A_reachable|exact H2|exact scenario_A_has_root
              | |].
  - exact (proj1 (setitem_contents scenario_A 8 "new" _ scenario_A_reachable
                    H2) scenario_A_has_root).
  - exact (proj2 (setitem_contents _ 8 "new" _ rootless_reachable H3)
             rootless_no_root).
Defined.

(** X5, at a concrete input: [del t[8]] in scenario A. *)
Lemma delitem_missing_witness :
  reachable scenario_A
  ∧ (8%Z ∉ (inorder_keys (enough scenario_A) scenario_A).1.1)
  ∧ enough scenario_A ≤ enough scenario_A
  ∧ __delitem__ (enough scenario_A) 8 scenario_A
    = (Raise (match _root (self scenario_A) with
              | Some _ => KeyError 8
              | None => if Z.eqb (_size (self scenario_A)) 0
                        then KeyError 8 else AttributeError
              end), scenario_A).
Proof.
  assert (H2 : 8%Z ∉ (inorder_keys (enough scenario_A) scenario_A).1.1).
  { apply (bool_decide_unpack _). by vm_compute. }
  assert (H3 : enough scenario_A ≤ enough scenario_A) by lia.
  split_and!; [exact scenario_A_reachable|exact H2|exact H3|].
  exact (delitem_missing scenario_A 8 _ scenario_A_reachable H2 H3).
Defined.

(** X6, at a concrete input: [del t[10]], the key of the root of
    scenario A. *)
Lemma delitem_contents_witness :
  reachable scenario_A
  ∧ 10%Z ∈ (inorder_keys (enough scenario_A) scenario_A).1.1
  ∧ enough scenario_A ≤ enough scenario_A
  ∧ (inorder_pairs
       (enough (__delitem__ (enough scenario_A) 10 scenario_A).2)
       (__delitem__ (enough scenario_A) 10 scenario_A).2).1.1
    = List.filter (λ kv, negb (Z.eqb kv.1 10))
        (inorder_pairs (enough scenario_A) scenario_A).1.1.
Proof.
  assert (H2 : 10%Z ∈ (inorder_keys (enough scenario_A) scenario_A).1.1).
  { vm_compute. repeat constructor. }
  assert (H3 : enough scenario_A ≤ enough scenario_A) by lia.
  split_and!; [exact scenario_A_reachable|exact H2|exact H3|].
  exact (delitem_contents scenario_A 10 _ scenario_A_reachable H2 H3).
Defined.

Lemma single_reachable : reachable single.
Proof. exists 0, TreeMapC, (inserts (with_hi [1]%Z)). reflexivity. Qed.

(** X7, at a concrete input: [del t[1]] in the map with the single key
    1, which is at the root. *)
Lemma delitem_outcome_witness :
  reachable single
  ∧ 1%Z ∈ (inorder_keys (enough single) single).1.1
  ∧ enough single ≤ enough single
  ∧ (bind root key single).1 = Ok 1%Z
  ∧ (bind root num_children single).1 ≠ Ok 2%Z
  ∧ (__delitem__ (enough single) 1 single).1 = Raise UnboundLocalError
  ∧ _size (self (__delitem__ (enough single) 1 single).2)
    = _size (self single).
Proof.
  assert (H2 : 1%Z ∈ (inorder_keys (enough single) single).1.1).
  { vm_compute. repeat constructor. }
  assert (H3 : enough single ≤ enough single) by lia.
  assert (H4 : (bind root key single).1 = Ok 1%Z) by (by vm_compute).
  assert (H5 : (bind root num_children single).1 ≠ Ok 2%Z) by (by vm_compute).
  split_and!; [exact single_reachable|exact H2|exact H3|exact H4|exact H5|..];
    apply (proj1 (delitem_outcome single 1 _ single_reachable H2 H3) H4 H5).
Defined.

(** X8, at concrete inputs: scenario A, and the map that the failed
    [del t[1]] left without root. *)
Lemma iter_yields_inorder_keys_witness :
  reachable scenario_A
  ∧ enough scenario_A ≤ enough scenario_A
  ∧ (_root (self scenario_A) ≠ None ∨ _size (self scenario_A) = 0%Z)
  ∧ __iter__ (enough scenario_A) scenario_A
    = ((inorder_keys (enough scenario_A) scenario_A).1.1, Ok tt, scenario_A)
  ∧ __iter__ (enough (apply_ops [DelItem 1%Z] single))
      (apply_ops [DelItem 1%Z] single)
    = ([], Raise (TypeError "p must be proper Position type"),
       apply_ops [DelItem 1%Z] single).
Proof.
  assert (H2 : enough scenario_A ≤ enough scenario_A) by lia.
  assert (H3 : enough (apply_ops [DelItem 1%Z] single)
               ≤ enough (apply_ops [DelItem 1%Z] single)) by lia.
  split_and!; [exact scenario_A_reachable|exact H2|exact scenario_A_has_root
              | |].
  - exact (proj1 (iter_yields_inorder_keys scenario_A _ scenario_A_reachable
                    H2) scenario_A_has_root).
  - exact (proj2 (iter_yields_inorder_keys _ _ rootless_reachable H3)
             rootless_no_root).
Defined.

(** X9, at concrete inputs: scenario A, and the map that the failed
    [del t[1]] left without root. *)
Lemma reversed_yields_keys_backwards_witness :
  reachable scenario_A
  ∧ enough scenario_A ≤ enough scenario_A
  ∧ (_root (self scenario_A) ≠ None ∨ _size (self scenario_A) = 0%Z)
  ∧ __reversed__ (enough scenario_A) scenario_A
    = (rev (inorder_keys (enough scenario_A) scenario_A).1.1, Ok tt,
       scenario_A)
  ∧ __reversed__ (enough (apply_ops [DelItem 1%Z] single))
      (apply_ops [DelItem 1%Z] single)
    = ([], Raise (TypeError "p must be proper Position type"),
       apply_ops [DelItem 1%Z] single).
Proof.
  assert (H2 : enough scenario_A ≤ enough scenario_A) by lia.
  assert (H3 : enough (apply_ops [DelItem 1%Z] single)
               ≤ enough (apply_ops [DelItem 1%Z] single)) by lia.
  split_and!; [exact scenario_A_reachable|exact H2|exact scenario_A_has_root
              | |].
  - exact (proj1 (reversed_yields_keys_backwards scenario_A _
                    scenario_A_reachable H2) scenario_A_has_root).
  - exact (proj2 (reversed_yields_keys_backwards _ _ rootless_reachable H3)
             rootless_no_root).
Defined.

(** X10, at concrete inputs: scenario A, and the map that the failed
    [del t[1]] left without root. *)
Lemma find_min_max_witness :
  reachable scenario_A
  ∧ enough scenario_A ≤ enough scenario_A
  ∧ (_root (self scenario_A) ≠ None ∨ _size (self scenario_A) = 0%Z)
  ∧ (find_min (enough scenario_A) scenario_A
     = (Ok (head (inorder_pairs (enough scenario_A) scenario_A).1.1),
        scenario_A)
     ∧ find_max (enough scenario_A) scenario_A
       = (Ok (list.last (inorder_pairs (enough scenario_A) scenario_A).1.1),
          scenario_A))
  ∧ (find_min (enough (apply_ops [DelItem 1%Z] single))
       (apply_ops [DelItem 1%Z] single)
     = (Raise (TypeError "p must be proper Position type"),
        apply_ops [DelItem 1%Z] single)
     ∧ find_max (enough (apply_ops [DelItem 1%Z] single))
         (apply_ops [DelItem 1%Z] single)
       = (Raise (TypeError "p must be proper Position type"),
          apply_ops [DelItem 1%Z] single)).
Proof.
  assert (H2 : enough scenario_A ≤ enough scenario_A) by lia.
  assert (H3 : enough (apply_ops [DelItem 1%Z] single)
               ≤ enough (apply_ops [DelItem 1%Z] single)) by lia.
  split; [exact scenario_A_reachable|]. split; [exact H2|].
  split; [exact scenario_A_has_root|]. split.
  - exact (proj1 (find_min_max scenario_A _ scenario_A_reachable H2)
             scenario_A_has_root).
  - exact (proj2 (find_min_max _ _ rootless_reachable H3) rootless_no_root).
Defined.

(** X11, at concrete inputs: key 8 in scenario A, and in the map that the
    failed [del t[1]] left without root. *)
Lemma find_ge_gt_witness :
  reachable scenario_A
  ∧ enough scenario_A ≤ enough scenario_A
  ∧ (_root (self scenario_A) ≠ None ∨ _size (self scenario_A) = 0%Z)
  ∧ (find_ge (enough scenario_A) 8 scenario_A
     = (Ok (head (List.filter (λ kv, Z.leb 8 kv.1)
                    (inorder_pairs (enough scenario_A) scenario_A).1.1)),
        scenario_A)
     ∧ find_gt (enough scenario_A) 8 scenario_A
       = (Ok (head (List.filter (λ kv, Z.ltb 8 kv.1)
                      (inorder_pairs (enough scenario_A) scenario_A).1.1)),
          scenario_A))
  ∧ (find_ge (enough (apply_ops [DelItem 1%Z] single)) 8
       (apply_ops [DelItem 1%Z] single)
     = (Raise AttributeError, apply_ops [DelItem 1%Z] single)
     ∧ find_gt (enough (apply_ops [DelItem 1%Z] single)) 8
         (apply_ops [DelItem 1%Z] single)
       = (Raise AttributeError, apply_ops [DelItem 1%Z] single)).
Proof.
  assert (H2 : enough scenario_A ≤ enough scenario_A) by lia.
  assert (H3 : enough (apply_ops [DelItem 1%Z] single)
               ≤ enough (apply_ops [DelItem 1%Z] single)) by lia.
  split; [exact scenario_A_reachable|]. split; [exact H2|].
  split; [exact scenario_A_has_root|]. split.
  - exact (proj1 (find_ge_gt scenario_A 8 _ scenario_A_reachable H2)
             scenario_A_has_root).
  - exact (proj2 (find_ge_gt _ 8 _ rootless_reachable H3) rootless_no_root).
Defined.

(** X12, at concrete inputs: key 8 in scenario A, and in the map that the
    failed [del t[1]] left without root. *)
Lemma find_le_lt_witness :
  reachable scenario_A
  ∧ enough scenario_A ≤ enough scenario_A
  ∧ (_root (self scenario_A) ≠ None ∨ _size (self scenario_A) = 0%Z)
  ∧ (find_le (enough scenario_A) 8 scenario_A
     = (Ok (list.last (List.filter (λ kv, Z.leb kv.1 8)
                         (inorder_pairs (enough scenario_A) scenario_A).1.1)),
        scenario_A)
     ∧ find_lt (enough scenario_A) 8 scenario_A
       = (Ok (list.last (List.filter (λ kv, Z.ltb kv.1 8)
                           (inorder_pairs (enough scenario_A) scenario_A).1.1)),
          scenario_A))
  ∧ (find_le (enough (apply_ops [DelItem 1%Z] single)) 8
       (apply_ops [DelItem 1%Z] single)
     = (Raise AttributeError, apply_ops [DelItem 1%Z] single)
     ∧ find_lt (enough (apply_ops [DelItem 1%Z] single)) 8
         (apply_ops [DelItem 1%Z] single)
       = (Raise AttributeError, apply_ops [DelItem 1%Z] single)).
Proof.
  assert (H2 : enough scenario_A ≤ enough scenario_A) by lia.
  assert (H3 : enough (apply_ops [DelItem 1%Z] single)
               ≤ enough (apply_ops [DelItem 1%Z] single)) by lia.
  split; [exact scenario_A_reachable|]. split; [exact H2|].
  split; [exact scenario_A_has_root|]. split.
  - exact (proj1 (find_le_lt scenario_A 8 _ scenario_A_reachable H2)
             scenario_A_has_root).
  - exact (proj2 (find_le_lt _ 8 _ rootless_reachable H3) rootless_no_root).
Defined.

(** X13, at a concrete input: the first position of scenario A, that of
    key 2. *)
Lemma after_before_inorder_witness :
  reachable scenario_A
  ∧ (inorder (enough scenario_A) scenario_A).1.1 !! 0 = Some (mkp 0 3)
  ∧ enough scenario_A ≤ enough scenario_A
  ∧ after (enough scenario_A) (mkp 0 3) scenario_A
    = (Ok (default None
             ((inorder (enough scenario_A) scenario_A).1.1 !! 1)),
       scenario_A)
  ∧ before (enough scenario_A) (mkp 0 3) scenario_A
    = (Ok (default None
             (pred_at (inorder (enough scenario_A) scenario_A).1.1 0)),
       scenario_A).
Proof.
  assert (H2 : (inorder (enough scenario_A) scenario_A).1.1 !! 0
               = Some (mkp 0 3)) by (by vm_compute).
  assert (H3 : enough scenario_A ≤ enough scenario_A) by lia.
  split_and!; [exact scenario_A_reachable|exact H2|exact H3|..];
    apply (after_before_inorder scenario_A 0 _ _ scenario_A_reachable H2 H3).
Defined.

(** X15, at a concrete input: the search for key 8 from the root of
    scenario A. *)
Lemma iterative_search_finds_witness :
  reachable scenario_A
  ∧ enough scenario_A ≤ enough scenario_A
  ∧ root scenario_A = (Ok (mkp 0 0), scenario_A)
  ∧ mkp 0 0 ≠ None
  ∧ iterative_search (enough scenario_A) (mkp 0 0) 8 scenario_A
    = _subtree_search (enough scenario_A) (mkp 0 0) 8 scenario_A.
Proof.
  assert (H2 : enough scenario_A ≤ enough scenario_A) by lia.
  assert (H3 : root scenario_A = (Ok (mkp 0 0), scenario_A)) by reflexivity.
  assert (H4 : mkp 0 0 ≠ None) by done.
  split_and!; [exact scenario_A_reachable|exact H2|exact H3|exact H4|].
  apply (iterative_search_finds scenario_A 8 _ _ scenario_A_reachable H2 H3 H4).
Defined.

(** X16, at a concrete input: scenario A. *)
Lemma height_bounds_witness :
  reachable scenario_A
  ∧ enough scenario_A ≤ enough scenario_A
  ∧ match _root (self scenario_A) with
    | None =>
        height (enough scenario_A) None scenario_A
        = (Raise (TypeError "p must be proper Position type"), scenario_A)
    | Some _ =>
        ∃ ht, height (enough scenario_A) None scenario_A = (Ok ht, scenario_A)
              ∧ (0 ≤ ht
                 < Z.of_nat
                     (length (inorder_keys (enough scenario_A)
                                scenario_A).1.1))%Z
              ∧ (Z.of_nat
                   (length (inorder_keys (enough scenario_A) scenario_A).1.1)
                 < 2 ^ (ht + 1))%Z
    end.
Proof.
  assert (H2 : enough scenario_A ≤ enough scenario_A) by lia.
  split_and!; [exact scenario_A_reachable|exact H2|].
  exact (height_bounds scenario_A _ scenario_A_reachable H2).
Defined.

(** X17, at a concrete input: the keys 0, 1, 2, 3, 4 in an
    [AVLTreeMap]. *)
Lemma ascending_inserts_height_witness :
  StronglySorted Z.lt (map fst (with_hi [0; 1; 2; 3; 4]%Z))
  ∧ with_hi [0; 1; 2; 3; 4]%Z ≠ []
  ∧ height
      (enough (apply_ops (inserts (with_hi [0; 1; 2; 3; 4]%Z))
                 (init 0 AVLTreeMapC))) None
      (apply_ops (inserts (with_hi [0; 1; 2; 3; 4]%Z)) (init 0 AVLTreeMapC))
    = (Ok (Z.of_nat (length (with_hi [0; 1; 2; 3; 4]%Z)) - 1)%Z,
       apply_ops (inserts (with_hi [0; 1; 2; 3; 4]%Z)) (init 0 AVLTreeMapC)).
Proof.
  assert (H1 : StronglySorted Z.lt (map fst (with_hi [0; 1; 2; 3; 4]%Z))).
  { cbn. repeat (constructor; try lia). }
  assert (H2 : with_hi [0; 1; 2; 3; 4]%Z ≠ []) by done.
  split_and!; [exact H1|exact H2|].
  exact (ascending_inserts_height 0 AVLTreeMapC _ H1 H2).
Defined.

(** X18, at a concrete input: the rotation of the node of key 5 above the
    root of scenario A. *)
Lemma rotate_keeps_inorder_witness :
  reachable scenario_A
  ∧ class (self scenario_A) = TreeMapC
  ∧ (inorder (enough scenario_A) scenario_A).1.1 !! 1 = Some (mkp 0 1)
  ∧ (root scenario_A).1 ≠ Ok (mkp 0 1)
  ∧ ∃ q s',
      (parent (mkp 0 1) scenario_A).1 = Ok q ∧ q ≠ None
      ∧ _rotate (mkp 0 1) scenario_A = (Ok tt, s')
      ∧ inorder (enough scenario_A) s'
        = ((inorder (enough scenario_A) scenario_A).1.1, Ok tt, s')
      ∧ (inorder_pairs (enough scenario_A) s').1.1
        = (inorder_pairs (enough scenario_A) scenario_A).1.1
      ∧ parent q s' = (Ok (mkp 0 1), s')
      ∧ (parent (mkp 0 1) s').1 = (parent q scenario_A).1.
Proof.
  assert (H2 : class (self scenario_A) = TreeMapC) by reflexivity.
  assert (H3 : (inorder (enough scenario_A) scenario_A).1.1 !! 1
               = Some (mkp 0 1)) by (by vm_compute).
  assert (H4 : (root scenario_A).1 ≠ Ok (mkp 0 1)) by (by vm_compute).
  split_and!; [exact scenario_A_reachable|exact H2|exact H3|exact H4|].
  exact (rotate_keeps_inorder scenario_A 1 _ scenario_A_reachable H2 H3 H4).
Defined.

(** X19, at a concrete input: the restructuring at the node of key 7 of
    scenario A, below the node of key 5 and the root. *)
Lemma restructure_keeps_inorder_witness :
  reachable scenario_A
  ∧ class (self scenario_A) = TreeMapC
  ∧ (inorder (enough scenario_A) scenario_A).1.1 !! 2 = Some (mkp 0 4)
  ∧ parent (mkp 0 4) scenario_A = (Ok (mkp 0 1), scenario_A)
  ∧ mkp 0 1 ≠ None
  ∧ parent (mkp 0 1) scenario_A = (Ok (mkp 0 0), scenario_A)
  ∧ mkp 0 0 ≠ None
  ∧ ∃ r s',
      _restructure (mkp 0 4) scenario_A = (Ok r, s')
      ∧ (r = mkp 0 4 ∨ r = mkp 0 1)
      ∧ inorder (enough scenario_A) s'
        = ((inorder (enough scenario_A) scenario_A).1.1, Ok tt, s')
      ∧ (inorder_pairs (enough scenario_A) s').1.1
        = (inorder_pairs (enough scenario_A) scenario_A).1.1
      ∧ parent (mkp 0 0) s' = (Ok r, s')
      ∧ (parent r s').1 = (parent (mkp 0 0) scenario_A).1.
Proof.
  assert (H2 : class (self scenario_A) = TreeMapC) by reflexivity.
  assert (H3 : (inorder (enough scenario_A) scenario_A).1.1 !! 2
               = Some (mkp 0 4)) by (by vm_compute).
  assert (H4 : parent (mkp 0 4) scenario_A = (Ok (mkp 0 1), scenario_A))
    by reflexivity.
  assert (H5 : mkp 0 1 ≠ None) by done.
  assert (H6 : parent (mkp 0 1) scenario_A = (Ok (mkp 0 0), scenario_A))
    by reflexivity.
  assert (H7 : mkp 0 0 ≠ None) by done.
  split_and!; [exact scenario_A_reachable|exact H2|exact H3|exact H4|exact H5
              |exact H6|exact H7|].
  exact (restructure_keeps_inorder scenario_A 2 _ _ _ scenario_A_reachable
           H2 H3 H4 H5 H6 H7).
Defined.

(** * The queue *)

Section QueueProperties.
Import LinkedQueue.
Context {E : Type}.
Implicit Types (s : State E) (l : list E) (h : gmap loc (Node E)).

Lemma holds_new : holds (E:=E) new_queue [].
Proof. exists []. split_and!; [done|constructor|done|done]. Qed.

Lemma holds_size s l : holds s l → _size (self s) = Z.of_nat (length l).
Proof. by intros (ns & _ & _ & _ & Hs). Qed.

Lemma chain_length h o ns l : chain h o ns l → length ns = length l.
Proof.
  revert o l. induction ns as [|n ns IH]; intros o [|e l]; cbn; try done.
  intros (_ & nxt & _ & Hc). f_equal. by eapply IH.
Qed.

Lemma chain_in_heap h o ns l n : chain h o ns l → n ∈ ns → is_Some (h !! n).
Proof.
  revert o l. induction ns as [|m ns IH]; intros o [|e l]; cbn; try done.
  - by intros _ ?%elem_of_nil.
  - intros (_ & nxt & Em & Hc) [->|Hin]%elem_of_cons; [by eexists|].
    by eapply IH.
Qed.

(** Linking a new node after the last one. *)
Lemma chain_snoc h ns l tl tlnd nw e : ∀ o,
  chain h o ns l → NoDup ns → list.last ns = Some tl → h !! tl = Some tlnd →
  h !! nw = None →
  chain (<[tl := mkNode (_element tlnd) (Some nw)]> (<[nw := mkNode e None]> h))
    o (ns ++ [nw]) (l ++ [e]).
Proof.
  intros o Hc Hnd Hl Etl Enw. revert o l Hc Hnd Hl.
  assert (Hne : tl ≠ nw) by congruence.
  induction ns as [|n ns IH]; intros o [|e0 l]; cbn [chain app]; try done.
  intros (-> & nxt & En & Hc) [Hn Hnd]%NoDup_cons Hl. split; [done|].
  destruct ns as [|n' ns].
  - cbn in Hl. injection Hl as ->. destruct l; [|done]. cbn in Hc. subst nxt.
    rewrite En in Etl. injection Etl as <-. cbn [_element].
    exists (Some nw). rewrite lookup_insert_eq. split; [done|].
    cbn. split; [done|]. exists None.
    by rewrite lookup_insert_ne, lookup_insert_eq.
  - exists nxt. split.
    + rewrite !lookup_insert_ne; [done|congruence|].
      intros ->. apply Hn. rewrite last_cons_cons in Hl.
      eapply list_elem_of_lookup_2. rewrite last_lookup in Hl. exact Hl.
    + apply IH; [done|done|]. by rewrite last_cons_cons in Hl.
Qed.

Lemma enqueue_holds s l e :
  holds s l → ∃ s', enqueue e s = (Ok tt, s') ∧ holds s' (l ++ [e]).
Proof.
  intros (ns & Hc & Hnd & Ht & Hs).
  set (nw := fresh (dom (heap s))).
  assert (Enw : heap s !! nw = None) by apply not_elem_of_dom, is_fresh.
  unfold enqueue, bind, new_node, is_empty, get_self, ret. cbn.
  destruct (Z.eqb_spec (_size (self s)) 0) as [Hz|Hz].
  - destruct l; [|cbn in Hs; lia]. destruct ns; [|done]. cbn.
    eexists. split; [done|]. exists [nw]. cbn. split.
    { split; [done|]. exists None. by rewrite lookup_insert_eq. }
    split_and!; [apply NoDup_singleton|done|by rewrite Hz].
  - destruct l as [|e0 l]; [done|]. destruct ns as [|n ns]; [done|].
    assert (Hl : is_Some (list.last (n :: ns))) by (by rewrite last_is_Some).
    destruct Hl as [tl Hl]. cbn. rewrite Ht, Hl. cbn.
    assert (Htl : tl ∈ n :: ns).
    { rewrite last_lookup in Hl. by eapply list_elem_of_lookup_2. }
    destruct (chain_in_heap _ _ _ _ _ Hc Htl) as [tlnd Etl].
    assert (Hne : nw ≠ tl) by congruence.
    unfold set_next, bind, load, store. cbn.
    rewrite lookup_insert_ne by exact Hne. rewrite Etl. cbn.
    eexists. split; [done|]. exists ((n :: ns) ++ [nw]).
    cbn [heap self _head _tail _size]. split_and!.
    + change (e0 :: l ++ [e]) with ((e0 :: l) ++ [e]). by apply chain_snoc.
    + apply NoDup_app. split_and!; [done| |apply NoDup_singleton].
      intros x Hx ->%list_elem_of_singleton.
      destruct (chain_in_heap _ _ _ _ _ Hc Hx) as [? ?]. congruence.
    + by rewrite last_snoc.
    + rewrite Hs. cbn. rewrite length_app. cbn. lia.
Qed.

Lemma dequeue_holds s e l :
  holds s (e :: l) → ∃ s', dequeue s = (Ok e, s') ∧ holds s' l.
Proof.
  intros (ns & Hc & Hnd & Ht & Hs).
  destruct ns as [|n ns]; [done|]. cbn in Hc.
  destruct Hc as (Hh & nxt & En & Hc). apply NoDup_cons in Hnd as [Hn Hnd].
  unfold dequeue, bind, is_empty, get_self, ret, deref, load, set_head,
    set_size, set_tail. cbn.
  destruct (Z.eqb_spec (_size (self s)) 0) as [Hz|Hz]; [cbn in Hs; lia|].
  do 2 (rewrite ?Hh; cbn; rewrite ?En; cbn).
  destruct (Z.eqb_spec (_size (self s) - 1) 0) as [Hz1|Hz1].
  - destruct l; [|cbn in Hs; lia]. destruct ns; [|done]. cbn in Hc. subst nxt.
    cbn. eexists. split; [done|]. exists []. split_and!; done.
  - destruct l as [|e1 l]; [cbn in Hs; lia|]. destruct ns as [|n1 ns]; [done|].
    cbn. eexists. split; [done|]. exists (n1 :: ns).
    cbn [heap self _head _tail _size].
    split_and!; [done|done| |cbn in *; lia].
    by rewrite Ht, last_cons_cons.
Qed.

Lemma first_holds s e l : holds s (e :: l) → first s = (Ok e, s).
Proof.
  intros (ns & Hc & Hnd & Ht & Hs).
  destruct ns as [|n ns]; [done|]. cbn in Hc.
  destruct Hc as (Hh & nxt & En & Hc).
  unfold first, bind, is_empty, get_self, ret, deref, load. cbn.
  destruct (Z.eqb_spec (_size (self s)) 0) as [Hz|Hz]; [cbn in Hs; lia|].
  rewrite Hh. cbn. by rewrite En.
Qed.

Lemma empty_raises s :
  holds s [] →
  first s = (Raise (Empty "Queue is empty"), s)
  ∧ dequeue s = (Raise (Empty "Queue is empty"), s).
Proof.
  intros (ns & Hc & Hnd & Ht & Hs).
  unfold first, dequeue, bind, is_empty, get_self, ret. cbn. by rewrite Hs.
Qed.

Lemma is_empty_holds s l :
  holds s l → is_empty s = (Ok (bool_decide (l = [])), s).
Proof.
  intros H. unfold is_empty, bind, get_self, ret. cbn.
  rewrite (holds_size _ _ H). by destruct l.
Qed.

Lemma run_holds (ops : list (op E)) : ∀ s l,
  holds s l →
  (run ops s).1 = (list_run ops l).1 ∧ holds (run ops s).2 (list_run ops l).2.
Proof.
  induction ops as [|o ops IH]; intros s l H; [done|]. cbn [run list_run].
  assert (Hstep : ∃ s1, apply_op o s = ((list_op o l).1, s1)
                        ∧ holds s1 (list_op o l).2).
  { destruct o as [e| |]; cbn [apply_op list_op].
    - destruct (enqueue_holds _ _ e H) as (s1 & Hr & H1).
      exists s1. unfold bind. by rewrite Hr.
    - destruct l as [|e l].
      + exists s. unfold bind. by rewrite (proj2 (empty_raises _ H)).
      + destruct (dequeue_holds _ _ _ H) as (s1 & Hr & H1).
        exists s1. unfold bind. by rewrite Hr.
    - destruct l as [|e l].
      + exists s. unfold bind. by rewrite (proj1 (empty_raises _ H)).
      + exists s. unfold bind. by rewrite (first_holds _ _ _ H). }
  destruct Hstep as (s1 & Hr & H1). rewrite Hr.
  destruct (list_op o l) as [r l1]. cbn [fst snd] in *.
  destruct (IH _ _ H1) as [IH1 IH2].
  destruct (run ops s1) as [rs s2], (list_run ops l1) as [rs' l2].
  cbn in *. by subst.
Qed.

(** X24: a [LinkedQueue] is first in, first out.  For every sequence of
    [enqueue], [dequeue] and [first] calls on a new queue, each call gives
    back what the same call gives on a list to which elements are added at
    the back and from which they are taken at the front.  At the end
    [__len__] is the length of that list and [is_empty] tells whether it
    is empty; [first] then returns its front element and changes nothing,
    and on an empty queue [first] and [dequeue] raise [Empty] and change
    nothing. *)
Theorem queue_fifo (ops : list (op E)) :
  let s := (run ops new_queue).2 in
  let l := (list_run ops []).2 in
  (run ops new_queue).1 = (list_run ops []).1
  ∧ __len__ s = (Ok (Z.of_nat (length l)), s)
  ∧ is_empty s = (Ok (bool_decide (l = [])), s)
  ∧ match l with
    | e :: _ => first s = (Ok e, s)
    | [] => first s = (Raise (Empty "Queue is empty"), s)
            ∧ dequeue s = (Raise (Empty "Queue is empty"), s)
    end.
Proof.
  intros s l. destruct (run_holds ops _ _ holds_new) as [H1 H2].
  fold s l in H2. split_and!.
  - done.
  - unfold __len__, bind, get_self, ret. by rewrite (holds_size _ _ H2).
  - by apply is_empty_holds.
  - destruct l as [|e l']; [by apply empty_raises|by eapply first_holds].
Qed.

End QueueProperties.

(** * The breadth-first traversal *)

Section LevelOrderProperties.
Context {V : Type}.
Abbreviation State := (@State V).
Abbreviation Node := (@Node V).
Abbreviation Item := (@Item V).
Abbreviation atree := (@atree V).
Implicit Types (s : State) (t : atree) (q c : list atree)
  (Q : LinkedQueue.State (option Position)).

Lemma enqueue_all_holds (cs : list (option Position)) : ∀ Q l,
  LinkedQueue.holds Q l →
  ∃ Q', enqueue_all cs Q = (LinkedQueue.Ok tt, Q')
        ∧ LinkedQueue.holds Q' (l ++ cs).
Proof.
  induction cs as [|x cs IH]; intros Q l H.
  - exists Q. by rewrite app_nil_r.
  - destruct (enqueue_holds _ _ x H) as (Q1 & Hr & H1).
    destruct (IH _ _ H1) as (Q' & Hr' & H').
    exists Q'. cbn [enqueue_all]. rewrite Hr. split; [done|]. by rewrite <- app_assoc in H'.
Qed.

(** The trees of the queue: none is empty, each is laid out in the
    store. *)
Lemma children_present s bf n (l r : atree) e par :
  heap s !! n = Some (mkNode e par (top l) (top r) bf) → par ≠ Some n →
  children (mkp (ident (self s)) n) s
  = (map (λ t, pos (ident (self s)) (top t)) (present l ++ present r),
     Ok tt, s).
Proof.
  intros E Hp. rewrite (children_ok _ _ _ E Hp). cbn [_left _right].
  by destruct l, r.
Qed.

Lemma loop_step s bf par (l r : atree) n it rest Q f :
  wf (heap s) bf par (Br l n it r) →
  LinkedQueue.holds Q (mkp (ident (self s)) n :: rest) →
  ∃ Q',
    LinkedQueue.holds Q'
      (rest ++ map (λ t, pos (ident (self s)) (top t)) (present l ++ present r))
    ∧ levelorder_loop (S f) Q s
      = let '(o, res, s') := levelorder_loop f Q' s in (it :: o, res, s').
Proof.
  intros Hwf HQ. apply wf_Br in Hwf as (E & Hp & _).
  destruct (dequeue_holds _ _ _ HQ) as (Q1 & Hd & H1).
  destruct (enqueue_all_holds
              (map (λ t, pos (ident (self s)) (top t)) (present l ++ present r))
              _ _ H1) as (Q' & He & H').
  exists Q'. split; [done|]. cbn [levelorder_loop].
  rewrite (is_empty_holds _ _ HQ), bool_decide_eq_false_2 by done.
  cbv iota beta. rewrite Hd. cbv iota beta.
  rewrite (element_ok _ _ _ _ E). cbn [_element].
  rewrite (children_present _ _ _ _ _ _ _ E Hp). by rewrite He.
Qed.

Lemma loop_front s bf q : ∀ c Q f,
  Forall (λ t, t ≠ Lf ∧ ∃ par, wf (heap s) bf par t) q →
  LinkedQueue.holds Q (map (λ t, pos (ident (self s)) (top t)) (q ++ c)) →
  ∃ Q',
    LinkedQueue.holds Q'
      (map (λ t, pos (ident (self s)) (top t)) (c ++ kids q))
    ∧ levelorder_loop (length q + f) Q s
      = let '(o, res, s') := levelorder_loop f Q' s in
        (top_items q ++ o, res, s').
Proof.
  induction q as [|t q IH]; intros c Q f Hq HQ.
  - exists Q. cbn. rewrite app_nil_r. split; [done|].
    by destruct (levelorder_loop f Q s) as [[? ?] ?].
  - apply Forall_cons in Hq as [(Hne & par & Hwf) Hq].
    destruct t as [|l n it r]; [done|]. cbn [app map top pos] in HQ.
    destruct (loop_step _ _ _ _ _ _ _ _ _ (length q + f) Hwf HQ)
      as (Q1 & H1 & Hs).
    rewrite <- map_app, <- app_assoc in H1.
    destruct (IH _ _ f Hq H1) as (Q' & H' & Hs').
    exists Q'. split.
    + cbn [kids flat_map]. by rewrite <- !app_assoc in *.
    + cbn [length Nat.add]. rewrite Hs, Hs'.
      by destruct (levelorder_loop f Q' s) as [[? ?] ?].
Qed.

Lemma kids_good s bf q :
  Forall (λ t, t ≠ Lf ∧ ∃ par, wf (heap s) bf par t) q →
  Forall (λ t, t ≠ Lf ∧ ∃ par, wf (heap s) bf par t) (kids q).
Proof.
  induction 1 as [|t q (Hne & par & Hwf) _ IH]; [constructor|].
  destruct t as [|l n it r]; [done|]. cbn [kids flat_map].
  apply wf_Br in Hwf as (_ & _ & _ & _ & _ & Hl & Hr).
  rewrite <- app_assoc. apply Forall_app. split; [|apply Forall_app; split; [|done]].
  - destruct l; [constructor|]. repeat constructor; [done|by eexists].
  - destruct r; [constructor|]. repeat constructor; [done|by eexists].
Qed.

Lemma kids_depth q d :
  Forall (λ t, depth t ≤ S d) q → Forall (λ t, depth t ≤ d) (kids q).
Proof.
  induction 1 as [|t q Hd _ IH]; [constructor|].
  destruct t as [|l n it r]; [done|]. cbn [kids flat_map]. cbn in Hd.
  rewrite <- app_assoc. apply Forall_app. split; [|apply Forall_app; split; [|done]].
  - destruct l; [constructor|]. repeat constructor. cbn in *. lia.
  - destruct r; [constructor|]. repeat constructor. cbn in *. lia.
Qed.

Lemma present_nodes t : flat_map nodes (present t) = nodes t.
Proof. destruct t; [done|]. cbn [present flat_map]. by rewrite app_nil_r. Qed.

Lemma kids_count q :
  Forall (λ t, t ≠ Lf) q →
  length (flat_map nodes q) = length q + length (flat_map nodes (kids q)).
Proof.
  induction 1 as [|t q Hne _ IH]; [done|].
  destruct t as [|l n it r]; [done|]. cbn [kids flat_map nodes length].
  fold (kids q).
  rewrite !length_app, !flat_map_app, !length_app, !present_nodes.
  cbn [length]. lia.
Qed.

Lemma loop_levels s bf : ∀ d q Q f,
  Forall (λ t, t ≠ Lf ∧ ∃ par, wf (heap s) bf par t) q →
  Forall (λ t, depth t ≤ d) q →
  length (flat_map nodes q) < f →
  LinkedQueue.holds Q (map (λ t, pos (ident (self s)) (top t)) q) →
  levelorder_loop f Q s = (levels d q, LOk, s).
Proof.
  induction d as [|d IH]; intros q Q f Hq Hd Hf HQ.
  - destruct q as [|t q].
    + destruct f as [|f]; [cbn in Hf; lia|]. cbn [levelorder_loop].
      by rewrite (is_empty_holds _ _ HQ).
    + apply Forall_cons in Hq as [(Hne & _) _].
      apply Forall_cons in Hd as [Hd _]. destruct t; [done|]. cbn in Hd. lia.
  - assert (Hne : Forall (λ t, t ≠ Lf) q).
    { eapply Forall_impl; [exact Hq|]. by intros t [? _]. }
    pose proof (kids_count _ Hne) as Hc.
    replace f with (length q + (f - length q)) by lia.
    rewrite <- (app_nil_r q) in HQ.
    destruct (loop_front _ _ _ _ _ (f - length q) Hq HQ) as (Q' & H' & ->).
    cbn [app] in H'.
    assert (Hf' : length (flat_map nodes (kids q)) < f - length q) by lia.
    by rewrite (IH (kids q) Q' (f - length q) (kids_good _ _ _ Hq)
                  (kids_depth _ _ Hd) Hf' H').
Qed.

(** X26: in a reachable state whose tree is laid out in the store as [t]
    (with a root unless its size is 0), [levelorderPrint] prints the
    elements of [t] level by level from the root down, each level from
    left to right, and changes nothing; it prints nothing for an empty
    tree. *)
Theorem levelorder_print (s : State) :
  reachable s →
  _root (self s) ≠ None ∨ _size (self s) = 0%Z →
  ∃ t,
    _root (self s) = top t
    ∧ rep (heap s) (bf_of (class (self s))) None t
    ∧ levelorderPrint (enough s) s = (levelorder t, LOk, s).
Proof.
  intros Hreach Hnd. destruct (reachable_inv _ Hreach) as [t HI].
  pose proof (inv_wf _ _ HI) as Hwf.
  exists t. split_and!; [apply (inv_root _ _ HI)|apply (inv_rep _ _ HI)|].
  unfold levelorderPrint. rewrite (is_empty_eq s).
  destruct (Z.eqb_spec (_size (self s)) 0) as [Hs|Hs].
  { by rewrite (inv_size_0 _ _ HI Hs). }
  destruct Hnd as [Hr|Hz]; [|done].
  rewrite (root_inv _ _ HI).
  destruct (enqueue_holds _ _ (pos (ident (self s)) (top t)) holds_new)
    as (Q & -> & HQ).
  assert (Hne : t ≠ Lf).
  { intros ->. apply Hr. apply (inv_root _ _ HI). }
  unfold levelorder.
  assert (Hp : present t = [t]) by (by destruct t).
  rewrite Hp.
  apply (loop_levels s (bf_of (class (self s))) (depth t) [t] Q).
  - repeat constructor; [done|by eexists].
  - repeat constructor.
  - cbn. rewrite app_nil_r. unfold enough.
    pose proof (nodes_le_heap _ _ _ _ (inv_rep _ _ HI) (inv_nodup _ _ HI)). lia.
  - exact HQ.
Qed.

End LevelOrderProperties.

(** X20, at a concrete input: the leaf of key 2 of scenario A. *)
Lemma delete_below_root_witness :
  reachable scenario_A
  ∧ (inorder (enough scenario_A) scenario_A).1.1 !! 0 = Some (mkp 0 3)
  ∧ (root scenario_A).1 ≠ Ok (mkp 0 3)
  ∧ ((num_children (mkp 0 3) scenario_A).1 = Ok 2%Z →
     _delete (mkp 0 3) scenario_A
     = (Raise (ValueError "Position has two children"), scenario_A))
  ∧ ((num_children (mkp 0 3) scenario_A).1 ≠ Ok 2%Z →
     ∃ e s',
       element (mkp 0 3) scenario_A = (Ok e, scenario_A)
       ∧ _delete (mkp 0 3) scenario_A = (Ok e, s')
       ∧ _size (self s') = (_size (self scenario_A) - 1)%Z
       ∧ _validate (mkp 0 3) s'
         = (Raise (ValueError "p is no longer valid"), s')
       ∧ (inorder_pairs (enough scenario_A) s').1.1
         = List.filter (λ kv, negb (Z.eqb kv.1 (_key e)))
             (inorder_pairs (enough scenario_A) scenario_A).1.1).
Proof.
  assert (H2 : (inorder (enough scenario_A) scenario_A).1.1 !! 0
               = Some (mkp 0 3)) by (by vm_compute).
  assert (H3 : (root scenario_A).1 ≠ Ok (mkp 0 3)) by (by vm_compute).
  split_and!; [exact scenario_A_reachable|exact H2|exact H3| |];
    apply (delete_below_root scenario_A 0 _ scenario_A_reachable H2 H3).
Defined.

(** X21, at a concrete input: the node of key 5 of scenario A, with the
    children of keys 2 and 7. *)
Lemma links_consistent_witness :
  reachable scenario_A
  ∧ mkp 0 1 ∈ (inorder (enough scenario_A) scenario_A).1.1
  ∧ ∃ kp par l r,
      key (mkp 0 1) scenario_A = (Ok kp, scenario_A)
      ∧ parent (mkp 0 1) scenario_A = (Ok par, scenario_A)
      ∧ left (mkp 0 1) scenario_A = (Ok l, scenario_A)
      ∧ right (mkp 0 1) scenario_A = (Ok r, scenario_A)
      ∧ is_root (mkp 0 1) scenario_A
        = (Ok (bool_decide (par = None)), scenario_A)
      ∧ (l ≠ None →
         ∃ kl, key l scenario_A = (Ok kl, scenario_A) ∧ (kl < kp)%Z
               ∧ parent l scenario_A = (Ok (mkp 0 1), scenario_A)
               ∧ sibling l scenario_A = (Ok r, scenario_A)
               ∧ l ∈ (inorder (enough scenario_A) scenario_A).1.1)
      ∧ (r ≠ None →
         ∃ kr, key r scenario_A = (Ok kr, scenario_A) ∧ (kp < kr)%Z
               ∧ parent r scenario_A = (Ok (mkp 0 1), scenario_A)
               ∧ sibling r scenario_A = (Ok l, scenario_A)
               ∧ r ∈ (inorder (enough scenario_A) scenario_A).1.1).
Proof.
  assert (H2 : mkp 0 1 ∈ (inorder (enough scenario_A) scenario_A).1.1).
  { vm_compute. repeat constructor. }
  split_and!; [exact scenario_A_reachable|exact H2|].
  exact (links_consistent scenario_A _ scenario_A_reachable H2).
Defined.

(** X22, at a concrete input: a left child with key 1 for the leaf of key
    2 of scenario A. *)
Lemma add_left_before_witness :
  reachable scenario_A
  ∧ mkp 0 3 ∈ (inorder (enough scenario_A) scenario_A).1.1
  ∧ ((left (mkp 0 3) scenario_A).1 ≠ Ok None →
     _add_left (mkp 0 3) (mkItem 1 "new") scenario_A
     = (Raise (ValueError "Left child exists"), scenario_A))
  ∧ ((left (mkp 0 3) scenario_A).1 = Ok None →
     ∃ q s' l1 l2,
       _add_left (mkp 0 3) (mkItem 1 "new") scenario_A = (Ok q, s')
       ∧ left (mkp 0 3) s' = (Ok q, s')
       ∧ parent q s' = (Ok (mkp 0 3), s')
       ∧ element q s' = (Ok (mkItem 1 "new"), s')
       ∧ is_leaf q s' = (Ok true, s')
       ∧ __len__ s' = (Ok (_size (self scenario_A) + 1)%Z, s')
       ∧ (inorder (enough scenario_A) scenario_A).1.1 = l1 ++ mkp 0 3 :: l2
       ∧ (inorder (enough s') s').1.1 = l1 ++ q :: mkp 0 3 :: l2).
Proof.
  assert (H2 : mkp 0 3 ∈ (inorder (enough scenario_A) scenario_A).1.1).
  { vm_compute. repeat constructor. }
  split_and!; [exact scenario_A_reachable|exact H2| |];
    apply (add_left_before scenario_A _ (mkItem 1 "new")
             scenario_A_reachable H2).
Defined.

(** X23, at a concrete input: a right child with key 3 for the leaf of
    key 2 of scenario A. *)
Lemma add_right_after_witness :
  reachable scenario_A
  ∧ mkp 0 3 ∈ (inorder (enough scenario_A) scenario_A).1.1
  ∧ ((right (mkp 0 3) scenario_A).1 ≠ Ok None →
     _add_right (mkp 0 3) (mkItem 3 "new") scenario_A
     = (Raise (ValueError "Right child exists"), scenario_A))
  ∧ ((right (mkp 0 3) scenario_A).1 = Ok None →
     ∃ q s' l1 l2,
       _add_right (mkp 0 3) (mkItem 3 "new") scenario_A = (Ok q, s')
       ∧ right (mkp 0 3) s' = (Ok q, s')
       ∧ parent q s' = (Ok (mkp 0 3), s')
       ∧ element q s' = (Ok (mkItem 3 "new"), s')
       ∧ is_leaf q s' = (Ok true, s')
       ∧ __len__ s' = (Ok (_size (self scenario_A) + 1)%Z, s')
       ∧ (inorder (enough scenario_A) scenario_A).1.1 = l1 ++ mkp 0 3 :: l2
       ∧ (inorder (enough s') s').1.1 = l1 ++ mkp 0 3 :: q :: l2).
Proof.
  assert (H2 : mkp 0 3 ∈ (inorder (enough scenario_A) scenario_A).1.1).
  { vm_compute. repeat constructor. }
  split_and!; [exact scenario_A_reachable|exact H2| |];
    apply (add_right_after scenario_A _ (mkItem 3 "new")
             scenario_A_reachable H2).
Defined.

(** X25, at a concrete input: scenario A. *)
Lemma print_traversals_witness :
  reachable scenario_A
  ∧ ∃ t r,
      _root (self scenario_A) = top t
      ∧ rep (heap scenario_A) (bf_of (class (self scenario_A))) None t
      ∧ root scenario_A = (Ok r, scenario_A)
      ∧ (r ≠ None →
         preorderPrint (enough scenario_A) r scenario_A
         = (preorder t, Ok tt, scenario_A)
         ∧ postorderPrint (enough scenario_A) r scenario_A
           = (postorder t, Ok tt, scenario_A)
         ∧ inorderPrint (enough scenario_A) r scenario_A
           = (items t, Ok tt, scenario_A)
         ∧ map (λ it, (_key it, _value it)) (items t)
           = (inorder_pairs (enough scenario_A) scenario_A).1.1)
      ∧ (r = None →
         let err := Raise (TypeError "p must be proper Position type") in
         preorderPrint (enough scenario_A) r scenario_A
         = ([], err, scenario_A)
         ∧ postorderPrint (enough scenario_A) r scenario_A
           = ([], err, scenario_A)
         ∧ inorderPrint (enough scenario_A) r scenario_A
           = ([], err, scenario_A)).
Proof.
  split; [exact scenario_A_reachable|].
  exact (print_traversals scenario_A scenario_A_reachable).
Defined.

(** X26, at a concrete input: scenario A. *)
Lemma levelorder_print_witness :
  reachable scenario_A
  ∧ (_root (self scenario_A) ≠ None ∨ _size (self scenario_A) = 0%Z)
  ∧ ∃ t,
      _root (self scenario_A) = top t
      ∧ rep (heap scenario_A) (bf_of (class (self scenario_A))) None t
      ∧ levelorderPrint (enough scenario_A) scenario_A
        = (levelorder t, LOk, scenario_A).
Proof.
  split_and!; [exact scenario_A_reachable|exact scenario_A_has_root|].
  exact (levelorder_print scenario_A scenario_A_reachable scenario_A_has_root).
Defined.

(** X27, at a concrete input: a new value for the leaf of key 2 of
    scenario A. *)
Lemma replace_round_trip_witness :
  reachable scenario_A
  ∧ (inorder (enough scenario_A) scenario_A).1.1 !! 0 = Some (mkp 0 3)
  ∧ ∃ old s1,
      element (mkp 0 3) scenario_A = (Ok old, scenario_A)
      ∧ _replace (mkp 0 3) (mkItem 2 "new") scenario_A = (Ok old, s1)
      ∧ element (mkp 0 3) s1 = (Ok (mkItem 2 "new"), s1)
      ∧ _size (self s1) = _size (self scenario_A)
      ∧ (inorder (enough scenario_A) s1).1.1
        = (inorder (enough scenario_A) scenario_A).1.1
      ∧ (inorder_pairs (enough scenario_A) s1).1.1
        = <[0 := (2%Z, "new")]>
            (inorder_pairs (enough scenario_A) scenario_A).1.1
      ∧ _replace (mkp 0 3) old s1 = (Ok (mkItem 2 "new"), scenario_A).
Proof.
  assert (H2 : (inorder (enough scenario_A) scenario_A).1.1 !! 0
               = Some (mkp 0 3)) by (by vm_compute).
  split_and!; [exact scenario_A_reachable|exact H2|].
  exact (replace_round_trip scenario_A 0 _ (mkItem 2 "new")
           scenario_A_reachable H2).
Defined.

(** X28, at a concrete input: the node of key 5 of scenario A. *)
Lemma children_count_witness :
  _validate (mkp 0 1) scenario_A = (Ok 1, scenario_A)
  ∧ ∃ l r,
      left (mkp 0 1) scenario_A = (Ok l, scenario_A)
      ∧ right (mkp 0 1) scenario_A = (Ok r, scenario_A)
      ∧ children (mkp 0 1) scenario_A
        = (filter (λ c, c ≠ None) [l; r], Ok tt, scenario_A)
      ∧ num_children (mkp 0 1) scenario_A
        = (Ok (Z.of_nat (length (filter (λ c, c ≠ None) [l; r]))), scenario_A)
      ∧ is_leaf (mkp 0 1) scenario_A
        = (Ok (bool_decide (filter (λ c, c ≠ None) [l; r] = [])), scenario_A).
Proof.
  assert (H1 : _validate (mkp 0 1) scenario_A = (Ok 1, scenario_A))
    by reflexivity.
  split; [exact H1|].
  exact (children_count scenario_A _ 1 H1).
Defined.

(** * Items as objects: the assignment to a key that the map holds *)

Section ItemObjectProperties.
Context {W : Type}.
Abbreviation slot := ItemObjects.slot.
Abbreviation OState := (ItemObjects.OState W).
Abbreviation OM := (ItemObjects.OM W).
Abbreviation mkOState := (@ItemObjects.mkOState W).
Abbreviation tree := (@ItemObjects.tree W).
Abbreviation slots := (@ItemObjects.slots W).
Abbreviation lift := (@ItemObjects.lift W).
Abbreviation obind := (@ItemObjects.obind W).
Implicit Types (s : OState) (tr : @State slot) (sl : gmap slot W)
  (t : @atree slot).

Lemma obind_lift_ok {A B} (m : M A) (f : A → OM B) tr sl a tr' :
  m tr = (Ok a, tr') →
  obind (lift m) f (mkOState tr sl) = f a (mkOState tr' sl).
Proof.
  intros E. unfold ItemObjects.obind, ItemObjects.lift. cbn. by rewrite E.
Qed.

Lemma obind_lift_raise {A B} (m : M A) (f : A → OM B) tr sl e tr' :
  m tr = (Raise e, tr') →
  obind (lift m) f (mkOState tr sl) = (Raise e, mkOState tr' sl).
Proof.
  intros E. unfold ItemObjects.obind, ItemObjects.lift. cbn. by rewrite E.
Qed.

Lemma lift_ok {A} (m : M A) tr sl a tr' :
  m tr = (Ok a, tr') → lift m (mkOState tr sl) = (Ok a, mkOState tr' sl).
Proof. intros E. unfold ItemObjects.lift. cbn. by rewrite E. Qed.

Lemma obind_assoc {A B C} (m : OM A) (f : A → OM B) (g : B → OM C) s :
  obind (obind m f) g s = obind m (λ x, obind (f x) g) s.
Proof. unfold ItemObjects.obind. by destruct (m s) as [[a|e] s']. Qed.

(** The run of [t[k] = v] on a state that holds the tree [t]: a key that
    is found has the slot of its item reassigned and the tree is not
    touched; otherwise the tree changes as it does for an item with a new
    slot. *)
Lemma obj_setitem_run tr sl t k (v : W) fuel :
  Inv tr t → S (depth t) < fuel →
  ItemObjects.__setitem__ fuel k v (mkOState tr sl)
  = (setitem_result tr t,
     match anchor t k with
     | Some m =>
         match heap tr !! m with
         | Some mnd =>
             if Z.eqb (_key (_element mnd)) k
             then mkOState tr (<[_value (_element mnd) := v]> sl)
             else mkOState (setitem_state tr t k (fresh (dom sl)))
                    (<[fresh (dom sl) := v]> sl)
         | None => mkOState tr sl
         end
     | None =>
         if Z.eqb (_size (self tr)) 0
         then mkOState (setitem_state tr t k (fresh (dom sl)))
                (<[fresh (dom sl) := v]> sl)
         else mkOState tr sl
     end).
Proof.
  intros HI Hfuel. set (c := fresh (dom sl)).
  pose proof (setitem_inv tr t k c HI) as HI'.
  assert (Hfuel0 : 0 < fuel) by lia.
  assert (Hfuel1 : depth t ≤ fuel) by lia.
  pose proof (inv_wf _ _ HI') as Hwf'. pose proof (inv_wf _ _ HI) as Hwf.
  pose proof (inv_root _ _ HI) as Hroot.
  unfold ItemObjects.__setitem__.
  rewrite (obind_lift_ok _ _ _ _ _ _ (is_empty_eq tr)).
  unfold setitem_state, setitem_tree, setitem_result in *.
  set (nw := fresh (dom (heap tr))) in *.
  destruct (Z.eqb_spec (_size (self tr)) 0) as [Hs|Hs].
  - rewrite (inv_size_0 _ _ HI Hs) in *. cbn [anchor top] in *.
    cbv beta iota. rewrite obind_assoc.
    unfold ItemObjects.new_item at 1. unfold ItemObjects.obind at 1.
    cbn [ItemObjects.tree ItemObjects.slots]. fold c.
    rewrite obind_assoc, (obind_lift_ok _ _ _ _ _ _ (add_root_ok tr _ Hroot)).
    fold nw. unfold ItemObjects.obind at 1, ItemObjects.oret at 1.
    match goal with
    | |- lift _ (mkOState ?s1 ?sl1) = _ =>
        apply (lift_ok _ s1 sl1);
        apply (rebalance_insert_ok s1 _ nw fuel Hwf')
    end; [cbn; set_solver|cbn; lia].
  - cbv beta iota.
    rewrite obind_assoc, (obind_lift_ok _ _ _ _ _ _ (root_inv tr _ HI)).
    destruct (Lf_or_not t) as [->|Hne].
    + cbn [top pos anchor].
      rewrite obind_assoc,
        (obind_lift_raise _ _ _ _ _ _ (search_None tr fuel k Hfuel0)).
      done.
    + rewrite obind_assoc,
        (obind_lift_ok _ _ _ _ _ _ (search_ok _ _ k _ _ _ Hwf Hne Hfuel1)).
      destruct (anchor t k) as [m|] eqn:Ea;
        [|destruct (anchor_Some t k Hne) as [? ?]; congruence].
      destruct (anchor_slot _ _ _ _ _ _ Hwf Ea)
        as (mnd & Em & Hmp & Hmb & Hmr & Hml).
      rewrite Em in *. cbn [pos].
      rewrite obind_assoc, (obind_lift_ok _ _ _ _ _ _ (key_ok _ _ _ _ Em)).
      destruct t as [|tl tn tit tr0]; [done|].
      destruct (Z.eqb_spec (_key (_element mnd)) k) as [Hk|Hk].
      * rewrite obind_assoc,
          (obind_lift_ok _ _ _ _ _ _ (element_ok _ _ _ _ Em)).
        done.
      * rewrite obind_assoc.
        unfold ItemObjects.new_item at 1. unfold ItemObjects.obind at 1.
        cbn [ItemObjects.tree ItemObjects.slots]. fold c.
        rewrite obind_assoc, (obind_lift_ok _ _ _ _ _ _ (key_ok _ _ _ _ Em)).
        assert (Hin : nw ∈ nodes (a_insert nw k c (Br tl tn tit tr0))).
        { eapply insert_new; [apply Hwf|done|done|done]. }
        pose proof (depth_insert nw k c (Br tl tn tit tr0)) as Hdep.
        destruct (Z.ltb_spec (_key (_element mnd)) k) as [Hlt|Hge].
        -- rewrite obind_assoc,
             (obind_lift_ok _ _ _ _ _ _
                (add_right_ok tr _ _ _ Em Hmp (Hmr Hlt))).
           fold nw. unfold ItemObjects.obind at 1, ItemObjects.oret at 1.
           match goal with
           | |- lift _ (mkOState ?s1 ?sl1) = _ =>
               apply (lift_ok _ s1 sl1);
               apply (rebalance_insert_ok s1 _ nw fuel Hwf')
           end; [done|lia].
        -- rewrite obind_assoc,
             (obind_lift_ok _ _ _ _ _ _
                (add_left_ok tr _ _ _ Em Hmp (Hml ltac:(lia)))).
           fold nw. unfold ItemObjects.obind at 1, ItemObjects.oret at 1.
           match goal with
           | |- lift _ (mkOState ?s1 ?sl1) = _ =>
               apply (lift_ok _ s1 sl1);
               apply (rebalance_insert_ok s1 _ nw fuel Hwf')
           end; [done|lia].
Qed.

Lemma obj_getitem_run tr sl t k fuel :
  Inv tr t → t ≠ Lf → depth t ≤ fuel →
  ∃ m mnd, anchor t k = Some m ∧ heap tr !! m = Some mnd
    ∧ ItemObjects.__getitem__ fuel k (mkOState tr sl)
      = (if Z.eqb k (_key (_element mnd))
         then match sl !! _value (_element mnd) with
              | Some v => Ok v
              | None => Raise Dangling
              end
         else Raise (KeyError k), mkOState tr sl).
Proof.
  intros HI Hne Hfuel. pose proof (inv_wf _ _ HI) as Hwf.
  destruct (anchor_Some t k Hne) as [m Ea].
  destruct (anchor_slot _ _ _ _ _ _ Hwf Ea) as (mnd & Em & _).
  exists m, mnd. split_and!; [done|done|].
  unfold ItemObjects.__getitem__.
  rewrite (obind_lift_ok _ _ _ _ _ _ (is_empty_eq tr)).
  rewrite (proj2 (Z.eqb_neq _ _) (inv_nonempty _ _ HI Hne)).
  rewrite (obind_lift_ok _ _ _ _ _ _ (root_inv tr _ HI)).
  rewrite (obind_lift_ok _ _ _ _ _ _ (search_ok _ _ k _ _ _ Hwf Hne Hfuel)).
  rewrite Ea. cbn [pos].
  rewrite (obind_lift_ok (_rebalance_access _) _ tr _ tt tr eq_refl).
  rewrite (obind_lift_ok _ _ _ _ _ _ (key_ok _ _ _ _ Em)).
  destruct (Z.eqb k (_key (_element mnd))); cbn [negb]; [|done].
  rewrite (obind_lift_ok _ _ _ _ _ _ (element_ok _ _ _ _ Em)).
  unfold ItemObjects.get_value. cbn [ItemObjects.slots].
  by destruct (sl !! _value (_element mnd)).
Qed.

Lemma lift_snd {A} (m : M A) tr sl :
  (lift m (mkOState tr sl)).2 = mkOState (m tr).2 sl.
Proof. unfold ItemObjects.lift. cbn. by destruct (m tr). Qed.

Lemma filter_snd_in {A B} (f : A * B → bool) (ps : list (A * B)) x :
  x ∈ map snd (List.filter f ps) → x ∈ map snd ps.
Proof.
  intros Hx. apply list_elem_of_fmap in Hx as (kv & -> & Hin).
  apply list_elem_of_In, List.filter_In in Hin as [Hin _].
  apply list_elem_of_fmap. exists kv. split; [done|by apply list_elem_of_In].
Qed.

(** A new item between the pairs before and the pairs after its key. *)
Lemma NoDup_snd_insert {A B} (f g : A * B → bool) (ps : list (A * B)) k c :
  (∀ x, f x = true → g x = false) →
  NoDup (map snd ps) → c ∉ map snd ps →
  NoDup (map snd (List.filter f ps ++ (k, c) :: List.filter g ps)).
Proof.
  intros Hfg Hnd Hc. rewrite map_app. cbn [map snd].
  induction ps as [|x ps IH]; cbn [List.filter map app].
  { apply NoDup_singleton. }
  cbn [map] in Hnd, Hc. apply NoDup_cons in Hnd as [Hx Hnd].
  apply not_elem_of_cons in Hc as [Hcx Hc].
  specialize (IH Hnd Hc).
  assert (Hout : x.2 ∉ map snd (List.filter f ps)
                         ++ c :: map snd (List.filter g ps)).
  { intros Hin. apply elem_of_app in Hin as [Hin|Hin].
    - by apply Hx, (filter_snd_in f).
    - apply elem_of_cons in Hin as [Heq|Hin]; [congruence|].
      by apply Hx, (filter_snd_in g). }
  destruct (f x) eqn:Ef.
  - rewrite (Hfg _ Ef). cbn [map app]. by apply NoDup_cons.
  - destruct (g x) eqn:Eg; [|done]. cbn [map].
    assert (Hperm : x.2 :: (map snd (List.filter f ps)
                            ++ c :: map snd (List.filter g ps))
                    ≡ₚ map snd (List.filter f ps)
                       ++ c :: x.2 :: map snd (List.filter g ps)).
    { rewrite (cons_middle c _ (x.2 :: _)), (cons_middle c), !app_assoc.
      apply Permutation_middle. }
    rewrite <- Hperm. by apply NoDup_cons.
Qed.

Lemma distinct_slots_sublist tr tr' sl (ps ps' : list (Z * slot)) :
  ps' `sublist_of` ps →
  ItemObjects.distinct_slots (mkOState tr sl) ps →
  ItemObjects.distinct_slots (mkOState tr' sl) ps'.
Proof.
  intros Hsub [Hnd Hin]. split.
  - eapply sublist_NoDup; [exact Hnd|]. by apply fmap_sublist.
  - intros kv Hkv. apply (Hin kv). by eapply elem_of_sublist.
Qed.

(** Every public operation keeps the tree invariant, and the items of the
    tree stay different objects. *)
Lemma obj_apply_op_keeps s t (o : ItemObjects.op W) :
  Inv (tree s) t → ItemObjects.distinct_slots s (pairs t) →
  ∃ t', Inv (tree (ItemObjects.apply_op o s).2) t'
        ∧ ItemObjects.distinct_slots (ItemObjects.apply_op o s).2 (pairs t').
Proof.
  destruct s as [tr sl]. cbn [ItemObjects.tree]. intros HI HJ.
  pose proof (enough_depth _ _ HI) as Hd.
  destruct o as [k v|k|p]; cbn [ItemObjects.apply_op ItemObjects.tree].
  - rewrite (obj_setitem_run tr sl t k v _ HI Hd). cbn [snd].
    set (c := fresh (dom sl)).
    assert (Hc : sl !! c = None) by apply not_elem_of_dom, is_fresh.
    assert (Hnew : setitem_result tr t = Ok tt →
              k ∉ keys t →
              Inv (setitem_state tr t k c) (setitem_tree tr t k c)
              ∧ ItemObjects.distinct_slots
                  (mkOState (setitem_state tr t k c) (<[c := v]> sl))
                  (pairs (setitem_tree tr t k c))).
    { intros Hres Hk. split; [by apply setitem_inv|].
      rewrite (pairs_setitem _ _ k c HI Hres). destruct HJ as [Hnd Hin]. split.
      - apply NoDup_snd_insert; [|done|].
        + intros x Hx. apply Z.ltb_lt in Hx. apply Z.ltb_ge. lia.
        + intros Hcin. apply list_elem_of_fmap in Hcin as (kv & Hkv & Hcin).
          destruct (Hin _ Hcin) as [w Hw]. cbn in Hw. congruence.
      - intros kv Hkv. cbn [ItemObjects.slots].
        apply lookup_insert_is_Some'.
        apply elem_of_app in Hkv as [Hkv|Hkv].
        + right. apply list_elem_of_In, List.filter_In in Hkv as [Hkv _].
          apply (Hin kv). by apply list_elem_of_In.
        + apply elem_of_cons in Hkv as [->|Hkv]; [by left|]. right.
          apply list_elem_of_In, List.filter_In in Hkv as [Hkv _].
          apply (Hin kv). by apply list_elem_of_In. }
    assert (Hsame : ∀ sl', (∀ kv, kv ∈ pairs t → is_Some (sl' !! kv.2)) →
              ItemObjects.distinct_slots (mkOState tr sl') (pairs t)).
    { intros sl' H. destruct HJ as [Hnd _]. by split. }
    destruct (Lf_or_not t) as [->|Hne].
    + cbn [anchor]. destruct (Z.eqb_spec (_size (self tr)) 0) as [Hs|Hs].
      * exists (setitem_tree tr Lf k c). apply Hnew.
        -- unfold setitem_result. by rewrite Hs.
        -- by intros ?%elem_of_nil.
      * exists Lf. split; [done|]. apply Hsame. by intros kv ?%elem_of_nil.
    + destruct (anchor_Some t k Hne) as [m Ea]. rewrite Ea.
      destruct (anchor_slot _ _ _ _ _ _ (inv_wf _ _ HI) Ea) as (mnd & Em & _).
      rewrite Em.
      destruct (Z.eqb_spec (_key (_element mnd)) k) as [Hk|Hk].
      * exists t. split; [done|]. apply Hsame. intros kv Hkv.
        apply lookup_insert_is_Some'. right. by apply (proj2 HJ).
      * exists (setitem_tree tr t k c). apply Hnew.
        -- by destruct t.
        -- by eapply anchor_missing.
  - rewrite lift_snd. cbn [ItemObjects.tree].
    destruct (decide (k ∈ keys t)) as [Hk|Hk].
    + destruct (delitem_in _ _ _ (enough tr) HI ltac:(lia) Hk)
        as (t' & m & mnd & s' & _ & _ & _ & -> & HI' & Hp & _).
      exists t'. split; [done|]. cbn [snd].
      eapply distinct_slots_sublist; [|exact HJ].
      rewrite Hp. apply filter_sublist.
    + rewrite (delitem_notin _ _ _ (enough tr) HI ltac:(lia) Hk). by exists t.
  - rewrite lift_snd. cbn [ItemObjects.tree].
    assert (Hsame : (delete (enough tr) p tr).2 = tr →
              ∃ t', Inv (delete (enough tr) p tr).2 t'
                    ∧ ItemObjects.distinct_slots
                        (mkOState (delete (enough tr) p tr).2 sl) (pairs t')).
    { intros ->. by exists t. }
    destruct p as [[i n]|]; [|by apply Hsame, (delete_out tr t None _ HI)].
    destruct (decide (i = ident (self tr) ∧ n ∈ nodes t)) as [[-> Hn]|Hout].
    + destruct (delete_in _ _ _ (enough tr) HI Hn ltac:(lia))
        as (t' & HI' & Hsub).
      exists t'. split; [done|].
      eapply distinct_slots_sublist; [|exact HJ]. by apply fmap_sublist.
    + apply Hsame, (delete_out tr t _ _ HI).
      intros x [= -> ->] Hx. by apply Hout.
Qed.

Lemma obj_reachable_inv s :
  ItemObjects.reachable s →
  ∃ t, Inv (tree s) t ∧ ItemObjects.distinct_slots s (pairs t).
Proof.
  intros (i & c & ops & ->).
  assert (H0 : ∃ t, Inv (tree (ItemObjects.init (W:=W) i c)) t
                    ∧ ItemObjects.distinct_slots
                        (ItemObjects.init (W:=W) i c) (pairs t)).
  { exists Lf. split; [apply init_inv|]. split; [constructor|].
    by intros kv ?%elem_of_nil. }
  revert H0. generalize (ItemObjects.init (W:=W) i c).
  induction ops as [|o ops IH]; intros s H0; [done|].
  cbn [ItemObjects.apply_ops fold_left]. apply IH.
  destruct H0 as (t & HI & HJ). by apply (obj_apply_op_keeps s t o).
Qed.

(** C8: in a map that holds key [k], [t[k] = v] returns normally and
    reassigns the value slot of the item that the node of key [k] holds;
    nothing else changes: the tree object (root, size), every node of the
    store with its links, its balance slot and the item it references, and
    every other value slot are as before.  Afterwards [t[k]] returns [v],
    and the lookup of any other key gives what it gave before. *)
Theorem setitem_existing_key (s : OState) (k : Z) (v : W) (fuel : nat) :
  ItemObjects.reachable s →
  k ∈ (inorder_keys (enough (tree s)) (tree s)).1.1 →
  enough (tree s) ≤ fuel →
  ∃ n nd,
    mkp (ident (self (tree s))) n
      ∈ (inorder (enough (tree s)) (tree s)).1.1
    ∧ heap (tree s) !! n = Some nd ∧ _key (_element nd) = k
    ∧ ItemObjects.__setitem__ fuel k v s
      = (Ok tt, mkOState (tree s) (<[_value (_element nd) := v]> (slots s)))
    ∧ ItemObjects.__getitem__ fuel k
        (mkOState (tree s) (<[_value (_element nd) := v]> (slots s)))
      = (Ok v, mkOState (tree s) (<[_value (_element nd) := v]> (slots s)))
    ∧ ∀ k', k' ≠ k →
        (ItemObjects.__getitem__ fuel k'
           (mkOState (tree s) (<[_value (_element nd) := v]> (slots s)))).1
        = (ItemObjects.__getitem__ fuel k' s).1.
Proof.
  intros Hreach Hk Hfuel.
  destruct (obj_reachable_inv _ Hreach) as (t & HI & Hnd & Hin).
  destruct s as [tr sl]. cbn [ItemObjects.tree ItemObjects.slots] in *.
  pose proof (enough_depth _ _ HI) as Hd.
  destruct (inorder_keys_inv _ _ (enough tr) HI ltac:(lia)) as (r & Hr & _).
  rewrite Hr in Hk. cbn in Hk.
  assert (Hne : t ≠ Lf) by (intros ->; by apply elem_of_nil in Hk).
  destruct (anchor_found _ _ _ _ _ (inv_rep _ _ HI) (inv_bst _ _ HI) Hk)
    as (m & mnd & Ha & Em & Hkey).
  exists m, mnd. split_and!; [|done|done| | |].
  - rewrite (inorder_inv _ _ (enough tr) HI ltac:(lia)).
    apply list_elem_of_fmap. exists m. split; [done|by eapply anchor_in].
  - rewrite (obj_setitem_run tr sl t k v fuel HI ltac:(lia)).
    unfold setitem_result. rewrite Ha, Em, Hkey, Z.eqb_refl. by destruct t.
  - destruct (obj_getitem_run tr (<[_value (_element mnd) := v]> sl) t k fuel
                HI Hne ltac:(lia)) as (m' & mnd' & Ha' & Em' & ->).
    rewrite Ha in Ha'. injection Ha' as <-. rewrite Em in Em'.
    injection Em' as <-. by rewrite Hkey, Z.eqb_refl, lookup_insert_eq.
  - intros k' Hk'.
    destruct (obj_getitem_run tr (<[_value (_element mnd) := v]> sl) t k' fuel
                HI Hne ltac:(lia)) as (m' & mnd' & Ha' & Em' & ->).
    destruct (obj_getitem_run tr sl t k' fuel HI Hne ltac:(lia))
      as (m2 & mnd2 & Ha2 & Em2 & ->).
    rewrite Ha' in Ha2. injection Ha2 as <-. rewrite Em' in Em2.
    injection Em2 as <-. cbn [fst].
    destruct (Z.eqb_spec k' (_key (_element mnd'))) as [Hk2|Hk2]; [|done].
    rewrite lookup_insert_ne; [done|]. intros Heq.
    pose proof (anchor_pair _ _ _ _ _ HI Ha Em) as H1.
    pose proof (anchor_pair _ _ _ _ _ HI Ha' Em') as H2.
    apply list_elem_of_lookup in H1 as [i Hi], H2 as [j Hj].
    assert (i = j) as ->.
    { eapply NoDup_lookup; [exact Hnd| |].
      - by rewrite list_lookup_fmap, Hi.
      - rewrite list_lookup_fmap, Hj. cbn. by rewrite Heq. }
    rewrite Hi in Hj. injection Hj as Hj _. congruence.
Qed.

End ItemObjectProperties.

(** C8, at a concrete input: [t[7] = "new"] in scenario A after
    [del t[10]]. *)
Lemma setitem_existing_key_witness :
  ItemObjects.reachable scenario_A_del10
  ∧ 7%Z ∈ (inorder_keys (enough (ItemObjects.tree scenario_A_del10))
             (ItemObjects.tree scenario_A_del10)).1.1
  ∧ enough (ItemObjects.tree scenario_A_del10)
    ≤ enough (ItemObjects.tree scenario_A_del10)
  ∧ ∃ n nd,
      mkp (ident (self (ItemObjects.tree scenario_A_del10))) n
        ∈ (inorder (enough (ItemObjects.tree scenario_A_del10))
             (ItemObjects.tree scenario_A_del10)).1.1
      ∧ heap (ItemObjects.tree scenario_A_del10) !! n = Some nd
      ∧ _key (_element nd) = 7%Z
      ∧ ItemObjects.__setitem__
          (enough (ItemObjects.tree scenario_A_del10)) 7 "new"
          scenario_A_del10
        = (Ok tt,
           ItemObjects.mkOState (ItemObjects.tree scenario_A_del10)
             (<[_value (_element nd) := "new"]>
                (ItemObjects.slots scenario_A_del10)))
      ∧ ItemObjects.__getitem__
          (enough (ItemObjects.tree scenario_A_del10)) 7
          (ItemObjects.mkOState (ItemObjects.tree scenario_A_del10)
             (<[_value (_element nd) := "new"]>
                (ItemObjects.slots scenario_A_del10)))
        = (Ok "new",
           ItemObjects.mkOState (ItemObjects.tree scenario_A_del10)
             (<[_value (_element nd) := "new"]>
                (ItemObjects.slots scenario_A_del10)))
      ∧ ∀ k', k' ≠ 7%Z →
          (ItemObjects.__getitem__
             (enough (ItemObjects.tree scenario_A_del10)) k'
             (ItemObjects.mkOState (ItemObjects.tree scenario_A_del10)
                (<[_value (_element nd) := "new"]>
                   (ItemObjects.slots scenario_A_del10)))).1
          = (ItemObjects.__getitem__
               (enough (ItemObjects.tree scenario_A_del10)) k'
               scenario_A_del10).1.
Proof.
  assert (H1 : ItemObjects.reachable scenario_A_del10).
  { exists 0, TreeMapC,
      (map (λ k, ItemObjects.SetItem k hi) [10; 5; 15; 2; 7; 12; 18]%Z
       ++ [ItemObjects.DelItem 10]).
    reflexivity. }
  assert (H2 : 7%Z ∈ (inorder_keys (enough (ItemObjects.tree scenario_A_del10))
                        (ItemObjects.tree scenario_A_del10)).1.1).
  { vm_compute. repeat constructor. }
  assert (H3 : enough (ItemObjects.tree scenario_A_del10)
               ≤ enough (ItemObjects.tree scenario_A_del10)) by lia.
  split_and!; [exact H1|exact H2|exact H3|].
  exact (setitem_existing_key scenario_A_del10 7 "new" _ H1 H2 H3).
Defined.

(** In that state the root, node 0, holds the item of key 7 that the
    deprecated node 4 still references: after [t[7] = "new"] the new value
    is read through either node. *)
Lemma deprecated_node_shares_item :
  let s' := (ItemObjects.__setitem__
               (enough (ItemObjects.tree scenario_A_del10)) 7 "new"
               scenario_A_del10).2 in
  _root (self (ItemObjects.tree s')) = Some 0
  ∧ _parent <$> heap (ItemObjects.tree s') !! 4 = Some (Some 4)
  ∧ _key ∘ _element <$> heap (ItemObjects.tree s') !! 0 = Some 7%Z
  ∧ _element <$> heap (ItemObjects.tree s') !! 4
    = _element <$> heap (ItemObjects.tree s') !! 0
  ∧ (heap (ItemObjects.tree s') !! 0
     ≫= λ nd, ItemObjects.slots s' !! _value (_element nd)) = Some "new"
  ∧ (heap (ItemObjects.tree s') !! 4
     ≫= λ nd, ItemObjects.slots s' !! _value (_element nd)) = Some "new".
Proof. by vm_compute. Qed.
